(* ===== verification/_CoqProject ===== *)
-Q . S2P
Prelude.v
Wire.v
Yar.v
Packager.v
Transport.v
Client.v
Peer.v
Interleave.v
Isolation.v
Serial.v
Utf8.v
Json.v
HostSync.v
HostSyncRun.v
Expiry.v
