(* ===== verification/Prelude.v ===== *)
(** * Verification of the yar.go RPC client

    The repository is a Go client for the yar binary RPC protocol
    ([src/client/client.go]) together with a host discovery package
    ([src/unnamed/part_000], package [host_sync]).  A call builds a request
    envelope, encodes it with a named codec, frames it behind a fixed-width
    binary header, posts it over HTTP (optionally gzip-compressed and through a
    DNS-cache-aware dialer), parses the reply and decodes the return value into
    the caller's target.  Every failure is reported as one error of five kinds.
    The discovery package reads the running containers from the Docker API,
    groups their hosts by pool and service, and publishes each list to Redis
    when its digest has changed.

    ** Files, in dependency order

    - [Prelude] (this file): the [go] monad that makes Go run-time panics
      explicit (index and slice expressions out of range), Go's index and
      slice operations on lists, the conversion between Go [string] and
      [[]byte], the tactics and the hint database [yar] shared by all files.
    - [Wire]: unsigned 32-bit integers as [Z] with wrap-around, their
      big-endian byte encoding, and [StrToFixedBytes] (pad or truncate to a
      fixed width).
    - [Yar]: the data of package [yar] that the client uses: error kinds and
      [Error], [Opt], [Header] with [Bytes] and [Init], [Request],
      [Response].  That package is not under src/; these definitions follow
      the specification's tables (sections 3 and 6) and are marked as such in
      the manifest.
    - [Packager]: the codec contract of package [packager] as the type
      class [Codec] ([Pack]/[Unpack] at the four types the client uses), its
      laws as the class [CodecLaws], and a reference codec [RefCodec] that
      satisfies them.
    - [Transport]: the two process-wide HTTP handles created by [init], the
      dial function of the DNS-cache handle, HTTP requests and responses, the
      compressor contract [Gzip], the network [Net], and the world state
      (handles and the log of exchanges) that a call threads.
    - [Client]: [NewClient], [Client.init], [Call], [initRequest],
      [packRequest], [readResponse], [httpHandler], [sockHandler], one
      definition per function of [src/client/client.go], composed as the code
      composes them; then the abstract specification of the envelope and the
      theorems.
    - [Peer]: a reference server for the reference codec and the theorem that
      [Call] against it is a remote procedure call.
    - [Interleave]: calls that share a handle.  A call is split at its two
      accesses to the shared handle into the actions [arm] (everything up to
      and including the write of the timeout, line 235) and [post] (the
      exchange of line 276 and the reading of the reply); the relation [step]
      lets the calls of a pool perform their actions in any order.
    - [Isolation]: calls that agree on the timeout of every handle.  The
      invariant [isolated] of a pool of such calls, kept by every step.
    - [Serial]: the calls of [Call] one after the other ([in_turn]), and the
      invariant [serial] that relates a pool to such a run.
    - [Utf8]: well-formed UTF-8 ([valid_utf8], the [utf8.Valid] of the Go
      library), which is what a string has to be for the JSON encoder to
      keep it as it is, and the sequences of a byte string as
      [utf8.DecodeRune] finds them ([runes]).
    - [Json]: module [encoding_json], the library functions that package
      [host_sync] calls: [json.Marshal] of a [[]string] and of the filters,
      the scanner of the library as a step function, the decoder that reads
      a text into a [document] ([Parse]), the store of a document into a
      [[]string] with its partial results and its type errors
      ([Unmarshal]), the text of a document ([Encode]) and
      [url.QueryEscape].  The store of a document into the containers, a
      [[]map[string]interface{}], is [host_sync.UnmarshalMaps] in
      [HostSync].
    - [HostSync]: module [host_sync], one definition per function of
      [src/unnamed/part_000] ([SetDockerAPI], [SetRedisHost],
      [GetHostListFromDockerAPI], [GetHostListFromRedis],
      [SetHostListToRedis], [SyncAllHostList]) and per loop body
      ([append_host], [group_item], [publish_service], [publish_pool]);
      [RefEnv.written] is the answer of a Docker API that has given
      containers.
    - [HostSyncRun]: the package over time.  [rounds] is the periodic
      synchronisation, each round against the containers of its time
      ([with_registry]); [Event], [fire] and [run] are the package as a
      state machine, one event per exported function and per change of the
      environment (the containers change, the server fails and recovers,
      time passes); [write] is the relation of the primitive writes.
    - [Expiry]: the checksum gate and the expiry of the keys.  [round_at]
      is a synchronisation some time after the one before, [track_at]
      the gate on one pool and service with a clock, and [round_at_body]
      the synchronisation in front of the bytes of the answer.

    ** How the model corresponds to the code

    - A Go [string] is a Rocq [string] (a sequence of bytes; [String.length]
      is Go's [len]); a [[]byte] is a [list byte]; [[]byte(s)] and
      [string(b)] are [bytes_of_string] and [string_of_bytes].
    - A [uint32] is a [Z] kept in [[0, 2^32)] by [u32]; Go's [int] is [Z]
      (64-bit overflow of lengths is out of reach of lists that fit in
      memory and is not modelled).
    - A function that returns [(T, *yar.Error)] returns [Error + T]; a
      function that returns [*yar.Error] returns [option Error] ([None] is
      [nil]).  A run-time panic is the [Panic] outcome of the [go] monad, so
      that "this loop never indexes out of range" is a theorem and not an
      assumption.
    - The correlation id that [yar.NewRequest] draws is a parameter of
      [initRequest], [httpHandler] and [Call].
    - The codec, the compressor, the resolver, the network, the Docker API and
      JSON are the environment: they are type classes ([Codec], [Gzip],
      [Net], [host_sync.Env]) with their laws in classes of their own
      ([CodecLaws], [GzipLaws], [host_sync.EnvLaws]), and each has an
      executable instance ([RefCodec], [RefGzip], [RefNet], [RefEnv]) so that
      every theorem is applied to a closed input.  The codec, the
      compressor and the network of the client are stand-ins.  The
      instance [RefEnv] of package [host_sync] encodes and decodes as the
      Go library does ([Json]); its Docker API is a function from the URL
      to the bytes of the answer.
    - [GetHostListFromRedis] returns the list and the error together, as
      line 141 does: [json.Unmarshal] can leave a list in its target and
      return an error.
    - The shared HTTP handles are explicit state ([Transport.World]);
      [httpHandler] takes a world and returns the new one, including the
      write to [ReadTimeout] that the code performs on the shared handle.
      The closure assigned to [Dial] is represented by its name
      ([DialFunc]) and interpreted by [dialer].
    - The package variables of [host_sync] and the content of the Redis
      server are the fields of [host_sync.World].  The order in which Go
      visits a map is the parameter [range], of which the theorems assume
      only that it is a permutation of the map.
    - The server holds every value with the time it has left to live, the
      [expiration] of [redis_Set]; [HostSyncRun.elapse] lets time pass and
      removes the keys whose time is up.  Durations are nanoseconds, as
      [time.Duration] is.
    - The numbers of a decoded JSON document are the integers among the
      [float64]; [host_sync.Sprint] prints them as [fmt.Sprint] prints a
      [float64], in decimal below a million and with an exponent above.
    - The strings of a decoded JSON document are well-formed UTF-8, because
      [json.Unmarshal] replaces what is not, and a decoded map holds every
      key once: a list of containers that the Docker API answered is
      [host_sync.decoded], which is proved of the decoder
      ([host_sync.UnmarshalMaps_decoded]).  The JSON encoder keeps
      well-formed strings only, so [host_sync.EnvLaws] promises that a list
      decodes to itself for such strings and for no others.  Where a
      theorem compares digests or reads a list back, it takes the
      containers to be decoded ([HostSyncRun.within] includes it), and the
      lists the package has recorded are lists of well-formed hosts (the
      third part of [HostSyncRun.tracks] and [Expiry.holds]).

    ** What the theorems show

    - [Wire]: the big-endian encoding has the declared width and decodes
      back; [StrToFixedBytes] always has exactly the requested width.
    - [Yar]: [Bytes] always produces the fixed header width and [Init]
      inverts it on well-formed headers.
    - [Packager]: the reference codec decodes what it encodes, for values,
      requests and responses.
    - [Transport]: the dial function of the DNS-cache handle dials the first
      address resolved on the original port, reports an empty or failed
      resolution as an error, and panics on an address without a colon.
    - [Client]: [initRequest] fails exactly on the empty method and never
      panics; the provider and credential fields are always 28 and 32 bytes;
      [packRequest] never panics and writes a codec name of exactly 8 bytes;
      the body length written in the header is the encoded length plus the
      codec field width (with the 32-bit wrap made explicit);
      [readResponse] rejects short and truncated payloads, turns a peer
      error status into a Response error without touching the target, and
      on success stores the value recovered by the two-stage decode; [Call]
      on a non-HTTP scheme and on an empty method sends nothing; a call
      performs at most one exchange; the kind of an error tells how far the
      call got; there is no partial success; in a world made by [init] a call
      does not panic; a call is type safe, it stores only values of the
      shape of the caller's target and only on success
      ([Call_stored_fits]).  The theorems on [httpHandler] and [Call] follow from
      two lemmas, [httpHandler_unfold] (the function without its loops) and
      [httpHandler_world] (how far a call got, read off the world).
    - [Peer]: against a peer that serves a function with the same framing,
      [Call] returns the value the function computes ([Call_serves]); with a
      codec name longer than 8 bytes the request and the reply select
      different codecs and every call fails ([Call_long_codec_name]).
    - [Interleave]: the two actions in a row are [Call]; a call that
      returns is a run of the pool ([Call_steps]) and a complete run of a
      pool of one call is [Call] ([steps_Call]); a run of [n] calls has at
      most [2 * n] steps ([runs_bounded]), no interleaving leads to a panic
      ([pool_never_stuck]) and the pool can always be run until every call
      has returned ([pool_completes]); by induction on the steps,
      calls that agree on the timeout only perform exchanges under that
      timeout, however they interleave ([uniform_timeouts]); when they do not
      agree, a call whose write is overtaken performs its exchange under the
      read timeout of the other call ([read_timeout_race]).
    - [Isolation]: in a pool whose calls agree on the timeout of every
      handle, every call returns what it returns when it runs alone,
      whatever the interleaving ([agreed_isolated]), so that the results do
      not depend on the interleaving ([agreed_deterministic]).
    - [Serial]: a pool whose calls agree on the timeout of every handle is
      serialisable: when all calls have returned, the handles and the
      exchanges are those of the calls run one after the other, in the
      order of their exchanges ([agreed_serialisable]); in such a run every
      exchange is performed under the timeout of its own call
      ([in_turn_own_timeouts]), which the race does not respect.
    - [Utf8]: validity is kept by concatenation ([valid_utf8_app]); ASCII
      text, the digits of a number among it, is valid; the encoding of every
      scalar value is valid ([EncodeRune_valid]).
    - [Json]: what was encoded is decoded, without an error, to the list
      it was when its strings are well-formed UTF-8
      ([encoding_json.Unmarshal_Marshal], by way of [unquote_escape] for
      one string and of [decode_content] for the scanner inside a literal);
      what the encoder writes is well-formed UTF-8 whatever it is given
      ([Marshal_valid]); lists with ill-formed strings can share an
      encoding ([Marshal_conflates]); whatever the bytes of the input,
      the strings and keys of the document that is read are well-formed
      UTF-8 ([unquote_valid], [Parse_well_formed]); and the text of a
      document, written without spaces, is read as that document, for
      every document with number literals, well-formed strings and a
      nesting of at most 10000 ([Parse_Encode], by induction on the
      document with the statement [reads] for every stack of the decoder
      and every byte that follows the value).  Examples show the decoder
      on documents the package did not write.
    - [HostSync]: the loops that collect and group the hosts compute what the
      specification [grouped] says; the containers that are decoded from
      the answer of the Docker API are decoded documents, whatever the
      bytes of the answer ([UnmarshalMaps_decoded]), and from these bytes
      to the list a reader is given the synchronisation is followed with
      the library's JSON on both sides ([SyncAllHostList_reads_body]);
      the text of the containers of a Docker API is read as these
      containers, when their numbers are integers of at most [2^53]
      ([containers_read_back], with the digits of [pretty] read back by
      [integer_pretty]), so a server that writes containers answers them
      ([answers_written]); with the library's JSON what
      [SetHostListToRedis] stored is read back ([stored_list_read_back]);
      what [fmt.Sprint] prints of a decoded
      value is well-formed UTF-8 ([Sprint_valid]), and so are the hosts of
      decoded containers ([host_of_valid], [grouped_valid]); what [SetHostListToRedis] stores and
      what a synchronisation publishes, [GetHostListFromRedis] reads back
      ([SyncAllHostList_publishes]); a synchronisation stores a list
      exactly when its digest differs from the recorded one and is
      idempotent; a list that could not be stored is never stored later; a
      list whose containers have gone is never withdrawn
      ([SyncAllHostList_keeps_vanished]); the host of a container is
      [ip:port] with the port in decimal ([host_of_port]); two pool and
      service pairs may share a checksum key; without such a
      collision the result does not depend on the order in which the maps
      are visited ([SyncAllHostList_order_independent], for any order
      [with_range] puts in place of that of the environment), with one the
      order decides which digest is recorded ([publish_entry_order]).  The
      nested loops are related to the publication of a flat list of entries
      up to the log ([≡] on worlds, with [Proper] instances), and the
      theorems are proved on the flat list.

    - [HostSyncRun]: the periodic synchronisation refines the checksum
      gate [track] on each pool and service, whether the server answers or
      fails ([rounds_track]), so a list that could not be stored stays
      unstored while the containers are the same ([rounds_stale]); with a
      server that answers, after any number of rounds a reader finds the
      hosts of the last round in which the pool and service had any
      ([rounds_reader]; over the bytes the Docker API answered, with the
      library's JSON, [bodies_reader]; in front of a Docker API that writes
      its containers the rounds over the bytes are the rounds over the
      containers, [rounds_written]), and a pool and service that never
      had hosts are left alone ([rounds_untouched]).  Every event is a sequence of
      primitive writes ([fire_writes]); the invariants are shown for the
      writes and hold in every state the package reaches: the server holds
      only what it held at the start and what the package wrote
      ([run_stored_by_package]), every digest recorded is that of a host
      list that is not empty ([run_digests_of_lists]), and the clients
      created are closed, all but the one in use ([run_clients]).
    - [Expiry]: the periodic synchronisation refines the gate with a clock
      ([rounds_at_track]).  A list that does not change is stored once: a
      reader finds it for seven days ([stable_list_kept]) and nothing after
      that, although the containers are there and the package keeps
      synchronising ([stable_list_expires]); a change of the hosts brings
      the list back ([changed_list_returns]).  The rounds in front of the
      bytes of a Docker API that writes its containers are these rounds
      ([rounds_at_written]), and the list expires there as well
      ([written_list_expires]).

    ** Bounds and fuel

    Every loop of the modelled code is a bounded [for] over a slice, an array
    or a map and is structural recursion here.  The only fuel is in the
    decoder of the reference codec ([RefCodec.dec_value], fuel for the
    nesting depth): [decode_value] gives it the length of the input plus one,
    which [RefCodecFacts.depth_le_length] shows to be enough for every
    encoded value.  The JSON decoder of [Json] needs none: it is, as in the
    library, a machine that takes one byte at a time and keeps a stack, and
    it refuses a nesting deeper than 10000 as the library does, which is
    why the round trip [Parse_Encode] is stated for documents of at most
    that depth.  The
    sequences of a byte string ([Utf8.runes]) are structural recursion on
    the bytes, one to four at a time.

    ** Not modelled

    TLS configuration and connection reuse of fasthttp and net/http, real
    gzip and the real codecs of the client (their contracts are classes,
    with stand-in instances), wall-clock timeouts (a timeout is an error value
    returned by the network parameter), the socket transport (the client
    rejects it), the server of the repository, JSON numbers that are not
    integers or exceed [2^53] (the decoder of the containers gives no
    result for a body that holds any), keys of the Redis server that never
    expire.  Of concurrency the model has the interleaving of calls at
    their two accesses to the shared handle, under sequential consistency;
    data races inside fasthttp and the memory model of Go are not modelled.
    The program that calls package [host_sync] is not part of the sources:
    [HostSyncRun] lets it call the exported functions in any order and
    lets any time pass between the calls, and says nothing of when it
    calls.  The theorems about the package over time ([HostSyncRun],
    [Expiry]) are stated over the containers of each round and take them
    to be decoded documents; [HostSync] shows that the containers decoded
    from a body are, and [HostSyncRun.bodies_reader] is the theorem of the
    reader over the bytes that were answered.  Of package [encoding/json] the text of the decoder's
    syntax errors is not modelled, and releases of Go differ in how they
    write a backspace and a form feed; [Json] says which is modelled.

    ** What is left open

    The rest of the sources is modelled as far as it can be from the
    sources alone: what remains is code of other packages.  Numbers with
    a fraction or an exponent would need [float64] and the shortest digits
    of [strconv]; the package reads ports, which are integers.  The JSON
    and msgpack codecs of the client and the server of the repository are
    not under [src/]; the client is verified against the contract of a
    codec ([Codec]) and the stand-in [RefCodec].  The events of the state
    machine of [HostSyncRun] change the containers and not the bytes of
    the answer; [HostSyncRun.rounds_written] and
    [Expiry.rounds_at_written] carry the theorems on rounds to the bytes,
    and the same step would carry the invariants of the machine. *)

From stdpp Require Export base list strings.
From Stdlib Require Export ZArith Lia.
From Stdlib Require Export Strings.Byte.

#[global] Open Scope Z_scope.

(** ** Bytes and strings *)

#[export] Instance byte_eq_dec : EqDecision byte := Byte.byte_eq_dec.

Definition bytes_of_string (s : string) : list byte :=
  String.list_byte_of_string s.

Definition string_of_bytes (b : list byte) : string :=
  String.string_of_list_byte b.

(** Go's [len] on a string or a slice, as an [int]. *)
Definition len {A} (l : list A) : Z := Z.of_nat (length l).
Definition slen (s : string) : Z := Z.of_nat (String.length s).

(** ** The [go] monad: a result or a run-time panic *)

Inductive go (A : Type) : Type :=
| Done (a : A)
| Panic (why : string).
Arguments Done {A} a.
Arguments Panic {A} why.

#[export] Instance go_ret : MRet go := λ A a, Done a.

#[export] Instance go_bind : MBind go := λ A B f m,
  match m with
  | Done a => f a
  | Panic w => Panic w
  end.

#[export] Instance go_fmap : FMap go := λ A B f m,
  match m with
  | Done a => Done (f a)
  | Panic w => Panic w
  end.

Definition no_panic {A} (m : go A) : bool :=
  match m with
  | Done _ => true
  | Panic _ => false
  end.

(** ** Go's index and slice expressions *)

Definition index_out_of_range : string := "index out of range".
Definition slice_out_of_range : string := "slice bounds out of range".

(** [l[i]] *)
Definition go_index {A} (l : list A) (i : Z) : go A :=
  if decide (0 <= i) then
    match l !! Z.to_nat i with
    | Some a => Done a
    | None => Panic index_out_of_range
    end
  else Panic index_out_of_range.

(** [l[lo:hi]] *)
Definition go_slice {A} (l : list A) (lo hi : Z) : go (list A) :=
  if decide (0 <= lo ∧ lo <= hi ∧ hi <= len l)
  then Done (take (Z.to_nat (hi - lo)) (drop (Z.to_nat lo) l))
  else Panic slice_out_of_range.

(** [l[:hi]] and [l[lo:]] *)
Definition go_slice_to {A} (l : list A) (hi : Z) : go (list A) :=
  go_slice l 0 hi.
Definition go_slice_from {A} (l : list A) (lo : Z) : go (list A) :=
  go_slice l lo (len l).

(** [l[i] = x] on an array or a slice *)
Definition go_store {A} (l : list A) (i : Z) (x : A) : go (list A) :=
  if decide (0 <= i < len l) then Done (<[Z.to_nat i := x]> l)
  else Panic index_out_of_range.

(** The same on strings: [s[lo:hi]]. *)
Definition go_substr (s : string) (lo hi : Z) : go string :=
  string_of_bytes <$> go_slice (bytes_of_string s) lo hi.

(** ** Automation *)

Create HintDb yar discriminated.
Create Rewrite HintDb yar.

(** [go_simpl] unfolds the monad operations of [go] where they are applied to
    constructors. *)
Ltac go_simpl :=
  repeat (progress (cbn [mbind mret fmap go_bind go_ret go_fmap no_panic] in *)).

(** [by_compute] proves a decidable proposition about closed terms by
    evaluating its decision procedure. *)
Ltac by_compute := apply (bool_decide_unpack _); vm_compute; exact I.

(** [case_go] performs the case analysis on the first [go] computation that
    is scrutinised in the goal. *)
Ltac case_go :=
  match goal with
  | |- context [go_bind _ _ _ ?m] =>
      let E := fresh "E" in destruct m eqn:E; go_simpl
  | |- context [@mbind go _ _ _ _ ?m] =>
      let E := fresh "E" in destruct m eqn:E; go_simpl
  end.

(** ** Lemmas on the monad *)

Section go_monad.
Context {A B : Type}.
Implicit Types (m : go A) (f : A → go B).

Lemma go_bind_Done a f : (Done a ≫= f) = f a.
Proof. done. Qed.

Lemma go_bind_Panic w f : (Panic w ≫= f) = Panic w.
Proof. done. Qed.

Lemma go_bind_inv m f b :
  m ≫= f = Done b → ∃ a, m = Done a ∧ f a = Done b.
Proof. destruct m as [a|w]; [by exists a | done]. Qed.

Lemma go_bind_no_panic m f :
  no_panic m = true → (∀ a, no_panic (f a) = true) → no_panic (m ≫= f) = true.
Proof. destruct m as [a|w]; [by intros _ Hf; apply Hf | done]. Qed.

Lemma go_fmap_Done (g : A → B) a : g <$> Done a = Done (g a).
Proof. done. Qed.

End go_monad.

(** ** Lemmas on lengths, indexing and slicing *)

Section slices.
Context {A : Type}.
Implicit Types (l k : list A) (i lo hi : Z).

Lemma len_nonneg l : 0 <= len l.
Proof. unfold len; lia. Qed.

Lemma len_app l k : len (l ++ k) = len l + len k.
Proof. unfold len; rewrite length_app; lia. Qed.

Lemma len_nil : len (@nil A) = 0.
Proof. done. Qed.

Lemma len_cons a l : len (a :: l) = 1 + len l.
Proof. unfold len; cbn [length]; lia. Qed.

Lemma go_index_Done l i a :
  go_index l i = Done a ↔ 0 <= i ∧ l !! Z.to_nat i = Some a.
Proof.
  unfold go_index. case_decide; [|split; [done | intros []; lia]].
  destruct (l !! Z.to_nat i) eqn:E; split; try done.
  - by intros [= ->].
  - by intros [_ [= ->]].
  - by intros [_ ?].
Qed.

Lemma go_index_in_range l i :
  0 <= i < len l → ∃ a, go_index l i = Done a.
Proof.
  intros Hi. unfold go_index. rewrite decide_True by lia.
  destruct (lookup_lt_is_Some_2 l (Z.to_nat i)) as [a ->]; [unfold len in Hi; lia|].
  by exists a.
Qed.

Lemma go_index_out l i :
  ¬ (0 <= i < len l) → go_index l i = Panic index_out_of_range.
Proof.
  intros Hi. unfold go_index. case_decide; [|done].
  rewrite lookup_ge_None_2; [done | unfold len in Hi; lia].
Qed.

Lemma go_slice_Done l lo hi :
  0 <= lo → lo <= hi → hi <= len l →
  go_slice l lo hi = Done (take (Z.to_nat (hi - lo)) (drop (Z.to_nat lo) l)).
Proof. intros. unfold go_slice. by rewrite decide_True. Qed.

Lemma go_slice_Panic l lo hi :
  ¬ (0 <= lo ∧ lo <= hi ∧ hi <= len l) →
  go_slice l lo hi = Panic slice_out_of_range.
Proof. intros. unfold go_slice. by rewrite decide_False. Qed.

Lemma go_slice_to_Done l hi :
  0 <= hi <= len l → go_slice_to l hi = Done (take (Z.to_nat hi) l).
Proof.
  intros. unfold go_slice_to. rewrite go_slice_Done by lia.
  by rewrite Z.sub_0_r, drop_0.
Qed.

Lemma go_slice_from_Done l lo :
  0 <= lo <= len l → go_slice_from l lo = Done (drop (Z.to_nat lo) l).
Proof.
  intros. unfold go_slice_from. rewrite go_slice_Done by lia.
  f_equal. apply take_ge. rewrite length_drop. unfold len in *. lia.
Qed.

Lemma go_store_Done l i x :
  0 <= i < len l → go_store l i x = Done (<[Z.to_nat i := x]> l).
Proof. intros. unfold go_store. by rewrite decide_True. Qed.

End slices.

#[export] Hint Rewrite @len_app @len_nil @len_cons : yar.
#[export] Hint Rewrite @length_app @length_take @length_drop
  @length_replicate @length_resize : yar.
#[export] Hint Resolve len_nonneg : yar.

(** ** Induction on the length of a list *)

Lemma length_ind {A} (P : list A → Prop) :
  (∀ l, (∀ l', (length l' < length l)%nat → P l') → P l) → ∀ l, P l.
Proof.
  intros Hstep l. remember (length l) as n eqn:Hn. revert l Hn.
  induction (lt_wf n) as [n _ IH]. intros l ->.
  apply Hstep. intros l' Hlt. by apply (IH _ Hlt).
Qed.

(** ** Predicates on all elements of a list *)

Lemma forallb_Forall {A} (f : A → bool) l :
  forallb f l = true ↔ Forall (λ x, f x = true) l.
Proof.
  induction l as [|x l IH]; cbn; [by split|].
  by rewrite andb_true_iff, Forall_cons, IH.
Qed.

Lemma Forall_mp {A} (P Q : A → Prop) l :
  Forall P l → Forall (λ x, P x → Q x) l → Forall Q l.
Proof. induction 1; inversion 1; constructor; auto. Qed.

Lemma omap_Forall {A B} (P : A → Prop) (Q : B → Prop) (f : A → option B) l :
  (∀ x y, P x → f x = Some y → Q y) → Forall P l → Forall Q (omap f l).
Proof.
  intros Hf. induction 1 as [|x l Hx _ IH]; [constructor|]. cbn.
  destruct (f x) eqn:Hfx; [constructor; eauto|done].
Qed.

(** The strings of a list, converted to bytes and back. *)
Lemma string_of_bytes_of_strings (l : list string) :
  string_of_bytes <$> (bytes_of_string <$> l) = l.
Proof.
  induction l as [|s l IH]; [done|]. rewrite !fmap_cons, IH.
  f_equal. apply String.string_of_list_byte_of_string.
Qed.

(** ** Strings and bytes *)

Lemma bytes_of_string_String a s :
  bytes_of_string (String a s) = Ascii.byte_of_ascii a :: bytes_of_string s.
Proof. done. Qed.

Lemma string_of_bytes_of_string s : string_of_bytes (bytes_of_string s) = s.
Proof. apply String.string_of_list_byte_of_string. Qed.

Lemma bytes_of_string_of_bytes b : bytes_of_string (string_of_bytes b) = b.
Proof. apply String.list_byte_of_string_of_list_byte. Qed.

Lemma length_bytes_of_string s :
  length (bytes_of_string s) = String.length s.
Proof.
  unfold bytes_of_string, String.list_byte_of_string.
  induction s as [|c s IH]; cbn; [done | by rewrite IH].
Qed.

Lemma len_bytes_of_string s : len (bytes_of_string s) = slen s.
Proof. unfold len, slen. by rewrite length_bytes_of_string. Qed.

Lemma bytes_of_string_inj s1 s2 :
  bytes_of_string s1 = bytes_of_string s2 → s1 = s2.
Proof.
  intros H. rewrite <-(string_of_bytes_of_string s1), H.
  apply string_of_bytes_of_string.
Qed.

Lemma slen_nonneg s : 0 <= slen s.
Proof. unfold slen; lia. Qed.

Lemma slen_empty s : slen s < 1 ↔ s = "".
Proof. unfold slen. destruct s; cbn [String.length]; split; (done || lia). Qed.

Lemma bytes_of_string_app s1 s2 :
  bytes_of_string (s1 +:+ s2) = bytes_of_string s1 ++ bytes_of_string s2.
Proof.
  unfold bytes_of_string, String.list_byte_of_string.
  induction s1 as [|c s1 IH]; simpl; [done | f_equal; apply IH].
Qed.

Lemma string_of_bytes_app b1 b2 :
  string_of_bytes (b1 ++ b2) = string_of_bytes b1 +:+ string_of_bytes b2.
Proof.
  apply bytes_of_string_inj.
  by rewrite bytes_of_string_app, !bytes_of_string_of_bytes.
Qed.

Lemma slen_app s1 s2 : slen (s1 +:+ s2) = slen s1 + slen s2.
Proof.
  rewrite <-!len_bytes_of_string, bytes_of_string_app. apply len_app.
Qed.

Lemma go_substr_Done s lo hi :
  0 <= lo → lo <= hi → hi <= slen s →
  go_substr s lo hi
  = Done (string_of_bytes (take (Z.to_nat (hi - lo))
                             (drop (Z.to_nat lo) (bytes_of_string s)))).
Proof.
  intros. unfold go_substr.
  by rewrite go_slice_Done by (rewrite ?len_bytes_of_string; lia).
Qed.

Lemma go_substr_Panic s lo hi :
  ¬ (0 <= lo ∧ lo <= hi ∧ hi <= slen s) →
  go_substr s lo hi = Panic slice_out_of_range.
Proof.
  intros. unfold go_substr.
  by rewrite go_slice_Panic by (by rewrite len_bytes_of_string).
Qed.

#[export] Hint Rewrite string_of_bytes_of_string bytes_of_string_of_bytes
  length_bytes_of_string len_bytes_of_string bytes_of_string_app slen_app : yar.
#[export] Hint Resolve slen_nonneg : yar.
