(* ===== verification/Wire.v ===== *)
(** * Wire: fixed-width integers and fields

    Unsigned 32-bit integers as [Z] with their wrap-around written out, the
    conversion between bytes and [Z], the big-endian encoding of an integer
    on a given number of bytes, and the pad-or-truncate function
    [StrToFixedBytes] that fills the fixed-width string fields of the
    header. *)

From S2P Require Import Prelude.

(** ** uint32 *)

(** Go's conversion [uint32(x)] of an integer. *)
Definition u32 (z : Z) : Z := z mod 2 ^ 32.

(** Subtraction and comparison at type [uint32]. *)
Definition u32_sub (a b : Z) : Z := u32 (a - b).
Definition u32_ltb (a b : Z) : bool := bool_decide (a < b).

Definition is_u32 (z : Z) : Prop := 0 <= z < 2 ^ 32.

#[export] Instance is_u32_dec z : Decision (is_u32 z) := _.

(** ** Bytes as numbers *)

Definition byte_to_Z (b : byte) : Z := Z.of_N (Byte.to_N b).

Definition byte_of_Z (z : Z) : byte :=
  default x00 (Byte.of_N (Z.to_N (z mod 256))).

(** ** Big-endian integers *)

(** [be_encode n z] is the [n]-byte big-endian representation of
    [z mod 256^n], as [binary.Write] with [binary.BigEndian] produces it. *)
Fixpoint be_encode (n : nat) (z : Z) : list byte :=
  match n with
  | O => []
  | S n' => byte_of_Z (z / 256 ^ Z.of_nat n') :: be_encode n' z
  end.

Definition be_decode_from (acc : Z) (bs : list byte) : Z :=
  fold_left (λ a b, a * 256 + byte_to_Z b) bs acc.

Definition be_decode (bs : list byte) : Z := be_decode_from 0 bs.

Definition put_u32 (z : Z) : list byte := be_encode 4 z.
Definition get_u32 (bs : list byte) : Z := be_decode (take 4 bs).

Arguments put_u32 : simpl never.
Arguments get_u32 : simpl never.

(** ** Fixed-width string fields *)

(** [StrToFixedBytes s n]: the first [n] bytes of [s], padded with zero
    bytes when [s] is shorter. *)
Definition StrToFixedBytes (s : string) (n : nat) : list byte :=
  resize n x00 (bytes_of_string s).

(** * Lemmas *)

Lemma u32_range z : is_u32 (u32 z).
Proof. unfold is_u32, u32. apply Z.mod_pos_bound. lia. Qed.

Lemma u32_small z : is_u32 z → u32 z = z.
Proof. unfold is_u32, u32. intros. by apply Z.mod_small. Qed.

Lemma u32_idemp z : u32 (u32 z) = u32 z.
Proof. apply u32_small, u32_range. Qed.

Lemma u32_sub_no_borrow a b : is_u32 a → 0 <= b <= a → u32_sub a b = a - b.
Proof. unfold u32_sub, is_u32. intros. apply u32_small. unfold is_u32. lia. Qed.

(** Subtracting more than the value wraps to the top of the range. *)
Lemma u32_sub_borrow a b :
  0 <= a < b → b <= 2 ^ 32 → u32_sub a b = 2 ^ 32 + a - b.
Proof.
  unfold u32_sub, u32. intros.
  replace (a - b) with ((2 ^ 32 + a - b) + (-1) * 2 ^ 32) by lia.
  rewrite Z.mod_add by lia. apply Z.mod_small. lia.
Qed.

Lemma u32_ltb_lt a b : u32_ltb a b = true ↔ a < b.
Proof. unfold u32_ltb. apply bool_decide_eq_true. Qed.

Lemma u32_ltb_ge a b : u32_ltb a b = false ↔ b <= a.
Proof. unfold u32_ltb. rewrite bool_decide_eq_false. lia. Qed.

Lemma is_u32_0 : is_u32 0.
Proof. unfold is_u32. lia. Qed.

#[export] Hint Resolve u32_range is_u32_0 : yar.
#[export] Hint Rewrite u32_idemp : yar.

Lemma byte_to_Z_range b : 0 <= byte_to_Z b < 256.
Proof.
  unfold byte_to_Z. pose proof (Byte.to_N_bounded b). lia.
Qed.

Lemma byte_to_of_Z z : byte_to_Z (byte_of_Z z) = z mod 256.
Proof.
  unfold byte_to_Z, byte_of_Z.
  assert (0 <= z mod 256 < 256) as Hr by (apply Z.mod_pos_bound; lia).
  destruct (Byte.of_N (Z.to_N (z mod 256))) as [b|] eqn:E; simpl.
  - apply Byte.to_of_N in E. rewrite E. lia.
  - apply Byte.of_N_None_iff in E. lia.
Qed.

Lemma byte_of_to_Z b : byte_of_Z (byte_to_Z b) = b.
Proof.
  unfold byte_to_Z, byte_of_Z.
  rewrite Z.mod_small by apply byte_to_Z_range.
  by rewrite N2Z.id, Byte.of_to_N.
Qed.

Lemma byte_to_Z_inj b1 b2 : byte_to_Z b1 = byte_to_Z b2 → b1 = b2.
Proof. intros H. by rewrite <-(byte_of_to_Z b1), H, byte_of_to_Z. Qed.

Lemma length_be_encode n z : length (be_encode n z) = n.
Proof. induction n as [|n IH]; cbn [be_encode length]; [done | by rewrite IH]. Qed.

Lemma be_decode_from_app acc bs1 bs2 :
  be_decode_from acc (bs1 ++ bs2) = be_decode_from (be_decode_from acc bs1) bs2.
Proof. apply fold_left_app. Qed.

Lemma be_decode_from_encode n : ∀ acc z,
  be_decode_from acc (be_encode n z) = acc * 256 ^ Z.of_nat n + z mod 256 ^ Z.of_nat n.
Proof.
  induction n as [|n IH]; intros acc z.
  - cbn. rewrite Z.mod_1_r. lia.
  - cbn [be_encode be_decode_from fold_left].
    fold (be_decode_from (acc * 256 + byte_to_Z (byte_of_Z (z / 256 ^ Z.of_nat n)))
            (be_encode n z)).
    rewrite IH, byte_to_of_Z, Nat2Z.inj_succ, Z.pow_succ_r by lia.
    rewrite (Z.mul_comm 256 (256 ^ Z.of_nat n)).
    rewrite (Z.rem_mul_r z (256 ^ Z.of_nat n) 256) by lia. lia.
Qed.

(** Decoding inverts encoding up to the width. *)
Lemma be_decode_encode n z :
  be_decode (be_encode n z) = z mod 256 ^ Z.of_nat n.
Proof. unfold be_decode. rewrite be_decode_from_encode. lia. Qed.

Lemma be_decode_from_range bs : ∀ acc,
  0 <= acc →
  acc * 256 ^ len bs <= be_decode_from acc bs < (acc + 1) * 256 ^ len bs.
Proof.
  induction bs as [|b bs IH]; intros acc Hacc.
  - rewrite len_nil, Z.pow_0_r. cbn [be_decode_from fold_left]. lia.
  - cbn [be_decode_from fold_left].
    fold (be_decode_from (acc * 256 + byte_to_Z b) bs).
    pose proof (byte_to_Z_range b).
    specialize (IH (acc * 256 + byte_to_Z b) ltac:(lia)).
    rewrite len_cons, Z.pow_add_r, Z.pow_1_r by (pose proof (len_nonneg bs); lia).
    assert (0 < 256 ^ len bs) by (apply Z.pow_pos_nonneg; [lia | apply len_nonneg]).
    nia.
Qed.

Lemma be_decode_range bs : 0 <= be_decode bs < 256 ^ len bs.
Proof.
  pose proof (be_decode_from_range bs 0 ltac:(lia)). unfold be_decode. lia.
Qed.

Lemma get_put_u32 z rest : get_u32 (put_u32 z ++ rest) = u32 z.
Proof.
  unfold get_u32, put_u32.
  rewrite take_app_length' by (by rewrite length_be_encode).
  by rewrite be_decode_encode.
Qed.

Lemma length_put_u32 z : length (put_u32 z) = 4%nat.
Proof. apply length_be_encode. Qed.

Lemma get_u32_range bs : is_u32 (get_u32 bs).
Proof.
  unfold get_u32, is_u32.
  pose proof (be_decode_range (take 4 bs)) as H.
  assert (len (take 4 bs) <= 4) by (unfold len; rewrite length_take; lia).
  assert (256 ^ len (take 4 bs) <= 256 ^ 4)
    by (apply Z.pow_le_mono_r; [lia | done]).
  change (2 ^ 32) with (256 ^ 4). lia.
Qed.

Lemma length_StrToFixedBytes s n : length (StrToFixedBytes s n) = n.
Proof. apply length_resize. Qed.

Lemma StrToFixedBytes_short s n :
  (String.length s <= n)%nat →
  StrToFixedBytes s n = bytes_of_string s ++ replicate (n - String.length s) x00.
Proof.
  intros. unfold StrToFixedBytes.
  rewrite resize_ge by (rewrite length_bytes_of_string; lia).
  by rewrite length_bytes_of_string.
Qed.

Lemma StrToFixedBytes_long s n :
  (n <= String.length s)%nat →
  StrToFixedBytes s n = take n (bytes_of_string s).
Proof.
  intros. unfold StrToFixedBytes.
  apply resize_le. by rewrite length_bytes_of_string.
Qed.

#[export] Hint Rewrite length_be_encode length_put_u32 length_StrToFixedBytes
  get_put_u32 : yar.
