(* ===== verification/Yar.v ===== *)
(** * Yar: the protocol data the client works on

    The values of package [yar] that [src/client/client.go] uses: the five
    error kinds and [Error], the per-endpoint options [Opt], the fixed-width
    protocol [Header] with its serialisation [Bytes] and its parser [Init],
    the [Request] and [Response] envelopes.  The package itself is not part
    of the sources; field widths and order are those of the wire table of
    the specification (tag 4, id 4, provider 28, credential 32, codec name
    8, body length 4), integers in network byte order. *)

From S2P Require Import Prelude Wire.

(** ** Dynamically typed values ([interface{}]) a codec can carry *)

#[local] Unset Elimination Schemes.
Inductive value : Type :=
| VNil
| VBool (b : bool)
| VInt (z : Z)
| VStr (s : string)
| VList (l : list value).
#[local] Set Elimination Schemes.

(** ** Errors *)

Inductive ErrorType : Type :=
| ErrorParam
| ErrorConfig
| ErrorPackager
| ErrorNetwork
| ErrorResponse.

#[export] Instance ErrorType_eq_dec : EqDecision ErrorType.
Proof. solve_decision. Defined.

Record Error : Type := mkError {
  ErrType : ErrorType;
  ErrMessage : string;
}.

#[export] Instance Error_eq_dec : EqDecision Error.
Proof. solve_decision. Defined.

Definition NewError (t : ErrorType) (msg : string) : Error :=
  {| ErrType := t; ErrMessage := msg |}.

(** ** Options *)

Record Opt : Type := mkOpt {
  MagicNumber : Z;
  Provider : string;
  ServiceName : string;
  Packager : string;
  Timeout : Z;
  RequestGzip : bool;
  AcceptGzip : bool;
  DNSCache : bool;
}.

(** ** The protocol header *)

Definition PackagerLength : Z := 8.
Definition ProtocolLength : Z := 72.
Definition ProviderLength : nat := 28.
Definition TokenLength : nat := 32.

Record Header : Type := mkHeader {
  HMagicNumber : Z;
  HId : Z;
  HProvider : list byte;
  HToken : list byte;
  HPackager : list byte;
  BodyLength : Z;
}.

(** The zero value of the struct: arrays of their declared length. *)
Definition NewHeader : Header :=
  {| HMagicNumber := 0; HId := 0;
     HProvider := replicate ProviderLength x00;
     HToken := replicate TokenLength x00;
     HPackager := replicate 8 x00;
     BodyLength := 0 |}.

(** What the Go types guarantee of a header: integers are [uint32], arrays
    have their declared length. *)
Record wf_header (h : Header) : Prop := {
  wf_magic : is_u32 (HMagicNumber h);
  wf_id : is_u32 (HId h);
  wf_provider : length (HProvider h) = ProviderLength;
  wf_token : length (HToken h) = TokenLength;
  wf_packager : length (HPackager h) = 8%nat;
  wf_bodylength : is_u32 (BodyLength h);
}.

(** [Header.Bytes]: the 80 bytes of the header on the wire. *)
Definition Header_Bytes (h : Header) : list byte :=
  put_u32 (HMagicNumber h) ++ put_u32 (HId h) ++ HProvider h ++ HToken h
  ++ HPackager h ++ put_u32 (BodyLength h).

(** [Header.Init]: fill the header from a buffer; a buffer that is too
    short leaves the header as it is. *)
Definition Header_Init (h : Header) (buf : list byte) : Header :=
  if decide (len buf < ProtocolLength + PackagerLength) then h
  else
    {| HMagicNumber := get_u32 buf;
       HId := get_u32 (drop 4 buf);
       HProvider := take ProviderLength (drop 8 buf);
       HToken := take TokenLength (drop 36 buf);
       HPackager := take 8 (drop 68 buf);
       BodyLength := get_u32 (drop 76 buf) |}.

(** ** Envelopes *)

Record Request : Type := mkRequest {
  Id : Z;
  Method : string;
  Params : option (list value);   (* [None] is the nil slice *)
  Protocol : Header;
}.

(** [NewRequest] draws a fresh correlation id; the draw is the argument. *)
Definition NewRequest (id : Z) : Request :=
  {| Id := u32 id; Method := ""; Params := None; Protocol := NewHeader |}.

Definition ERR_OKEY : Z := 0.

Record Response : Type := mkResponse {
  RespId : Z;
  Status : Z;
  RespError : string;
  Retval : value;
}.

(** Updates of single fields, as the code assigns them. *)
Definition set_Provider (bs : list byte) (h : Header) : Header :=
  mkHeader (HMagicNumber h) (HId h) bs (HToken h) (HPackager h) (BodyLength h).
Definition set_Token (bs : list byte) (h : Header) : Header :=
  mkHeader (HMagicNumber h) (HId h) (HProvider h) bs (HPackager h) (BodyLength h).
Definition set_Packager (bs : list byte) (h : Header) : Header :=
  mkHeader (HMagicNumber h) (HId h) (HProvider h) (HToken h) bs (BodyLength h).
Definition set_MagicNumber (z : Z) (h : Header) : Header :=
  mkHeader z (HId h) (HProvider h) (HToken h) (HPackager h) (BodyLength h).
Definition set_HId (z : Z) (h : Header) : Header :=
  mkHeader (HMagicNumber h) z (HProvider h) (HToken h) (HPackager h) (BodyLength h).
Definition set_BodyLength (z : Z) (h : Header) : Header :=
  mkHeader (HMagicNumber h) (HId h) (HProvider h) (HToken h) (HPackager h) z.

Definition set_Protocol (h : Header) (r : Request) : Request :=
  mkRequest (Id r) (Method r) (Params r) h.
Definition set_Method (m : string) (r : Request) : Request :=
  mkRequest (Id r) m (Params r) (Protocol r).
Definition set_Params (p : option (list value)) (r : Request) : Request :=
  mkRequest (Id r) (Method r) p (Protocol r).

(** ** Equality of values, as a boolean *)

Fixpoint value_eqb (v w : value) : bool :=
  match v, w with
  | VNil, VNil => true
  | VBool a, VBool b => bool_decide (a = b)
  | VInt a, VInt b => bool_decide (a = b)
  | VStr a, VStr b => bool_decide (a = b)
  | VList l, VList k =>
      (fix go (l k : list value) : bool :=
         match l, k with
         | [], [] => true
         | x :: l', y :: k' => value_eqb x y && go l' k'
         | _, _ => false
         end) l k
  | _, _ => false
  end.

(** The width of the header on the wire. *)
Definition HeaderLength : nat := 80.

(** * Lemmas *)

(** ** Induction over values, and decidable equality *)

Section value_ind.
Variable P : value → Prop.
Hypothesis Hnil : P VNil.
Hypothesis Hbool : ∀ b, P (VBool b).
Hypothesis Hint : ∀ z, P (VInt z).
Hypothesis Hstr : ∀ s, P (VStr s).
Hypothesis Hlist : ∀ l, Forall P l → P (VList l).

Fixpoint value_ind' (v : value) : P v :=
  match v with
  | VNil => Hnil
  | VBool b => Hbool b
  | VInt z => Hint z
  | VStr s => Hstr s
  | VList l =>
      Hlist l ((fix go l : Forall P l :=
                  match l with
                  | [] => Forall_nil_2 P
                  | x :: l' => Forall_cons_2 P x l' (value_ind' x) (go l')
                  end) l)
  end.
End value_ind.

Lemma value_eqb_eq v w : value_eqb v w = true ↔ v = w.
Proof.
  revert w. induction v as [| b | z | s | l IH] using value_ind';
    intros [| b' | z' | s' | k]; cbn [value_eqb];
    rewrite ?bool_decide_eq_true; try (split; (done || congruence)).
  revert k. induction IH as [|x l Hx _ IHl]; intros [|y k];
    try (split; (done || congruence)).
  rewrite andb_true_iff, Hx, IHl. split; [intros [-> [= ->]]; done|].
  by intros [= -> ->].
Qed.

#[export] Instance value_eq_dec : EqDecision value.
Proof.
  intros v w. destruct (value_eqb v w) eqn:E; [left | right].
  - by apply value_eqb_eq.
  - intros H%value_eqb_eq. congruence.
Defined.

(** ** The header *)

Lemma HeaderLength_eq : Z.of_nat HeaderLength = ProtocolLength + PackagerLength.
Proof. done. Qed.

Lemma wf_NewHeader : wf_header NewHeader.
Proof. by split; cbn; rewrite ?length_replicate. Qed.

Lemma length_Header_Bytes h :
  wf_header h → length (Header_Bytes h) = HeaderLength.
Proof.
  intros [_ _ Hp Ht Hk _]. unfold Header_Bytes.
  rewrite !length_app, !length_put_u32, Hp, Ht, Hk. done.
Qed.

Lemma wf_Header_Init h buf : wf_header h → wf_header (Header_Init h buf).
Proof.
  intros Hwf. unfold Header_Init. case_decide as Hlen; [done|].
  unfold ProtocolLength, PackagerLength, len in Hlen.
  split; cbn; try apply get_u32_range;
    rewrite length_take, length_drop; unfold ProviderLength, TokenLength; lia.
Qed.

(** Dropping whole fields from the front of a buffer. *)
Lemma drop_field {A} (a b : list A) n m :
  length a = n → drop (n + m) (a ++ b) = drop m b.
Proof. intros <-. apply drop_app_add. Qed.

(** Parsing what [Bytes] wrote gives the header back, whatever follows. *)
Lemma Header_Init_Bytes h0 h rest :
  wf_header h → Header_Init h0 (Header_Bytes h ++ rest) = h.
Proof.
  intros Hwf. unfold Header_Init.
  rewrite decide_False; last first.
  { rewrite len_app. unfold len. rewrite length_Header_Bytes by done.
    pose proof (len_nonneg rest). unfold len in *.
    unfold ProtocolLength, PackagerLength, HeaderLength. lia. }
  destruct Hwf as [Hm Hi Hp Ht Hk Hb]. destruct h as [m i p t k b].
  cbn [HMagicNumber HId HProvider HToken HPackager BodyLength] in *.
  unfold Header_Bytes.
  cbn [HMagicNumber HId HProvider HToken HPackager BodyLength].
  rewrite <-!app_assoc.
  pose proof (length_put_u32 m) as Lm. pose proof (length_put_u32 i) as Li.
  f_equal.
  - by rewrite get_put_u32, u32_small.
  - rewrite (drop_field _ _ 4 0) by done. by rewrite drop_0, get_put_u32, u32_small.
  - rewrite (drop_field _ _ 4 4), (drop_field _ _ 4 0) by done.
    by rewrite drop_0, take_app_length'.
  - rewrite (drop_field _ _ 4 32), (drop_field _ _ 4 28), (drop_field _ _ 28 0) by done.
    by rewrite drop_0, take_app_length'.
  - rewrite (drop_field _ _ 4 64), (drop_field _ _ 4 60), (drop_field _ _ 28 32),
      (drop_field _ _ 32 0) by done.
    by rewrite drop_0, take_app_length'.
  - rewrite (drop_field _ _ 4 72), (drop_field _ _ 4 68), (drop_field _ _ 28 40),
      (drop_field _ _ 32 8), (drop_field _ _ 8 0) by done.
    by rewrite drop_0, get_put_u32, u32_small.
Qed.

Lemma Header_Init_Bytes_exact h0 h :
  wf_header h → Header_Init h0 (Header_Bytes h) = h.
Proof.
  intros. rewrite <-(app_nil_r (Header_Bytes h)). by apply Header_Init_Bytes.
Qed.

(** The field updates keep the header well formed. *)
Lemma wf_set_Provider bs h :
  length bs = ProviderLength → wf_header h → wf_header (set_Provider bs h).
Proof. by intros ? []. Qed.

Lemma wf_set_Token bs h :
  length bs = TokenLength → wf_header h → wf_header (set_Token bs h).
Proof. by intros ? []. Qed.

Lemma wf_set_Packager bs h :
  length bs = 8%nat → wf_header h → wf_header (set_Packager bs h).
Proof. by intros ? []. Qed.

Lemma wf_set_MagicNumber z h :
  is_u32 z → wf_header h → wf_header (set_MagicNumber z h).
Proof. by intros ? []. Qed.

Lemma wf_set_HId z h : is_u32 z → wf_header h → wf_header (set_HId z h).
Proof. by intros ? []. Qed.

Lemma wf_set_BodyLength z h :
  is_u32 z → wf_header h → wf_header (set_BodyLength z h).
Proof. by intros ? []. Qed.

#[export] Hint Resolve wf_NewHeader wf_Header_Init wf_set_Provider wf_set_Token
  wf_set_Packager wf_set_MagicNumber wf_set_HId wf_set_BodyLength : yar.
