(* ===== verification/Packager.v ===== *)
(** * Packager: the codec contract

    Package [packager] is called by the client at four types: it encodes the
    request envelope and the generically decoded return value, and it
    decodes the response envelope and the caller's result target.  The
    contract is the class [Codec]; what a codec must satisfy for the
    client to be correct is the class [CodecLaws].  The codec is
    selected by the name passed with every operation.

    [RefCodec] is a small self-delimiting binary codec that satisfies the
    laws.  It stands for the real codecs (which are not part of the
    sources) wherever a theorem is applied to concrete inputs. *)

From S2P Require Import Prelude Wire Yar.

(** ** The contract *)

(** An operation of the codec fails with an error message ([inl]) or
    succeeds ([inr]). *)
Abbreviation codec_result A := (string + A)%type.

Class Codec : Type := {
  (** what a caller can pass as the result target: its concrete shape *)
  Target : Type;
  (** [Pack(name, v)] at an arbitrary value *)
  Pack : list byte → value → codec_result (list byte);
  (** [Pack(name, r)] at [*yar.Request] *)
  PackRequest : list byte → Request → codec_result (list byte);
  (** [Unpack(name, data, &response)] at [*yar.Response] *)
  UnpackResponse : list byte → list byte → codec_result Response;
  (** [Unpack(name, data, ret)] at the caller's target: the value stored *)
  Unpack : list byte → list byte → Target → codec_result value;
}.

(** [fits t v]: the value [v] has the shape the target [t] expects. *)
Class CodecLaws (P : Codec) (fits : Target → value → Prop) : Prop := {
  (** decoding into a target what was encoded from a value of its shape
      gives the value back *)
  unpack_pack name v bs t :
    Pack name v = inr bs → fits t v → Unpack name bs t = inr v;
  (** a decode only ever stores values of the target's shape *)
  unpack_fits name bs t v : Unpack name bs t = inr v → fits t v;
}.

(** ** A reference codec *)

Module RefCodec.

(** Shapes of result targets: the static type behind the pointer. *)
Inductive gotype : Type :=
| TAny
| TBool
| TInt
| TString
| TSlice (t : gotype).

Fixpoint accepts (t : gotype) (v : value) : bool :=
  match t, v with
  | TAny, _ => true
  | TBool, VBool _ => true
  | TInt, VInt _ => true
  | TString, VStr _ => true
  | TSlice t', VList l => forallb (accepts t') l
  | _, _ => false
  end.

(** Natural numbers in unary, terminated by a zero byte. *)
Definition enc_nat (n : nat) : list byte := replicate n x01 ++ [x00].

Fixpoint dec_nat (bs : list byte) : option (nat * list byte) :=
  match bs with
  | [] => None
  | b :: rest =>
      if decide (b = x00) then Some (O, rest)
      else if decide (b = x01) then
        match dec_nat rest with
        | Some (n, rest') => Some (S n, rest')
        | None => None
        end
      else None
  end.

(** Integers: a sign byte and the magnitude. *)
Definition enc_Z (z : Z) : list byte :=
  (if decide (z < 0) then x01 else x00) :: enc_nat (Z.abs_nat z).

Definition dec_Z (bs : list byte) : option (Z * list byte) :=
  match bs with
  | [] => None
  | s :: rest =>
      match dec_nat rest with
      | Some (n, rest') =>
          if decide (s = x00) then Some (Z.of_nat n, rest')
          else if decide (s = x01 ∧ n ≠ O) then Some (- Z.of_nat n, rest')
          else None
      | None => None
      end
  end.

(** Byte strings: the length, then the bytes. *)
Definition enc_bytes (b : list byte) : list byte := enc_nat (length b) ++ b.

Definition dec_bytes (bs : list byte) : option (list byte * list byte) :=
  match dec_nat bs with
  | Some (n, rest) =>
      if decide (n ≤ length rest)%nat then Some (take n rest, drop n rest)
      else None
  | None => None
  end.

(** Values: a tag byte, then the payload; a list carries its length. *)
Fixpoint enc_value (v : value) : list byte :=
  match v with
  | VNil => [x00]
  | VBool b => [x01; if b then x01 else x00]
  | VInt z => x02 :: enc_Z z
  | VStr s => x03 :: enc_bytes (bytes_of_string s)
  | VList l => x04 :: enc_nat (length l) ++ foldr (λ x acc, enc_value x ++ acc) [] l
  end.

(** [n] items read one after the other with [f]. *)
Fixpoint dec_items {A} (f : list byte → option (A * list byte)) (n : nat)
    (bs : list byte) : option (list A * list byte) :=
  match n with
  | O => Some ([], bs)
  | S n' =>
      match f bs with
      | Some (x, rest) =>
          match dec_items f n' rest with
          | Some (xs, rest') => Some (x :: xs, rest')
          | None => None
          end
      | None => None
      end
  end.

(** The fuel bounds the nesting depth of lists. *)
Fixpoint dec_value (fuel : nat) (bs : list byte) : option (value * list byte) :=
  match fuel with
  | O => None
  | S fuel' =>
      match bs with
      | [] => None
      | tag :: rest =>
          if decide (tag = x00) then Some (VNil, rest)
          else if decide (tag = x01) then
            match rest with
            | b :: rest' =>
                if decide (b = x00) then Some (VBool false, rest')
                else if decide (b = x01) then Some (VBool true, rest')
                else None
            | [] => None
            end
          else if decide (tag = x02) then
            match dec_Z rest with
            | Some (z, rest') => Some (VInt z, rest')
            | None => None
            end
          else if decide (tag = x03) then
            match dec_bytes rest with
            | Some (b, rest') => Some (VStr (string_of_bytes b), rest')
            | None => None
            end
          else if decide (tag = x04) then
            match dec_nat rest with
            | Some (n, rest') =>
                match dec_items (dec_value fuel') n rest' with
                | Some (l, rest'') => Some (VList l, rest'')
                | None => None
                end
            | None => None
            end
          else None
      end
  end.

(** Nesting depth of a value. *)
Fixpoint depth (v : value) : nat :=
  match v with
  | VList l => S (foldr (λ x acc, Nat.max (depth x) acc) O l)
  | _ => 1
  end.

(** Whole-buffer decoding: the input is one value and nothing else. *)
Definition decode_value (bs : list byte) : codec_result value :=
  match dec_value (S (length bs)) bs with
  | Some (v, []) => inr v
  | Some (_, _ :: _) => inl "trailing bytes"
  | None => inl "malformed value"
  end.

(** The request envelope: id, method, parameters. *)
Definition params_value (p : option (list value)) : value :=
  match p with
  | Some l => VList l
  | None => VNil
  end.

Definition enc_request (r : Request) : list byte :=
  enc_Z (Id r) ++ enc_bytes (bytes_of_string (Method r))
  ++ enc_value (params_value (Params r)).

Definition dec_request (bs : list byte) : codec_result (Z * string * value) :=
  match dec_Z bs with
  | Some (id, r1) =>
      match dec_bytes r1 with
      | Some (m, r2) =>
          match decode_value r2 with
          | inr p => inr (id, string_of_bytes m, p)
          | inl e => inl e
          end
      | None => inl "malformed method"
      end
  | None => inl "malformed id"
  end.

(** The response envelope: id, status, error message, return value. *)
Definition enc_response (r : Response) : list byte :=
  enc_Z (RespId r) ++ enc_Z (Status r)
  ++ enc_bytes (bytes_of_string (RespError r)) ++ enc_value (Retval r).

Definition dec_response (bs : list byte) : codec_result Response :=
  match dec_Z bs with
  | Some (id, r1) =>
      match dec_Z r1 with
      | Some (st, r2) =>
          match dec_bytes r2 with
          | Some (e, r3) =>
              match decode_value r3 with
              | inr v => inr (mkResponse id st (string_of_bytes e) v)
              | inl e => inl e
              end
          | None => inl "malformed error message"
          end
      | None => inl "malformed status"
      end
  | None => inl "malformed id"
  end.

(** The registry: the codec answers to one name. *)
Definition codec_name : list byte := bytes_of_string "refcodec".

Definition known (name : list byte) : bool := bool_decide (name = codec_name).

Definition unsupported : string := "unsupported packager".

Definition with_codec {A} (name : list byte) (k : codec_result A) : codec_result A :=
  if known name then k else inl unsupported.

Definition unpack_into (bs : list byte) (t : gotype) : codec_result value :=
  match decode_value bs with
  | inr v => if accepts t v then inr v else inl "cannot decode into target"
  | inl e => inl e
  end.

#[export] Instance codec : Codec := {|
  Target := gotype;
  Pack name v := with_codec name (inr (enc_value v));
  PackRequest name r := with_codec name (inr (enc_request r));
  UnpackResponse name bs := with_codec name (dec_response bs);
  Unpack name bs t := with_codec name (unpack_into bs t);
|}.

End RefCodec.

(** * Lemmas on the reference codec *)

Module RefCodecFacts.
Import RefCodec.

Lemma dec_enc_nat n rest : dec_nat (enc_nat n ++ rest) = Some (n, rest).
Proof.
  unfold enc_nat. induction n as [|n IH]; cbn; [done|].
  by rewrite IH.
Qed.

Lemma dec_enc_Z z rest : dec_Z (enc_Z z ++ rest) = Some (z, rest).
Proof.
  unfold enc_Z, dec_Z. cbn [app]. rewrite dec_enc_nat.
  destruct (decide (z < 0)) as [Hz|Hz].
  - rewrite decide_False by done. rewrite decide_True by (split; [done|lia]).
    do 2 f_equal. lia.
  - rewrite decide_True by done. do 2 f_equal. lia.
Qed.

Lemma dec_enc_bytes b rest : dec_bytes (enc_bytes b ++ rest) = Some (b, rest).
Proof.
  unfold enc_bytes, dec_bytes. rewrite <-app_assoc, dec_enc_nat.
  rewrite decide_True by (rewrite length_app; lia).
  by rewrite take_app_length, drop_app_length.
Qed.

Lemma dec_items_enc {A} (f : list byte → option (A * list byte))
    (enc : A → list byte) (l : list A) rest :
  Forall (λ x, ∀ r, f (enc x ++ r) = Some (x, r)) l →
  dec_items f (length l) (foldr (λ x acc, enc x ++ acc) [] l ++ rest)
  = Some (l, rest).
Proof.
  induction 1 as [|x l Hx _ IH]; cbn; [done|].
  by rewrite <-app_assoc, Hx, IH.
Qed.

Lemma depth_elem v l : v ∈ l → (depth v < depth (VList l))%nat.
Proof.
  cbn. induction 1 as [x l | x y l _ IH]; cbn; lia.
Qed.

(** With fuel for the nesting depth, decoding inverts encoding. *)
Lemma dec_enc_value v : ∀ fuel rest,
  (depth v ≤ fuel)%nat → dec_value fuel (enc_value v ++ rest) = Some (v, rest).
Proof.
  induction v as [| b | z | s | l IH] using value_ind'; intros [|fuel] rest Hd;
    cbn in Hd; try lia; cbn [enc_value dec_value app].
  - done.
  - by destruct b.
  - rewrite decide_False, decide_False, decide_True by done.
    by rewrite dec_enc_Z.
  - rewrite decide_False, decide_False, decide_False, decide_True by done.
    rewrite dec_enc_bytes. by rewrite string_of_bytes_of_string.
  - rewrite decide_False, decide_False, decide_False, decide_False,
      decide_True by done.
    rewrite <-app_assoc, dec_enc_nat.
    rewrite (dec_items_enc _ enc_value); [done|].
    apply Forall_forall. intros x Hx r.
    rewrite Forall_forall in IH. apply IH; [done|].
    pose proof (depth_elem x l Hx) as Hlt. cbn in Hlt. lia.
Qed.

Lemma depth_le_length v : (depth v ≤ length (enc_value v))%nat.
Proof.
  induction v as [| b | z | s | l IH] using value_ind';
    cbn [depth enc_value length]; try lia.
  rewrite length_app. apply le_n_S.
  enough (foldr (λ x acc, Nat.max (depth x) acc) O l
          ≤ length (foldr (λ x acc, enc_value x ++ acc) [] l))%nat by lia.
  induction IH as [|x l Hx _ IHl]; cbn [foldr length]; [lia|].
  rewrite length_app. lia.
Qed.

Lemma decode_enc_value v : decode_value (enc_value v) = inr v.
Proof.
  unfold decode_value.
  rewrite <-(app_nil_r (enc_value v)) at 2.
  rewrite dec_enc_value; [done|].
  pose proof (depth_le_length v). lia.
Qed.

Lemma dec_enc_response r : dec_response (enc_response r) = inr r.
Proof.
  unfold dec_response, enc_response.
  rewrite !dec_enc_Z, dec_enc_bytes, decode_enc_value, string_of_bytes_of_string.
  by destruct r.
Qed.

Lemma dec_enc_request r :
  dec_request (enc_request r) = inr (Id r, Method r, params_value (Params r)).
Proof.
  unfold dec_request, enc_request.
  by rewrite dec_enc_Z, dec_enc_bytes, decode_enc_value, string_of_bytes_of_string.
Qed.

Lemma known_codec_name : known codec_name = true.
Proof. done. Qed.

(** The operations of the instance under a known and under an unknown
    name. *)
Lemma UnpackResponse_enc name resp :
  known name = true → UnpackResponse name (enc_response resp) = inr resp.
Proof.
  intros Hk. cbn [UnpackResponse codec]. unfold with_codec.
  by rewrite Hk, dec_enc_response.
Qed.

Lemma Pack_known name v : known name = true → Pack name v = inr (enc_value v).
Proof. intros Hk. cbn [Pack codec]. unfold with_codec. by rewrite Hk. Qed.

Lemma PackRequest_known name r :
  known name = true → PackRequest name r = inr (enc_request r).
Proof. intros Hk. cbn [PackRequest codec]. unfold with_codec. by rewrite Hk. Qed.

Lemma UnpackResponse_unknown name bs :
  known name = false → UnpackResponse name bs = inl unsupported.
Proof. intros Hk. cbn [UnpackResponse codec]. unfold with_codec. by rewrite Hk. Qed.

(** The reference codec satisfies the contract. *)
#[export] Instance codec_laws :
  CodecLaws codec (λ t v, accepts t v = true).
Proof.
  split.
  - intros name v bs t. cbn. unfold with_codec, unpack_into.
    destruct (known name); [|done]. intros [= <-] Hfit.
    by rewrite decode_enc_value, Hfit.
  - intros name bs t v. cbn. unfold with_codec, unpack_into.
    destruct (known name); [|done].
    destruct (decode_value bs) as [e|v']; [done|].
    destruct (accepts t v') eqn:Hacc; [|done]. by intros [= <-].
Qed.

End RefCodecFacts.
