(* ===== verification/Transport.v ===== *)
(** * Transport: the HTTP handles and their environment

    [src/client/client.go] creates two process-wide fasthttp clients in
    [init]: a plain one and one whose [Dial] resolves host names through the
    package's resolver.  This file holds their state ([HttpClient]), the
    dial function of the second ([dnsCacheDial], the closure of lines
    43-53), HTTP requests and responses as the client builds and reads
    them, the compressor contract, and the [World] a call runs in: both
    handles and the log of exchanges performed so far.

    The resolver, the socket layer and the peer are parameters ([Net]);
    [DoTimeout] composes the handle's dialer with them the way fasthttp
    does: connect to the request's host, then exchange. *)

From stdpp Require Import gmap.
From S2P Require Import Prelude Wire Yar.

(** ** Durations ([time.Duration], in nanoseconds) *)

Definition Millisecond : Z := 1000000.
Definition Second : Z := 1000000000.

(** ** HTTP messages *)

Record HttpRequest : Type := mkHttpRequest {
  ReqBody : list byte;
  RequestURI : string;
  ReqMethod : string;
  ConnectionClose : bool;
  ReqHeader : gmap string string;
}.

Record HttpResponse : Type := mkHttpResponse {
  RespHeader : gmap string string;
  RespBody : list byte;
}.

#[export] Instance HttpRequest_eq_dec : EqDecision HttpRequest.
Proof. solve_decision. Defined.

#[export] Instance HttpResponse_eq_dec : EqDecision HttpResponse.
Proof. solve_decision. Defined.

(** The zero value [fasthttp.Request{}]. *)
Definition emptyRequest : HttpRequest :=
  {| ReqBody := []; RequestURI := ""; ReqMethod := ""; ConnectionClose := false;
     ReqHeader := ∅ |}.

Definition SetBody (b : list byte) (r : HttpRequest) : HttpRequest :=
  mkHttpRequest b (RequestURI r) (ReqMethod r) (ConnectionClose r) (ReqHeader r).
Definition SetRequestURI (u : string) (r : HttpRequest) : HttpRequest :=
  mkHttpRequest (ReqBody r) u (ReqMethod r) (ConnectionClose r) (ReqHeader r).
Definition SetMethod (m : string) (r : HttpRequest) : HttpRequest :=
  mkHttpRequest (ReqBody r) (RequestURI r) m (ConnectionClose r) (ReqHeader r).
Definition SetConnectionClose (r : HttpRequest) : HttpRequest :=
  mkHttpRequest (ReqBody r) (RequestURI r) (ReqMethod r) true (ReqHeader r).
Definition HeaderSet (k v : string) (r : HttpRequest) : HttpRequest :=
  mkHttpRequest (ReqBody r) (RequestURI r) (ReqMethod r) (ConnectionClose r)
    (<[k := v]> (ReqHeader r)).

(** [resp.Header.Peek(k)]: the value, empty when the header is absent. *)
Definition Peek (k : string) (r : HttpResponse) : string :=
  default "" (RespHeader r !! k).

(** ** The compressor *)

Class Gzip : Type := {
  GzWriter : Type;
  (** [g.Write(data)] on a fresh writer *)
  gz_Write : list byte → string + GzWriter;
  (** [g.Close()], after which the buffer holds the compressed bytes *)
  gz_Close : GzWriter → string + list byte;
  (** [resp.BodyGunzip()] *)
  Gunzip : list byte → string + list byte;
}.

Class GzipLaws (G : Gzip) : Prop := {
  gunzip_gzip data w out :
    gz_Write data = inr w → gz_Close w = inr out → Gunzip out = inr data;
}.

(** ** The network *)

(** An established connection, named by the address it was dialed to. *)
Definition Conn : Type := string.

Class Net : Type := {
  (** [globalResolver.Lookup(host)]: the addresses, printed *)
  Lookup : string → string + list string;
  (** [net.Dial(network, address)] *)
  net_Dial : string → string → string + Conn;
  (** the [host:port] fasthttp connects to for a request URI *)
  addr_of_uri : string → string;
  (** one request/response exchange on a connection, under the handle's
      read timeout and the call's deadline *)
  exchange : Conn → HttpRequest → Z → Z → string + HttpResponse;
}.

(** ** The handles *)

Definition Dialer : Type := string → go (string + Conn).

(** The dial functions a handle can hold.  The program assigns one closure
    to a [Dial] field, that of lines 43-53: the field holds its name, and
    [dialer] below is the function the name stands for.  This keeps the
    state first order, so that worlds can be compared and computed. *)
Inductive DialFunc : Type := DNSCacheDial.

#[export] Instance DialFunc_eq_dec : EqDecision DialFunc.
Proof. solve_decision. Defined.

Record HttpClient : Type := mkHttpClient {
  MaxIdleConnDuration : Z;
  InsecureSkipVerify : bool;
  ReadTimeout : Z;
  Dial : option DialFunc;
}.

#[export] Instance HttpClient_eq_dec : EqDecision HttpClient.
Proof. solve_decision. Defined.

Definition set_ReadTimeout (t : Z) (c : HttpClient) : HttpClient :=
  mkHttpClient (MaxIdleConnDuration c) (InsecureSkipVerify c) t (Dial c).

(** Which of the two handles a call uses. *)
Inductive HandleId : Type := PlainHandle | DNSCacheHandle.

#[export] Instance HandleId_eq_dec : EqDecision HandleId.
Proof. solve_decision. Defined.

(** One exchange as the log records it. *)
Record Exchange : Type := mkExchange {
  ExHandle : HandleId;
  ExConn : Conn;
  ExRequest : HttpRequest;
  ExReadTimeout : Z;
  ExDeadline : Z;
}.

#[export] Instance Exchange_eq_dec : EqDecision Exchange.
Proof. solve_decision. Defined.

Record World : Type := mkWorld {
  httpClient : HttpClient;
  dnsCacheHttpClient : HttpClient;
  sent : list Exchange;
}.

#[export] Instance World_eq_dec : EqDecision World.
Proof. solve_decision. Defined.

Definition handle (id : HandleId) (w : World) : HttpClient :=
  match id with
  | PlainHandle => httpClient w
  | DNSCacheHandle => dnsCacheHttpClient w
  end.

Definition set_handle (id : HandleId) (c : HttpClient) (w : World) : World :=
  match id with
  | PlainHandle => mkWorld c (dnsCacheHttpClient w) (sent w)
  | DNSCacheHandle => mkWorld (httpClient w) c (sent w)
  end.

Definition record (e : Exchange) (w : World) : World :=
  mkWorld (httpClient w) (dnsCacheHttpClient w) (sent w ++ [e]).

(** ** [strings.LastIndex] for a one-byte separator *)

Fixpoint last_index_from (c : byte) (bs : list byte) (i found : Z) : Z :=
  match bs with
  | [] => found
  | b :: bs' => last_index_from c bs' (i + 1) (if decide (b = c) then i else found)
  end.

Definition LastIndexByte (s : string) (c : byte) : Z :=
  last_index_from c (bytes_of_string s) 0 (-1).

Section transport.
Context `{Net}.

(** ** The dial function of the DNS-cache handle *)

Definition colon : byte := x3a.

Definition dnsCacheDial : Dialer := λ address,
  let separator := LastIndexByte address colon in
  host ← go_substr address 0 separator;
  match Lookup host with
  | inl err => mret (inl ("Lookup Error:" +:+ err))
  | inr ips =>
      if decide (len ips < 1)
      then mret (inl "Lookup Error: No IP Resolver Result Found")
      else
        ip0 ← go_index ips 0;
        port ← go_substr address separator (slen address);
        mret (net_Dial "tcp" (ip0 +:+ port))
  end.

(** The function a [Dial] field stands for. *)
Definition dialer (d : DialFunc) : Dialer :=
  match d with
  | DNSCacheDial => dnsCacheDial
  end.

(** ** [init]: the two handles *)

Definition init : World :=
  {| httpClient :=
       {| MaxIdleConnDuration := 5 * Second; InsecureSkipVerify := true;
          ReadTimeout := 0; Dial := None |};
     dnsCacheHttpClient :=
       {| MaxIdleConnDuration := 5 * Second; InsecureSkipVerify := true;
          ReadTimeout := 0; Dial := Some DNSCacheDial |};
     sent := [] |}.

(** ** [DoTimeout]: connect with the handle's dialer, then exchange *)

Definition connect (c : HttpClient) (addr : string) : go (string + Conn) :=
  match Dial c with
  | Some dial => dialer dial addr
  | None => mret (net_Dial "tcp" addr)
  end.

Definition DoTimeout (id : HandleId) (req : HttpRequest) (timeout : Z)
    (w : World) : go ((string + HttpResponse) * World) :=
  let c := handle id w in
  conn ← connect c (addr_of_uri (RequestURI req));
  match conn with
  | inl err => mret (inl err, w)
  | inr conn =>
      mret (exchange conn req (ReadTimeout c) timeout,
            record (mkExchange id conn req (ReadTimeout c) timeout) w)
  end.

End transport.

(** ** A stand-in compressor: the gzip magic number in front of the data *)

Module RefGzip.

Definition magic : list byte := [x1f; x8b].

Definition gunzip (bs : list byte) : string + list byte :=
  if decide (take 2 bs = magic) then inr (drop 2 bs)
  else inl "gzip: invalid header".

#[export] Instance gzip : Gzip := {|
  GzWriter := list byte;
  gz_Write data := inr data;
  gz_Close w := inr (magic ++ w);
  Gunzip := gunzip;
|}.

End RefGzip.

(** ** A scripted network

    The resolver and the peer are given as functions; dialing always
    succeeds and returns the address dialed.  The host and port of a URI are
    what stands between [://] and the next slash, with the scheme's default
    port when none is written. *)

Module RefNet.

Definition after_scheme (uri : string) : string :=
  match String.index 0 "://" uri with
  | Some n => String.substring (n + 3) (String.length uri - (n + 3)) uri
  | None => uri
  end.

Definition authority (uri : string) : string :=
  let rest := after_scheme uri in
  match String.index 0 "/" rest with
  | Some n => String.substring 0 n rest
  | None => rest
  end.

Definition default_port (uri : string) : string :=
  if String.prefix "https://" uri then ":443" else ":80".

Definition host_port (uri : string) : string :=
  let a := authority uri in
  match String.index 0 ":" a with
  | Some _ => a
  | None => a +:+ default_port uri
  end.

Definition scripted (lookup : string → string + list string)
    (reply : HttpRequest → string + HttpResponse) : Net := {|
  Lookup := lookup;
  net_Dial network addr := inr addr;
  addr_of_uri := host_port;
  exchange conn req read_timeout deadline := reply req;
|}.

Definition resolve_all (ips : list string) : string → string + list string :=
  λ _, inr ips.

Definition no_reply : HttpRequest → string + HttpResponse :=
  λ _, inl "no peer".

End RefNet.

(** * Lemmas *)

(** ** [LastIndexByte] *)

Lemma last_index_from_bounds c bs : ∀ i found,
  -1 <= found < i →
  -1 <= last_index_from c bs i found < i + len bs.
Proof.
  induction bs as [|b bs IH]; intros i found Hf; cbn [last_index_from].
  - rewrite len_nil. lia.
  - rewrite len_cons. case_decide.
    + specialize (IH (i + 1) i ltac:(lia)). lia.
    + specialize (IH (i + 1) found ltac:(lia)). lia.
Qed.

Lemma last_index_from_absent c bs : ∀ i found,
  c ∉ bs → last_index_from c bs i found = found.
Proof.
  induction bs as [|b bs IH]; intros i found Hc; cbn [last_index_from]; [done|].
  apply not_elem_of_cons in Hc as [Hb Hc].
  rewrite decide_False by done. by apply IH.
Qed.

Lemma last_index_from_present c bs : ∀ i found,
  c ∈ bs → i <= last_index_from c bs i found.
Proof.
  induction bs as [|b bs IH]; intros i found Hc; cbn [last_index_from].
  - by apply elem_of_nil in Hc.
  - destruct (decide (b = c)) as [->|Hne].
    + destruct (decide (c ∈ bs)) as [Hin|Hnin].
      * specialize (IH (i + 1) i Hin). lia.
      * rewrite last_index_from_absent by done. lia.
    + apply elem_of_cons in Hc as [->|Hc]; [done|].
      specialize (IH (i + 1) found Hc). lia.
Qed.

Lemma LastIndexByte_bounds s c : -1 <= LastIndexByte s c < slen s.
Proof.
  unfold LastIndexByte.
  pose proof (last_index_from_bounds c (bytes_of_string s) 0 (-1) ltac:(lia)).
  rewrite len_bytes_of_string in *. lia.
Qed.

Lemma LastIndexByte_absent s c :
  c ∉ bytes_of_string s → LastIndexByte s c = -1.
Proof. apply last_index_from_absent. Qed.

Lemma LastIndexByte_present s c :
  c ∈ bytes_of_string s → 0 <= LastIndexByte s c < slen s.
Proof.
  intros Hc. pose proof (LastIndexByte_bounds s c).
  pose proof (last_index_from_present c _ 0 (-1) Hc). unfold LastIndexByte in *. lia.
Qed.

Lemma last_index_from_last c h p : ∀ i found,
  c ∉ p → last_index_from c (h ++ c :: p) i found = i + len h.
Proof.
  induction h as [|b h IH]; intros i found Hc; cbn [app last_index_from].
  - rewrite decide_True, last_index_from_absent, len_nil by done. lia.
  - rewrite IH, len_cons by done. lia.
Qed.

(** The last colon of [host:port] when the port holds none. *)
Lemma LastIndexByte_host_port host port :
  colon ∉ bytes_of_string port →
  LastIndexByte (host +:+ ":" +:+ port) colon = slen host.
Proof.
  intros Hc. unfold LastIndexByte. rewrite !bytes_of_string_app.
  change (bytes_of_string ":") with [colon]. cbn [app].
  rewrite last_index_from_last, len_bytes_of_string by done. lia.
Qed.

(** ** The dial function of the DNS-cache handle *)

Section dial_facts.
Context `{Net}.

(** The dial function on an address that has a port. *)
Lemma dnsCacheDial_host_port host port :
  colon ∉ bytes_of_string port →
  dnsCacheDial (host +:+ ":" +:+ port)
  = Done match Lookup host with
         | inl err => inl ("Lookup Error:" +:+ err)
         | inr [] => inl "Lookup Error: No IP Resolver Result Found"
         | inr (ip0 :: _) => net_Dial "tcp" (ip0 +:+ ":" +:+ port)
         end.
Proof.
  intros Hc. unfold dnsCacheDial. cbn zeta.
  rewrite LastIndexByte_host_port by done.
  pose proof (slen_nonneg host). pose proof (slen_nonneg port).
  assert (slen (host +:+ ":" +:+ port) = slen host + (1 + slen port)) as Hlen
    by (by rewrite !slen_app).
  rewrite (go_substr_Done _ 0 (slen host)) by lia.
  rewrite go_bind_Done, Z.sub_0_r, drop_0, bytes_of_string_app.
  rewrite take_app_length' by (rewrite length_bytes_of_string; unfold slen; lia).
  rewrite string_of_bytes_of_string.
  destruct (Lookup host) as [err|[|ip0 ips]]; [done | done |].
  rewrite decide_False by (rewrite len_cons; pose proof (len_nonneg ips); lia).
  assert (go_index (ip0 :: ips) 0 = Done ip0) as -> by (by apply go_index_Done).
  rewrite go_bind_Done, go_substr_Done by lia.
  rewrite go_bind_Done, bytes_of_string_app.
  rewrite drop_app_length' by (rewrite length_bytes_of_string; unfold slen; lia).
  rewrite take_ge, string_of_bytes_of_string; [done|].
  rewrite Hlen, length_bytes_of_string. unfold slen in *.
  change (String.length (":" +:+ port)) with (S (String.length port)). lia.
Qed.

(** When the resolver returns no address the dial function fails
    with a lookup error; the socket layer is not consulted. *)
Theorem dnsCacheDial_no_address host port :
  colon ∉ bytes_of_string port →
  Lookup host = inr [] →
  dnsCacheDial (host +:+ ":" +:+ port)
  = Done (inl "Lookup Error: No IP Resolver Result Found").
Proof. intros Hc Hl. by rewrite dnsCacheDial_host_port, Hl. Qed.

(** C38. The dial function of the DNS-cache handle on an address
    [host:port]: the host is resolved; an error of the resolver and an
    empty answer are errors, returned before any dial; otherwise the first
    address of the answer is dialed, and no other, on the port of the
    original address. *)
Theorem dnsCacheDial_resolves host port :
  colon ∉ bytes_of_string port →
  dnsCacheDial (host +:+ ":" +:+ port)
  = Done match Lookup host with
         | inl err => inl ("Lookup Error:" +:+ err)
         | inr [] => inl "Lookup Error: No IP Resolver Result Found"
         | inr (ip0 :: _) => net_Dial "tcp" (ip0 +:+ ":" +:+ port)
         end.
Proof. apply dnsCacheDial_host_port. Qed.

(** When the resolver returns several addresses only the first is
    dialed, on the port of the original address. *)
Theorem dnsCacheDial_first_address host port ip0 ips :
  colon ∉ bytes_of_string port →
  Lookup host = inr (ip0 :: ips) →
  dnsCacheDial (host +:+ ":" +:+ port)
  = Done (net_Dial "tcp" (ip0 +:+ ":" +:+ port)).
Proof. intros Hc Hl. by rewrite dnsCacheDial_host_port, Hl. Qed.

(** C40. On an address without a colon [strings.LastIndex] returns -1 and
    the slice expression [address[:separator]] panics before the resolver
    is asked. *)
Theorem dnsCacheDial_panics_without_port address :
  colon ∉ bytes_of_string address →
  dnsCacheDial address = Panic slice_out_of_range.
Proof.
  intros Hc. unfold dnsCacheDial. cbn zeta.
  rewrite LastIndexByte_absent by done.
  rewrite go_substr_Panic by lia. done.
Qed.

(** With a colon in the address the dial function does not panic. *)
Lemma dnsCacheDial_no_panic address :
  colon ∈ bytes_of_string address →
  no_panic (dnsCacheDial address) = true.
Proof.
  intros Hc. unfold dnsCacheDial. cbn zeta.
  pose proof (LastIndexByte_present address colon Hc) as Hi.
  rewrite (go_substr_Done _ 0) by lia. rewrite go_bind_Done.
  destruct (Lookup _) as [err|ips]; [done|].
  case_decide as Hn; [done|].
  destruct (go_index_in_range ips 0) as [ip0 ->]; [lia|].
  rewrite go_bind_Done, go_substr_Done by lia. done.
Qed.

End dial_facts.

(** ** The world *)

Lemma handle_set_handle id c w : handle id (set_handle id c w) = c.
Proof. by destruct id. Qed.

Lemma handle_set_handle_ne id id' c w :
  id ≠ id' → handle id' (set_handle id c w) = handle id' w.
Proof. by destruct id, id'. Qed.

Lemma sent_set_handle id c w : sent (set_handle id c w) = sent w.
Proof. by destruct id. Qed.

Lemma handle_record id e w : handle id (record e w) = handle id w.
Proof. by destruct id. Qed.

#[export] Hint Rewrite handle_set_handle sent_set_handle handle_record : yar.

(** ** [DoTimeout] *)

Section DoTimeout_facts.
Context `{Net}.

(** An exchange is logged exactly when the connection was established. *)
Lemma DoTimeout_cases id req t w res w' :
  DoTimeout id req t w = Done (res, w') →
  (w' = w ∧ ∃ err, res = inl err)
  ∨ (∃ conn,
       connect (handle id w) (addr_of_uri (RequestURI req)) = Done (inr conn)
       ∧ w' = record (mkExchange id conn req (ReadTimeout (handle id w)) t) w
       ∧ res = exchange conn req (ReadTimeout (handle id w)) t).
Proof.
  unfold DoTimeout. cbn zeta.
  destruct (connect _ _) as [[err|conn]|why]; go_simpl; [| |done].
  - intros [= <- <-]. left. eauto.
  - intros [= <- <-]. right. eauto.
Qed.

Lemma DoTimeout_no_panic id req t w :
  no_panic (connect (handle id w) (addr_of_uri (RequestURI req))) = true →
  no_panic (DoTimeout id req t w) = true.
Proof.
  unfold DoTimeout. cbn zeta. by destruct (connect _ _) as [[err|conn]|why].
Qed.

End DoTimeout_facts.

(** ** The stand-in compressor is lawful *)

#[export] Instance gzip_laws : GzipLaws RefGzip.gzip.
Proof. split. intros data w out [= <-] [= <-]. done. Qed.

(** ** Closed instances of the dial theorems *)

Section dial_witnesses.
Import RefNet.

Lemma dnsCacheDial_no_address_witness :
  dnsCacheDial (H := scripted (resolve_all []) no_reply) "svc.local:8080"
  = Done (inl "Lookup Error: No IP Resolver Result Found").
Proof.
  apply (dnsCacheDial_no_address (H := scripted (resolve_all []) no_reply)
           "svc.local" "8080"); [|reflexivity].
  by_compute.
Defined.

Lemma dnsCacheDial_resolves_witness :
  dnsCacheDial (H := scripted (resolve_all ["10.0.0.1"; "10.0.0.2"]) no_reply)
    "svc.local:8080"
  = Done (inr "10.0.0.1:8080").
Proof.
  apply (dnsCacheDial_resolves
           (H := scripted (resolve_all ["10.0.0.1"; "10.0.0.2"]) no_reply)
           "svc.local" "8080").
  by_compute.
Defined.

Lemma dnsCacheDial_first_address_witness :
  dnsCacheDial (H := scripted (resolve_all ["10.0.0.1"; "10.0.0.2"]) no_reply)
    "svc.local:8080"
  = Done (inr "10.0.0.1:8080").
Proof.
  apply (dnsCacheDial_first_address
           (H := scripted (resolve_all ["10.0.0.1"; "10.0.0.2"]) no_reply)
           "svc.local" "8080" "10.0.0.1" ["10.0.0.2"]); [|reflexivity].
  by_compute.
Defined.

Lemma dnsCacheDial_panics_without_port_witness :
  dnsCacheDial (H := scripted (resolve_all ["10.0.0.1"]) no_reply) "svc.local"
  = Panic slice_out_of_range.
Proof.
  apply (dnsCacheDial_panics_without_port
           (H := scripted (resolve_all ["10.0.0.1"]) no_reply) "svc.local").
  by_compute.
Defined.

End dial_witnesses.
