(* ===== verification/Client.v ===== *)
(** * Client: the call lifecycle of [src/client/client.go]

    One definition per function of the file: [NewClient], [Client_init],
    [Call], [initRequest], [packRequest], [readResponse], [httpHandler] and
    [sockHandler], with the two copy loops of [initRequest] and
    [packRequest] and the request construction and response decompression
    of [httpHandler] as definitions of their own.

    A function that can index out of range returns in the [go] monad; the
    codec, the compressor and the network are the classes of [Packager] and
    [Transport].  [httpHandler] and [Call] take the world (the two shared
    handles and the log of exchanges) and return the new one.  The
    correlation id that [NewRequest] draws is an argument. *)

From stdpp Require Import gmap.
From S2P Require Import Prelude Wire Yar Packager Transport.

(** ** The client *)

(** A socket transport as [transports.NewSock] returns it: the network and
    the address it was created for. *)
Record Sock : Type := mkSock {
  SockNet : string;
  SockAddr : string;
}.

Definition NewSock (net addr : string) : option Sock := Some (mkSock net addr).

Record Client : Type := mkClient {
  hostname : string;
  net : string;
  transport : option Sock;
  COpt : Opt;
}.

(** ** [parseAddrNetName]: the scheme in front of [://] *)

Definition schemes : list string := ["http"; "https"; "tcp"; "udp"; "unix"].

Definition parseAddrNetName (addr : string) : string + string :=
  match String.index 0 "://" addr with
  | Some n =>
      let scheme := String.substring 0 n addr in
      if decide (scheme ∈ schemes) then inr scheme
      else inl ("unsupported protocol " +:+ scheme)
  | None => inl "address has no protocol"
  end.

(** ** [Client.init] (lines 77-86) *)

Definition Client_init (c : Client) : Client :=
  if decide (net c = "tcp" ∨ net c = "udp" ∨ net c = "unix")
  then mkClient (hostname c) (net c) (NewSock (net c) (hostname c)) (COpt c)
  else c.

(** ** [NewClient] (lines 62-75) *)

Definition NewClient (NewOpt : Opt) (addr : string) : Error + Client :=
  match parseAddrNetName addr with
  | inl err => inl (NewError ErrorParam err)
  | inr netName =>
      inr (Client_init
             {| hostname := addr; net := netName; transport := None;
                COpt := NewOpt |})
  end.

(** ** The copy loops *)

(** [for i := 0; i < len(dst); i++ { dst[i] = src[i] }] (lines 103-105 and
    108-110), from index [i] for [n] iterations. *)
Fixpoint copy_from (n : nat) (i : Z) (dst src : list byte) : go (list byte) :=
  match n with
  | O => mret dst
  | S n' =>
      b ← go_index src i;
      dst' ← go_store dst i b;
      copy_from n' (i + 1) dst' src
  end.

Definition copy_array (dst src : list byte) : go (list byte) :=
  copy_from (length dst) 0 dst src.

(** [for i, s := range src { p[i] = s }] (lines 141-143), from index [i]. *)
Fixpoint store_range (i : Z) (src p : list byte) : go (list byte) :=
  match src with
  | [] => mret p
  | s :: src' =>
      p' ← go_store p i s;
      store_range (i + 1) src' p'
  end.

Section client.
Context `{Pk : Codec} `{Gz : Gzip} `{Nt : Net}.

(** ** [initRequest] (lines 98-127) *)

Definition initRequest (c : Client) (id : Z) (method : string)
    (params : option (list value)) : go (Error + Request) :=
  let r := NewRequest id in
  let bs := StrToFixedBytes (Provider (COpt c)) 28 in
  prov ← copy_array (HProvider (Protocol r)) bs;
  let r := set_Protocol (set_Provider prov (Protocol r)) r in
  let cs := StrToFixedBytes (ServiceName (COpt c)) 32 in
  tok ← copy_array (HToken (Protocol r)) cs;
  let r := set_Protocol (set_Token tok (Protocol r)) r in
  if decide (slen method < 1) then
    mret (inl (NewError ErrorParam "call empty method"))
  else
    let r :=
      match params with
      | None => set_Params (Some []) r
      | Some p => set_Params (Some p) r
      end in
    let r := set_Method method r in
    let r := set_Protocol (set_MagicNumber (MagicNumber (COpt c)) (Protocol r)) r in
    let r := set_Protocol (set_HId (Id r) (Protocol r)) r in
    mret (inr r).

(** ** [packRequest] (lines 129-153)

    The request is a pointer in the code: the function returns it with the
    codec name written into its header. *)

(** Lines 134-138: the codec name that goes on the wire. *)
Definition sendPackager_of (packagerName : string) : go (list byte) :=
  if decide (slen packagerName < PackagerLength)
  then mret (bytes_of_string packagerName)
  else bytes_of_string <$> go_substr packagerName 0 PackagerLength.

Definition packRequest (c : Client) (r : Request)
    : go ((Error + list byte) * Request) :=
  let packagerName := Packager (COpt c) in
  sendPackager ← sendPackager_of packagerName;
  p ← store_range 0 sendPackager (replicate 8 x00);
  let r := set_Protocol (set_Packager p (Protocol r)) r in
  match PackRequest sendPackager r with
  | inl err => mret (inl (NewError ErrorPackager err), r)
  | inr pack => mret (inr pack, r)
  end.

(** ** [readResponse] (lines 155-208)

    [reader] is the outcome of [ioutil.ReadAll]; [ret] is the result target,
    [None] for a nil one.  The result is the error, if any, and the value
    stored into the target, if one was stored. *)

(** Lines 181-207: decode the envelope, check the status, and decode the
    return value into the target in two stages. *)
Definition unpackBody (c : Client) (allBody bodyBuffer : list byte)
    (ret : option Target) : option Error * option value :=
  let name := bytes_of_string (Packager (COpt c)) in
  match UnpackResponse name bodyBuffer with
  | inl err => (Some (NewError ErrorPackager ("Unpack Error:" +:+ err)), None)
  | inr response =>
      if decide (Status response ≠ ERR_OKEY) then
        (Some (NewError ErrorResponse (RespError response)), None)
      else
        match ret with
        | None => (None, None)
        | Some target =>
            match Pack name (Retval response) with
            | inl err =>
                (Some (NewError ErrorPackager
                         ("pack response retval error:" +:+ err
                          +:+ " " +:+ string_of_bytes allBody)), None)
            | inr packData =>
                match Unpack name packData target with
                | inl err =>
                    (Some (NewError ErrorPackager
                             ("pack response retval error:" +:+ err
                              +:+ " " +:+ string_of_bytes allBody)), None)
                | inr v => (None, Some v)
                end
            end
        end
  end.

Definition readResponse (c : Client) (reader : string + list byte)
    (ret : option Target) : go (option Error * option value) :=
  match reader with
  | inl err =>
      mret (Some (NewError ErrorResponse ("Read Response Error:" +:+ err)), None)
  | inr allBody =>
      if decide (len allBody < ProtocolLength + PackagerLength) then
        mret (Some (NewError ErrorResponse
                      ("Response Parse Error:" +:+ string_of_bytes allBody)), None)
      else
        protocolBuffer ← go_slice allBody 0 (ProtocolLength + PackagerLength);
        let protocol := Header_Init NewHeader protocolBuffer in
        let bodyLength := u32_sub (BodyLength protocol) PackagerLength in
        if u32_ltb (u32 (len allBody - (ProtocolLength + PackagerLength)))
                   (u32 bodyLength) then
          mret (Some (NewError ErrorResponse
                        ("Response Content Error:" +:+ string_of_bytes allBody)), None)
        else
          bodyBuffer ← go_slice_from allBody (ProtocolLength + PackagerLength);
          mret (unpackBody c allBody bodyBuffer ret)
  end.

(** ** [httpHandler] (lines 210-298) *)

(** Lines 229-233: the handle the call uses. *)
Definition hClient_of (c : Client) : HandleId :=
  if DNSCache (COpt c) then DNSCacheHandle else PlainHandle.

(** Lines 237-272: the HTTP request for the framed bytes. *)
Definition buildRequest (c : Client) (postBuffer : list byte)
    : Error + HttpRequest :=
  let request := emptyRequest in
  let body :=
    if RequestGzip (COpt c) then
      match gz_Write postBuffer with
      | inl gzipErr => inl (NewError ErrorNetwork gzipErr)
      | inr g =>
          match gz_Close g with
          | inl gzipErr => inl (NewError ErrorNetwork gzipErr)
          | inr buf => inr buf
          end
      end
    else inr postBuffer in
  match body with
  | inl err => inl err
  | inr body =>
      let request := SetBody body request in
      let request := SetRequestURI (hostname c) request in
      let request := SetMethod "POST" request in
      let request := SetConnectionClose request in
      let request :=
        if AcceptGzip (COpt c) then HeaderSet "Accept-Encoding" "gzip" request
        else request in
      let request :=
        if RequestGzip (COpt c) then HeaderSet "Content-Encoding" "gzip" request
        else request in
      inr request
  end.

(** Lines 282-292: the bytes of the reply, decompressed when the peer says
    they are compressed and they do decompress. *)
Definition responseBytes (resp : HttpResponse) : list byte :=
  if decide (Peek "Content-Encoding" resp = "gzip") then
    match Gunzip (RespBody resp) with
    | inr b => b
    | inl _ => RespBody resp
    end
  else RespBody resp.

Definition httpHandler (c : Client) (id : Z) (method : string)
    (ret : option Target) (params : option (list value)) (w : World)
    : go (option Error * option value * World) :=
  r ← initRequest c id method params;
  match r with
  | inl err => mret (Some err, None, w)
  | inr r =>
      '(packed, r) ← packRequest c r;
      match packed with
      | inl err => mret (Some err, None, w)
      | inr packBody =>
          let r := set_Protocol
                     (set_BodyLength (u32 (len packBody + PackagerLength))
                        (Protocol r)) r in
          let postBuffer := Header_Bytes (Protocol r) ++ packBody in
          let hClient := hClient_of c in
          let timeout := Timeout (COpt c) * Millisecond in
          let w := set_handle hClient (set_ReadTimeout timeout (handle hClient w)) w in
          match buildRequest c postBuffer with
          | inl err => mret (Some err, None, w)
          | inr request =>
              '(posted, w) ← DoTimeout hClient request timeout w;
              match posted with
              | inl postErr => mret (Some (NewError ErrorNetwork postErr), None, w)
              | inr resp =>
                  '(responseErr, stored) ← readResponse c (inr (responseBytes resp)) ret;
                  mret (responseErr, stored, w)
              end
          end
      end
  end.

(** ** [Call] (lines 88-96) *)

Definition Call (c : Client) (id : Z) (method : string) (ret : option Target)
    (params : option (list value)) (w : World)
    : go (option Error * option value * World) :=
  if decide (net c = "http" ∨ net c = "https")
  then httpHandler c id method ret params w
  else mret (Some (NewError ErrorConfig "unsupported non http protocol"), None, w).

(** ** [sockHandler] (lines 300-302) *)

Definition sockHandler (c : Client) (method : string) (ret : option Target)
    (params : option (list value)) : option Error :=
  Some (NewError ErrorParam "unsupported sock request").

End client.

(** * Abstract specification of the envelope

    What the specification promises of the request a call puts on the
    wire, stated without loops or mutation. *)

(** The request built for a non-empty method. *)
Definition initialRequest (c : Client) (id : Z) (method : string)
    (params : option (list value)) : Request :=
  {| Id := u32 id; Method := method; Params := Some (default [] params);
     Protocol :=
       {| HMagicNumber := MagicNumber (COpt c); HId := u32 id;
          HProvider := StrToFixedBytes (Provider (COpt c)) 28;
          HToken := StrToFixedBytes (ServiceName (COpt c)) 32;
          HPackager := replicate 8 x00; BodyLength := 0 |} |}.

(** The codec name as it selects the codec, and as the header carries it. *)
Definition wireName (c : Client) : list byte :=
  take 8 (bytes_of_string (Packager (COpt c))).
Definition wireNameField (c : Client) : list byte :=
  StrToFixedBytes (Packager (COpt c)) 8.

(** A reply is well framed when its header claims at least the codec field
    and no more body than is present. *)
Definition well_framed (h : Header) (body : list byte) : Prop :=
  PackagerLength <= BodyLength h
  ∧ BodyLength h - PackagerLength <= len body < 2 ^ 32.

#[export] Instance well_framed_dec h body : Decision (well_framed h body) := _.

(** The outcome of [readResponse] on a reply that claims more than it
    holds. *)
Definition contentError (allBody : list byte) : option Error * option value :=
  (Some (NewError ErrorResponse
           ("Response Content Error:" +:+ string_of_bytes allBody)), None).

(** The request as [packRequest] leaves it, and the bytes framed from it
    and from the encoded body. *)
Definition packedRequest (c : Client) (id : Z) (method : string)
    (params : option (list value)) : Request :=
  let r := initialRequest c id method params in
  set_Protocol (set_Packager (wireNameField c) (Protocol r)) r.

Definition wireHeader (c : Client) (id : Z) (method : string)
    (params : option (list value)) (packBody : list byte) : Header :=
  set_BodyLength (u32 (len packBody + PackagerLength))
    (Protocol (packedRequest c id method params)).

Definition postBuffer_of (c : Client) (id : Z) (method : string)
    (params : option (list value)) (packBody : list byte) : list byte :=
  Header_Bytes (wireHeader c id method params packBody) ++ packBody.

(** The deadline of a call, and the world once the call has written it
    into the handle it uses (line 235). *)
Definition timeout_of (c : Client) : Z := Timeout (COpt c) * Millisecond.

Definition armed (c : Client) (w : World) : World :=
  set_handle (hClient_of c)
    (set_ReadTimeout (timeout_of c) (handle (hClient_of c) w)) w.

(** Lines 278-297: what the call returns for the outcome of the post. *)
Definition finish `{Codec} `{Gzip} (c : Client) (ret : option Target)
    (posted : string + HttpResponse) : go (option Error * option value) :=
  match posted with
  | inl postErr => mret (Some (NewError ErrorNetwork postErr), None)
  | inr resp => readResponse c (inr (responseBytes resp)) ret
  end.

(** The exchange a call performs on connection [conn] with [request]. *)
Definition exchange_of (c : Client) (conn : Conn) (request : HttpRequest)
    : Exchange :=
  mkExchange (hClient_of c) conn request (timeout_of c) (timeout_of c).

(** What [init] establishes of the handles and every call preserves. *)
Definition wf_world (w : World) : Prop :=
  Dial (httpClient w) = None ∧ Dial (dnsCacheHttpClient w) = Some DNSCacheDial.

#[export] Instance wf_world_dec w : Decision (wf_world w) := _.

(** What the Go types guarantee of the options. *)
Definition wf_opt (o : Opt) : Prop := is_u32 (MagicNumber o).

#[export] Instance wf_opt_dec o : Decision (wf_opt o) := _.

(** * Fixtures: a client and peers for closed examples *)

Module Fixtures.
Import RefCodec RefGzip RefNet.

Definition opt : Opt :=
  {| MagicNumber := 0x80DFEC60; Provider := "svcA"; ServiceName := "tokenX";
     Packager := "refcodec"; Timeout := 2000; RequestGzip := false;
     AcceptGzip := false; DNSCache := false |}.

Definition client : Client :=
  {| hostname := "http://svc.local/api"; net := "http"; transport := None;
     COpt := opt |}.

Definition replyHeader (body : list byte) : Header :=
  set_BodyLength (u32 (len body + PackagerLength)) NewHeader.

Definition failed : Response := mkResponse 7 1 "boom" VNil.
Definition echoed : Response := mkResponse 7 ERR_OKEY "" (VStr "hi").

(** A reply as a peer frames it: header, then the encoded envelope. *)
Definition frame (resp : Response) : list byte :=
  Header_Bytes (replyHeader (enc_response resp)) ++ enc_response resp.

Definition reply (resp : Response) : HttpRequest → string + HttpResponse :=
  λ _, inr {| RespHeader := ∅; RespBody := frame resp |}.

Definition resolver : string → string + list string :=
  λ _, inr ["10.0.0.1"; "10.0.0.2"].

Definition peer (resp : Response) : Net := scripted resolver (reply resp).

(** A client that compresses its requests and dials through the resolver,
    and one for a socket scheme. *)
Definition gzClient : Client :=
  {| hostname := "http://svc.local:8080/api"; net := "http"; transport := None;
     COpt := {| MagicNumber := 0x80DFEC60; Provider := "svcA";
                ServiceName := "tokenX"; Packager := "refcodec";
                Timeout := 500; RequestGzip := true; AcceptGzip := true;
                DNSCache := true |} |}.

Definition tcpClient : Client :=
  {| hostname := "tcp://10.0.0.9:4000"; net := "tcp";
     transport := NewSock "tcp" "tcp://10.0.0.9:4000"; COpt := opt |}.

(** The echo call of the examples, against a peer that answers [resp]. *)
Definition echoCall (c : Client) (resp : Response)
    : go (option Error * option value * World) :=
  Call (Pk := codec) (Gz := gzip) (Nt := peer resp) c 7 "Echo" (Some TString)
    (Some [VStr "hi"]) init.

End Fixtures.

(** * Lemmas *)

(** ** The copy loops *)

Lemma copy_from_spec n : ∀ (k : nat) dst src,
  (k + n = length dst)%nat → (length dst ≤ length src)%nat →
  copy_from n (Z.of_nat k) dst src = Done (take k dst ++ take n (drop k src)).
Proof.
  induction n as [|n IH]; intros k dst src Hk Hlen; cbn [copy_from].
  - rewrite take_0, app_nil_r, take_ge by lia. done.
  - destruct (lookup_lt_is_Some_2 src k) as [b Hb]; [lia|].
    assert (go_index src (Z.of_nat k) = Done b) as ->
      by (apply go_index_Done; rewrite Nat2Z.id; split; [lia | done]).
    rewrite go_bind_Done, go_store_Done by (unfold len; lia).
    rewrite go_bind_Done, Nat2Z.id.
    replace (Z.of_nat k + 1) with (Z.of_nat (S k)) by lia.
    rewrite IH by (rewrite ?length_insert; lia).
    rewrite (take_S_r _ k b) by (apply list_lookup_insert_eq; lia).
    rewrite take_insert_ge by lia.
    rewrite (drop_S src b k Hb). cbn [take]. by rewrite <-app_assoc.
Qed.

Lemma copy_from_panic n : ∀ (k : nat) dst src,
  (k + n = length dst)%nat → (k ≤ length src < length dst)%nat →
  copy_from n (Z.of_nat k) dst src = Panic index_out_of_range.
Proof.
  induction n as [|n IH]; intros k dst src Hk Hlen; cbn [copy_from]; [lia|].
  destruct (decide (k < length src)%nat) as [Hlt|Hge].
  - destruct (lookup_lt_is_Some_2 src k) as [b Hb]; [lia|].
    assert (go_index src (Z.of_nat k) = Done b) as ->
      by (apply go_index_Done; rewrite Nat2Z.id; split; [lia | done]).
    rewrite go_bind_Done, go_store_Done by (unfold len; lia).
    rewrite go_bind_Done.
    replace (Z.of_nat k + 1) with (Z.of_nat (S k)) by lia.
    apply IH; rewrite ?length_insert; lia.
  - rewrite go_index_out by (unfold len; lia). done.
Qed.

(** The array loop copies the first [len(dst)] bytes of the source. *)
Lemma copy_array_spec dst src :
  (length dst ≤ length src)%nat →
  copy_array dst src = Done (take (length dst) src).
Proof.
  intros Hlen. unfold copy_array. change 0 with (Z.of_nat 0).
  rewrite (copy_from_spec (length dst) 0 dst src) by (done || lia).
  by rewrite take_0, drop_0.
Qed.

(** A source shorter than the array makes the loop index out of range. *)
Lemma copy_array_panic dst src :
  (length src < length dst)%nat →
  copy_array dst src = Panic index_out_of_range.
Proof.
  intros Hlen. unfold copy_array.
  apply (copy_from_panic (length dst) 0 dst src); lia.
Qed.

Lemma store_range_spec src : ∀ (k : nat) p,
  (k + length src ≤ length p)%nat →
  store_range (Z.of_nat k) src p
  = Done (take k p ++ src ++ drop (k + length src) p).
Proof.
  induction src as [|s src IH]; intros k p Hk; cbn [store_range length] in *.
  - cbn [app]. by rewrite Nat.add_0_r, take_drop.
  - rewrite go_store_Done by (unfold len; lia).
    rewrite go_bind_Done, Nat2Z.id.
    replace (Z.of_nat k + 1) with (Z.of_nat (S k)) by lia.
    rewrite IH by (rewrite length_insert; lia).
    rewrite (take_S_r _ k s) by (apply list_lookup_insert_eq; lia).
    rewrite take_insert_ge, drop_insert_lt by lia.
    rewrite <-app_assoc. cbn [app].
    by replace (S k + length src)%nat with (k + S (length src))%nat by lia.
Qed.

Lemma store_range_panic src : ∀ (k : nat) p,
  (k ≤ length p < k + length src)%nat →
  store_range (Z.of_nat k) src p = Panic index_out_of_range.
Proof.
  induction src as [|s src IH]; intros k p Hk; cbn [store_range length] in *; [lia|].
  destruct (decide (k < length p)%nat) as [Hlt|Hge].
  - rewrite go_store_Done by (unfold len; lia). rewrite go_bind_Done.
    replace (Z.of_nat k + 1) with (Z.of_nat (S k)) by lia.
    apply IH. rewrite length_insert. lia.
  - unfold go_store. rewrite decide_False by (unfold len; lia). done.
Qed.

(** Copying a field of the array's width fills the array with it. *)
Lemma copy_array_fixed dst s n :
  length dst = n →
  copy_array dst (StrToFixedBytes s n) = Done (StrToFixedBytes s n).
Proof.
  intros <-. rewrite copy_array_spec by (by rewrite length_StrToFixedBytes).
  by rewrite take_ge by (by rewrite length_StrToFixedBytes).
Qed.

(** Storing at most eight bytes into a zeroed array of eight pads them. *)
Lemma store_range_pad src :
  (length src ≤ 8)%nat →
  store_range 0 src (replicate 8 x00) = Done (resize 8 x00 src).
Proof.
  intros Hlen. change 0 with (Z.of_nat 0).
  rewrite (store_range_spec src 0) by (rewrite length_replicate; lia).
  rewrite take_0, drop_replicate, resize_ge by lia. done.
Qed.

(** ** The codec name on the wire *)

Lemma sendPackager_of_spec name :
  sendPackager_of name = Done (take 8 (bytes_of_string name)).
Proof.
  unfold sendPackager_of, PackagerLength, slen. case_decide as Hlen.
  - rewrite take_ge by (rewrite length_bytes_of_string; lia). done.
  - unfold go_substr. rewrite go_slice_Done
      by (rewrite ?len_bytes_of_string; unfold slen; lia).
    rewrite go_fmap_Done, go_fmap_Done, drop_0, bytes_of_string_of_bytes. done.
Qed.

Lemma resize_take_8 (bs : list byte) :
  resize 8 x00 (take 8 bs) = resize 8 x00 bs.
Proof. apply resize_take_eq. Qed.

Section initRequest_facts.
Context `{Pk : Codec} `{Gz : Gzip} `{Nt : Net}.
Implicit Types (c : Client) (r : Request) (w : World).

(** ** [initRequest] *)

Lemma initRequest_spec c id method params :
  initRequest c id method params
  = Done (if decide (method = "")
          then inl (NewError ErrorParam "call empty method")
          else inr (initialRequest c id method params)).
Proof.
  unfold initRequest, set_Protocol, set_Provider, set_Token, set_Params,
    set_Method, set_MagicNumber, set_HId.
  cbn [NewRequest Protocol NewHeader HProvider HToken HMagicNumber HId Id
       HPackager BodyLength Method Params].
  rewrite !copy_array_fixed, !go_bind_Done by apply length_replicate.
  destruct (decide (slen method < 1)) as [He|He].
  - apply slen_empty in He. by rewrite decide_True.
  - rewrite decide_False by (by rewrite <-slen_empty). by destruct params.
Qed.


(** [initRequest] never panics: the two copy loops stay inside the
    28-byte and 32-byte arrays for every provider and credential. *)
Theorem initRequest_no_panic c id method params :
  no_panic (initRequest c id method params) = true.
Proof. by rewrite initRequest_spec. Qed.

(** C4. Whatever the lengths of the configured provider and credential,
    the header fields of the request are exactly 28 and 32 bytes: the
    option padded with zero bytes or truncated. *)
Theorem initRequest_fixed_widths c id method params r :
  initRequest c id method params = Done (inr r) →
  length (HProvider (Protocol r)) = 28%nat
  ∧ length (HToken (Protocol r)) = 32%nat
  ∧ HProvider (Protocol r) = StrToFixedBytes (Provider (COpt c)) 28
  ∧ HToken (Protocol r) = StrToFixedBytes (ServiceName (COpt c)) 32.
Proof.
  rewrite initRequest_spec. case_decide; [done|]. intros [= <-]. cbn.
  by rewrite !length_StrToFixedBytes.
Qed.

Lemma initRequest_fixed_widths_witness :
  let c := mkClient "http://h" "http" None
             (mkOpt 1 "a-provider-name-longer-than-28-bytes" "tok" "json" 1
                false false false) in
  ∃ r, initRequest c 7 "Echo" None = Done (inr r)
       ∧ length (HProvider (Protocol r)) = 28%nat
       ∧ length (HToken (Protocol r)) = 32%nat.
Proof.
  eexists. split; [vm_compute; reflexivity|].
  pose proof (initRequest_fixed_widths
    (mkClient "http://h" "http" None
       (mkOpt 1 "a-provider-name-longer-than-28-bytes" "tok" "json" 1
          false false false)) 7 "Echo" None _ eq_refl) as (H1 & H2 & _).
  split; [exact H1 | exact H2].
Defined.

(** A successful [initRequest] returns the envelope of the
    specification: the method, the parameters as a sequence that is never
    absent, the correlation id repeated in the header, the protocol tag of
    the options, and a well-formed header. *)
Theorem initRequest_envelope c id method params r :
  wf_opt (COpt c) →
  initRequest c id method params = Done (inr r) →
  Method r = method
  ∧ Params r = Some (default [] params)
  ∧ HId (Protocol r) = Id r
  ∧ HMagicNumber (Protocol r) = MagicNumber (COpt c)
  ∧ wf_header (Protocol r).
Proof.
  intros Hopt. rewrite initRequest_spec. case_decide; [done|]. intros [= <-].
  split_and!; [done..|].
  split; cbn; rewrite ?length_StrToFixedBytes, ?length_replicate;
    auto with yar.
Qed.

Lemma initRequest_envelope_witness :
  ∃ r, initRequest Fixtures.client 7 "Echo" None = Done (inr r)
       ∧ Params r = Some [] ∧ wf_header (Protocol r).
Proof.
  eexists. split; [vm_compute; reflexivity|].
  pose proof (initRequest_envelope Fixtures.client 7 "Echo" None _
                ltac:(vm_compute; split; discriminate || reflexivity) eq_refl)
    as (_ & H2 & _ & _ & H5).
  split; [exact H2 | exact H5].
Defined.

End initRequest_facts.

(** ** [packRequest] *)

Section packRequest_facts.
Context `{Pk : Codec} `{Gz : Gzip} `{Nt : Net}.
Implicit Types (c : Client) (r : Request) (w : World).

Lemma packRequest_spec c r :
  packRequest c r
  = Done (let r' := set_Protocol (set_Packager (wireNameField c) (Protocol r)) r in
          match PackRequest (wireName c) r' with
          | inl err => (inl (NewError ErrorPackager err), r')
          | inr pack => (inr pack, r')
          end).
Proof.
  unfold packRequest. rewrite sendPackager_of_spec, go_bind_Done.
  rewrite store_range_pad by (rewrite length_take; lia).
  rewrite go_bind_Done, resize_take_8. fold (wireName c).
  change (resize 8 x00 (bytes_of_string (Packager (COpt c)))) with (wireNameField c).
  by destruct (PackRequest _ _).
Qed.

(** [packRequest] never panics: for every configured codec name the
    slice [packagerName[0:8]] is within bounds and the loop that fills the
    8-byte array stores at indices below 8. *)
Theorem packRequest_no_panic c r : no_panic (packRequest c r) = true.
Proof. rewrite packRequest_spec. done. Qed.

(** The codec-name field that [packRequest] writes into the header is
    exactly 8 bytes: the configured name truncated to its first 8 bytes or
    padded with zero bytes; nothing else of the request changes. *)
Theorem packRequest_codec_field c r res r' :
  packRequest c r = Done (res, r') →
  HPackager (Protocol r') = StrToFixedBytes (Packager (COpt c)) 8
  ∧ length (HPackager (Protocol r')) = 8%nat
  ∧ r' = set_Protocol (set_Packager (HPackager (Protocol r')) (Protocol r)) r.
Proof.
  rewrite packRequest_spec. cbn zeta.
  destruct (PackRequest _ _); intros [= <- <-];
    cbn [Protocol set_Protocol set_Packager HPackager]; unfold wireNameField;
    by rewrite length_StrToFixedBytes.
Qed.

(** An encoding failure in [packRequest] is reported as a Packager
    error that carries the codec's message; the codec is the one selected by
    the first 8 bytes of the configured name. *)
Theorem packRequest_error c r e r' :
  packRequest c r = Done (inl e, r') →
  ErrType e = ErrorPackager ∧ PackRequest (wireName c) r' = inl (ErrMessage e).
Proof.
  rewrite packRequest_spec. cbn zeta.
  destruct (PackRequest _ _) eqn:E; intros [= <- <-]. by split.
Qed.

(** A configured codec name of more than 8 bytes selects the codec
    of the request by its first 8 bytes, which is a different name from the
    one [readResponse] selects the codec of the reply by. *)
Theorem packRequest_name_asymmetry c r :
  PackagerLength < slen (Packager (COpt c)) →
  ∃ sendPackager,
    sendPackager_of (Packager (COpt c)) = Done sendPackager
    ∧ len sendPackager = PackagerLength
    ∧ sendPackager ≠ bytes_of_string (Packager (COpt c))
    ∧ packRequest c r
      = Done match PackRequest sendPackager
                     (set_Protocol (set_Packager sendPackager (Protocol r)) r) with
             | inl err => (inl (NewError ErrorPackager err),
                           set_Protocol (set_Packager sendPackager (Protocol r)) r)
             | inr pack => (inr pack,
                           set_Protocol (set_Packager sendPackager (Protocol r)) r)
             end.
Proof.
  intros Hlong. exists (wireName c).
  assert (length (wireName c) = 8%nat) as Hl.
  { unfold wireName. rewrite length_take, length_bytes_of_string.
    unfold slen, PackagerLength in Hlong. lia. }
  split_and!.
  - apply sendPackager_of_spec.
  - unfold len. rewrite Hl. done.
  - intros Heq. rewrite Heq, length_bytes_of_string in Hl.
    unfold slen, PackagerLength in Hlong. lia.
  - rewrite packRequest_spec. cbn zeta. unfold wireNameField, StrToFixedBytes.
    by rewrite <-resize_take_8, resize_all_alt by done.
Qed.

End packRequest_facts.

Lemma packRequest_codec_field_witness :
  ∃ res r',
    packRequest (Pk := RefCodec.codec)
      (mkClient "http://h" "http" None
         (mkOpt 1 "p" "t" "refcodec-version-2" 1 false false false))
      (NewRequest 7) = Done (res, r')
    ∧ HPackager (Protocol r') = bytes_of_string "refcodec".
Proof.
  do 2 eexists. split; [vm_compute; reflexivity|].
  pose proof (packRequest_codec_field (Pk := RefCodec.codec)
    (mkClient "http://h" "http" None
       (mkOpt 1 "p" "t" "refcodec-version-2" 1 false false false))
    (NewRequest 7) _ _ eq_refl) as (H1 & _ & _).
  exact H1.
Defined.

Lemma packRequest_error_witness :
  ∃ e r',
    packRequest (Pk := RefCodec.codec)
      (mkClient "http://h" "http" None
         (mkOpt 1 "p" "t" "json" 1 false false false))
      (NewRequest 7) = Done (inl e, r')
    ∧ ErrType e = ErrorPackager.
Proof.
  do 2 eexists. split; [vm_compute; reflexivity|].
  exact (proj1 (packRequest_error (Pk := RefCodec.codec)
    (mkClient "http://h" "http" None
       (mkOpt 1 "p" "t" "json" 1 false false false))
    (NewRequest 7) _ _ eq_refl)).
Defined.

(** ** [readResponse] *)

Section readResponse_facts.
Context `{Pk : Codec} `{Gz : Gzip} `{Nt : Net}.
Implicit Types (c : Client) (r : Request) (w : World).

Lemma readResponse_long c allBody ret :
  80 <= len allBody →
  readResponse c (inr allBody) ret
  = Done (let protocol := Header_Init NewHeader (take 80 allBody) in
          if u32_ltb (u32 (len allBody - 80))
                     (u32 (u32_sub (BodyLength protocol) PackagerLength))
          then contentError allBody
          else unpackBody c allBody (drop 80 allBody) ret).
Proof.
  intros Hlen. unfold readResponse.
  change (ProtocolLength + PackagerLength) with 80.
  rewrite decide_False by lia.
  rewrite go_slice_Done, go_bind_Done by lia.
  rewrite go_slice_from_Done, go_bind_Done by lia.
  change (Z.to_nat (80 - 0)) with 80%nat. change (Z.to_nat 80) with 80%nat.
  change (Z.to_nat 0) with 0%nat. rewrite drop_0. cbn zeta.
  by destruct (u32_ltb _ _).
Qed.

Lemma readResponse_short c allBody ret :
  len allBody < 80 →
  readResponse c (inr allBody) ret
  = Done (Some (NewError ErrorResponse
                  ("Response Parse Error:" +:+ string_of_bytes allBody)), None).
Proof. intros. unfold readResponse. by rewrite decide_True. Qed.

(** [readResponse] returns on every input. *)
Lemma readResponse_Done c reader ret :
  ∃ out, readResponse c reader ret = Done out.
Proof.
  destruct reader as [err|allBody]; [by eexists|].
  destruct (decide (len allBody < 80)) as [Hs|Hl].
  - rewrite readResponse_short by done. by eexists.
  - rewrite readResponse_long by lia. by eexists.
Qed.

(** A reply as the peer frames it: the header, then the body. *)
Lemma readResponse_framed c h body ret :
  wf_header h →
  readResponse c (inr (Header_Bytes h ++ body)) ret
  = Done (if u32_ltb (u32 (len body)) (u32 (u32_sub (BodyLength h) PackagerLength))
          then contentError (Header_Bytes h ++ body)
          else unpackBody c (Header_Bytes h ++ body) body ret).
Proof.
  intros Hwf. pose proof (length_Header_Bytes h Hwf) as Hl.
  rewrite readResponse_long by (rewrite len_app; unfold len; rewrite Hl;
                                 unfold HeaderLength; lia).
  cbn zeta. rewrite take_app_length', drop_app_length' by done.
  rewrite Header_Init_Bytes_exact by done.
  rewrite len_app. unfold len at 1. rewrite Hl.
  by replace (Z.of_nat HeaderLength + len body - 80) with (len body)
    by (unfold HeaderLength; lia).
Qed.

Lemma readResponse_accepts c h body ret :
  wf_header h → well_framed h body →
  readResponse c (inr (Header_Bytes h ++ body)) ret
  = Done (unpackBody c (Header_Bytes h ++ body) body ret).
Proof.
  intros Hwf (Hlo & Hhi & Hmax). rewrite readResponse_framed by done.
  pose proof (wf_bodylength h Hwf) as Hb. unfold PackagerLength in *.
  rewrite u32_sub_no_borrow by (done || lia).
  rewrite !u32_small by (pose proof (len_nonneg body); unfold is_u32 in *; lia).
  by rewrite (proj2 (u32_ltb_ge _ _)) by lia.
Qed.

(** C6. A payload shorter than the fixed header width (protocol header
    plus codec name, 80 bytes) is rejected with a Response error and
    nothing is stored. *)
Theorem readResponse_rejects_short c allBody ret :
  len allBody < ProtocolLength + PackagerLength →
  readResponse c (inr allBody) ret
  = Done (Some (NewError ErrorResponse
                  ("Response Parse Error:" +:+ string_of_bytes allBody)), None).
Proof. apply readResponse_short. Qed.

(** C5. A reply whose header claims more body bytes than are present is
    rejected with a Response error and nothing is stored. *)
Theorem readResponse_rejects_truncated c h body ret :
  wf_header h →
  PackagerLength <= BodyLength h →
  len body < BodyLength h - PackagerLength →
  readResponse c (inr (Header_Bytes h ++ body)) ret
  = Done (contentError (Header_Bytes h ++ body)).
Proof.
  intros Hwf Hlo Hlt. rewrite readResponse_framed by done.
  pose proof (wf_bodylength h Hwf) as Hb. pose proof (len_nonneg body).
  unfold PackagerLength in *.
  rewrite u32_sub_no_borrow by (done || lia).
  rewrite !u32_small by (unfold is_u32 in *; lia).
  by rewrite (proj2 (u32_ltb_lt _ _)) by lia.
Qed.

(** C34. A header whose body length is below the width of the codec-name
    field makes the [uint32] subtraction wrap around: the claimed length
    becomes at least [2^32 - 8], so every reply of ordinary size is rejected
    with a Response error. *)
Theorem readResponse_rejects_undersized_length c h body ret :
  wf_header h →
  BodyLength h < PackagerLength →
  len body < 2 ^ 32 - PackagerLength →
  readResponse c (inr (Header_Bytes h ++ body)) ret
  = Done (contentError (Header_Bytes h ++ body)).
Proof.
  intros Hwf Hlo Hlt. rewrite readResponse_framed by done.
  pose proof (wf_bodylength h Hwf) as Hb. pose proof (len_nonneg body).
  unfold PackagerLength, is_u32 in *.
  rewrite u32_sub_borrow by lia.
  rewrite !u32_small by (unfold is_u32 in *; lia).
  by rewrite (proj2 (u32_ltb_lt _ _)) by lia.
Qed.

(** C35. The body length of the header is a lower bound only: when the
    reply holds more bytes than the header claims, all of them, the excess
    included, are handed to the codec as the envelope. *)
Theorem readResponse_reads_past_length c h body extra ret :
  wf_header h →
  BodyLength h = len body + PackagerLength →
  len (body ++ extra) < 2 ^ 32 →
  readResponse c (inr (Header_Bytes h ++ body ++ extra)) ret
  = Done (unpackBody c (Header_Bytes h ++ body ++ extra) (body ++ extra) ret).
Proof.
  intros Hwf Hb Hlen. apply readResponse_accepts; [done|].
  pose proof (len_nonneg body). pose proof (len_nonneg extra).
  unfold well_framed. rewrite Hb, len_app in *. unfold PackagerLength. lia.
Qed.

(** ** [unpackBody]: the peer's status and the two-stage decode *)

(** When the peer reports a status other than OK, [readResponse]
    returns a Response error carrying the peer's message and stores nothing
    into the result target. *)
Theorem readResponse_peer_error c h body ret resp :
  wf_header h → well_framed h body →
  UnpackResponse (bytes_of_string (Packager (COpt c))) body = inr resp →
  Status resp ≠ ERR_OKEY →
  readResponse c (inr (Header_Bytes h ++ body)) ret
  = Done (Some (NewError ErrorResponse (RespError resp)), None).
Proof.
  intros Hwf Hfr Hun Hst. rewrite readResponse_accepts by done.
  unfold unpackBody. rewrite Hun. by rewrite decide_True.
Qed.

(** With a nil result target a reply with status OK is accepted
    without the second decoding stage: no error, nothing stored, and the
    return value is not re-encoded. *)
Theorem readResponse_nil_target c h body resp :
  wf_header h → well_framed h body →
  UnpackResponse (bytes_of_string (Packager (COpt c))) body = inr resp →
  Status resp = ERR_OKEY →
  readResponse c (inr (Header_Bytes h ++ body)) None = Done (None, None).
Proof.
  intros Hwf Hfr Hun Hst. rewrite readResponse_accepts by done.
  unfold unpackBody. rewrite Hun. by rewrite decide_False by (intros Hn; apply Hn, Hst).
Qed.

(** [readResponse] either returns an error and stores nothing, or returns
    no error; it stores only into a non-nil target, and its errors are of
    kind Response or Packager. *)
Lemma readResponse_outcome c reader ret e stored :
  readResponse c reader ret = Done (e, stored) →
  (e = None ∨ stored = None)
  ∧ (ret = None → stored = None)
  ∧ (∀ err, e = Some err → ErrType err = ErrorResponse ∨ ErrType err = ErrorPackager).
Proof.
  destruct reader as [err|allBody]; [by intros [= <- <-]; naive_solver|].
  destruct (decide (len allBody < 80)) as [Hs|Hl].
  - rewrite readResponse_short by done. intros [= <- <-]. naive_solver.
  - rewrite readResponse_long by lia. cbn zeta. unfold contentError, unpackBody.
    repeat case_match; intros [= <- <-]; naive_solver.
Qed.

(** [readResponse] never panics: both slice expressions are guarded by
    the length check. *)
Theorem readResponse_no_panic c reader ret :
  no_panic (readResponse c reader ret) = true.
Proof. by destruct (readResponse_Done c reader ret) as [out ->]. Qed.

Section lawful_codec.
Context (fits : Target → value → Prop) {Laws : CodecLaws Pk fits}.

Lemma unpackBody_ok c allBody body target resp packData :
  UnpackResponse (bytes_of_string (Packager (COpt c))) body = inr resp →
  Status resp = ERR_OKEY →
  Pack (bytes_of_string (Packager (COpt c))) (Retval resp) = inr packData →
  fits target (Retval resp) →
  unpackBody c allBody body (Some target) = (None, Some (Retval resp)).
Proof.
  intros Hun Hst Hpack Hfit.
  unfold unpackBody. rewrite Hun, decide_False by (intros Hn; apply Hn, Hst).
  by rewrite Hpack, (unpack_pack _ _ _ _ Hpack Hfit).
Qed.

(** C9. The two-stage decode: for a well-framed reply with status OK whose
    return value has the shape of the caller's target, and which the codec
    can encode again, [readResponse] returns no error and stores exactly the
    return value of the envelope. *)
Theorem readResponse_two_stage c h body target resp packData :
  wf_header h → well_framed h body →
  UnpackResponse (bytes_of_string (Packager (COpt c))) body = inr resp →
  Status resp = ERR_OKEY →
  Pack (bytes_of_string (Packager (COpt c))) (Retval resp) = inr packData →
  fits target (Retval resp) →
  readResponse c (inr (Header_Bytes h ++ body)) (Some target)
  = Done (None, Some (Retval resp)).
Proof.
  intros Hwf Hfr Hun Hst Hpack Hfit. rewrite readResponse_accepts by done.
  by erewrite unpackBody_ok.
Qed.

(** Whatever [readResponse] stores into the target has the shape the
    target expects. *)
Theorem readResponse_stored_fits c reader target v :
  readResponse c reader (Some target) = Done (None, Some v) →
  fits target v.
Proof.
  destruct reader as [err|allBody]; [done|].
  destruct (decide (len allBody < 80)) as [Hs|Hl].
  - by rewrite readResponse_short.
  - rewrite readResponse_long by lia. cbn zeta. unfold contentError, unpackBody.
    repeat case_match; intros [= <-]; try done.
    by eapply unpack_fits.
Qed.

End lawful_codec.

End readResponse_facts.

(** ** Closed instances of the [readResponse] theorems *)

Section readResponse_witnesses.
Import RefCodec RefCodecFacts Fixtures.

Lemma wf_replyHeader body : wf_header (replyHeader body).
Proof. unfold replyHeader. auto with yar. Qed.

Lemma readResponse_rejects_short_witness :
  readResponse (Pk := codec) client (inr (take 79 (frame echoed))) (Some TString)
  = Done (Some (NewError ErrorResponse
                  ("Response Parse Error:"
                   +:+ string_of_bytes (take 79 (frame echoed)))), None).
Proof.
  apply (readResponse_rejects_short (Pk := codec)). vm_compute. reflexivity.
Defined.

Lemma readResponse_rejects_truncated_witness :
  readResponse (Pk := codec) client
    (inr (Header_Bytes (replyHeader (enc_response echoed))
          ++ take 3 (enc_response echoed))) (Some TString)
  = Done (contentError (Header_Bytes (replyHeader (enc_response echoed))
                        ++ take 3 (enc_response echoed))).
Proof.
  apply (readResponse_rejects_truncated (Pk := codec));
    [apply wf_replyHeader | vm_compute; discriminate | vm_compute; reflexivity].
Defined.

Lemma readResponse_rejects_undersized_length_witness :
  readResponse (Pk := codec) client
    (inr (Header_Bytes (set_BodyLength 5 NewHeader) ++ enc_response echoed))
    (Some TString)
  = Done (contentError (Header_Bytes (set_BodyLength 5 NewHeader)
                        ++ enc_response echoed)).
Proof.
  apply (readResponse_rejects_undersized_length (Pk := codec));
    [apply wf_set_BodyLength; [by vm_compute | apply wf_NewHeader]
    | vm_compute; reflexivity | vm_compute; reflexivity].
Defined.

Lemma well_framed_reply resp :
  len (enc_response resp) < 2 ^ 32 - 8 →
  well_framed (replyHeader (enc_response resp)) (enc_response resp).
Proof.
  intros Hlen. pose proof (len_nonneg (enc_response resp)).
  unfold well_framed, replyHeader, set_BodyLength, PackagerLength.
  cbn [BodyLength]. rewrite u32_small by (unfold is_u32; lia). lia.
Qed.

Lemma readResponse_peer_error_witness :
  readResponse (Pk := codec) client (inr (frame failed)) (Some TString)
  = Done (Some (NewError ErrorResponse "boom"), None).
Proof.
  apply (readResponse_peer_error (Pk := codec) client _ _ _ failed);
    [apply wf_replyHeader
    | apply well_framed_reply; vm_compute; reflexivity
    | vm_compute; reflexivity
    | vm_compute; discriminate].
Defined.

Lemma readResponse_nil_target_witness :
  readResponse (Pk := codec) client (inr (frame echoed)) None = Done (None, None).
Proof.
  apply (readResponse_nil_target (Pk := codec) client _ _ echoed);
    [apply wf_replyHeader
    | apply well_framed_reply; vm_compute; reflexivity
    | vm_compute; reflexivity
    | reflexivity].
Defined.

Lemma readResponse_two_stage_witness :
  readResponse (Pk := codec) client (inr (frame echoed)) (Some TString)
  = Done (None, Some (VStr "hi")).
Proof.
  apply (readResponse_two_stage (Pk := codec) (λ t v, accepts t v = true)
           client _ _ TString echoed (enc_value (VStr "hi")));
    [apply wf_replyHeader
    | apply well_framed_reply; vm_compute; reflexivity
    | vm_compute; reflexivity
    | reflexivity
    | vm_compute; reflexivity
    | reflexivity].
Defined.

Lemma readResponse_stored_fits_witness :
  accepts TString (VStr "hi") = true.
Proof.
  apply (readResponse_stored_fits (Pk := codec) (λ t v, accepts t v = true)
           client (inr (frame echoed)) TString (VStr "hi")).
  vm_compute. reflexivity.
Defined.

End readResponse_witnesses.

(** ** [httpHandler] and [Call] *)

Section httpHandler_facts.
Context `{Pk : Codec} `{Gz : Gzip} `{Nt : Net}.
Implicit Types (c : Client) (r : Request) (w : World).

(** [httpHandler] without its loops: the encoding, the request, one
    exchange, the reading of the reply. *)
Lemma httpHandler_unfold c id method ret params w :
  method ≠ "" →
  httpHandler c id method ret params w
  = match PackRequest (wireName c) (packedRequest c id method params) with
    | inl err => Done (Some (NewError ErrorPackager err), None, w)
    | inr packBody =>
        match buildRequest c (postBuffer_of c id method params packBody) with
        | inl err => Done (Some err, None, armed c w)
        | inr request =>
            '(posted, w') ← DoTimeout (hClient_of c) request (timeout_of c) (armed c w);
            '(responseErr, stored) ← finish c ret posted;
            mret (responseErr, stored, w')
        end
    end.
Proof.
  intros Hm. unfold httpHandler.
  rewrite initRequest_spec, decide_False, go_bind_Done by done.
  rewrite packRequest_spec, go_bind_Done. cbn zeta.
  fold (packedRequest c id method params).
  destruct (PackRequest _ _) as [err|packBody]; [done|].
  fold (timeout_of c). fold (armed c w).
  fold (wireHeader c id method params packBody).
  fold (postBuffer_of c id method params packBody).
  destruct (buildRequest _ _) as [err|request]; [done|].
  by destruct (DoTimeout _ _ _ _) as [[[postErr|resp] w1]|why]; go_simpl.
Qed.

Lemma httpHandler_empty_method c id ret params w :
  httpHandler c id "" ret params w
  = Done (Some (NewError ErrorParam "call empty method"), None, w).
Proof. unfold httpHandler. by rewrite initRequest_spec. Qed.

Lemma sent_armed c w : sent (armed c w) = sent w.
Proof. apply sent_set_handle. Qed.

Lemma handle_armed c w :
  handle (hClient_of c) (armed c w)
  = set_ReadTimeout (timeout_of c) (handle (hClient_of c) w).
Proof. apply handle_set_handle. Qed.

Lemma finish_no_panic c ret posted : no_panic (finish c ret posted) = true.
Proof.
  destruct posted as [|allBody]; [done|]. cbn [finish]. go_simpl.
  by destruct (readResponse_Done c (inr (responseBytes allBody)) ret) as [out ->].
Qed.

(** How far a call got, read off the world it returns: nothing happened,
    or the shared handle has the call's timeout, or in addition one
    exchange is logged. *)
Lemma httpHandler_world c id method ret params w e stored w' :
  httpHandler c id method ret params w = Done (e, stored, w') →
  (w' = w ∧ stored = None
   ∧ (method = "" ∧ e = Some (NewError ErrorParam "call empty method")
      ∨ ∃ err, e = Some (NewError ErrorPackager err)))
  ∨ (w' = armed c w ∧ stored = None
     ∧ ∃ err, e = Some (NewError ErrorNetwork err))
  ∨ (∃ conn packBody request,
       PackRequest (wireName c) (packedRequest c id method params) = inr packBody
       ∧ buildRequest c (postBuffer_of c id method params packBody) = inr request
       ∧ w' = record (exchange_of c conn request) (armed c w)
       ∧ finish c ret (exchange conn request (timeout_of c) (timeout_of c))
         = Done (e, stored)).
Proof.
  destruct (decide (method = "")) as [->|Hm].
  { rewrite httpHandler_empty_method. intros [= <- <- <-]. left. naive_solver. }
  rewrite httpHandler_unfold by done.
  destruct (PackRequest _ _) as [err|packBody] eqn:Hp.
  { intros [= <- <- <-]. left. naive_solver. }
  destruct (buildRequest _ _) as [err|request] eqn:Hb.
  { intros [= <- <- <-]. right; left. split_and!; try done.
    unfold buildRequest in Hb. repeat case_match; naive_solver. }
  destruct (DoTimeout _ _ _ _) as [[posted w1]|why] eqn:Hd; [|done]. go_simpl.
  apply DoTimeout_cases in Hd as [[-> [err ->]]|(conn & Hc & -> & ->)].
  - go_simpl. intros [= <- <- <-]. right; left. eauto.
  - rewrite handle_armed. cbn [ReadTimeout set_ReadTimeout].
    destruct (finish _ _ _) as [[e1 s1]|why] eqn:Hf; go_simpl; [|done].
    intros [= <- <- <-]. right; right. exists conn, packBody, request.
    split_and!; done.
Qed.

Lemma finish_outcome c ret posted e stored :
  finish c ret posted = Done (e, stored) →
  (e = None ∨ stored = None) ∧ (ret = None → stored = None)
  ∧ (∀ err, e = Some err →
       ErrType err = ErrorNetwork ∧ (∃ msg, posted = inl msg)
       ∨ (ErrType err = ErrorResponse ∨ ErrType err = ErrorPackager)
         ∧ ∃ resp, posted = inr resp).
Proof.
  destruct posted as [msg|resp]; cbn [finish]; go_simpl.
  - intros [= <- <-]. split_and!; [by right | done |].
    intros err [= <-]. left. eauto.
  - intros (H1 & H2 & H3)%readResponse_outcome.
    split_and!; [done..|]. intros err ->. right. eauto.
Qed.

(** An exchange appended to the log of the armed world. *)
Lemma sent_record_armed c x w : sent (record x (armed c w)) = sent w ++ [x].
Proof. unfold record. cbn [sent]. by rewrite sent_armed. Qed.

(** C29. A call performs at most one exchange, with no retry: the log of
    the world it returns is the log it started from, possibly extended by
    one exchange on the handle the options select, whose deadline and read
    timeout are the call's timeout. *)
Theorem httpHandler_one_exchange c id method ret params w e stored w' :
  httpHandler c id method ret params w = Done (e, stored, w') →
  sent w' = sent w
  ∨ ∃ x, sent w' = sent w ++ [x]
         ∧ ExHandle x = hClient_of c
         ∧ ExDeadline x = Timeout (COpt c) * Millisecond
         ∧ ExReadTimeout x = Timeout (COpt c) * Millisecond
         ∧ RequestURI (ExRequest x) = hostname c.
Proof.
  intros [(-> & _)|[(-> & _)|(conn & packBody & request & _ & Hb & -> & _)]]
    %httpHandler_world.
  - by left.
  - left. apply sent_armed.
  - right. exists (exchange_of c conn request).
    rewrite sent_record_armed. split_and!; try done.
    unfold buildRequest in Hb. by repeat case_match; simplify_eq.
Qed.

(** What each error kind of [httpHandler] says of the world returned. *)
Lemma httpHandler_errors c id method ret params w err stored w' :
  httpHandler c id method ret params w = Done (Some err, stored, w') →
  stored = None
  ∧ match ErrType err with
    | ErrorParam => method = "" ∧ w' = w
    | ErrorConfig => False
    | ErrorPackager => w' = w ∨ ∃ x, sent w' = sent w ++ [x]
    | ErrorNetwork => method ≠ "" ∧ handle (hClient_of c) w'
                      = set_ReadTimeout (timeout_of c) (handle (hClient_of c) w)
    | ErrorResponse => ∃ x, sent w' = sent w ++ [x]
    end.
Proof.
  intros H. pose proof H as Hw.
  destruct (decide (method = "")) as [->|Hm].
  { rewrite httpHandler_empty_method in H. by simplify_eq. }
  apply httpHandler_world in Hw
    as [(-> & -> & [[? _]|[msg [= ->]]])|[(-> & -> & [msg [= ->]])
       |(conn & packBody & request & _ & _ & -> & Hf)]]; try done.
  - split; [done|]. cbn. by left.
  - split; [done|]. cbn. split; [done | apply handle_armed].
  - apply finish_outcome in Hf as (Hs & _ & Hk).
    split; [by destruct Hs|].
    destruct (Hk err eq_refl) as [[-> _]|[[->| ->] _]].
    + split; [done|]. by rewrite handle_record, handle_armed.
    + eexists. apply sent_record_armed.
    + right. eexists. apply sent_record_armed.
Qed.

Lemma httpHandler_outcome c id method ret params w e stored w' :
  httpHandler c id method ret params w = Done (e, stored, w') →
  (e = None ∨ stored = None) ∧ (ret = None → stored = None).
Proof.
  intros [(_ & -> & _)|[(_ & -> & _)|(conn & packBody & request & _ & _ & _ & Hf)]]
    %httpHandler_world; [by split; [right|] ..|].
  by apply finish_outcome in Hf as (? & ? & _).
Qed.

(** ** The request on the wire *)

Lemma buildRequest_fields c post request :
  buildRequest c post = inr request →
  RequestURI request = hostname c
  ∧ ReqMethod request = "POST"
  ∧ ConnectionClose request = true
  ∧ ReqHeader request !! "Accept-Encoding"
    = (if AcceptGzip (COpt c) then Some "gzip" else None)
  ∧ ReqHeader request !! "Content-Encoding"
    = (if RequestGzip (COpt c) then Some "gzip" else None)
  ∧ (RequestGzip (COpt c) = false → ReqBody request = post).
Proof.
  unfold buildRequest.
  destruct (RequestGzip (COpt c)), (AcceptGzip (COpt c));
    repeat case_match; intros; simplify_eq; done.
Qed.

Lemma buildRequest_error c post err :
  buildRequest c post = inl err →
  ErrType err = ErrorNetwork ∧ RequestGzip (COpt c) = true.
Proof.
  unfold buildRequest. repeat case_match; intros; by simplify_eq.
Qed.

(** C20. With request compression the body of the HTTP request is the
    compressed frame and the request says so in its Content-Encoding
    header; decompressing the body gives the frame back. *)
Theorem buildRequest_gzip `{!GzipLaws Gz} c post request :
  RequestGzip (COpt c) = true →
  buildRequest c post = inr request →
  Gunzip (ReqBody request) = inr post
  ∧ ReqHeader request !! "Content-Encoding" = Some "gzip".
Proof.
  intros Hgz Hb. pose proof (buildRequest_fields _ _ _ Hb) as (_&_&_&_& Hce &_).
  rewrite Hgz in Hce. split; [|done].
  unfold buildRequest in Hb. rewrite Hgz in Hb.
  destruct (gz_Write post) as [?|g] eqn:Hw; [done|].
  destruct (gz_Close g) as [?|buf] eqn:Hc; [done|].
  repeat case_match; simplify_eq; cbn; by eapply gunzip_gzip.
Qed.

(** C22. When the peer marks the reply as compressed and it does not
    decompress, the raw bytes are read instead, without an error; when it
    does decompress, the decompressed bytes are read. *)
Theorem responseBytes_lenient resp :
  Peek "Content-Encoding" resp = "gzip" →
  match Gunzip (RespBody resp) with
  | inl _ => responseBytes resp = RespBody resp
  | inr b => responseBytes resp = b
  end.
Proof.
  intros Hce. unfold responseBytes. rewrite decide_True by done.
  by destruct (Gunzip _).
Qed.

Lemma wf_wireHeader c id method params packBody :
  wf_opt (COpt c) → wf_header (wireHeader c id method params packBody).
Proof.
  intros Hopt. unfold wireHeader, packedRequest, wireNameField.
  apply wf_set_BodyLength; [apply u32_range|].
  cbn [Protocol set_Protocol initialRequest].
  apply wf_set_Packager; [apply length_StrToFixedBytes|].
  split; cbn; rewrite ?length_StrToFixedBytes, ?length_replicate; auto with yar.
Qed.

(** C2. The body-length invariant: the bytes a call posts (without
    request compression) are the 80-byte header followed by the encoded
    request, and the header's body length is the encoded length plus the
    width of the codec-name field, at [uint32]; the other header fields are
    those of the options. *)
Theorem httpHandler_frame c id method ret params w e stored w' x :
  wf_opt (COpt c) →
  RequestGzip (COpt c) = false →
  httpHandler c id method ret params w = Done (e, stored, w') →
  sent w' = sent w ++ [x] →
  ∃ h packBody,
    ReqBody (ExRequest x) = Header_Bytes h ++ packBody
    ∧ PackRequest (wireName c) (packedRequest c id method params) = inr packBody
    ∧ wf_header h
    ∧ BodyLength h = u32 (len packBody + PackagerLength)
    ∧ (len packBody + PackagerLength < 2 ^ 32 →
       BodyLength h = len packBody + PackagerLength)
    ∧ HMagicNumber h = MagicNumber (COpt c)
    ∧ HProvider h = StrToFixedBytes (Provider (COpt c)) 28
    ∧ HToken h = StrToFixedBytes (ServiceName (COpt c)) 32
    ∧ HPackager h = StrToFixedBytes (Packager (COpt c)) 8.
Proof.
  intros Hopt Hgz
    [(-> & _)|[(-> & _)|(conn & packBody & request & Hp & Hb & -> & _)]]
    %httpHandler_world Hsent.
  - apply (f_equal length) in Hsent. rewrite length_app in Hsent. cbn in Hsent. lia.
  - rewrite sent_armed in Hsent.
    apply (f_equal length) in Hsent. rewrite length_app in Hsent. cbn in Hsent. lia.
  - rewrite sent_record_armed in Hsent. apply app_inj_tail in Hsent as [_ <-].
    apply buildRequest_fields in Hb as (_&_&_&_&_& Hbody).
    exists (wireHeader c id method params packBody), packBody.
    cbn [ExRequest exchange_of]. rewrite (Hbody Hgz).
    split_and!; try done.
    + by apply wf_wireHeader.
    + intros Hlt. cbn. apply u32_small. pose proof (len_nonneg packBody).
      unfold is_u32, PackagerLength in *. lia.
Qed.

End httpHandler_facts.

(** ** [NewClient] and [Call] *)

Lemma parseAddrNetName_schemes addr n :
  parseAddrNetName addr = inr n → n ∈ schemes.
Proof.
  unfold parseAddrNetName. destruct (String.index _ _ _); [|done].
  case_decide; [|done]. by intros [= <-].
Qed.

(** [NewClient] accepts exactly the addresses whose scheme is one of
    http, https, tcp, udp and unix; it keeps the address and the default
    options, creates a socket transport for the three socket schemes only,
    and reports a rejected address as a Param error. *)
Theorem NewClient_schemes o addr :
  match NewClient o addr with
  | inr c =>
      hostname c = addr ∧ COpt c = o ∧ parseAddrNetName addr = inr (net c)
      ∧ net c ∈ schemes
      ∧ transport c = (if decide (net c = "http" ∨ net c = "https") then None
                       else NewSock (net c) addr)
  | inl e => ErrType e = ErrorParam ∧ parseAddrNetName addr = inl (ErrMessage e)
  end.
Proof.
  unfold NewClient. destruct (parseAddrNetName addr) as [err|n] eqn:Hp; [done|].
  pose proof (parseAddrNetName_schemes _ _ Hp) as Hn.
  unfold Client_init. cbn [net hostname].
  unfold schemes in Hn. rewrite !elem_of_cons, elem_of_nil in Hn.
  destruct Hn as [->|[->|[->|[->|[->|[]]]]]]; cbn; split_and!; try done;
    unfold schemes; set_solver.
Qed.

Section Call_facts.
Context `{Pk : Codec} `{Gz : Gzip} `{Nt : Net}.
Implicit Types (c : Client) (r : Request) (w : World).

(** C10. Every [Call] on a client whose scheme is not http or https (the
    socket schemes tcp, udp and unix that [NewClient] accepts) returns a
    Config error at once: the world is returned as it was, so nothing was
    sent and no handle was written. *)
Theorem Call_socket_scheme c id method ret params w :
  ¬ (net c = "http" ∨ net c = "https") →
  Call c id method ret params w
  = Done (Some (NewError ErrorConfig "unsupported non http protocol"), None, w).
Proof. intros Hnet. unfold Call. by rewrite decide_False. Qed.

(** A call with an empty method on an HTTP client returns a Param
    error and the world as it was: no request was built, nothing was sent
    over any transport, and the shared handle's timeout was not written. *)
Theorem Call_empty_method c id ret params w :
  net c = "http" ∨ net c = "https" →
  Call c id "" ret params w
  = Done (Some (NewError ErrorParam "call empty method"), None, w).
Proof.
  intros Hnet. unfold Call. rewrite decide_True by done.
  apply httpHandler_empty_method.
Qed.

(** C8. The error kinds tell how far the call got.  A Config error is
    returned exactly on clients whose scheme is not http or https, and then
    the world is untouched.  A Param error means the method was empty and a
    Packager error from encoding means the codec refused the request: in both
    cases the world is untouched.  A Network error leaves the timeout
    written into the shared handle.  A Response error is only ever returned
    after an exchange.  In every case nothing is stored into the target. *)
Theorem Call_error_taxonomy c id method ret params w err stored w' :
  Call c id method ret params w = Done (Some err, stored, w') →
  stored = None
  ∧ (ErrType err = ErrorConfig ↔ ¬ (net c = "http" ∨ net c = "https"))
  ∧ match ErrType err with
    | ErrorParam => method = "" ∧ w' = w
    | ErrorConfig => w' = w
    | ErrorPackager => w' = w ∨ ∃ x, sent w' = sent w ++ [x]
    | ErrorNetwork => method ≠ "" ∧ handle (hClient_of c) w'
                      = set_ReadTimeout (timeout_of c) (handle (hClient_of c) w)
    | ErrorResponse => ∃ x, sent w' = sent w ++ [x]
    end.
Proof.
  unfold Call. case_decide as Hnet.
  - intros (-> & Hk)%httpHandler_errors. split_and!; [done| |].
    + split; [|done]. intros Hc. by rewrite Hc in Hk.
    + by destruct (ErrType err).
  - by intros [= <- <- <-].
Qed.

(** C7. Every call either fully succeeds or returns one error and leaves
    the result target untouched; a nil target is never written. *)
Theorem Call_no_partial_success c id method ret params w e stored w' :
  Call c id method ret params w = Done (e, stored, w') →
  (e = None ∨ stored = None) ∧ (ret = None → stored = None).
Proof.
  unfold Call. case_decide.
  - apply httpHandler_outcome.
  - intros [= <- <- <-]. by split; [right|].
Qed.

(** The world a call returns differs from the one it was given at most by
    the timeout of the handle it uses and by one logged exchange. *)
Lemma Call_world c id method ret params w e stored w' :
  Call c id method ret params w = Done (e, stored, w') →
  w' = w ∨ w' = armed c w ∨ ∃ x, w' = record x (armed c w).
Proof.
  unfold Call. case_decide; [|intros [= <- <- <-]; by left].
  intros [(-> & _)|[(-> & _)|(conn & ? & request & _ & _ & -> & _)]]
    %httpHandler_world; eauto.
Qed.

Lemma wf_world_armed c w : wf_world w → wf_world (armed c w).
Proof.
  unfold wf_world, armed. intros [H1 H2].
  by destruct (hClient_of c); cbn.
Qed.

Lemma wf_world_record x w : wf_world w → wf_world (record x w).
Proof. done. Qed.

(** The handles keep the dial functions that [init] gave them: the
    plain handle dials by default and the DNS-cache handle dials through the
    resolver, before and after every call. *)
Theorem Call_preserves_wf_world c id method ret params w e stored w' :
  wf_world w →
  Call c id method ret params w = Done (e, stored, w') →
  wf_world w'.
Proof.
  intros Hw [->|[->|[x ->]]]%Call_world;
    auto using wf_world_armed, wf_world_record.
Qed.

(** A call writes its own timeout into the handle it uses, which is
    shared by all clients, and leaves the other handle as it was: after any
    call that got as far as building the HTTP request, the read timeout of
    the shared handle is that of the last caller. *)
Theorem Call_writes_shared_timeout c id method ret params w e stored w' :
  Call c id method ret params w = Done (e, stored, w') →
  (∀ id', id' ≠ hClient_of c → handle id' w' = handle id' w)
  ∧ (w' = w
     ∨ handle (hClient_of c) w'
       = set_ReadTimeout (Timeout (COpt c) * Millisecond) (handle (hClient_of c) w)).
Proof.
  intros [->|[->|[x ->]]]%Call_world.
  - split; [done | by left].
  - split; [|right; apply handle_armed].
    intros id' Hne. unfold armed. by rewrite handle_set_handle_ne.
  - split; [|right; by rewrite handle_record, handle_armed].
    intros id' Hne. rewrite handle_record. unfold armed.
    by rewrite handle_set_handle_ne.
Qed.

(** In a world whose handles are those of [init], a call does not
    panic, provided the address the DNS-cache handle is asked to dial has a
    port. *)
Theorem Call_no_panic c id method ret params w :
  wf_world w →
  (DNSCache (COpt c) = true →
   colon ∈ bytes_of_string (addr_of_uri (hostname c))) →
  no_panic (Call c id method ret params w) = true.
Proof.
  intros [Hplain Hdns] Hport. unfold Call. case_decide; [|done].
  destruct (decide (method = "")) as [->|Hm];
    [by rewrite httpHandler_empty_method|].
  rewrite httpHandler_unfold by done.
  destruct (PackRequest _ _) as [err|packBody]; [done|].
  destruct (buildRequest _ _) as [err|request] eqn:Hb; [done|].
  apply buildRequest_fields in Hb as (Huri & _).
  apply go_bind_no_panic.
  - apply DoTimeout_no_panic. rewrite handle_armed, Huri.
    unfold connect, hClient_of. cbn [Dial set_ReadTimeout].
    destruct (DNSCache (COpt c)); cbn [handle].
    + rewrite Hdns. by apply dnsCacheDial_no_panic, Hport.
    + by rewrite Hplain.
  - intros [posted w1]. apply go_bind_no_panic; [apply finish_no_panic|].
    by intros [??].
Qed.

(** A call that reaches the peer and gets a well-framed reply returns what
    [unpackBody] makes of the reply's body. *)
Lemma Call_exchange c id method ret params w conn packBody request reply h body :
  net c = "http" ∨ net c = "https" →
  method ≠ "" →
  PackRequest (wireName c) (packedRequest c id method params) = inr packBody →
  buildRequest c (postBuffer_of c id method params packBody) = inr request →
  connect (handle (hClient_of c) w) (addr_of_uri (hostname c)) = Done (inr conn) →
  exchange conn request (timeout_of c) (timeout_of c) = inr reply →
  responseBytes reply = Header_Bytes h ++ body →
  wf_header h → well_framed h body →
  Call c id method ret params w
  = Done (unpackBody c (Header_Bytes h ++ body) body ret,
          record (exchange_of c conn request) (armed c w)).
Proof.
  intros Hnet Hm Hp Hb Hconn Hex Hbytes Hwf Hfr.
  unfold Call. rewrite decide_True, httpHandler_unfold, Hp, Hb by done.
  pose proof (buildRequest_fields _ _ _ Hb) as (Huri & _).
  unfold DoTimeout. cbn zeta. rewrite handle_armed, Huri.
  change (connect (set_ReadTimeout ?t ?h)) with (connect h).
  rewrite Hconn. go_simpl. cbn [ReadTimeout set_ReadTimeout].
  rewrite Hex. cbn [finish].
  rewrite Hbytes, readResponse_accepts by done. go_simpl.
  by destruct (unpackBody _ _ _ _).
Qed.

(** A successful call, step by step: when the codec encodes the
    request, the handle connects, the peer answers with a well-framed reply
    whose envelope has status OK and whose return value has the shape of the
    target, the call returns no error, stores exactly that return value, and
    leaves one exchange in the log and its timeout in the shared handle. *)
Theorem Call_success (fits : Target → value → Prop) {Laws : CodecLaws Pk fits}
    c id method target params w conn packBody request reply h body resp packData :
  net c = "http" ∨ net c = "https" →
  method ≠ "" →
  PackRequest (wireName c) (packedRequest c id method params) = inr packBody →
  buildRequest c (postBuffer_of c id method params packBody) = inr request →
  connect (handle (hClient_of c) w) (addr_of_uri (hostname c)) = Done (inr conn) →
  exchange conn request (timeout_of c) (timeout_of c) = inr reply →
  responseBytes reply = Header_Bytes h ++ body →
  wf_header h → well_framed h body →
  UnpackResponse (bytes_of_string (Packager (COpt c))) body = inr resp →
  Status resp = ERR_OKEY →
  Pack (bytes_of_string (Packager (COpt c))) (Retval resp) = inr packData →
  fits target (Retval resp) →
  Call c id method (Some target) params w
  = Done (None, Some (Retval resp), record (exchange_of c conn request) (armed c w)).
Proof.
  intros Hnet Hm Hp Hb Hconn Hex Hbytes Hwf Hfr Hun Hst Hpack Hfit.
  erewrite Call_exchange by done. by erewrite unpackBody_ok.
Qed.

(** C18. A call is type safe: it stores a value only when it returns no
    error and the caller gave a target, and the value it stores has the shape
    the target expects. *)
Theorem Call_stored_fits (fits : Target → value → Prop) {Laws : CodecLaws Pk fits}
    c id method ret params w e v w' :
  Call c id method ret params w = Done (e, Some v, w') →
  e = None ∧ ∃ target, ret = Some target ∧ fits target v.
Proof.
  unfold Call. case_decide; [|done]. intros Hh.
  pose proof (httpHandler_outcome _ _ _ _ _ _ _ _ _ Hh) as [[->|[=]] Hret].
  split; [done|]. destruct ret as [target|]; [|by discriminate Hret].
  exists target. split; [done|].
  apply httpHandler_world in Hh
    as [(_ & [=] & _)|[(_ & [=] & _)|(conn & pb & req & _ & _ & _ & Hf)]].
  destruct (exchange _ _ _ _) as [msg|resp]; cbn [finish] in Hf; [done|].
  by eapply (readResponse_stored_fits fits).
Qed.

End Call_facts.

Lemma wf_world_init : wf_world init.
Proof. done. Qed.

(** ** Closed instances of the [httpHandler] and [Call] theorems *)

Section Call_witnesses.
Import RefCodec RefCodecFacts RefGzip RefNet Fixtures.

Lemma packRequest_name_asymmetry_witness :
  ∃ sendPackager,
    sendPackager_of "refcodec-version-2" = Done sendPackager
    ∧ len sendPackager = PackagerLength
    ∧ sendPackager ≠ bytes_of_string "refcodec-version-2".
Proof.
  destruct (packRequest_name_asymmetry (Pk := codec)
    (mkClient "http://h" "http" None
       (mkOpt 1 "p" "t" "refcodec-version-2" 1 false false false))
    (NewRequest 7)) as (sp & H1 & H2 & H3 & _); [vm_compute; reflexivity|].
  by exists sp.
Defined.

Lemma readResponse_reads_past_length_witness :
  readResponse (Pk := codec) client (inr (frame echoed ++ [x00])) (Some TString)
  = Done (Some (NewError ErrorPackager "Unpack Error:trailing bytes"), None).
Proof.
  unfold frame. rewrite <-app_assoc.
  rewrite (readResponse_reads_past_length (Pk := codec));
    [vm_compute; reflexivity | apply wf_replyHeader | vm_compute; reflexivity
    | vm_compute; reflexivity].
Defined.

Lemma httpHandler_one_exchange_witness :
  ∃ e stored w',
    echoCall client echoed = Done (e, stored, w')
    ∧ (sent w' = sent init
       ∨ ∃ x, sent w' = sent init ++ [x]
              ∧ ExHandle x = hClient_of client
              ∧ ExDeadline x = Timeout (COpt client) * Millisecond
              ∧ ExReadTimeout x = Timeout (COpt client) * Millisecond
              ∧ RequestURI (ExRequest x) = hostname client).
Proof.
  do 3 eexists. split; [vm_compute; reflexivity|].
  eapply (httpHandler_one_exchange (Pk := codec) (Gz := gzip) (Nt := peer echoed)
            client 7 "Echo" (Some TString) (Some [VStr "hi"]) init).
  vm_compute. reflexivity.
Defined.

Lemma httpHandler_frame_witness :
  ∃ h packBody,
    PackRequest (wireName client)
      (packedRequest client 7 "Echo" (Some [VStr "hi"])) = inr packBody
    ∧ wf_header h
    ∧ BodyLength h = len packBody + PackagerLength
    ∧ HPackager h = bytes_of_string "refcodec".
Proof.
  edestruct (httpHandler_frame (Pk := codec) (Gz := gzip) (Nt := peer echoed)
    client 7 "Echo" (Some TString) (Some [VStr "hi"]) init)
    as (h & packBody & _ & Hp & Hwf & _ & Hlen & _ & _ & _ & Hk);
    [by vm_compute | reflexivity | vm_compute; reflexivity
    | vm_compute; reflexivity |].
  exists h, packBody. split_and!; [exact Hp | exact Hwf | | exact Hk].
  apply Hlen. injection Hp as <-. vm_compute. reflexivity.
Defined.

Lemma buildRequest_gzip_witness :
  ∃ request,
    buildRequest (Gz := gzip) gzClient (bytes_of_string "frame") = inr request
    ∧ gunzip (ReqBody request) = inr (bytes_of_string "frame")
    ∧ ReqHeader request !! "Content-Encoding" = Some "gzip".
Proof.
  eexists. split; [reflexivity|].
  apply (buildRequest_gzip (Gz := gzip) gzClient (bytes_of_string "frame"));
    reflexivity.
Defined.

Lemma responseBytes_lenient_witness :
  responseBytes (Gz := gzip)
    {| RespHeader := {[ "Content-Encoding" := "gzip" ]};
       RespBody := frame echoed |}
  = frame echoed.
Proof.
  exact (responseBytes_lenient (Gz := gzip)
           {| RespHeader := {[ "Content-Encoding" := "gzip" ]};
              RespBody := frame echoed |} eq_refl).
Defined.

Lemma Call_socket_scheme_witness :
  NewClient opt "tcp://10.0.0.9:4000" = inr tcpClient
  ∧ Call (Pk := codec) (Gz := gzip) (Nt := peer echoed) tcpClient 7 "Echo"
      (Some TString) (Some [VStr "hi"]) init
    = Done (Some (NewError ErrorConfig "unsupported non http protocol"), None, init).
Proof.
  split; [reflexivity|].
  apply (Call_socket_scheme (Pk := codec)). by intros [|].
Defined.

Lemma Call_empty_method_witness :
  Call (Pk := codec) (Gz := gzip) (Nt := peer echoed) client 7 ""
    (Some TString) (Some [VStr "hi"]) init
  = Done (Some (NewError ErrorParam "call empty method"), None, init).
Proof. apply (Call_empty_method (Pk := codec)). by left. Defined.

Lemma Call_error_taxonomy_witness :
  ∃ w', echoCall client failed
        = Done (Some (NewError ErrorResponse "boom"), None, w')
        ∧ ∃ x, sent w' = sent init ++ [x].
Proof.
  eexists. split; [vm_compute; reflexivity|].
  edestruct (Call_error_taxonomy (Pk := codec) (Gz := gzip) (Nt := peer failed)
    client 7 "Echo" (Some TString) (Some [VStr "hi"]) init)
    as (_ & _ & Hk); [vm_compute; reflexivity|].
  exact Hk.
Defined.

Lemma Call_no_partial_success_witness :
  ∃ e stored w',
    echoCall client failed = Done (e, stored, w')
    ∧ (e = None ∨ stored = None) ∧ (Some TString = None → stored = None).
Proof.
  do 3 eexists. split; [vm_compute; reflexivity|].
  eapply (Call_no_partial_success (Pk := codec) (Gz := gzip) (Nt := peer failed)
            client 7 "Echo" (Some TString) (Some [VStr "hi"]) init).
  vm_compute. reflexivity.
Defined.

Lemma Call_preserves_wf_world_witness :
  ∃ e stored w',
    echoCall gzClient echoed = Done (e, stored, w')
    ∧ wf_world w'.
Proof.
  do 3 eexists. split; [vm_compute; reflexivity|].
  eapply (Call_preserves_wf_world (Pk := codec) (Gz := gzip) (Nt := peer echoed)
            gzClient 7 "Echo" (Some TString) (Some [VStr "hi"]) init);
    [apply wf_world_init | vm_compute; reflexivity].
Defined.

Lemma Call_writes_shared_timeout_witness :
  ∃ e stored w',
    echoCall gzClient echoed = Done (e, stored, w')
    ∧ (∀ id', id' ≠ hClient_of gzClient →
         handle id' w' = handle id' init)
    ∧ (w' = init
       ∨ handle (hClient_of gzClient) w'
         = set_ReadTimeout (Timeout (COpt gzClient) * Millisecond)
             (handle (hClient_of gzClient) init)).
Proof.
  do 3 eexists. split; [vm_compute; reflexivity|].
  eapply (Call_writes_shared_timeout (Pk := codec) (Gz := gzip)
            (Nt := peer echoed) gzClient 7 "Echo" (Some TString)
            (Some [VStr "hi"]) init).
  vm_compute. reflexivity.
Defined.

Lemma Call_no_panic_witness :
  no_panic (echoCall gzClient echoed) = true.
Proof.
  apply (Call_no_panic (Pk := codec) (Gz := gzip) (Nt := peer echoed));
    [apply wf_world_init | intros _; by_compute].
Defined.

Lemma Call_success_witness :
  ∃ x, echoCall gzClient echoed
       = Done (None, Some (VStr "hi"), record x (armed gzClient init)).
Proof.
  eexists.
  eapply (Call_success (Pk := codec) (Gz := gzip) (Nt := peer echoed)
           (λ t v, accepts t v = true) gzClient 7 "Echo" TString
           (Some [VStr "hi"]) init "10.0.0.1:8080" _ _ _
           (replyHeader (enc_response echoed)) (enc_response echoed) echoed
           (enc_value (VStr "hi")));
    first [ by left | done | apply wf_replyHeader
          | apply well_framed_reply; vm_compute; reflexivity
          | vm_compute; reflexivity ].
Defined.

Lemma Call_stored_fits_witness :
  ∃ e v w',
    echoCall gzClient echoed = Done (e, Some v, w')
    ∧ e = None ∧ ∃ target, Some TString = Some target ∧ accepts target v = true.
Proof.
  do 3 eexists. split; [vm_compute; reflexivity|].
  eapply (Call_stored_fits (Pk := codec) (Gz := gzip) (Nt := peer echoed)
            (λ t v, accepts t v = true)
            gzClient 7 "Echo" (Some TString) (Some [VStr "hi"]) init).
  vm_compute. reflexivity.
Defined.

End Call_witnesses.
