(* ===== verification/Peer.v ===== *)
(** * Peer: a reference server, and the call as a remote procedure call

    The client's contract is with a peer that speaks the same framing.  This
    file gives such a peer for the reference codec: [serve] reads the posted
    frame (decompressing it when the request says it is compressed), decodes
    the request, applies a service function and frames the encoded response
    (compressed when the request accepts that).  Against this peer [Call] is
    a remote procedure call: [Call_serves] shows that it returns the value
    the service computes, for every setting of the compression flags, which
    is the refinement of the abstract contract [rpc] by the code of
    [src/client/client.go].  [Call_long_codec_name] shows what happens
    instead when the configured codec name is longer than the 8 bytes of its
    header field. *)

From stdpp Require Import gmap.
From S2P Require Import Prelude.
From S2P Require Import Wire.
From S2P Require Import Yar.
From S2P Require Import Packager.
From S2P Require Import Transport.
From S2P Require Import Client.

Import RefCodec RefGzip RefNet.

(** * Definitions *)

(** A service: the response to a correlation id, a method and its
    parameters. *)
Definition Service : Type := Z → string → value → Response.

(** The abstract contract of a call: the return value of the service on the
    request as the client sends it (the id at 32 bits, absent parameters as
    the empty sequence). *)
Definition rpc (service : Service) (id : Z) (method : string)
    (params : option (list value)) : Response :=
  service (u32 id) method (VList (default [] params)).

(** The bytes posted, decompressed when the request says so. *)
Definition request_bytes (req : HttpRequest) : string + list byte :=
  if decide (ReqHeader req !! "Content-Encoding" = Some "gzip")
  then gunzip (ReqBody req)
  else inr (ReqBody req).

(** The reply that carries [bytes], compressed when the request accepts
    it. *)
Definition reply_with (req : HttpRequest) (bytes : list byte) : HttpResponse :=
  if decide (ReqHeader req !! "Accept-Encoding" = Some "gzip")
  then {| RespHeader := {[ "Content-Encoding" := "gzip" ]};
          RespBody := magic ++ bytes |}
  else {| RespHeader := ∅; RespBody := bytes |}.

(** The frame of a response: the request's header with the body length of
    the response, then the encoded response. *)
Definition frame_response (h : Header) (resp : Response) : list byte :=
  let out := enc_response resp in
  Header_Bytes (set_BodyLength (u32 (len out + PackagerLength)) h) ++ out.

Definition serve (service : Service) (req : HttpRequest)
    : string + HttpResponse :=
  match request_bytes req with
  | inl err => inl err
  | inr post =>
      if decide (len post < ProtocolLength + PackagerLength)
      then inl "short request"
      else
        let h := Header_Init NewHeader (take HeaderLength post) in
        if known (HPackager h) then
          match dec_request (drop HeaderLength post) with
          | inl err => inl err
          | inr (id, method, params) =>
              inr (reply_with req (frame_response h (service id method params)))
          end
        else inl unsupported
  end.

(** The network whose peer is [serve service]. *)
Definition served (lookup : string → string + list string)
    (service : Service) : Net :=
  scripted lookup (serve service).

(** A service for the examples: [Echo] returns its first parameter, any
    other method fails with status 1. *)
Definition echo : Service := λ id method params,
  match params with
  | VList (v :: _) =>
      if decide (method = "Echo") then mkResponse id ERR_OKEY "" v
      else mkResponse id 1 "no such method" VNil
  | _ => mkResponse id 1 "no parameter" VNil
  end.

(** The network of the examples, and a client whose codec name is longer
    than its header field. *)
Definition echoNet : Net := served (resolve_all ["10.0.0.1"]) echo.


(** * Lemmas *)

Section gzip_facts.
Context (c : Client) (post : list byte).

(** With the stand-in compressor the HTTP request is always built, and the
    peer reads the posted bytes back from it. *)
Lemma buildRequest_served :
  ∃ request,
    buildRequest (Gz := gzip) c post = inr request
    ∧ request_bytes request = inr post
    ∧ ReqHeader request !! "Accept-Encoding"
      = (if AcceptGzip (COpt c) then Some "gzip" else None).
Proof.
  unfold buildRequest, request_bytes.
  destruct (RequestGzip (COpt c)), (AcceptGzip (COpt c));
    eexists; split_and!; done.
Qed.

End gzip_facts.

(** The client reads the framed bytes back from the peer's reply. *)
Lemma responseBytes_reply_with req bytes :
  responseBytes (Gz := gzip) (reply_with req bytes) = bytes.
Proof.
  unfold reply_with, responseBytes, Peek.
  destruct (decide (_ = Some "gzip")); cbn [RespHeader RespBody].
  - by rewrite lookup_singleton_eq.
  - by rewrite lookup_empty.
Qed.

Lemma frame_response_well_framed h resp :
  wf_header h →
  len (enc_response resp) < 2 ^ 32 - PackagerLength →
  wf_header (set_BodyLength (u32 (len (enc_response resp) + PackagerLength)) h)
  ∧ well_framed
      (set_BodyLength (u32 (len (enc_response resp) + PackagerLength)) h)
      (enc_response resp).
Proof.
  intros Hwf Hlen. pose proof (len_nonneg (enc_response resp)).
  split; [apply wf_set_BodyLength; [apply u32_range | done]|].
  unfold well_framed, PackagerLength in *. cbn [BodyLength set_BodyLength].
  rewrite u32_small by (unfold is_u32; lia). lia.
Qed.

(** The header field of a client whose codec is selected by the name of the
    reference codec. *)
Lemma wireNameField_known c :
  wireName c = codec_name → known (wireNameField c) = true.
Proof.
  intros Hn. unfold wireNameField, StrToFixedBytes.
  rewrite <-resize_take_8. fold (wireName c). by rewrite Hn.
Qed.

Section serve_facts.
Context (service : Service) (c : Client).
Context (id : Z) (method : string) (params : option (list value)).
Context (Hopt : wf_opt (COpt c)) (Hname : wireName c = codec_name).

(** What the peer answers to the request of a call. *)
Lemma serve_request request :
  request_bytes request
  = inr (postBuffer_of c id method params
           (enc_request (packedRequest c id method params))) →
  serve service request
  = inr (reply_with request
           (frame_response
              (wireHeader c id method params
                 (enc_request (packedRequest c id method params)))
              (rpc service id method params))).
Proof.
  intros Hpost. unfold serve. rewrite Hpost. unfold postBuffer_of.
  pose proof (wf_wireHeader c id method params
                (enc_request (packedRequest c id method params)) Hopt) as Hwf.
  pose proof (length_Header_Bytes _ Hwf) as Hl.
  rewrite decide_False
    by (rewrite len_app; unfold len at 1; rewrite Hl;
        pose proof (len_nonneg (enc_request (packedRequest c id method params)));
        unfold ProtocolLength, PackagerLength, HeaderLength; lia).
  rewrite take_app_length', drop_app_length' by done.
  cbn zeta. rewrite Header_Init_Bytes_exact by done.
  change (HPackager (wireHeader _ _ _ _ _)) with (wireNameField c).
  rewrite wireNameField_known by done.
  by rewrite RefCodecFacts.dec_enc_request.
Qed.

End serve_facts.

(** * The call against the peer *)

Section call_served.
Context (lookup : string → string + list string) (service : Service).
Context (c : Client) (w : World) (conn : Conn).
Context (id : Z) (method : string) (params : option (list value)).
Context (Hnet : net c = "http" ∨ net c = "https") (Hm : method ≠ "").
Context (Hopt : wf_opt (COpt c)) (Hname : wireName c = codec_name).
Context (Hconn :
  connect (H := served lookup service) (handle (hClient_of c) w)
    (host_port (hostname c)) = Done (inr conn)).
Context (Hlen : len (enc_response (rpc service id method params))
                < 2 ^ 32 - PackagerLength).

(** The call reaches the peer, and what it returns is what [unpackBody]
    makes of the encoded response of the service. *)
Lemma Call_served ret :
  ∃ x h,
    Call (Nt := served lookup service) c id method ret params w
    = Done (unpackBody c
              (Header_Bytes h ++ enc_response (rpc service id method params))
              (enc_response (rpc service id method params)) ret,
            record x (armed c w))
    ∧ ExHandle x = hClient_of c.
Proof.
  set (packBody := enc_request (packedRequest c id method params)).
  destruct (buildRequest_served c (postBuffer_of c id method params packBody))
    as (request & Hb & Hpost & _).
  pose proof (wf_wireHeader c id method params packBody Hopt) as Hwf.
  destruct (frame_response_well_framed _ _ Hwf Hlen) as [Hwf' Hfr].
  eexists (exchange_of c conn request), _. split; [|done].
  eapply (Call_exchange (Nt := served lookup service)); try done.
  - by rewrite RefCodecFacts.PackRequest_known by (by rewrite Hname).
  - cbn [exchange served scripted]. by erewrite serve_request.
  - apply responseBytes_reply_with.
Qed.

(** C1. The call as a remote procedure call.  Against a peer that serves
    [service] with the reference codec, on a client whose codec name selects
    that codec, a call with a non-empty method for which the service answers
    with status OK and with a value of the target's shape returns no error
    and stores the value the service computed on the method and parameters
    given, whatever the compression flags are; one exchange is logged. *)
Theorem Call_serves target :
  Packager (COpt c) = "refcodec" →
  Status (rpc service id method params) = ERR_OKEY →
  accepts target (Retval (rpc service id method params)) = true →
  ∃ x, Call (Nt := served lookup service) c id method (Some target) params w
       = Done (None, Some (Retval (rpc service id method params)),
               record x (armed c w)).
Proof.
  intros Hcodec Hst Hfit. destruct (Call_served (Some target)) as (x & h & -> & _).
  exists x. do 2 f_equal.
  eapply (@unpackBody_ok codec _ RefCodecFacts.codec_laws); try done.
  - rewrite Hcodec. by apply RefCodecFacts.UnpackResponse_enc.
  - rewrite Hcodec. by apply RefCodecFacts.Pack_known.
Qed.

(** When the peer reports a failure status the call returns a
    Response error with the message of the service and stores nothing. *)
Theorem Call_service_failure ret :
  Packager (COpt c) = "refcodec" →
  Status (rpc service id method params) ≠ ERR_OKEY →
  ∃ x, Call (Nt := served lookup service) c id method ret params w
       = Done (Some (NewError ErrorResponse
                       (RespError (rpc service id method params))), None,
               record x (armed c w)).
Proof.
  intros Hcodec Hst. destruct (Call_served ret) as (x & h & -> & _).
  exists x. do 2 f_equal. unfold unpackBody.
  rewrite Hcodec, RefCodecFacts.UnpackResponse_enc by done.
  by rewrite decide_True.
Qed.


End call_served.

(** ** Closed instances *)

Section served_witnesses.
Import Fixtures.

Lemma Call_serves_witness :
  ∃ x, Call (Nt := echoNet) gzClient 7 "Echo" (Some TString)
         (Some [VStr "hi"]) init
       = Done (None, Some (VStr "hi"), record x (armed gzClient init)).
Proof.
  apply (Call_serves (resolve_all ["10.0.0.1"]) echo gzClient init
           "10.0.0.1:8080" 7 "Echo" (Some [VStr "hi"]));
    first [ by left | done | vm_compute; reflexivity ].
Defined.

Lemma Call_service_failure_witness :
  ∃ x, Call (Nt := echoNet) gzClient 7 "Reverse" (Some TString)
         (Some [VStr "hi"]) init
       = Done (Some (NewError ErrorResponse "no such method"), None,
               record x (armed gzClient init)).
Proof.
  apply (Call_service_failure (resolve_all ["10.0.0.1"]) echo gzClient init
           "10.0.0.1:8080" 7 "Reverse" (Some [VStr "hi"]));
    first [ by left | done | vm_compute; reflexivity ].
Defined.


End served_witnesses.
