(* ===== verification/Interleave.v ===== *)
(** * Interleave: calls that share a handle

    Clients are meant to be shared and called from many goroutines, and the
    two HTTP handles are package variables.  [httpHandler] touches the shared
    state twice: it writes its timeout into the handle (line 235 of
    [src/client/client.go]) and later [DoTimeout] reads the handle when it
    performs the exchange (line 276).  Everything else is local to the call.

    This file splits a call at these two points into the atomic actions
    [arm] and [post], shows that the two in a row are [Call]
    ([Call_arm_post]), and lets any number of calls interleave their actions
    in the step relation [step]; a call that returns is a run of that
    relation ([Call_steps]) and a complete run of a single call is [Call]
    ([steps_Call]).  A pool terminates ([runs_bounded]), never gets stuck
    on a panic ([pool_never_stuck]) and can always be run until every call
    has returned ([pool_completes]).  By induction on the steps, a pool of calls
    whose clients agree on the timeout only performs exchanges under that
    timeout ([uniform_timeouts]); when they do not agree, a call can perform
    its exchange under the read timeout of another call
    ([read_timeout_race]). *)

From stdpp Require Import gmap relations.
From S2P Require Import Prelude Wire Yar Packager Transport Client.

(** * Definitions *)

(** The arguments of a call, with the correlation id drawn for it. *)
Record CallArgs `{Codec} : Type := mkCallArgs {
  who : Client;
  cid : Z;
  cmethod : string;
  cret : option Target;
  cparams : option (list value);
}.

Arguments mkCallArgs {_} _ _ _ _ _.

(** Where a call is: before the write to the handle, between the write and
    the exchange with the HTTP request it has built, or returned. *)
Inductive Stage : Type :=
  | Start
  | Armed (request : HttpRequest)
  | Returned (e : option Error) (stored : option value).

Section interleave.
Context `{Pk : Codec} `{Gz : Gzip} `{Nt : Net}.

(** [Call] and [httpHandler] up to line 272: the request is built and the
    timeout is written into the shared handle. *)
Definition arm (k : CallArgs) (w : World) : go (Stage * World) :=
  let c := who k in
  if decide (net c = "http" ∨ net c = "https") then
    r ← initRequest c (cid k) (cmethod k) (cparams k);
    match r with
    | inl err => mret (Returned (Some err) None, w)
    | inr r =>
        '(packed, r) ← packRequest c r;
        match packed with
        | inl err => mret (Returned (Some err) None, w)
        | inr packBody =>
            let r := set_Protocol
                       (set_BodyLength (u32 (len packBody + PackagerLength))
                          (Protocol r)) r in
            let postBuffer := Header_Bytes (Protocol r) ++ packBody in
            let hClient := hClient_of c in
            let timeout := Timeout (COpt c) * Millisecond in
            let w := set_handle hClient
                       (set_ReadTimeout timeout (handle hClient w)) w in
            match buildRequest c postBuffer with
            | inl err => mret (Returned (Some err) None, w)
            | inr request => mret (Armed request, w)
            end
        end
    end
  else
    mret (Returned (Some (NewError ErrorConfig "unsupported non http protocol"))
            None, w).

(** [httpHandler] from line 274: the exchange on the handle as it is now,
    and the reading of the reply. *)
Definition post (k : CallArgs) (request : HttpRequest) (w : World)
    : go (Stage * World) :=
  let c := who k in
  '(posted, w) ← DoTimeout (hClient_of c) request (Timeout (COpt c) * Millisecond) w;
  match posted with
  | inl postErr => mret (Returned (Some (NewError ErrorNetwork postErr)) None, w)
  | inr resp =>
      '(responseErr, stored) ← readResponse c (inr (responseBytes resp)) (cret k);
      mret (Returned responseErr stored, w)
  end.

(** The next action of a call, if it has one. *)
Definition advance (k : CallArgs) (s : Stage) (w : World)
    : option (go (Stage * World)) :=
  match s with
  | Start => Some (arm k w)
  | Armed request => Some (post k request w)
  | Returned _ _ => None
  end.

(** The two actions in a row. *)
Definition arm_post (k : CallArgs) (w : World)
    : go (option Error * option value * World) :=
  '(s, w) ← arm k w;
  match s with
  | Armed request =>
      '(s, w) ← post k request w;
      match s with
      | Returned e stored => mret (e, stored, w)
      | _ => Panic "unreachable"
      end
  | Returned e stored => mret (e, stored, w)
  | Start => Panic "unreachable"
  end.

(** A pool of calls in front of the shared world. *)
Definition Pool : Type := list (CallArgs * Stage).
Definition Config : Type := World * Pool.

(** One call of the pool performs its next action. *)
Inductive step : Config → Config → Prop :=
  | step_call w w' t1 t2 k s s' :
      advance k s w = Some (Done (s', w')) →
      step (w, t1 ++ (k, s) :: t2) (w', t1 ++ (k, s') :: t2).

(** The calls of a pool, whatever their stages. *)
Definition calls (t : Pool) : list CallArgs := t.*1.

(** All calls of the pool that use handle [h] have the timeout [T]. *)
Definition agree (h : HandleId) (T : Z) (t : Pool) : Prop :=
  ∀ k, k ∈ calls t → hClient_of (who k) = h → timeout_of (who k) = T.

(** While a call on [h] is between its write and its exchange the handle
    holds [T]. *)
Definition held (h : HandleId) (T : Z) (ρ : Config) : Prop :=
  ∀ k request, (k, Armed request) ∈ ρ.2 → hClient_of (who k) = h →
    ReadTimeout (handle h ρ.1) = T.

(** The invariant of a pool that agrees on [T]: every exchange on [h] was
    performed under [T], and the handle is held. *)
Definition timeouts_ok (h : HandleId) (T : Z) (ρ : Config) : Prop :=
  (∀ x, x ∈ sent ρ.1 → ExHandle x = h →
        ExReadTimeout x = T ∧ ExDeadline x = T)
  ∧ held h T ρ.

(** The requests the calls hold are addressed to their clients. *)
Definition addressed (t : Pool) : Prop :=
  ∀ k request, (k, Armed request) ∈ t → RequestURI request = hostname (who k).

(** The addresses the DNS-cache handle is asked to dial have a port. *)
Definition ported (t : Pool) : Prop :=
  ∀ k, k ∈ calls t → DNSCache (COpt (who k)) = true →
       colon ∈ bytes_of_string (addr_of_uri (hostname (who k))).

(** A configuration in which no call can fail to take its next action: the
    handles are those of [init], and the pool is addressed and ported. *)
Definition sound (ρ : Config) : Prop :=
  wf_world ρ.1 ∧ addressed ρ.2 ∧ ported ρ.2.

(** All calls have returned. *)
Definition finished (t : Pool) : Prop :=
  ∀ k s, (k, s) ∈ t → ∃ e stored, s = Returned e stored.

(** The actions a call has still to perform, and those of a pool. *)
Definition todo (s : Stage) : nat :=
  match s with Start => 2 | Armed _ => 1 | Returned _ _ => 0 end.

Definition remaining (t : Pool) : nat := sum_list_with (λ ks, todo ks.2) t.

(** The pool in which no call has started. *)
Definition fresh (ks : list CallArgs) : Pool := (λ k, (k, Start)) <$> ks.

End interleave.

(** ** Two calls with different timeouts, for the examples *)

Module Race.
Import RefCodec RefGzip RefNet Fixtures.

Definition slow : CallArgs (H := codec) :=
  mkCallArgs client 7 "Echo" (Some TString) (Some [VStr "hi"]).

Definition quickClient : Client :=
  {| hostname := "http://svc.local/api"; net := "http"; transport := None;
     COpt := {| MagicNumber := 0x80DFEC60; Provider := "svcB";
                ServiceName := "tokenY"; Packager := "refcodec";
                Timeout := 50; RequestGzip := false;
                AcceptGzip := false; DNSCache := false |} |}.

Definition quick : CallArgs (H := codec) :=
  mkCallArgs quickClient 8 "Echo" (Some TString) (Some [VStr "ho"]).

End Race.

(** * Lemmas *)

Section interleave_facts.
Context `{Pk : Codec} `{Gz : Gzip} `{Nt : Net}.
Implicit Types (k : CallArgs) (w : World) (t : Pool) (ρ : Config).

(** ** The actions *)

Lemma arm_cases k w s w' :
  arm k w = Done (s, w') →
  (w' = w ∧ ∃ e, s = Returned (Some e) None)
  ∨ (w' = armed (who k) w
     ∧ ((∃ e, s = Returned (Some e) None) ∨ ∃ request, s = Armed request)).
Proof.
  unfold arm. case_decide; [|intros [= <- <-]; left; eauto].
  destruct (initRequest _ _ _ _) as [[err|r]|]; go_simpl; [|  |done].
  { intros [= <- <-]. left. eauto. }
  destruct (packRequest _ _) as [[[err|packBody] r']|]; go_simpl; [|  |done].
  { intros [= <- <-]. left. eauto. }
  cbn zeta. fold (timeout_of (who k)). fold (armed (who k) w).
  destruct (buildRequest _ _); intros [= <- <-]; right; eauto.
Qed.

Lemma post_cases k request w s w' :
  post k request w = Done (s, w') →
  (∃ e stored, s = Returned e stored)
  ∧ (w' = w
     ∨ ∃ conn, w' = record (mkExchange (hClient_of (who k)) conn request
                              (ReadTimeout (handle (hClient_of (who k)) w))
                              (timeout_of (who k))) w).
Proof.
  unfold post. cbn zeta.
  destruct (DoTimeout _ _ _ _) as [[posted w1]|] eqn:Hd; go_simpl; [|done].
  apply DoTimeout_cases in Hd as [[-> [err ->]]|(conn & _ & -> & ->)].
  - intros [= <- <-]. eauto.
  - destruct (exchange _ _ _ _) as [postErr|resp].
    + intros [= <- <-]. split; [eauto|]. right. by exists conn.
    + destruct (readResponse _ _ _) as [[e stored]|]; go_simpl; [|done].
      intros [= <- <-]. split; [eauto|]. right. by exists conn.
Qed.

(** The two actions of a call, one after the other with nothing in
    between, are [Call]: the same result and the same world. *)
Theorem Call_arm_post k w :
  Call (who k) (cid k) (cmethod k) (cret k) (cparams k) w = arm_post k w.
Proof.
  unfold Call, arm_post, arm, post, httpHandler. case_decide; [|done].
  destruct (initRequest _ _ _ _) as [[err|r]|]; go_simpl; [done| |done].
  destruct (packRequest _ _) as [[[err|packBody] r']|]; go_simpl; [done| |done].
  cbn zeta. destruct (buildRequest _ _) as [err|request]; go_simpl; [done|].
  destruct (DoTimeout _ _ _ _) as [[[postErr|resp] w1]|]; go_simpl; [done| |done].
  by destruct (readResponse _ _ _) as [[e stored]|]; go_simpl.
Qed.

(** ** The pool *)

(** A call is a run of the pool: when [Call] returns, the pool in which
    that call has not started reaches, by the steps of that call alone, the
    pool in which it has returned the same error and stored value, in front
    of the same world. *)
Theorem Call_steps k w e stored w' t1 t2 :
  Call (who k) (cid k) (cmethod k) (cret k) (cparams k) w = Done (e, stored, w') →
  rtc step (w, t1 ++ (k, Start) :: t2) (w', t1 ++ (k, Returned e stored) :: t2).
Proof.
  rewrite Call_arm_post. unfold arm_post.
  destruct (arm k w) as [[s w1]|] eqn:Ha; go_simpl; [|done].
  assert (step (w, t1 ++ (k, Start) :: t2) (w1, t1 ++ (k, s) :: t2)) as Hs1.
  { apply step_call. cbn. by rewrite Ha. }
  destruct s as [|request|e1 stored1]; [done| |].
  - destruct (post k request w1) as [[s2 w2]|] eqn:Hp; go_simpl; [|done].
    destruct s2 as [| |e2 stored2]; try done. intros [= <- <- <-].
    eapply rtc_l; [exact Hs1|]. apply rtc_once, step_call. cbn. by rewrite Hp.
  - intros [= <- <- <-]. by apply rtc_once.
Qed.

Lemma step_calls ρ ρ' : step ρ ρ' → calls ρ'.2 = calls ρ.2.
Proof.
  intros [w w' t1 t2 k s s' _]. unfold calls. cbn.
  by rewrite !fmap_app, !fmap_cons.
Qed.

Lemma rtc_step_calls ρ ρ' : rtc step ρ ρ' → calls ρ'.2 = calls ρ.2.
Proof.
  induction 1 as [|ρ1 ρ2 ρ3 Hstep _ IH]; [done|].
  by rewrite IH, (step_calls _ _ Hstep).
Qed.

Lemma elem_of_pool k s t1 t2 k' s' :
  (k, s) ∈ t1 ++ (k', s') :: t2 ↔
  (k, s) ∈ t1 ++ t2 ∨ (k = k' ∧ s = s').
Proof. rewrite !elem_of_app, elem_of_cons, pair_eq. tauto. Qed.

Lemma elem_of_calls k s t : (k, s) ∈ t → k ∈ calls t.
Proof. intros Hin. apply list_elem_of_fmap. by exists (k, s). Qed.

(** The read timeout of a handle after a call has written its own. *)
Lemma ReadTimeout_armed h c w :
  ReadTimeout (handle h (armed c w))
  = if decide (h = hClient_of c) then timeout_of c else ReadTimeout (handle h w).
Proof.
  unfold armed. case_decide as Hh.
  - subst h. by rewrite handle_set_handle.
  - by rewrite handle_set_handle_ne.
Qed.

(** The steps of a pool of one call are the actions of that call. *)
Lemma step_single k s w ρ :
  step (w, [(k, s)]) ρ →
  ∃ s' w', ρ = (w', [(k, s')]) ∧ advance k s w = Some (Done (s', w')).
Proof.
  inversion 1 as [w0 w' t1 t2 k0 s0 s' Hadv Ht]; subst.
  destruct t1 as [|? [|? ?]]; simplify_eq/=; eauto.
Qed.

(** A call that has returned takes no step. *)
Lemma rtc_step_returned k e stored w ρ :
  rtc step (w, [(k, Returned e stored)]) ρ → ρ = (w, [(k, Returned e stored)]).
Proof.
  inversion 1 as [|? ρ1 ? Hstep]; [done|subst].
  by apply step_single in Hstep as (s' & w' & _ & [=]).
Qed.

(** A run of one call is [Call]: when the pool of a single call runs
    from its start until the call has returned, the error, the stored value
    and the world are those [Call] returns. *)
Theorem steps_Call k w w' e stored :
  rtc step (w, [(k, Start)]) (w', [(k, Returned e stored)]) →
  Call (who k) (cid k) (cmethod k) (cret k) (cparams k) w = Done (e, stored, w').
Proof.
  rewrite Call_arm_post. unfold arm_post.
  inversion 1 as [|? ρ1 ? Hstep Hrest]; subst.
  apply step_single in Hstep as (s1 & w1 & -> & [= Ha]). rewrite Ha. go_simpl.
  apply arm_cases in Ha as [[_ [e1 ->]]|[_ [[e1 ->]|[request ->]]]];
    try by apply rtc_step_returned in Hrest as [= <- <- <-].
  inversion Hrest as [|? ρ2 ? Hstep2 Hrest2]; subst.
  apply step_single in Hstep2 as (s2 & w2 & -> & [= Hp]). rewrite Hp. go_simpl.
  apply post_cases in Hp as [(e2 & stored2 & ->) _].
  by apply rtc_step_returned in Hrest2 as [= <- <- <-].
Qed.

(** ** Progress: no interleaving leads to a panic *)

Lemma arm_Done k w : ∃ s' w', arm k w = Done (s', w').
Proof.
  unfold arm. case_decide; [|eauto].
  rewrite initRequest_spec. go_simpl. case_decide; [eauto|].
  rewrite packRequest_spec. go_simpl.
  destruct (PackRequest _ _); [eauto|]. cbn zeta.
  destruct (buildRequest _ _); eauto.
Qed.

Lemma arm_addressed k w request w' :
  arm k w = Done (Armed request, w') → RequestURI request = hostname (who k).
Proof.
  unfold arm. case_decide; [|done].
  rewrite initRequest_spec. go_simpl. case_decide; [done|].
  rewrite packRequest_spec. go_simpl.
  destruct (PackRequest _ _); [done|]. cbn zeta.
  destruct (buildRequest _ _) as [|r] eqn:Hb; [done|].
  intros [= <- _]. by apply buildRequest_fields in Hb as [? _].
Qed.

Lemma post_Done k request w :
  wf_world w →
  RequestURI request = hostname (who k) →
  (DNSCache (COpt (who k)) = true →
   colon ∈ bytes_of_string (addr_of_uri (hostname (who k)))) →
  ∃ s' w', post k request w = Done (s', w').
Proof.
  intros [Hplain Hdns] Huri Hport. unfold post. cbn zeta.
  assert (no_panic (DoTimeout (hClient_of (who k)) request
                      (Timeout (COpt (who k)) * Millisecond) w) = true) as Hd.
  { apply DoTimeout_no_panic. rewrite Huri. unfold connect, hClient_of.
    destruct (DNSCache (COpt (who k))); cbn [handle].
    - rewrite Hdns. by apply dnsCacheDial_no_panic, Hport.
    - by rewrite Hplain. }
  destruct (DoTimeout _ _ _ _) as [[[postErr|resp] w1]|]; [| |done]; go_simpl;
    [eauto|].
  destruct (readResponse_Done (who k) (inr (responseBytes resp)) (cret k))
    as [[e stored] ->].
  go_simpl. eauto.
Qed.

(** Every call that has not returned can take its next action. *)
Lemma sound_enabled w t k s :
  sound (w, t) → (k, s) ∈ t → (∀ e stored, s ≠ Returned e stored) →
  ∃ ρ', step (w, t) ρ'.
Proof.
  intros (Hwf & Haddr & Hport) Hin Hs. cbn [fst snd] in *.
  assert (∃ s' w', advance k s w = Some (Done (s', w'))) as (s' & w' & Hadv).
  { destruct s as [|request|e stored]; cbn; [| |by destruct (Hs e stored)].
    - destruct (arm_Done k w) as (s' & w' & ->). eauto.
    - destruct (post_Done k request w) as (s' & w' & ->); eauto.
      by apply Hport, (elem_of_calls _ (Armed request)). }
  apply list_elem_of_split in Hin as (t1 & t2 & ->).
  eexists. by apply step_call.
Qed.

(** A pool has finished or holds a call that has not returned. *)
Lemma finished_or_not t :
  finished t ∨ ∃ k s, (k, s) ∈ t ∧ ∀ e stored, s ≠ Returned e stored.
Proof.
  induction t as [|[k s] t [IH|(k' & s' & Hin & Hs)]].
  - left. by intros k s ?%elem_of_nil.
  - destruct s as [|request|e stored].
    + right. exists k, Start. split; [left|done].
    + right. exists k, (Armed request). split; [left|done].
    + left. intros k' s' [[= -> ->]|Hin]%elem_of_cons; eauto.
  - right. exists k', s'. split; [by right|done].
Qed.

Lemma sound_finished_or_step ρ : sound ρ → finished ρ.2 ∨ ∃ ρ', step ρ ρ'.
Proof.
  destruct ρ as [w t]. intros Hs.
  destruct (finished_or_not t) as [?|(k & s & Hin & Hns)]; [by left|right].
  by eapply sound_enabled.
Qed.

(** The steps keep the configuration sound. *)
Lemma step_sound ρ ρ' : step ρ ρ' → sound ρ → sound ρ'.
Proof.
  intros Hstep (Hwf & Haddr & Hport).
  split_and!; [| |intros k; rewrite (step_calls _ _ Hstep); apply Hport].
  - destruct Hstep as [w w' t1 t2 k s s' Hadv]. cbn [fst] in *.
    destruct s as [|request|]; cbn in Hadv; simplify_eq.
    + apply arm_cases in Hadv as [[-> _]|[-> _]]; [done|by apply wf_world_armed].
    + by apply post_cases in Hadv as [_ [->|[conn ->]]].
  - destruct Hstep as [w w' t1 t2 k s s' Hadv]. cbn [snd] in *.
    intros k' r' [Hin|[-> <-]]%elem_of_pool.
    + apply Haddr, elem_of_pool. by left.
    + destruct s as [|request|]; cbn in Hadv; simplify_eq.
      * by eapply arm_addressed.
      * by apply post_cases in Hadv as [(? & ? & [=]) _].
Qed.

Lemma rtc_step_sound ρ ρ' : rtc step ρ ρ' → sound ρ → sound ρ'.
Proof. induction 1; eauto using step_sound. Qed.

(** A pool that has not started is sound when its addresses have ports. *)
Lemma sound_fresh (ks : list CallArgs) : ported (fresh ks) → sound (init, fresh ks).
Proof.
  intros Hp. split_and!; [apply wf_world_init| |done].
  intros k request (k' & [=] & _)%list_elem_of_fmap.
Qed.

(** No interleaving leads to a panic: in every configuration a sound
    pool reaches, all calls have returned or some call can take its next
    action.  The handles need only be those of [init], and the addresses of
    the clients that use the DNS-cache handle need a port. *)
Theorem pool_never_stuck ρ ρ' :
  sound ρ → rtc step ρ ρ' → finished ρ'.2 ∨ ∃ ρ'', step ρ' ρ''.
Proof. intros Hs Hsteps. by eapply sound_finished_or_step, rtc_step_sound. Qed.

(** ** Termination: every call takes at most two steps *)

Lemma advance_todo k s w s' w' :
  advance k s w = Some (Done (s', w')) → (todo s' < todo s)%nat.
Proof.
  destruct s as [|request|]; cbn; intros [= Hadv].
  - apply arm_cases in Hadv as [[_ [e ->]]|[_ [[e ->]|[request ->]]]]; cbn; lia.
  - apply post_cases in Hadv as [(e & stored & ->) _]. cbn. lia.
Qed.

Lemma remaining_app t1 k s t2 :
  remaining (t1 ++ (k, s) :: t2) = (remaining t1 + todo s + remaining t2)%nat.
Proof. unfold remaining. rewrite sum_list_with_app. cbn. lia. Qed.


Lemma step_remaining ρ ρ' : step ρ ρ' → (remaining ρ'.2 < remaining ρ.2)%nat.
Proof.
  intros [w w' t1 t2 k s s' Hadv%advance_todo]. cbn [snd].
  rewrite !remaining_app. lia.
Qed.



(** C27. Every call returns: from a sound configuration the pool can always
    be run until all its calls have returned, whatever steps it has taken
    before. *)
Theorem pool_completes ρ : sound ρ → ∃ ρ', rtc step ρ ρ' ∧ finished ρ'.2.
Proof.
  remember (remaining ρ.2) as n eqn:Hn. revert ρ Hn.
  induction n as [n IH] using lt_wf_ind. intros ρ -> Hs.
  destruct (sound_finished_or_step ρ Hs) as [Hfin|[ρ1 Hstep]]; [by exists ρ|].
  destruct (IH _ (step_remaining _ _ Hstep) ρ1 eq_refl) as (ρ' & Hsteps & Hfin);
    [by eapply step_sound|].
  exists ρ'. split; [by eapply rtc_l|done].
Qed.

Section agreed.
Context (h : HandleId) (T : Z).

(** The write of a call that agrees with the pool keeps the handle held. *)
Lemma arm_held w w' t1 t2 k s' :
  agree h T (t1 ++ (k, Start) :: t2) →
  arm k w = Done (s', w') →
  held h T (w, t1 ++ (k, Start) :: t2) →
  held h T (w', t1 ++ (k, s') :: t2).
Proof.
  intros Hagree Harm Hheld k' request Hin Hh. cbn [fst snd] in *.
  assert (hClient_of (who k) = h → timeout_of (who k) = T) as HT.
  { apply Hagree, (elem_of_calls _ Start), elem_of_pool. by right. }
  apply elem_of_pool in Hin as [Hin|[-> <-]].
  - assert (ReadTimeout (handle h w) = T) as Hw.
    { apply (Hheld k' request); [|done]. apply elem_of_pool. by left. }
    apply arm_cases in Harm as [[-> _]|[-> _]]; [done|].
    rewrite ReadTimeout_armed. case_decide; [by apply HT|done].
  - apply arm_cases in Harm as [[_ [e [=]]]|[-> _]].
    rewrite ReadTimeout_armed, decide_True by done. by apply HT.
Qed.

(** The exchange of a call does not write the handle. *)
Lemma post_held w w' t1 t2 k request s' :
  post k request w = Done (s', w') →
  held h T (w, t1 ++ (k, Armed request) :: t2) →
  held h T (w', t1 ++ (k, s') :: t2).
Proof.
  intros Hpost Hheld k' r' Hin Hh. cbn [fst snd] in *.
  apply post_cases in Hpost as [(e & stored & ->) Hw'].
  apply elem_of_pool in Hin as [Hin|[_ [=]]].
  assert (ReadTimeout (handle h w) = T) as Hw.
  { apply (Hheld k' r'); [|done]. apply elem_of_pool. by left. }
  destruct Hw' as [->|[conn ->]]; [done|by rewrite handle_record].
Qed.

Lemma step_held ρ ρ' : agree h T ρ.2 → step ρ ρ' → held h T ρ → held h T ρ'.
Proof.
  intros Hagree Hstep. revert Hagree.
  destruct Hstep as [w w' t1 t2 k s s' Hadv]. cbn [snd]. intros Hagree.
  destruct s as [|request|]; cbn in Hadv; simplify_eq.
  - by eapply arm_held.
  - by eapply post_held.
Qed.

(** The write of a call sends nothing. *)
Lemma arm_sent k w s' w' : arm k w = Done (s', w') → sent w' = sent w.
Proof. intros [[-> _]|[-> _]]%arm_cases; [done|apply sent_armed]. Qed.

(** A call that agrees with the pool performs its exchange under [T]. *)
Lemma post_exchanged w w' t1 t2 k request s' x :
  agree h T (t1 ++ (k, Armed request) :: t2) →
  post k request w = Done (s', w') →
  held h T (w, t1 ++ (k, Armed request) :: t2) →
  x ∈ sent w' → x ∈ sent w ∨ (ExHandle x = h → ExReadTimeout x = T ∧ ExDeadline x = T).
Proof.
  intros Hagree Hpost Hheld.
  assert (hClient_of (who k) = h → timeout_of (who k) = T) as HT.
  { apply Hagree, (elem_of_calls _ (Armed request)), elem_of_pool. by right. }
  assert (hClient_of (who k) = h → ReadTimeout (handle h w) = T) as Hme.
  { apply (Hheld k request), elem_of_pool. by right. }
  apply post_cases in Hpost as [_ [->|[conn ->]]]; [by left|].
  unfold record. cbn [sent]. intros [Hx| ->%list_elem_of_singleton]%elem_of_app;
    [by left|right].
  cbn. intros <-. by rewrite Hme, HT.
Qed.

Lemma step_timeouts_ok ρ ρ' :
  agree h T ρ.2 → step ρ ρ' → timeouts_ok h T ρ → timeouts_ok h T ρ'.
Proof.
  intros Hagree Hstep [Hsent Hheld]. split; [|by eapply step_held].
  revert Hagree Hsent Hheld.
  destruct Hstep as [w w' t1 t2 k s s' Hadv]. cbn [fst snd].
  intros Hagree Hsent Hheld x Hx.
  destruct s as [|request|]; cbn in Hadv; simplify_eq.
  - rewrite (arm_sent _ _ _ _ Hadv) in Hx. by apply Hsent.
  - destruct (post_exchanged _ _ _ _ _ _ _ x Hagree Hadv Hheld Hx); auto.
Qed.

(** C13. Calls that agree on the timeout do not disturb one another: when
    all calls of a pool that use a handle have the same timeout, then however
    their actions interleave, every exchange on that handle is performed
    under that timeout, as read timeout and as deadline. *)
Theorem uniform_timeouts ρ ρ' :
  agree h T ρ.2 →
  timeouts_ok h T ρ →
  rtc step ρ ρ' →
  ∀ x, x ∈ sent ρ'.1 → ExHandle x = h →
       ExReadTimeout x = T ∧ ExDeadline x = T.
Proof.
  intros Hagree Hok Hsteps.
  enough (timeouts_ok h T ρ') as [Hsent _] by done.
  induction Hsteps as [|ρ1 ρ2 ρ3 Hstep Hsteps IH]; [done|].
  apply IH.
  - unfold agree. by rewrite (step_calls _ _ Hstep).
  - by eapply step_timeouts_ok.
Qed.

End agreed.

(** A pool that has not started is in order. *)
Lemma timeouts_ok_init h T (ks : list CallArgs) :
  timeouts_ok h T (init, fresh ks).
Proof.
  split; cbn.
  - by intros x ?%elem_of_nil.
  - intros k request (k' & [=] & _)%list_elem_of_fmap.
Qed.

(** C16. The race on the read timeout: when a second call on the same handle
    writes its timeout between the write and the exchange of a first call,
    the first call performs its exchange under the read timeout of the second
    and its own deadline; the pool reaches that state by three steps. *)
Theorem read_timeout_race k1 k2 w w1 w2 w3 r1 r2 s x :
  hClient_of (who k1) = hClient_of (who k2) →
  arm k1 w = Done (Armed r1, w1) →
  arm k2 w1 = Done (Armed r2, w2) →
  post k1 r1 w2 = Done (s, w3) →
  sent w3 = sent w2 ++ [x] →
  ExReadTimeout x = timeout_of (who k2)
  ∧ ExDeadline x = timeout_of (who k1)
  ∧ rtc step (w, [(k1, Start); (k2, Start)]) (w3, [(k1, s); (k2, Armed r2)]).
Proof.
  intros Hh Ha1 Ha2 Hp Hx. split_and!.
  - apply post_cases in Hp as [_ [->|[conn ->]]].
    { apply (f_equal length) in Hx. rewrite length_app in Hx. cbn in Hx. lia. }
    unfold record in Hx. cbn [sent] in Hx. apply app_inj_tail in Hx as [_ <-].
    cbn. apply arm_cases in Ha2 as [[_ [? [=]]]|[-> _]].
    by rewrite Hh, handle_armed.
  - apply post_cases in Hp as [_ [->|[conn ->]]].
    { apply (f_equal length) in Hx. rewrite length_app in Hx. cbn in Hx. lia. }
    unfold record in Hx. cbn [sent] in Hx. by apply app_inj_tail in Hx as [_ <-].
  - eapply rtc_l.
    { apply (step_call w w1 [] [(k2, Start)] k1 Start (Armed r1)).
      cbn. by rewrite Ha1. }
    eapply rtc_l.
    { apply (step_call w1 w2 [(k1, Armed r1)] [] k2 Start (Armed r2)).
      cbn. by rewrite Ha2. }
    apply rtc_once.
    apply (step_call w2 w3 [] [(k2, Armed r2)] k1 (Armed r1) s).
    cbn. by rewrite Hp.
Qed.

End interleave_facts.

(** ** Closed instances *)

Section race_witnesses.
Import RefCodec RefGzip RefNet Fixtures Race.

Lemma Call_steps_witness :
  ∃ w', rtc (step (Nt := peer echoed))
          (init, [] ++ (slow, Start) :: [(quick, Start)])
          (w', [] ++ (slow, Returned None (Some (VStr "hi"))) :: [(quick, Start)]).
Proof.
  eexists.
  apply (Call_steps (Nt := peer echoed) slow init None (Some (VStr "hi")) _
           [] [(quick, Start)]).
  vm_compute. reflexivity.
Defined.

Lemma steps_Call_witness :
  ∃ w', Call (Nt := peer echoed) client 7 "Echo" (Some TString)
          (Some [VStr "hi"]) init
        = Done (None, Some (VStr "hi"), w').
Proof.
  eexists.
  apply (steps_Call (Nt := peer echoed) slow init _ None (Some (VStr "hi"))).
  eapply rtc_l.
  { eapply (step_call _ _ [] [] slow Start). vm_compute. reflexivity. }
  apply rtc_once.
  eapply (step_call _ _ [] [] slow (Armed _)). vm_compute. reflexivity.
Defined.

Lemma ported_race : ported (Nt := peer echoed) (fresh [slow; quick]).
Proof.
  intros k Hk. cbn in Hk.
  apply elem_of_cons in Hk as [->|Hk]; [done|].
  apply elem_of_cons in Hk as [->|Hk]; [done|].
  by apply elem_of_nil in Hk.
Qed.

Lemma pool_never_stuck_witness :
  finished (fresh [slow; quick])
  ∨ ∃ ρ, step (Nt := peer echoed) (init, fresh [slow; quick]) ρ.
Proof.
  apply (pool_never_stuck (Nt := peer echoed)
           (init, fresh [slow; quick]) (init, fresh [slow; quick])).
  - apply sound_fresh, ported_race.
  - apply rtc_refl.
Defined.


Lemma pool_completes_witness :
  ∃ ρ', rtc (step (Nt := peer echoed)) (init, fresh [slow; quick]) ρ'
        ∧ finished ρ'.2.
Proof.
  apply (pool_completes (Nt := peer echoed)), sound_fresh, ported_race.
Defined.

Lemma uniform_timeouts_witness :
  ∃ ρ', rtc (step (Nt := peer echoed)) (init, fresh [slow; slow]) ρ'
        ∧ length (sent ρ'.1) = 1%nat
        ∧ ∀ x, x ∈ sent ρ'.1 → ExHandle x = PlainHandle →
               ExReadTimeout x = 2000000000 ∧ ExDeadline x = 2000000000.
Proof.
  assert (∃ ρ', rtc (step (Nt := peer echoed)) (init, fresh [slow; slow]) ρ'
                ∧ length (sent ρ'.1) = 1%nat) as (ρ' & Hrun & Hlen).
  { eexists. split.
    - eapply rtc_l.
      { eapply (step_call _ _ [] [(slow, Start)] slow Start).
        vm_compute. reflexivity. }
      apply rtc_once.
      eapply (step_call _ _ [] [(slow, Start)] slow (Armed _)).
      vm_compute. reflexivity.
    - vm_compute. reflexivity. }
  exists ρ'. split_and!; [done..|].
  apply (uniform_timeouts (Nt := peer echoed) PlainHandle 2000000000
           (init, fresh [slow; slow])); [|apply timeouts_ok_init|done].
  intros k Hk _. cbn in Hk.
  apply elem_of_cons in Hk as [->|Hk]; [reflexivity|].
  apply elem_of_cons in Hk as [->|Hk]; [reflexivity|].
  by apply elem_of_nil in Hk.
Defined.

Lemma read_timeout_race_witness :
  ∃ x w3 r2,
    rtc (step (Nt := peer echoed))
      (init, [(slow, Start); (quick, Start)])
      (w3, [(slow, Returned None (Some (VStr "hi"))); (quick, Armed r2)])
    ∧ sent w3 = [x]
    ∧ ExReadTimeout x = 50000000 ∧ ExDeadline x = 2000000000.
Proof.
  edestruct (read_timeout_race (Nt := peer echoed) slow quick init)
    as (Hr & Hd & Hsteps);
    [reflexivity | vm_compute; reflexivity | vm_compute; reflexivity
    | vm_compute; reflexivity | vm_compute; reflexivity |].
  do 3 eexists. split_and!; [exact Hsteps | reflexivity | exact Hr | exact Hd].
Defined.

End race_witnesses.
