(* ===== verification/Isolation.v ===== *)
(** * Isolation: calls that agree on the timeout return what they return alone

    The only state the calls of [src/client/client.go] share is the two HTTP
    handles, and the only field of a handle a call writes is [ReadTimeout]
    (line 235).  The result of a call depends on the world through its handle
    alone: through the dial function, which no call changes, and through the
    read timeout in force at its exchange (line 276).

    This file shows that a pool whose calls agree on the timeout of every
    handle is isolated: whatever the interleaving, every call that has
    returned has returned the error and the value it returns when it runs
    alone in the initial world ([agreed_isolated]), and so every complete
    run of such a pool gives every call the same result
    ([agreed_deterministic]).  The invariant [isolated] is kept by every step
    ([step_isolated]); without agreement it fails, as
    [Interleave.read_timeout_race] shows. *)

From stdpp Require Import gmap relations.
From S2P Require Import Prelude Wire Yar Packager Transport Client Interleave.

(** * Definitions *)

Section isolation.
Context `{Pk : Codec} `{Gz : Gzip} `{Nt : Net}.

(** All calls of the pool have the timeout [T] gives for their handle. *)
Definition agreed (T : HandleId → Z) (t : Pool) : Prop :=
  ∀ k, k ∈ calls t → timeout_of (who k) = T (hClient_of (who k)).

(** The error and the stored value of a call that runs alone in [w0]. *)
Definition alone (k : CallArgs) (w0 : World)
    : go (option Error * option value) :=
  fst <$> Call (who k) (cid k) (cmethod k) (cret k) (cparams k) w0.

(** The stage of a call is one it reaches when it runs alone in [w0]. *)
Definition reached_alone (w0 : World) (k : CallArgs) (s : Stage) : Prop :=
  match s with
  | Start => True
  | Armed request => fst <$> arm k w0 = Done (Armed request)
  | Returned e stored => alone k w0 = Done (e, stored)
  end.

(** The handles dial as they do in [w0]. *)
Definition same_dials (w0 w : World) : Prop :=
  ∀ h, Dial (handle h w) = Dial (handle h w0).

(** The invariant of a pool that agrees on [T], started in [w0]. *)
Definition isolated (T : HandleId → Z) (w0 : World) (ρ : Config) : Prop :=
  same_dials w0 ρ.1
  ∧ (∀ h, held h (T h) ρ)
  ∧ ∀ k s, (k, s) ∈ ρ.2 → reached_alone w0 k s.

End isolation.

(** ** A second call with the timeout of [Race.slow], for the examples *)

Module Agree.
Import RefCodec RefGzip RefNet Fixtures.

Definition slow2 : CallArgs (H := codec) :=
  mkCallArgs client 9 "Echo" (Some TString) (Some [VStr "ho"]).

(** Both handles under the timeout of [Fixtures.client]. *)
Definition two_seconds : HandleId → Z := λ _, 2000 * Millisecond.

End Agree.

(** * Lemmas *)

Section isolation_facts.
Context `{Pk : Codec} `{Gz : Gzip} `{Nt : Net}.
Implicit Types (k : CallArgs) (w : World) (t : Pool) (ρ : Config).

(** ** What the actions read of the world *)

(** The stage a call reaches by its write does not depend on the world. *)
Lemma arm_stage k w1 w2 : fst <$> arm k w1 = fst <$> arm k w2.
Proof.
  unfold arm. case_decide; [|done].
  destruct (initRequest _ _ _ _) as [[err|r]|]; go_simpl; [done| |done].
  destruct (packRequest _ _) as [[[err|packBody] r']|]; go_simpl; [done| |done].
  cbn zeta. by destruct (buildRequest _ _).
Qed.

(** The stage a call reaches by its exchange depends on the world through
    the dial function and the read timeout of its handle only. *)
Lemma post_stage k request w1 w2 :
  Dial (handle (hClient_of (who k)) w1) = Dial (handle (hClient_of (who k)) w2) →
  ReadTimeout (handle (hClient_of (who k)) w1)
  = ReadTimeout (handle (hClient_of (who k)) w2) →
  fst <$> post k request w1 = fst <$> post k request w2.
Proof.
  intros Hd Ht.
  assert (∀ addr, connect (handle (hClient_of (who k)) w1) addr
                  = connect (handle (hClient_of (who k)) w2) addr) as Hc
    by (intros addr; unfold connect; by rewrite Hd).
  unfold post, DoTimeout. cbn zeta. rewrite Hc, Ht.
  destruct (connect _ _) as [[err|conn]|]; go_simpl; [done| |done].
  destruct (exchange _ _ _ _); go_simpl; [done|].
  by destruct (readResponse _ _ _) as [[e stored]|].
Qed.

(** No action changes a dial function. *)
Lemma Dial_armed h c w : Dial (handle h (armed c w)) = Dial (handle h w).
Proof.
  unfold armed. destruct (decide (h = hClient_of c)) as [->|Hne].
  - by rewrite handle_set_handle.
  - by rewrite handle_set_handle_ne.
Qed.

Lemma advance_Dial k s w s' w' h :
  advance k s w = Some (Done (s', w')) → Dial (handle h w') = Dial (handle h w).
Proof.
  destruct s as [|request|]; cbn; intros [= Hadv].
  - apply arm_cases in Hadv as [[-> _]|[-> _]]; [done|apply Dial_armed].
  - apply post_cases in Hadv as [_ [->|[conn ->]]]; [done|].
    by rewrite handle_record.
Qed.

(** ** A call alone *)

(** A call that returns at its write returns the same alone. *)
Lemma alone_arm k w0 e stored :
  fst <$> arm k w0 = Done (Returned e stored) → alone k w0 = Done (e, stored).
Proof.
  unfold alone. rewrite Call_arm_post. unfold arm_post.
  destruct (arm k w0) as [[s w1]|]; go_simpl; [|done].
  by intros [= ->].
Qed.

(** A call alone performs its exchange in the world its write leaves. *)
Lemma alone_post k w0 request e stored :
  fst <$> arm k w0 = Done (Armed request) →
  fst <$> post k request (armed (who k) w0) = Done (Returned e stored) →
  alone k w0 = Done (e, stored).
Proof.
  unfold alone. rewrite Call_arm_post. unfold arm_post.
  destruct (arm k w0) as [[s w1]|] eqn:Ha; go_simpl; [|done].
  intros [= ->]. apply arm_cases in Ha as [[_ [? [=]]]|[-> _]].
  destruct (post _ _ _) as [[s2 w2]|]; go_simpl; [|done].
  by intros [= ->].
Qed.

(** ** The invariant *)

Section agreed_pool.
Context (T : HandleId → Z) (w0 : World).

Lemma agreed_agree t h : agreed T t → agree h (T h) t.
Proof. intros Ha k Hk <-. by apply Ha. Qed.

(** The stage a call reaches by its next action is one it reaches alone. *)
Lemma advance_reached_alone k s w s' w' :
  timeout_of (who k) = T (hClient_of (who k)) →
  same_dials w0 w →
  (∀ request, s = Armed request →
     ReadTimeout (handle (hClient_of (who k)) w) = T (hClient_of (who k))) →
  reached_alone w0 k s →
  advance k s w = Some (Done (s', w')) →
  reached_alone w0 k s'.
Proof.
  intros HT Hdial Hheld Hs.
  destruct s as [|request|]; cbn [advance]; intros [= Hadv].
  - assert (fst <$> arm k w0 = Done s') as Ha0
      by (by rewrite (arm_stage k w0 w), Hadv).
    destruct s' as [|request|e stored]; [done|done|by apply alone_arm].
  - pose proof Hadv as [(e & stored & ->) _]%post_cases.
    apply (alone_post _ _ request); [done|].
    rewrite (post_stage k request _ w), Hadv; [done| |].
    + by rewrite Dial_armed, Hdial.
    + rewrite handle_armed. cbn. by rewrite (Hheld request), HT.
Qed.

(** Every step of a pool that agrees on its timeouts keeps it isolated:
    the dial functions are those of the initial world, a handle between the
    write and the exchange of a call holds the agreed timeout, and every
    call is at a stage it reaches when it runs alone. *)
Lemma step_isolated ρ ρ' :
  agreed T ρ.2 → step ρ ρ' → isolated T w0 ρ → isolated T w0 ρ'.
Proof.
  intros Hagreed Hstep (Hdial & Hheld & Hstages). split_and!.
  - intros h. destruct Hstep as [w w' t1 t2 k s s' Hadv]. cbn [fst] in *.
    by rewrite (advance_Dial _ _ _ _ _ h Hadv).
  - intros h. eapply step_held; [by apply agreed_agree|done|done].
  - destruct Hstep as [w w' t1 t2 k s s' Hadv]. cbn [fst snd] in *.
    intros k' s'' [Hin|[-> ->]]%elem_of_pool.
    { apply Hstages, elem_of_pool. by left. }
    assert ((k, s) ∈ t1 ++ (k, s) :: t2) as Hk by (apply elem_of_pool; by right).
    eapply advance_reached_alone; [| | |by apply Hstages|done].
    + by eapply Hagreed, elem_of_calls.
    + done.
    + intros request ->. by apply (Hheld _ k request).
Qed.

Lemma rtc_step_isolated ρ ρ' :
  agreed T ρ.2 → rtc step ρ ρ' → isolated T w0 ρ → isolated T w0 ρ'.
Proof.
  intros Hagreed Hsteps. induction Hsteps as [|ρ1 ρ2 ρ3 Hstep _ IH]; [done|].
  intros Hi. apply IH.
  - unfold agreed. by rewrite (step_calls _ _ Hstep).
  - by eapply step_isolated.
Qed.

(** A pool that has not started is isolated. *)
Lemma isolated_fresh (ks : list CallArgs) : isolated T w0 (w0, fresh ks).
Proof.
  split_and!; [done| |].
  - intros h k request (k' & [=] & _)%list_elem_of_fmap.
  - intros k s (k' & [= -> ->] & _)%list_elem_of_fmap. done.
Qed.

Lemma agreed_returned (ks : list CallArgs) ρ' k e stored :
  agreed T (fresh ks) →
  rtc step (w0, fresh ks) ρ' →
  (k, Returned e stored) ∈ ρ'.2 →
  alone k w0 = Done (e, stored).
Proof.
  intros Hagreed Hsteps Hin.
  destruct (rtc_step_isolated (w0, fresh ks) ρ' Hagreed Hsteps
              (isolated_fresh ks)) as (_ & _ & Hstages).
  by apply (Hstages k (Returned e stored)).
Qed.

End agreed_pool.

(** C14. Isolation: in a pool whose calls agree on the timeout of every
    handle, a call that has returned has returned, whatever the
    interleaving, the error and the value it returns when it runs alone in
    the initial world. *)
Theorem agreed_isolated T w0 (ks : list CallArgs) ρ' k e stored :
  agreed T (fresh ks) →
  rtc step (w0, fresh ks) ρ' →
  (k, Returned e stored) ∈ ρ'.2 →
  fst <$> Call (who k) (cid k) (cmethod k) (cret k) (cparams k) w0
  = Done (e, stored).
Proof. apply agreed_returned. Qed.

(** The results of a pool that agrees on its timeouts do not depend on
    the interleaving: two runs of the pool give every call that has
    returned in both the same error and the same value. *)
Theorem agreed_deterministic T w0 (ks : list CallArgs) ρ1 ρ2 k e1 stored1 e2 stored2 :
  agreed T (fresh ks) →
  rtc step (w0, fresh ks) ρ1 →
  rtc step (w0, fresh ks) ρ2 →
  (k, Returned e1 stored1) ∈ ρ1.2 →
  (k, Returned e2 stored2) ∈ ρ2.2 →
  e1 = e2 ∧ stored1 = stored2.
Proof.
  intros Hagreed Hs1 Hs2 Hin1 Hin2.
  pose proof (agreed_returned T w0 ks ρ1 k e1 stored1 Hagreed Hs1 Hin1) as H1.
  pose proof (agreed_returned T w0 ks ρ2 k e2 stored2 Hagreed Hs2 Hin2) as H2.
  rewrite H1 in H2. by simplify_eq.
Qed.

End isolation_facts.

(** ** Closed instances *)

Section isolation_witnesses.
Import RefCodec RefGzip RefNet Fixtures Race Agree.

Lemma agreed_pair : agreed two_seconds (fresh [slow; slow2]).
Proof.
  intros k Hk. cbn in Hk.
  apply elem_of_cons in Hk as [->|Hk]; [done|].
  apply elem_of_cons in Hk as [->|Hk]; [done|].
  by apply elem_of_nil in Hk.
Qed.

(** The second call writes its timeout between the write and the exchange of
    the first. *)
Lemma overtaken :
  ∃ w r2, rtc (step (Nt := peer echoed)) (init, fresh [slow; slow2])
            (w, [(slow, Returned None (Some (VStr "hi"))); (slow2, Armed r2)]).
Proof.
  do 2 eexists.
  eapply rtc_l.
  { eapply (step_call _ _ [] [(slow2, Start)] slow Start). vm_compute. reflexivity. }
  eapply rtc_l.
  { eapply (step_call _ _ [(slow, Armed _)] [] slow2 Start). vm_compute.
    reflexivity. }
  apply rtc_once.
  eapply (step_call _ _ [] [(slow2, Armed _)] slow (Armed _)). vm_compute.
  reflexivity.
Defined.

(** The first call runs to its end before the second starts. *)
Lemma taking_turns :
  ∃ w, rtc (step (Nt := peer echoed)) (init, fresh [slow; slow2])
         (w, [(slow, Returned None (Some (VStr "hi"))); (slow2, Start)]).
Proof.
  eexists.
  eapply rtc_l.
  { eapply (step_call _ _ [] [(slow2, Start)] slow Start). vm_compute. reflexivity. }
  apply rtc_once.
  eapply (step_call _ _ [] [(slow2, Start)] slow (Armed _)). vm_compute.
  reflexivity.
Defined.

Lemma agreed_isolated_witness :
  fst <$> Call (Nt := peer echoed) client 7 "Echo" (Some TString)
            (Some [VStr "hi"]) init
  = Done (None, Some (VStr "hi")).
Proof.
  destruct overtaken as (w & r2 & Hrun).
  apply (agreed_isolated (Nt := peer echoed) two_seconds init [slow; slow2]
           _ slow None (Some (VStr "hi")) agreed_pair Hrun).
  left.
Defined.

Lemma agreed_deterministic_witness :
  (None : option Error) = None ∧ Some (VStr "hi") = Some (VStr "hi").
Proof.
  destruct overtaken as (w1 & r2 & Hrun1). destruct taking_turns as (w2 & Hrun2).
  apply (agreed_deterministic (Nt := peer echoed) two_seconds init [slow; slow2]
           _ _ slow _ _ _ _ agreed_pair Hrun1 Hrun2); left.
Defined.

End isolation_witnesses.
