(* ===== verification/Serial.v ===== *)
(** * Serial: a pool that agrees on the timeout is serialisable

    [Isolation] shows that the calls of a pool whose clients agree on the
    timeout of every handle return what they return alone.  This file shows
    the same of the world they leave: the handles and the exchanges
    performed ([Transport.World]).

    [in_turn] runs calls one after the other, each [Call] of
    [src/client/client.go] starting in the world the one before has left.
    Every state a pool that agrees on its timeouts reaches is a state of
    such a run: the calls that have returned, run in turn in the order in
    which they returned, followed by the writes of the calls that are
    between their write and their exchange ([in_flight]).  This is the
    invariant [serial], kept by every step ([step_serial]).  When every call
    has returned, the world is that of the calls run in turn
    ([agreed_serialisable]); the order is that of the exchanges.  Without
    agreement the exchange of [Interleave.read_timeout_race] is one that no
    run in turn performs ([in_turn_own_timeouts]). *)

From stdpp Require Import gmap relations.
From S2P Require Import Prelude Wire Yar Packager Transport Client Interleave.
From S2P Require Import Isolation.

(** * Definitions *)

Section serial.
Context `{Pk : Codec} `{Gz : Gzip} `{Nt : Net}.

(** The calls one after the other: each starts in the world the one before
    has left. *)
Fixpoint in_turn (ks : list CallArgs) (w : World) : go World :=
  match ks with
  | [] => mret w
  | k :: ks =>
      '(_, _, w) ← Call (who k) (cid k) (cmethod k) (cret k) (cparams k) w;
      in_turn ks w
  end.

(** The write of line 235 by a call of a pool that agrees on [T]. *)
Definition hold (T : HandleId → Z) (h : HandleId) (w : World) : World :=
  set_handle h (set_ReadTimeout (T h) (handle h w)) w.

(** The writes of the calls that are between their write and their
    exchange. *)
Definition in_flight (T : HandleId → Z) (t : Pool) (w : World) : World :=
  foldr (λ ks w, match ks.2 with
                 | Armed _ => hold T (hClient_of (who ks.1)) w
                 | _ => w
                 end) w t.

(** The calls that have returned. *)
Definition returned (t : Pool) : list CallArgs :=
  omap (λ ks, match ks.2 with Returned _ _ => Some ks.1 | _ => None end) t.

(** The invariant: the world is that of the calls that have returned, run
    in turn in some order, and of the writes of the calls in flight. *)
Definition serial (T : HandleId → Z) (w0 : World) (ρ : Config) : Prop :=
  ∃ order w1, order ≡ₚ returned ρ.2
              ∧ in_turn order w0 = Done w1
              ∧ ρ.1 = in_flight T ρ.2 w1.

End serial.

(** * Lemmas *)

Section serial_facts.
Context `{Pk : Codec} `{Gz : Gzip} `{Nt : Net}.
Implicit Types (k : CallArgs) (w : World) (t : Pool) (ρ : Config).

(** ** What the actions write *)

(** Whether a call writes its timeout does not depend on the world. *)
Lemma arm_transfer k w1 w2 s w1' :
  arm k w1 = Done (s, w1') →
  (w1' = w1 ∧ (∃ e, s = Returned (Some e) None) ∧ arm k w2 = Done (s, w2))
  ∨ (w1' = armed (who k) w1
     ∧ ((∃ e, s = Returned (Some e) None) ∨ ∃ request, s = Armed request)
     ∧ arm k w2 = Done (s, armed (who k) w2)).
Proof.
  unfold arm. case_decide; [|intros [= <- <-]; left; eauto].
  destruct (initRequest _ _ _ _) as [[err|r]|]; go_simpl;
    [intros [= <- <-]; left; eauto| |done].
  destruct (packRequest _ _) as [[[err|packBody] r']|]; go_simpl;
    [intros [= <- <-]; left; eauto| |done].
  cbn zeta. fold (timeout_of (who k)). fold (armed (who k) w1) (armed (who k) w2).
  destruct (buildRequest _ _); intros [= <- <-]; right; eauto.
Qed.

(** A call that reaches its exchange has written its timeout. *)
Lemma arm_Armed k w0 w request :
  fst <$> arm k w0 = Done (Armed request) →
  arm k w = Done (Armed request, armed (who k) w).
Proof.
  destruct (arm k w0) as [[s w0']|] eqn:Ha; go_simpl; [intros [= ->]|done].
  by destruct (arm_transfer k w0 w _ _ Ha) as [(_ & [e [=]] & _)|(_ & _ & Hw)].
Qed.

(** Whether an exchange is performed, and which, depends on the world
    through the dial function and the read timeout of the handle only. *)
Lemma post_transfer k request w1 w2 s w1' :
  Dial (handle (hClient_of (who k)) w1) = Dial (handle (hClient_of (who k)) w2) →
  ReadTimeout (handle (hClient_of (who k)) w1)
  = ReadTimeout (handle (hClient_of (who k)) w2) →
  post k request w1 = Done (s, w1') →
  (w1' = w1 ∧ post k request w2 = Done (s, w2))
  ∨ (∃ x, w1' = record x w1 ∧ post k request w2 = Done (s, record x w2)).
Proof.
  intros Hd Ht.
  assert (∀ addr, connect (handle (hClient_of (who k)) w1) addr
                  = connect (handle (hClient_of (who k)) w2) addr) as Hc
    by (intros addr; unfold connect; by rewrite Hd).
  unfold post, DoTimeout. cbn zeta. rewrite Hc, Ht.
  destruct (connect _ _) as [[err|conn]|]; go_simpl;
    [intros [= <- <-]; by left| |done].
  destruct (exchange _ _ _ _); go_simpl; [intros [= <- <-]; right; eauto|].
  destruct (readResponse _ _ _) as [[e stored]|]; go_simpl; [|done].
  intros [= <- <-]. right. eauto.
Qed.

(** ** Calls in turn *)

Lemma in_turn_snoc ks k w0 w1 e stored w2 :
  in_turn ks w0 = Done w1 →
  Call (who k) (cid k) (cmethod k) (cret k) (cparams k) w1 = Done (e, stored, w2) →
  in_turn (ks ++ [k]) w0 = Done w2.
Proof.
  revert w0. induction ks as [|k' ks IH]; intros w0; cbn [in_turn app].
  - intros [= ->] ->. done.
  - destruct (Call _ _ _ _ _ w0) as [[[e' stored'] w']|]; go_simpl; [|done].
    apply IH.
Qed.

(** A call whose write returns is a call that returns. *)
Lemma Call_arm_returns k w e stored w' :
  arm k w = Done (Returned e stored, w') →
  Call (who k) (cid k) (cmethod k) (cret k) (cparams k) w = Done (e, stored, w').
Proof. rewrite Call_arm_post. unfold arm_post. by intros ->. Qed.

(** A call whose write and exchange return is a call that returns. *)
Lemma Call_post_returns k w request e stored w' :
  arm k w = Done (Armed request, armed (who k) w) →
  post k request (armed (who k) w) = Done (Returned e stored, w') →
  Call (who k) (cid k) (cmethod k) (cret k) (cparams k) w = Done (e, stored, w').
Proof.
  rewrite Call_arm_post. unfold arm_post. intros -> Hpost. go_simpl.
  by rewrite Hpost.
Qed.

(** ** The writes in flight *)

Section held.
Context (T : HandleId → Z).

Lemma hold_hold h1 h2 w : hold T h1 (hold T h2 w) = hold T h2 (hold T h1 w).
Proof. by destruct h1, h2. Qed.

Lemma hold_record h x w : hold T h (record x w) = record x (hold T h w).
Proof. by destruct h. Qed.

Lemma armed_hold c w :
  timeout_of c = T (hClient_of c) → armed c w = hold T (hClient_of c) w.
Proof. unfold armed, hold. by intros ->. Qed.

Lemma handle_hold h h' w :
  Dial (handle h' (hold T h w)) = Dial (handle h' w).
Proof. by destruct h, h'. Qed.

Lemma in_flight_cons k s t w :
  in_flight T ((k, s) :: t) w
  = match s with
    | Armed _ => hold T (hClient_of (who k)) (in_flight T t w)
    | _ => in_flight T t w
    end.
Proof. done. Qed.

Lemma in_flight_hold t h w :
  in_flight T t (hold T h w) = hold T h (in_flight T t w).
Proof.
  induction t as [|[k s] t IH]; [done|]. rewrite !in_flight_cons, IH.
  destruct s; [done| |done]. apply hold_hold.
Qed.

Lemma in_flight_record t x w :
  in_flight T t (record x w) = record x (in_flight T t w).
Proof.
  induction t as [|[k s] t IH]; [done|]. rewrite !in_flight_cons, IH.
  destruct s; [done| |done]. apply hold_record.
Qed.

Lemma Dial_in_flight t h w :
  Dial (handle h (in_flight T t w)) = Dial (handle h w).
Proof.
  induction t as [|[k s] t IH]; [done|]. rewrite in_flight_cons.
  destruct s; [done| |done]. by rewrite handle_hold.
Qed.

(** The writes in flight of a pool, by the stage of one of its calls. *)
Lemma in_flight_pool t1 k s t2 w :
  in_flight T (t1 ++ (k, s) :: t2) w
  = match s with
    | Armed _ => hold T (hClient_of (who k)) (in_flight T (t1 ++ t2) w)
    | _ => in_flight T (t1 ++ t2) w
    end.
Proof.
  induction t1 as [|[k1 s1] t1 IH]; [apply in_flight_cons|].
  cbn [app]. rewrite !in_flight_cons, IH.
  destruct s, s1; try done. apply hold_hold.
Qed.

(** No write is in flight when every call has returned. *)
Lemma in_flight_finished t w : finished t → in_flight T t w = w.
Proof.
  induction t as [|[k s] t IH]; intros Hfin; [done|].
  destruct (Hfin k s) as (e & stored & ->); [left|]. rewrite in_flight_cons.
  apply IH. intros k' s' Hin. apply (Hfin k' s'). by right.
Qed.

End held.

(** ** The calls that have returned *)

Lemma returned_pool t1 k s t2 :
  returned (t1 ++ (k, s) :: t2)
  ≡ₚ match s with
     | Returned _ _ => returned (t1 ++ t2) ++ [k]
     | _ => returned (t1 ++ t2)
     end.
Proof.
  unfold returned. rewrite !omap_app. cbn [omap fst snd].
  destruct s; [done..|]. rewrite <-app_assoc. f_equiv.
  by rewrite <-Permutation_cons_append.
Qed.

Lemma returned_finished t : finished t → returned t = calls t.
Proof.
  induction t as [|[k s] t IH]; intros Hfin; [done|].
  destruct (Hfin k s) as (e & stored & ->); [left|]. cbn. f_equal.
  apply IH. intros k' s' Hin. apply (Hfin k' s'). by right.
Qed.

(** ** The invariant *)

Section agreed_pool.
Context (T : HandleId → Z) (w0 : World).

(** A call that returns extends the run in turn. *)
Lemma serial_returns t1 k s t2 order w1 e stored w2 w' :
  (∀ e stored, s ≠ Returned e stored) →
  order ≡ₚ returned (t1 ++ (k, s) :: t2) →
  in_turn order w0 = Done w1 →
  Call (who k) (cid k) (cmethod k) (cret k) (cparams k) w1 = Done (e, stored, w2) →
  w' = in_flight T (t1 ++ t2) w2 →
  serial T w0 (w', t1 ++ (k, Returned e stored) :: t2).
Proof.
  intros Hs Hperm Hrun Hcall ->. exists (order ++ [k]), w2. split_and!.
  - cbn [snd]. rewrite returned_pool, Hperm, returned_pool.
    destruct s; [done..|by destruct (Hs e0 stored0)].
  - by eapply in_turn_snoc.
  - cbn [fst snd]. by rewrite in_flight_pool.
Qed.

(** The write of a call keeps the pool serial. *)
Lemma arm_serial w w' t1 t2 k s' :
  timeout_of (who k) = T (hClient_of (who k)) →
  arm k w = Done (s', w') →
  serial T w0 (w, t1 ++ (k, Start) :: t2) →
  serial T w0 (w', t1 ++ (k, s') :: t2).
Proof.
  intros HT Harm (order & w1 & Hperm & Hrun & Hw). cbn [fst snd] in *.
  rewrite in_flight_pool in Hw.
  destruct (arm_transfer k w w1 _ _ Harm)
    as [(-> & [e ->] & Hseq)|(-> & [[e ->]|[request ->]] & Hseq)].
  - by apply (serial_returns t1 k Start t2 order w1 _ _ w1);
      [..|apply Call_arm_returns|].
  - apply (serial_returns t1 k Start t2 order w1 _ _ (armed (who k) w1));
      [done..|by apply Call_arm_returns|].
    by rewrite !(armed_hold T), Hw, in_flight_hold.
  - exists order, w1. cbn [fst snd].
    split_and!; [by rewrite Hperm, !returned_pool|done|].
    by rewrite in_flight_pool, Hw, (armed_hold T).
Qed.

(** The exchange of a call keeps the pool serial, when the handle holds the
    agreed timeout. *)
Lemma post_serial w w' t1 t2 k request s' :
  timeout_of (who k) = T (hClient_of (who k)) →
  fst <$> arm k w0 = Done (Armed request) →
  ReadTimeout (handle (hClient_of (who k)) w) = T (hClient_of (who k)) →
  post k request w = Done (s', w') →
  serial T w0 (w, t1 ++ (k, Armed request) :: t2) →
  serial T w0 (w', t1 ++ (k, s') :: t2).
Proof.
  intros HT Ha Hheld Hpost (order & w1 & Hperm & Hrun & Hw). cbn [fst snd] in *.
  rewrite in_flight_pool in Hw.
  pose proof (arm_Armed k w0 w1 request Ha) as Harm.
  destruct (post_cases _ _ _ _ _ Hpost) as [(e & stored & ->) _].
  assert (Dial (handle (hClient_of (who k)) w)
          = Dial (handle (hClient_of (who k)) (armed (who k) w1))) as Hd
    by (by rewrite Hw, handle_hold, Dial_in_flight, Dial_armed).
  assert (ReadTimeout (handle (hClient_of (who k)) w)
          = ReadTimeout (handle (hClient_of (who k)) (armed (who k) w1))) as Ht
    by (rewrite Hheld, handle_armed; cbn; by rewrite HT).
  destruct (post_transfer k request w (armed (who k) w1) _ _ Hd Ht Hpost)
    as [[-> Hseq]|(x & -> & Hseq)].
  - apply (serial_returns t1 k (Armed request) t2 order w1 _ _ (armed (who k) w1));
      [done..|by eapply Call_post_returns|].
    by rewrite (armed_hold T), in_flight_hold.
  - apply (serial_returns t1 k (Armed request) t2 order w1 _ _
             (record x (armed (who k) w1)));
      [done..|by eapply Call_post_returns|].
    by rewrite in_flight_record, (armed_hold T), in_flight_hold, Hw.
Qed.

(** Every step of an isolated pool that agrees on its timeouts keeps it
    serial. *)
Lemma step_serial ρ ρ' :
  agreed T ρ.2 → isolated T w0 ρ → step ρ ρ' → serial T w0 ρ → serial T w0 ρ'.
Proof.
  intros Hagreed (_ & Hheld & Hstages) Hstep.
  destruct Hstep as [w w' t1 t2 k s s' Hadv]. cbn [fst snd] in *.
  assert ((k, s) ∈ t1 ++ (k, s) :: t2) as Hk by (apply elem_of_pool; by right).
  pose proof (Hagreed k (elem_of_calls _ _ _ Hk)) as HT.
  destruct s as [|request|]; cbn in Hadv; simplify_eq.
  - by apply arm_serial.
  - apply post_serial; [done|by apply (Hstages k (Armed request))| |done].
    by apply (Hheld _ k request).
Qed.

Lemma rtc_step_serial ρ ρ' :
  agreed T ρ.2 → rtc step ρ ρ' →
  isolated T w0 ρ → serial T w0 ρ → serial T w0 ρ'.
Proof.
  intros Hagreed Hsteps. induction Hsteps as [|ρ1 ρ2 ρ3 Hstep _ IH]; [done|].
  intros Hi Hs. apply IH.
  - unfold agreed. by rewrite (step_calls _ _ Hstep).
  - by eapply step_isolated.
  - by eapply step_serial.
Qed.

(** A pool that has not started is serial. *)
Lemma serial_fresh (ks : list CallArgs) : serial T w0 (w0, fresh ks).
Proof.
  exists [], w0. split_and!; [|done|]; cbn.
  - by induction ks.
  - by induction ks.
Qed.

(** Every state the pool reaches is serial. *)
Lemma agreed_serial (ks : list CallArgs) ρ' :
  agreed T (fresh ks) → rtc step (w0, fresh ks) ρ' → serial T w0 ρ'.
Proof.
  intros Hagreed Hsteps.
  apply (rtc_step_serial (w0, fresh ks) ρ' Hagreed Hsteps);
    [apply isolated_fresh|apply serial_fresh].
Qed.

End agreed_pool.

(** ** Exchanges of calls in turn *)

(** A call performs at most one exchange, under its own timeout. *)
Lemma Call_sent c id method ret params w e stored w' :
  Call c id method ret params w = Done (e, stored, w') →
  sent w' = sent w
  ∨ ∃ conn request, sent w' = sent w ++ [exchange_of c conn request].
Proof.
  unfold Call. case_decide; [|intros [= <- <- <-]; by left].
  intros [(-> & _)|[(-> & _)|(conn & ? & request & _ & _ & -> & _)]]
    %httpHandler_world.
  - by left.
  - left. apply sent_armed.
  - right. exists conn, request. apply sent_record_armed.
Qed.

(** C15. Serialisability: when the calls of a pool agree on the timeout of
    every handle and all of them have returned, whatever the interleaving
    of their writes and exchanges, the world they leave, the handles and
    the exchanges performed, is the world the same calls leave when they
    run one after the other in some order. *)
Theorem agreed_serialisable T w0 (ks : list CallArgs) ρ' :
  agreed T (fresh ks) →
  rtc step (w0, fresh ks) ρ' →
  finished ρ'.2 →
  ∃ order, order ≡ₚ ks ∧ in_turn order w0 = Done ρ'.1.
Proof.
  intros Hagreed Hsteps Hfin.
  destruct (agreed_serial T w0 ks ρ' Hagreed Hsteps)
    as (order & w1 & Hperm & Hrun & Hw).
  exists order. split.
  - rewrite Hperm, (returned_finished _ Hfin), (rtc_step_calls _ _ Hsteps).
    unfold calls, fresh. cbn. rewrite <-list_fmap_compose. by rewrite list_fmap_id.
  - by rewrite Hw, in_flight_finished.
Qed.

(** In a run of calls one after the other every exchange is performed
    under the read timeout of its own call: read timeout and deadline of
    every exchange agree.  So the world of the race of
    [Interleave.read_timeout_race], in which they differ, is the world of
    no run in turn: a pool that does not agree on its timeouts is not
    serialisable. *)
Theorem in_turn_own_timeouts (ks : list CallArgs) w0 w :
  in_turn ks w0 = Done w →
  Forall (λ x, ExReadTimeout x = ExDeadline x) (sent w0) →
  Forall (λ x, ExReadTimeout x = ExDeadline x) (sent w).
Proof.
  revert w0. induction ks as [|k ks IH]; intros w0; cbn [in_turn].
  { by intros [= ->]. }
  destruct (Call _ _ _ _ _ w0) as [[[e stored] w1]|] eqn:Hcall; go_simpl; [|done].
  intros Hrun Hall. apply (IH w1 Hrun).
  destruct (Call_sent _ _ _ _ _ _ _ _ _ Hcall) as [->|(conn & request & ->)];
    [done|].
  apply Forall_app. split; [done|]. by apply Forall_singleton.
Qed.

End serial_facts.

(** ** Closed instances *)

Section serial_witnesses.
Import RefCodec RefGzip RefNet Fixtures Race Agree.

(** The run of [Isolation.overtaken], to its end: the second call writes
    its timeout between the write and the exchange of the first, and
    performs its exchange last. *)
Lemma overtaken_finished :
  ∃ w, rtc (step (Nt := peer echoed)) (init, fresh [slow; slow2])
         (w, [(slow, Returned None (Some (VStr "hi")));
              (slow2, Returned None (Some (VStr "hi")))]).
Proof.
  eexists.
  eapply rtc_l.
  { eapply (step_call _ _ [] [(slow2, Start)] slow Start). vm_compute. reflexivity. }
  eapply rtc_l.
  { eapply (step_call _ _ [(slow, Armed _)] [] slow2 Start). vm_compute.
    reflexivity. }
  eapply rtc_l.
  { eapply (step_call _ _ [] [(slow2, Armed _)] slow (Armed _)). vm_compute.
    reflexivity. }
  apply rtc_once.
  eapply (step_call _ _ [(slow, Returned _ _)] [] slow2 (Armed _)). vm_compute.
  reflexivity.
Defined.

Lemma agreed_serialisable_witness :
  ∃ w order,
    rtc (step (Nt := peer echoed)) (init, fresh [slow; slow2])
      (w, [(slow, Returned None (Some (VStr "hi")));
           (slow2, Returned None (Some (VStr "hi")))])
    ∧ order ≡ₚ [slow; slow2]
    ∧ in_turn (Nt := peer echoed) order init = Done w.
Proof.
  destruct overtaken_finished as (w & Hrun). exists w.
  destruct (agreed_serialisable (Nt := peer echoed) two_seconds init
              [slow; slow2] _ agreed_pair Hrun) as (order & Hperm & Hturn).
  - intros k s Hin. cbn in Hin.
    apply elem_of_cons in Hin as [[= -> ->]|Hin]; [by eauto|].
    apply elem_of_cons in Hin as [[= -> ->]|Hin]; [by eauto|].
    by apply elem_of_nil in Hin.
  - by exists order.
Defined.

(** The calls of the race, one after the other: each exchange under the
    timeout of its own call. *)
Lemma in_turn_own_timeouts_witness :
  ∃ w, in_turn (Nt := peer echoed) [slow; quick] init = Done w
       ∧ (ExReadTimeout <$> sent w) = [2000000000; 50000000]
       ∧ Forall (λ x, ExReadTimeout x = ExDeadline x) (sent w).
Proof.
  eexists. split_and!; [vm_compute; reflexivity|vm_compute; reflexivity|].
  apply (in_turn_own_timeouts (Nt := peer echoed) [slow; quick] init);
    [vm_compute; reflexivity|apply Forall_nil_2].
Defined.

End serial_witnesses.
