(* ===== verification/Utf8.v ===== *)
(** * Utf8: well-formed UTF-8

    [encoding/json] keeps a Go string as it is only when its bytes are
    well-formed UTF-8: the encoder writes every byte that is not part of a
    well-formed sequence as U+FFFD, and the decoder does the same with what
    it reads.  The strings of a decoded document are therefore well formed,
    and only on such strings is decoding after encoding the identity.
    Package [host_sync] encodes the hosts it builds from a decoded document
    and compares the encodings, so the model needs the notion.

    [valid_utf8] is [utf8.Valid] of the Go library: the byte sequences of
    RFC 3629, with no overlong form, no surrogate and nothing above
    U+10FFFF.  [EncodeRune] is [utf8.AppendRune] on a scalar value.
    [runes] is what a loop of [utf8.DecodeRune] sees: the well-formed
    sequences of a byte string and, one by one, the bytes that belong to
    none ([stray]); [coerce] writes U+FFFD for each of these, as a
    conversion to runes and back does.  The lemmas show that validity is
    kept by concatenation, that ASCII text is valid, that every encoded
    scalar value is valid, and that a byte string is valid exactly when it
    has no stray byte ([valid_utf8_runes]), in which case [coerce] leaves
    it as it is. *)

From stdpp Require Import list strings pretty.
From S2P Require Import Prelude.
From S2P Require Import Wire.

(** * Definitions *)

(** A continuation byte, [10xxxxxx]. *)
Definition cont (b : byte) : bool := bool_decide (128 ≤ byte_to_Z b ≤ 191).

Definition between (lo hi : Z) (b : byte) : bool :=
  bool_decide (lo ≤ byte_to_Z b ≤ hi).

(** [utf8.Valid]: one sequence after the other; the second byte of a
    sequence of three or four is restricted after the lead bytes [E0], [ED],
    [F0] and [F4], which excludes the overlong forms, the surrogates and
    the values above U+10FFFF. *)
Fixpoint valid_utf8 (bs : list byte) : bool :=
  match bs with
  | [] => true
  | b :: bs1 =>
      let n := byte_to_Z b in
      if decide (n < 128) then valid_utf8 bs1
      else
        match bs1 with
        | [] => false
        | b1 :: bs2 =>
            if decide (194 ≤ n ≤ 223) then cont b1 && valid_utf8 bs2
            else
              match bs2 with
              | [] => false
              | b2 :: bs3 =>
                  if decide (224 ≤ n ≤ 239) then
                    between (if decide (n = 224) then 160 else 128)
                            (if decide (n = 237) then 159 else 191) b1
                    && cont b2 && valid_utf8 bs3
                  else
                    match bs3 with
                    | [] => false
                    | b3 :: bs4 =>
                        if decide (240 ≤ n ≤ 244) then
                          between (if decide (n = 240) then 144 else 128)
                                  (if decide (n = 244) then 143 else 191) b1
                          && cont b2 && cont b3 && valid_utf8 bs4
                        else false
                    end
              end
        end
  end.

(** The sequences of two, three and four bytes. *)
Definition two (b b1 : byte) : bool :=
  bool_decide (194 ≤ byte_to_Z b ≤ 223) && cont b1.

Definition three (b b1 b2 : byte) : bool :=
  let n := byte_to_Z b in
  bool_decide (224 ≤ n ≤ 239)
  && between (if decide (n = 224) then 160 else 128)
             (if decide (n = 237) then 159 else 191) b1
  && cont b2.

Definition four (b b1 b2 b3 : byte) : bool :=
  let n := byte_to_Z b in
  bool_decide (240 ≤ n ≤ 244)
  && between (if decide (n = 240) then 144 else 128)
             (if decide (n = 244) then 143 else 191) b1
  && cont b2 && cont b3.

(** [utf8.DecodeRune] from the start to the end: the well-formed sequences
    of [bs], and every other byte on its own. *)
Fixpoint runes (bs : list byte) : list (list byte) :=
  match bs with
  | [] => []
  | b :: bs1 =>
      match bs1 with
      | b1 :: bs2 =>
          if two b b1 then [b; b1] :: runes bs2
          else
            match bs2 with
            | b2 :: bs3 =>
                if three b b1 b2 then [b; b1; b2] :: runes bs3
                else
                  match bs3 with
                  | b3 :: bs4 =>
                      if four b b1 b2 b3 then [b; b1; b2; b3] :: runes bs4
                      else [b] :: runes bs1
                  | [] => [b] :: runes bs1
                  end
            | [] => [b] :: runes bs1
            end
      | [] => [[b]]
      end
  end.

(** A byte that is part of no well-formed sequence, for which
    [utf8.DecodeRune] returns [RuneError] and the width 1. *)
Definition stray (p : list byte) : bool :=
  match p with
  | [b] => bool_decide (128 ≤ byte_to_Z b)
  | _ => false
  end.

(** A well-formed sequence: one ASCII byte, or bytes above ASCII that are
    valid together. *)
Definition wf_piece (p : list byte) : Prop :=
  (∃ b, p = [b] ∧ byte_to_Z b < 128)
  ∨ (Forall (λ b, 128 ≤ byte_to_Z b) p ∧ valid_utf8 p = true).

(** [utf8.ValidString]. *)
Definition Valid (s : string) : Prop := valid_utf8 (bytes_of_string s) = true.

#[export] Instance Valid_dec s : Decision (Valid s).
Proof. unfold Valid. apply _. Defined.

(** A string of ASCII characters. *)
Definition ascii_only (s : string) : Prop :=
  Forall (λ b, byte_to_Z b < 128) (bytes_of_string s).

#[export] Instance ascii_only_dec s : Decision (ascii_only s).
Proof. unfold ascii_only. apply _. Defined.

(** A Unicode scalar value: a code point that is no surrogate. *)
Definition scalar (c : Z) : Prop := 0 ≤ c < 55296 ∨ 57344 ≤ c < 1114112.

(** [utf8.AppendRune] on a scalar value. *)
Definition EncodeRune (c : Z) : list byte :=
  if decide (c < 128) then [byte_of_Z c]
  else if decide (c < 2048) then
    [byte_of_Z (192 + c / 64); byte_of_Z (128 + c mod 64)]
  else if decide (c < 65536) then
    [byte_of_Z (224 + c / 4096); byte_of_Z (128 + c / 64 mod 64);
     byte_of_Z (128 + c mod 64)]
  else
    [byte_of_Z (240 + c / 262144); byte_of_Z (128 + c / 4096 mod 64);
     byte_of_Z (128 + c / 64 mod 64); byte_of_Z (128 + c mod 64)].

(** U+FFFD, the replacement character. *)
Definition RuneError : Z := 65533.

(** What a conversion to runes and back makes of a byte string: every
    stray byte becomes U+FFFD. *)
Definition coerce (bs : list byte) : list byte :=
  p ← runes bs; if stray p then EncodeRune RuneError else p.

(** * Lemmas *)

(** ** Validity and concatenation *)

Lemma valid_utf8_app bs1 bs2 :
  valid_utf8 bs1 = true → valid_utf8 bs2 = true →
  valid_utf8 (bs1 ++ bs2) = true.
Proof.
  intros H1 H2. revert H1.
  induction bs1 as [bs1 IH'] using length_ind. intros H1.
  destruct bs1 as [|b bs1]; [done|]. cbn [app valid_utf8] in *.
  case_decide; [apply IH'; [cbn; lia|done]|].
  destruct bs1 as [|b1 bs1]; [done|]. cbn [app] in *.
  case_decide.
  { apply andb_true_iff in H1 as [-> H1]. apply IH'; [cbn; lia|done]. }
  destruct bs1 as [|b2 bs1]; [done|]. cbn [app] in *.
  case_decide.
  { apply andb_true_iff in H1 as [-> H1]. apply IH'; [cbn; lia|done]. }
  destruct bs1 as [|b3 bs1]; [done|]. cbn [app] in *.
  case_decide; [|done].
  apply andb_true_iff in H1 as [-> H1]. apply IH'; [cbn; lia|done].
Qed.

Lemma Valid_app s1 s2 : Valid s1 → Valid s2 → Valid (s1 +:+ s2).
Proof. unfold Valid. rewrite bytes_of_string_app. apply valid_utf8_app. Qed.

Lemma Valid_string_of_bytes bs :
  valid_utf8 bs = true → Valid (string_of_bytes bs).
Proof. intros Hv. unfold Valid. by rewrite bytes_of_string_of_bytes. Qed.

Lemma Valid_concat sep l :
  Valid sep → Forall Valid l → Valid (String.concat sep l).
Proof.
  intros Hsep. induction 1 as [|s l Hs Hl IH]; [done|].
  destruct l as [|s' l]; [done|].
  change (String.concat sep (s :: s' :: l))
    with (s +:+ sep +:+ String.concat sep (s' :: l)).
  auto using Valid_app.
Qed.

(** ** ASCII text *)

Lemma ascii_only_Valid s : ascii_only s → Valid s.
Proof.
  unfold ascii_only, Valid.
  induction 1 as [|b bs Hb _ IH]; [done|]. cbn [valid_utf8].
  by rewrite decide_True.
Qed.

Lemma ascii_only_app s1 s2 :
  ascii_only (s1 +:+ s2) ↔ ascii_only s1 ∧ ascii_only s2.
Proof. unfold ascii_only. rewrite bytes_of_string_app. apply Forall_app. Qed.

Lemma ascii_only_String a s :
  ascii_only (String a s)
  ↔ byte_to_Z (Ascii.byte_of_ascii a) < 128 ∧ ascii_only s.
Proof. unfold ascii_only. cbn. exact (Forall_cons _ _ _). Qed.

Lemma pretty_N_char_ascii d :
  byte_to_Z (Ascii.byte_of_ascii (pretty_N_char d)) < 128.
Proof. unfold pretty_N_char. by repeat case_match. Qed.

Lemma ascii_only_pretty_N_go n : ∀ s,
  ascii_only s → ascii_only (pretty_N_go n s).
Proof.
  induction (N.lt_wf_0 n) as [n _ IH]. intros s Hs.
  destruct (decide (n = 0%N)) as [->|Hn]; [by rewrite pretty_N_go_0|].
  rewrite pretty_N_go_step by lia.
  apply IH; [apply N.div_lt; lia|].
  apply ascii_only_String. split; [apply pretty_N_char_ascii|done].
Qed.

Lemma ascii_only_pretty_N (n : N) : ascii_only (pretty n).
Proof.
  unfold pretty, pretty_N. case_decide; [by repeat constructor|].
  apply ascii_only_pretty_N_go. constructor.
Qed.

Lemma ascii_only_pretty_Z (n : Z) : ascii_only (pretty n).
Proof.
  destruct n as [|p|p]; [by repeat constructor| |].
  - apply (ascii_only_pretty_N (Npos p)).
  - apply ascii_only_app. split; [by repeat constructor|].
    apply (ascii_only_pretty_N (Npos p)).
Qed.

(** ** Encoded scalar values *)

Lemma byte_of_Z_small n : 0 ≤ n < 256 → byte_to_Z (byte_of_Z n) = n.
Proof. intros Hn. rewrite byte_to_of_Z. by apply Z.mod_small. Qed.

Lemma cont_byte_of_Z n : 128 ≤ n ≤ 191 → cont (byte_of_Z n) = true.
Proof.
  intros Hn. unfold cont. rewrite byte_of_Z_small by lia.
  by apply bool_decide_eq_true_2.
Qed.

Lemma between_byte_of_Z lo hi n :
  0 ≤ n < 256 → lo ≤ n ≤ hi → between lo hi (byte_of_Z n) = true.
Proof.
  intros Hn Hb. unfold between. rewrite byte_of_Z_small by lia.
  by apply bool_decide_eq_true_2.
Qed.

(** The sequences of two, three and four bytes, by the values of their
    bytes. *)
Lemma valid_utf8_two n n1 :
  194 ≤ n ≤ 223 → 128 ≤ n1 ≤ 191 →
  valid_utf8 [byte_of_Z n; byte_of_Z n1] = true.
Proof.
  intros Hn Hn1. cbn [valid_utf8]. rewrite byte_of_Z_small by lia.
  rewrite decide_False, decide_True by lia. by rewrite cont_byte_of_Z.
Qed.

Lemma valid_utf8_three n n1 n2 :
  224 ≤ n ≤ 239 →
  (if decide (n = 224) then 160 else 128) ≤ n1
  ≤ (if decide (n = 237) then 159 else 191) →
  128 ≤ n2 ≤ 191 →
  valid_utf8 [byte_of_Z n; byte_of_Z n1; byte_of_Z n2] = true.
Proof.
  intros Hn Hn1 Hn2. cbn [valid_utf8]. rewrite byte_of_Z_small by lia.
  rewrite decide_False, decide_False, decide_True by lia.
  rewrite between_byte_of_Z, cont_byte_of_Z; [done|lia| |done].
  repeat case_decide; lia.
Qed.

Lemma valid_utf8_four n n1 n2 n3 :
  240 ≤ n ≤ 244 →
  (if decide (n = 240) then 144 else 128) ≤ n1
  ≤ (if decide (n = 244) then 143 else 191) →
  128 ≤ n2 ≤ 191 → 128 ≤ n3 ≤ 191 →
  valid_utf8 [byte_of_Z n; byte_of_Z n1; byte_of_Z n2; byte_of_Z n3] = true.
Proof.
  intros Hn Hn1 Hn2 Hn3. cbn [valid_utf8]. rewrite byte_of_Z_small by lia.
  rewrite decide_False, decide_False, decide_False, decide_True by lia.
  rewrite between_byte_of_Z, !cont_byte_of_Z; [done|lia..| |done].
  repeat case_decide; lia.
Qed.

(** Every scalar value has a valid encoding. *)
Lemma EncodeRune_valid c : scalar c → valid_utf8 (EncodeRune c) = true.
Proof.
  intros Hc. unfold EncodeRune, scalar in *. repeat case_decide.
  - cbn [valid_utf8]. rewrite byte_of_Z_small by lia. by rewrite decide_True.
  - apply valid_utf8_two; Z.div_mod_to_equations; lia.
  - apply valid_utf8_three; repeat case_decide; Z.div_mod_to_equations; lia.
  - apply valid_utf8_four; repeat case_decide; Z.div_mod_to_equations; lia.
Qed.

(** A text of scalar values is valid. *)
Lemma EncodeRune_text_valid cs :
  Forall scalar cs → valid_utf8 (cs ≫= EncodeRune) = true.
Proof.
  induction 1 as [|c cs Hc _ IH]; [done|]. cbn.
  by apply valid_utf8_app; [apply EncodeRune_valid|].
Qed.

(** ** The sequences of a byte string *)

Lemma valid_utf8_cons b bs1 :
  valid_utf8 (b :: bs1)
  = if decide (byte_to_Z b < 128) then valid_utf8 bs1
    else match bs1 with
         | [] => false
         | b1 :: bs2 =>
             if two b b1 then valid_utf8 bs2
             else match bs2 with
                  | [] => false
                  | b2 :: bs3 =>
                      if three b b1 b2 then valid_utf8 bs3
                      else match bs3 with
                           | [] => false
                           | b3 :: bs4 => four b b1 b2 b3 && valid_utf8 bs4
                           end
                  end
         end.
Proof.
  cbn [valid_utf8]. case_decide; [done|].
  destruct bs1 as [|b1 bs2]; [done|]. unfold two, three, four.
  case_decide.
  { rewrite bool_decide_eq_true_2 by done. cbn [andb].
    destruct (cont b1); [done|]. cbn [andb].
    rewrite !bool_decide_eq_false_2 by lia. by destruct bs2 as [|b2 [|b3 bs4]]. }
  rewrite (bool_decide_eq_false_2 (194 ≤ _ ≤ 223)) by done. cbn [andb].
  destruct bs2 as [|b2 bs3]; [done|]. case_decide.
  { rewrite bool_decide_eq_true_2 by done. cbn [andb].
    destruct (between _ _ b1 && cont b2); [done|]. cbn [andb].
    rewrite bool_decide_eq_false_2 by lia. by destruct bs3. }
  rewrite (bool_decide_eq_false_2 (224 ≤ _ ≤ 239)) by done. cbn [andb].
  destruct bs3 as [|b3 bs4]; [done|]. case_decide.
  { by rewrite bool_decide_eq_true_2 by done. }
  by rewrite bool_decide_eq_false_2 by done.
Qed.

Lemma runes_cons b bs1 :
  runes (b :: bs1)
  = match bs1 with
    | b1 :: bs2 =>
        if two b b1 then [b; b1] :: runes bs2
        else
          match bs2 with
          | b2 :: bs3 =>
              if three b b1 b2 then [b; b1; b2] :: runes bs3
              else
                match bs3 with
                | b3 :: bs4 =>
                    if four b b1 b2 b3 then [b; b1; b2; b3] :: runes bs4
                    else [b] :: runes bs1
                | [] => [b] :: runes bs1
                end
          | [] => [b] :: runes bs1
          end
    | [] => [[b]]
    end.
Proof. done. Qed.

(** The lead byte of a sequence of several bytes is above ASCII. *)
Lemma two_lead b b1 : two b b1 = true → 128 ≤ byte_to_Z b.
Proof. unfold two. intros [?%bool_decide_eq_true_1 _]%andb_true_iff. lia. Qed.

Lemma three_lead b b1 b2 : three b b1 b2 = true → 128 ≤ byte_to_Z b.
Proof.
  unfold three.
  intros [[?%bool_decide_eq_true_1 _]%andb_true_iff _]%andb_true_iff. lia.
Qed.

Lemma four_lead b b1 b2 b3 : four b b1 b2 b3 = true → 128 ≤ byte_to_Z b.
Proof.
  unfold four.
  intros [[[?%bool_decide_eq_true_1 _]%andb_true_iff _]%andb_true_iff _]%andb_true_iff.
  lia.
Qed.

(** [case_runes] splits on the sequence a byte string starts with. *)
Ltac case_runes :=
  repeat match goal with
  | |- context [two ?b ?b1] => destruct (two b b1) eqn:?
  | |- context [three ?b ?b1 ?b2] => destruct (three b b1 b2) eqn:?
  | |- context [four ?b ?b1 ?b2 ?b3] => destruct (four b b1 b2 b3) eqn:?
  end.

(** The sequences of a byte string are the byte string. *)
Lemma concat_runes bs : concat (runes bs) = bs.
Proof.
  induction bs as [bs IH] using length_ind.
  destruct bs as [|b [|b1 [|b2 [|b3 bs]]]]; cbn [runes]; try done;
    repeat case_match; cbn [concat app]; rewrite ?IH by (cbn; lia); done.
Qed.

(** A byte string is valid when it has no stray byte. *)
Lemma valid_utf8_runes bs :
  valid_utf8 bs = forallb (λ p, negb (stray p)) (runes bs).
Proof.
  induction bs as [bs IH] using length_ind.
  destruct bs as [|b bs1]; [done|]. rewrite valid_utf8_cons, runes_cons.
  destruct bs1 as [|b1 [|b2 [|b3 bs4]]]; cbv beta iota; case_runes;
    repeat match goal with
    | H : two _ _ = true |- _ => apply two_lead in H
    | H : three _ _ _ = true |- _ => apply three_lead in H
    | H : four _ _ _ _ = true |- _ => apply four_lead in H
    end;
    cbn [forallb stray negb andb]; case_decide; try lia;
    rewrite <-?IH by (cbn; lia);
    rewrite ?bool_decide_eq_true_2, ?bool_decide_eq_false_2 by lia; done.
Qed.

(** A valid byte string is left as it is. *)
Lemma coerce_valid bs : valid_utf8 bs = true → coerce bs = bs.
Proof.
  rewrite valid_utf8_runes. intros Hv. unfold coerce.
  rewrite <-(concat_runes bs) at 2.
  induction (runes bs) as [|p ps IH]; [done|]. cbn in *.
  apply andb_true_iff in Hv as [Hp Hv]. rewrite IH by done.
  by destruct (stray p).
Qed.

(** ** Well-formed sequences *)

Lemma cont_high b : cont b = true → 128 ≤ byte_to_Z b.
Proof. unfold cont. intros ?%bool_decide_eq_true_1. lia. Qed.

Lemma between_high lo hi b :
  128 ≤ lo → between lo hi b = true → 128 ≤ byte_to_Z b.
Proof. unfold between. intros ? ?%bool_decide_eq_true_1. lia. Qed.

Lemma two_wf b b1 : two b b1 = true → wf_piece [b; b1].
Proof.
  intros H. right. split.
  - pose proof (two_lead _ _ H). apply andb_true_iff in H as [_ ?%cont_high].
    by repeat constructor.
  - rewrite valid_utf8_cons, H. pose proof (two_lead _ _ H).
    by case_decide; [lia|].
Qed.

Lemma three_wf b b1 b2 :
  two b b1 = false → three b b1 b2 = true → wf_piece [b; b1; b2].
Proof.
  intros H2 H. right. split.
  - pose proof (three_lead _ _ _ H).
    apply andb_true_iff in H as [[_ H1]%andb_true_iff ?%cont_high].
    apply between_high in H1; [|by case_decide]. by repeat constructor.
  - rewrite valid_utf8_cons, H2, H. pose proof (three_lead _ _ _ H).
    by case_decide; [lia|].
Qed.

Lemma four_wf b b1 b2 b3 :
  two b b1 = false → three b b1 b2 = false → four b b1 b2 b3 = true →
  wf_piece [b; b1; b2; b3].
Proof.
  intros H2 H3 H. right. split.
  - pose proof (four_lead _ _ _ _ H).
    apply andb_true_iff in H
      as [[[_ H1]%andb_true_iff ?%cont_high]%andb_true_iff ?%cont_high].
    apply between_high in H1; [|by case_decide]. by repeat constructor.
  - rewrite valid_utf8_cons, H2, H3, H. pose proof (four_lead _ _ _ _ H).
    by case_decide; [lia|].
Qed.

Lemma single_wf b : stray [b] = true ∨ wf_piece [b].
Proof.
  cbn. case_bool_decide; [by left|]. right. left. exists b. split; [done|lia].
Qed.

(** The sequences of a byte string are well-formed sequences and stray
    bytes. *)
Lemma runes_pieces bs : Forall (λ p, stray p = true ∨ wf_piece p) (runes bs).
Proof.
  induction bs as [bs IH] using length_ind.
  destruct bs as [|b bs1]; [constructor|]. rewrite runes_cons.
  destruct bs1 as [|b1 [|b2 [|b3 bs4]]]; cbv beta iota; case_runes;
    (constructor; [|first [apply IH; cbn; lia|constructor]]);
    eauto using single_wf, two_wf, three_wf, four_wf.
Qed.

(** Those of a valid byte string are well formed. *)
Lemma runes_valid bs : valid_utf8 bs = true → Forall wf_piece (runes bs).
Proof.
  rewrite valid_utf8_runes. intros Hv%forallb_Forall.
  pose proof (runes_pieces bs) as Hp. rewrite Forall_forall in Hp, Hv |- *.
  intros p Hin. destruct (Hp p Hin) as [Hs|]; [|done].
  apply Hv in Hin. by rewrite Hs in Hin.
Qed.

(** ** The sequences of a valid byte string *)

Lemma valid_utf8_tail b bs :
  byte_to_Z b < 128 → valid_utf8 (b :: bs) = valid_utf8 bs.
Proof. intros Hb. cbn [valid_utf8]. by rewrite decide_True. Qed.

Lemma wf_piece_valid p : wf_piece p → valid_utf8 p = true.
Proof.
  intros [(b & -> & Hb)|[_ Hv]]; [|done]. by rewrite valid_utf8_tail.
Qed.

Lemma valid_utf8_concat ps :
  Forall (λ p, valid_utf8 p = true) ps → valid_utf8 (concat ps) = true.
Proof.
  induction 1 as [|p ps Hp _ IH]; [done|]. by apply valid_utf8_app.
Qed.

Lemma runes_nonempty bs : Forall (λ p, p ≠ []) (runes bs).
Proof.
  induction bs as [bs IH] using length_ind.
  destruct bs as [|b bs1]; [constructor|]. rewrite runes_cons.
  destruct bs1 as [|b1 [|b2 [|b3 bs4]]]; cbv beta iota; case_runes;
    (constructor; [done|first [apply IH; cbn; lia|constructor]]).
Qed.

(** A valid byte string begins with an ASCII character or with a sequence
    of bytes above ASCII, and what follows is valid. *)
Lemma valid_utf8_uncons b bs :
  valid_utf8 (b :: bs) = true →
  (byte_to_Z b < 128 ∧ valid_utf8 bs = true)
  ∨ ∃ p rest, bs = p ++ rest ∧ Forall (λ b, 128 ≤ byte_to_Z b) (b :: p)
              ∧ valid_utf8 (b :: p) = true ∧ valid_utf8 rest = true.
Proof.
  intros Hv. destruct (decide (byte_to_Z b < 128)) as [Hb|Hb].
  { left. by rewrite valid_utf8_tail in Hv. }
  right. pose proof (runes_valid _ Hv) as Hwf.
  pose proof (runes_nonempty (b :: bs)) as Hne.
  pose proof (concat_runes (b :: bs)) as Hc.
  destruct (runes (b :: bs)) as [|p ps]; [done|].
  apply Forall_cons in Hwf as [Hp Hps]. apply Forall_cons in Hne as [Hne _].
  destruct p as [|b' p]; [done|]. cbn in Hc. injection Hc as -> <-.
  exists p, (concat ps). split; [done|].
  destruct Hp as [(b' & [= -> ->] & ?)|[Hh Hp]]; [lia|].
  split_and!; [done..|].
  apply valid_utf8_concat. eapply Forall_impl; [exact Hps|]. apply wf_piece_valid.
Qed.

(** A byte string whose stray bytes were replaced is valid. *)
Lemma coerce_well_formed bs : valid_utf8 (coerce bs) = true.
Proof.
  unfold coerce. pose proof (runes_pieces bs) as Hp.
  induction Hp as [|p ps Hp _ IH]; [done|]. cbn.
  apply valid_utf8_app; [|done].
  destruct (stray p) eqn:Hs; [done|].
  destruct Hp as [?|?]; [congruence|by apply wf_piece_valid].
Qed.
