(* ===== verification/Json.v ===== *)
(** * Json: [encoding/json] as package [host_sync] uses it, and [url.QueryEscape]

    Package [host_sync] ([src/unnamed/part_000]) encodes host lists with
    [json.Marshal] (lines 148 and 255), decodes them with [json.Unmarshal]
    (line 140), decodes the answer of the Docker API with [json.Unmarshal]
    (lines 97 and 194) and escapes the filters of its query with
    [url.QueryEscape] (line 69).  These are functions of the Go library;
    this file holds executable definitions of them, written after the
    library sources ([encode.go], [scanner.go], [decode.go], [url.go]), so
    that the laws the package is verified against have an instance and the
    examples show the bytes that are written and read.

    - The encoder: a string is written between quotes, with the escapes of
      [appendString] when it escapes HTML, and [\ufffd] for every byte that
      is part of no well-formed UTF-8 sequence.  A nil slice is [null].
      Releases before Go 1.22 write backspace and form feed as [\u0008] and
      [\u000c]; the decoder reads both forms.
    - The scanner: the states and the stack of [scanner.go], one step per
      byte, with the limit of 10000 on the nesting.  The states of the
      literals [true], [false] and [null] are one state that holds the
      letters to come.
    - The decoder: [Unmarshal] first checks the whole input with the
      scanner and then stores its values in the target.  Here the input is
      read once, into a [document]: its values as they are written, with
      the strings unquoted ([unquote], with the escapes, the surrogate
      pairs and U+FFFD for what is not well-formed UTF-8), the numbers as
      their literals and the members of an object in their order.  [Parse]
      is the document or the syntax error.  The text of the error is that
      of the library for the end of the input; for an invalid character
      the library names the character and the place, and the model does
      not.
    - The store into a [[]string]: the document has to be an array or
      [null]; an element that is a string is stored, [null] leaves the
      empty string, any other element leaves the empty string and the
      first such element an error, and all elements are stored.  So
      [Unmarshal] returns what it left in the target together with its
      error, with the text of the library for a type error.  The store
      into a [[]map[string]interface{}] needs the values of [HostSync] and
      is defined there.

    - The text of a document: [Encode] writes a document without spaces,
      its strings and keys with [appendString], its numbers as their
      literals.  A document is [canonical] when its numbers are literals
      the scanner accepts and its strings and keys are well-formed UTF-8;
      [depth] is the nesting of its arrays and objects.

    [Parse_Encode] is the round trip of the decoder: the text of a
    canonical document that is nested at most 10000 deep is read as that
    document.  Its proof follows the decoder through the text: [reads v]
    says that from any state in which a value may begin, over any stack of
    open arrays and objects and before any delimiter, the bytes of [v] leave
    the decoder where the value [v] is complete; strings, numbers and
    literals read so, and arrays and objects when their elements do.
    The theorem [Unmarshal_Marshal] is the law of [host_sync.EnvLaws]: a
    list of well-formed strings that was encoded decodes to itself, without
    an error; it is the round trip at the array of the strings.  For other strings it fails, and two lists can have the same
    encoding ([Marshal_conflates]).  [unquote_valid] and
    [Parse_well_formed] show that every string and key of a document that
    was read is well-formed UTF-8, whatever the bytes of the input. *)

From stdpp Require Import list strings.
From S2P Require Import Prelude.
From S2P Require Import Wire.
From S2P Require Import Utf8.

Module encoding_json.

(** * Definitions *)

(** ** The encoder ([encode.go]) *)

Definition dq : byte := x22.
Definition bsl : byte := x5c.

(** [hex]: the digits of the escapes the encoder writes. *)
Definition hexdigit (n : Z) : byte :=
  byte_of_Z (if decide (n < 10) then 48 + n else 87 + n).

(** [htmlSafeSet]: the ASCII characters written as they are. *)
Definition safe (b : byte) : bool :=
  let n := byte_to_Z b in
  bool_decide (32 ≤ n < 128 ∧ n ∉ [34; 38; 60; 62; 92]).

(** A backslash and what follows it. *)
Definition esc (s : string) : list byte := bsl :: bytes_of_string s.

(** What [appendString] writes for one sequence of the string. *)
Definition escape (p : list byte) : list byte :=
  match p with
  | [b] =>
      let n := byte_to_Z b in
      if decide (128 ≤ n) then esc "ufffd"
      else if safe b then [b]
      else if decide (b = bsl ∨ b = dq) then [bsl; b]
      else if decide (n = 8) then esc "b"
      else if decide (n = 12) then esc "f"
      else if decide (n = 10) then esc "n"
      else if decide (n = 13) then esc "r"
      else if decide (n = 9) then esc "t"
      else esc "u00" ++ [hexdigit (n / 16); hexdigit (n mod 16)]
  | _ =>
      if decide (p = EncodeRune 8232) then esc "u2028"
      else if decide (p = EncodeRune 8233) then esc "u2029"
      else p
  end.

(** [appendString] with [escapeHTML] set: a string literal. *)
Definition appendString (src : list byte) : list byte :=
  dq :: (runes src ≫= escape) ++ [dq].

(** [json.Marshal] of a [[]string]; the nil slice is [null]. *)
Definition Marshal (l : list string) : list byte :=
  match l with
  | [] => bytes_of_string "null"
  | s :: l' =>
      "["%byte :: appendString (bytes_of_string s)
      ++ (l' ≫= λ s, ","%byte :: appendString (bytes_of_string s))
      ++ ["]"%byte]
  end.

(** [json.Marshal] of a [map[string][]string] with the one key [label]. *)
Definition MarshalFilters (l : list string) : list byte :=
  "{"%byte :: appendString (bytes_of_string "label")
  ++ ":"%byte :: Marshal l ++ ["}"%byte].

(** ** The decoder of string literals ([unquoteBytes]) *)

Definition hexval (b : byte) : option Z :=
  let n := byte_to_Z b in
  if decide (48 ≤ n ≤ 57) then Some (n - 48)
  else if decide (97 ≤ n ≤ 102) then Some (n - 87)
  else if decide (65 ≤ n ≤ 70) then Some (n - 55)
  else None.

(** [getu4] on the four digits after [\u]. *)
Definition getu4 (h1 h2 h3 h4 : byte) : option Z :=
  d1 ← hexval h1; d2 ← hexval h2; d3 ← hexval h3; d4 ← hexval h4;
  Some (((d1 * 16 + d2) * 16 + d3) * 16 + d4).

(** [utf16.IsSurrogate] and [utf16.DecodeRune]. *)
Definition IsSurrogate (r : Z) : bool := bool_decide (55296 ≤ r < 57344).

Definition DecodeSurrogates (r1 r2 : Z) : Z :=
  if decide (55296 ≤ r1 < 56320 ∧ 56320 ≤ r2 < 57344)
  then (r1 - 55296) * 1024 + (r2 - 56320) + 65536
  else RuneError.

(** The characters after a backslash, [u] apart.  The apostrophe is read
    here, but the scanner does not let it through. *)
Definition unescape_char (e : byte) : option byte :=
  if decide (e = dq ∨ e = bsl ∨ e = "/"%byte ∨ e = "'"%byte) then Some e
  else if decide (e = "b"%byte) then Some x08
  else if decide (e = "f"%byte) then Some x0c
  else if decide (e = "n"%byte) then Some x0a
  else if decide (e = "r"%byte) then Some x0d
  else if decide (e = "t"%byte) then Some x09
  else None.

(** What is written for a surrogate that found no partner. *)
Definition flush (hi : option Z) : list byte :=
  match hi with
  | Some _ => EncodeRune RuneError
  | None => []
  end.

(** The loop of [unquoteBytes], on a string that holds well-formed UTF-8.
    [hi] is a surrogate read from an escape that waits for its partner. *)
Fixpoint unescape (hi : option Z) (bs : list byte) : option (list byte) :=
  match bs with
  | [] => Some (flush hi)
  | c :: bs1 =>
      if decide (c = bsl) then
        match bs1 with
        | [] => None
        | e :: bs2 =>
            if decide (e = "u"%byte) then
              match bs2 with
              | h1 :: h2 :: h3 :: h4 :: bs6 =>
                  rr ← getu4 h1 h2 h3 h4;
                  match hi with
                  | Some r1 =>
                      if decide (DecodeSurrogates r1 rr ≠ RuneError) then
                        (EncodeRune (DecodeSurrogates r1 rr) ++.)
                          <$> unescape None bs6
                      else if IsSurrogate rr then
                        (EncodeRune RuneError ++.) <$> unescape (Some rr) bs6
                      else
                        ((EncodeRune RuneError ++ EncodeRune rr) ++.)
                          <$> unescape None bs6
                  | None =>
                      if IsSurrogate rr then unescape (Some rr) bs6
                      else (EncodeRune rr ++.) <$> unescape None bs6
                  end
              | _ => None
              end
            else
              c' ← unescape_char e;
              ((flush hi ++ [c']) ++.) <$> unescape None bs2
        end
      else if decide (c = dq ∨ byte_to_Z c < 32) then None
      else ((flush hi ++ [c]) ++.) <$> unescape None bs1
  end.

(** [unquoteBytes] on the content of a string literal. *)
Definition unquote (raw : list byte) : option (list byte) :=
  unescape None (coerce raw).

(** ** The scanner ([scanner.go]) *)

(** [parseState]: what the scanner is inside of. *)
Inductive Ctx : Type := parseObjectKey | parseObjectValue | parseArrayValue.

#[export] Instance Ctx_eq_dec : EqDecision Ctx.
Proof. solve_decision. Defined.

(** The step functions of the scanner.  The states of a literal [true],
    [false] or [null] are written as the letters still to come. *)
Inductive Scan : Type :=
  | stateBeginValue | stateBeginValueOrEmpty
  | stateBeginStringOrEmpty | stateBeginString
  | stateEndValue | stateEndTop
  | stateInString | stateInStringEsc | stateInStringEscU (k : nat)
  | stateNeg | state0 | state1 | stateDot | stateDot0
  | stateE | stateESign | stateE0
  | stateLit (rest : list byte)
  | stateError.

#[export] Instance Scan_eq_dec : EqDecision Scan.
Proof. solve_decision. Defined.

Definition maxNestingDepth : Z := 10000.

Definition isSpace (c : byte) : bool :=
  bool_decide (c ∈ [" "%byte; x09; x0d; x0a]).

Definition isDigit (c : byte) : bool :=
  bool_decide (48 ≤ byte_to_Z c ≤ 57).

(** [popParseState] *)
Definition popParseState (ps : list Ctx) : Scan * list Ctx :=
  (if decide (ps = []) then stateEndTop else stateEndValue, ps).

(** [pushParseState] *)
Definition pushParseState (s : Scan) (x : Ctx) (ps : list Ctx)
    : Scan * list Ctx :=
  if decide (len (x :: ps) ≤ maxNestingDepth) then (s, x :: ps)
  else (stateError, ps).

(** [stateEndValue]: after a value. *)
Definition endValue (ps : list Ctx) (c : byte) : Scan * list Ctx :=
  match ps with
  | [] => (if isSpace c then stateEndTop else stateError, [])
  | top :: ps' =>
      if isSpace c then (stateEndValue, ps)
      else
        match top with
        | parseObjectKey =>
            if decide (c = ":"%byte) then (stateBeginValue, parseObjectValue :: ps')
            else (stateError, ps)
        | parseObjectValue =>
            if decide (c = ","%byte) then (stateBeginString, parseObjectKey :: ps')
            else if decide (c = "}"%byte) then popParseState ps'
            else (stateError, ps)
        | parseArrayValue =>
            if decide (c = ","%byte) then (stateBeginValue, ps)
            else if decide (c = "]"%byte) then popParseState ps'
            else (stateError, ps)
        end
  end.

(** [stateBeginValue] on a byte that is no space. *)
Definition beginValue (ps : list Ctx) (c : byte) : Scan * list Ctx :=
  if decide (c = "{"%byte) then
    pushParseState stateBeginStringOrEmpty parseObjectKey ps
  else if decide (c = "["%byte) then
    pushParseState stateBeginValueOrEmpty parseArrayValue ps
  else if decide (c = dq) then (stateInString, ps)
  else if decide (c = "-"%byte) then (stateNeg, ps)
  else if decide (c = "0"%byte) then (state0, ps)
  else if decide (c = "t"%byte) then (stateLit (bytes_of_string "rue"), ps)
  else if decide (c = "f"%byte) then (stateLit (bytes_of_string "alse"), ps)
  else if decide (c = "n"%byte) then (stateLit (bytes_of_string "ull"), ps)
  else if isDigit c then (state1, ps)
  else (stateError, ps).

(** [state0]: after the integer part of a number. *)
Definition afterInt (ps : list Ctx) (c : byte) : Scan * list Ctx :=
  if decide (c = "."%byte) then (stateDot, ps)
  else if decide (c = "e"%byte ∨ c = "E"%byte) then (stateE, ps)
  else endValue ps c.

(** [stateESign] *)
Definition afterSign (ps : list Ctx) (c : byte) : Scan * list Ctx :=
  (if isDigit c then stateE0 else stateError, ps).

(** One step of the scanner. *)
Definition scan (s : Scan) (ps : list Ctx) (c : byte) : Scan * list Ctx :=
  match s with
  | stateBeginValue =>
      if isSpace c then (s, ps) else beginValue ps c
  | stateBeginValueOrEmpty =>
      if isSpace c then (s, ps)
      else if decide (c = "]"%byte) then endValue ps c
      else beginValue ps c
  | stateBeginStringOrEmpty =>
      if isSpace c then (s, ps)
      else if decide (c = "}"%byte) then
        endValue (parseObjectValue :: tail ps) c
      else (if decide (c = dq) then stateInString else stateError, ps)
  | stateBeginString =>
      if isSpace c then (s, ps)
      else (if decide (c = dq) then stateInString else stateError, ps)
  | stateEndValue => endValue ps c
  | stateEndTop => (if isSpace c then stateEndTop else stateError, ps)
  | stateInString =>
      (if decide (c = dq) then stateEndValue
       else if decide (c = bsl) then stateInStringEsc
       else if decide (byte_to_Z c < 32) then stateError
       else stateInString, ps)
  | stateInStringEsc =>
      (if decide (c = "u"%byte) then stateInStringEscU 0
       else if bool_decide (c ∈ bytes_of_string "bfnrt/" ++ [bsl; dq])
       then stateInString
       else stateError, ps)
  | stateInStringEscU k =>
      (if hexval c is Some _
       then if decide (k = 3%nat) then stateInString else stateInStringEscU (S k)
       else stateError, ps)
  | stateNeg =>
      (if decide (c = "0"%byte) then state0
       else if isDigit c then state1
       else stateError, ps)
  | state1 => if isDigit c then (state1, ps) else afterInt ps c
  | state0 => afterInt ps c
  | stateDot => (if isDigit c then stateDot0 else stateError, ps)
  | stateDot0 =>
      if isDigit c then (stateDot0, ps)
      else if decide (c = "e"%byte ∨ c = "E"%byte) then (stateE, ps)
      else endValue ps c
  | stateE =>
      if decide (c = "+"%byte ∨ c = "-"%byte) then (stateESign, ps)
      else afterSign ps c
  | stateESign => afterSign ps c
  | stateE0 => if isDigit c then (stateE0, ps) else endValue ps c
  | stateLit rest =>
      (match rest with
       | r :: rest' =>
           if decide (c = r)
           then if decide (rest' = []) then stateEndValue else stateLit rest'
           else stateError
       | [] => stateError
       end, ps)
  | stateError => (stateError, ps)
  end.

(** ** The document ([decode.go]) *)

(** A document as it is written: a number as its literal, a string
    unquoted, the members of an object in their order. *)
#[local] Unset Elimination Schemes.
Inductive document : Type :=
  | DNull
  | DBool (b : bool)
  | DNumber (lit : list byte)
  | DString (s : list byte)
  | DArray (vs : list document)
  | DObject (kvs : list (list byte * document)).
#[local] Set Elimination Schemes.

(** Induction on a document, with the hypothesis for the elements of an
    array and for the members of an object. *)
Definition document_ind (P : document → Prop)
    (fnull : P DNull) (fbool : ∀ b, P (DBool b)) (fnum : ∀ lit, P (DNumber lit))
    (fstr : ∀ s, P (DString s))
    (farr : ∀ vs, Forall P vs → P (DArray vs))
    (fobj : ∀ kvs, Forall (λ kv, P kv.2) kvs → P (DObject kvs)) : ∀ v, P v :=
  fix F (v : document) : P v :=
    match v with
    | DNull => fnull
    | DBool b => fbool b
    | DNumber lit => fnum lit
    | DString s => fstr s
    | DArray vs =>
        farr vs ((fix G (vs : list document) : Forall P vs :=
                    match vs with
                    | [] => @List.Forall_nil _ P
                    | x :: vs' => @List.Forall_cons _ P x vs' (F x) (G vs')
                    end) vs)
    | DObject kvs =>
        fobj kvs ((fix G (kvs : list (list byte * document))
                       : Forall (λ kv, P kv.2) kvs :=
                     match kvs with
                     | [] => @List.Forall_nil _ (λ kv, P kv.2)
                     | kv :: kvs' =>
                         @List.Forall_cons _ (λ kv, P kv.2) kv kvs' (F kv.2)
                           (G kvs')
                     end) kvs)
    end.

(** An array or an object that is being read: what it holds so far, and
    for an object the key that waits for its value. *)
Inductive Frame : Type :=
  | InArray (vs : list document)
  | InObject (kvs : list (list byte * document)) (key : list byte).

(** The decoder at work: the scanner, the bytes of the literal it is in,
    the arrays and objects it is inside of, and the document when it is
    complete. *)
Record Decoder : Type := mkDecoder {
  step : Scan;
  parseState : list Ctx;
  raw : list byte;
  stack : list Frame;
  top : option document;
}.

Definition start : Decoder := mkDecoder stateBeginValue [] [] [] None.

(** A byte of a literal. *)
Definition collect (c : byte) (d : Decoder) : Decoder :=
  mkDecoder (step d) (parseState d) (raw d ++ [c]) (stack d) (top d).

(** An array or an object begins. *)
Definition open (f : Frame) (d : Decoder) : Decoder :=
  mkDecoder (step d) (parseState d) [] (f :: stack d) (top d).

(** A value is complete: it is the document, the next element of the
    array, or the value of the key. *)
Definition put_value (v : document) (fs : list Frame) (t : option document)
    : list Frame * option document :=
  match fs with
  | [] => ([], Some v)
  | InArray vs :: fs' => (InArray (vs ++ [v]) :: fs', t)
  | InObject kvs k :: fs' => (InObject (kvs ++ [(k, v)]) [] :: fs', t)
  end.

Definition put (v : document) (d : Decoder) : Decoder :=
  let r := put_value v (stack d) (top d) in
  mkDecoder (step d) (parseState d) [] r.1 r.2.

(** An array or an object ends, and is a value. *)
Definition close_frame (fs : list Frame) (t : option document)
    : list Frame * option document :=
  match fs with
  | [] => ([], t)
  | InArray vs :: fs' => put_value (DArray vs) fs' t
  | InObject kvs _ :: fs' => put_value (DObject kvs) fs' t
  end.

Definition close (d : Decoder) : Decoder :=
  let r := close_frame (stack d) (top d) in
  mkDecoder (step d) (parseState d) [] r.1 r.2.

(** A string literal ends: it is a key of the object, or a value. *)
Definition endString (d : Decoder) : Decoder :=
  let s := default [] (unquote (raw d)) in
  match parseState d, stack d with
  | parseObjectKey :: _, InObject kvs _ :: fs =>
      mkDecoder (step d) (parseState d) [] (InObject kvs s :: fs) (top d)
  | _, _ => put (DString s) d
  end.

(** The scanner inside a number. *)
Definition in_number (s : Scan) : bool :=
  match s with
  | stateNeg | state0 | state1 | stateDot | stateDot0
  | stateE | stateESign | stateE0 => true
  | _ => false
  end.

(** The first byte of a value. *)
Definition beginLiteral (c : byte) (d : Decoder) : Decoder :=
  if decide (c = "{"%byte) then open (InObject [] []) d
  else if decide (c = "["%byte) then open (InArray []) d
  else if decide (c = "t"%byte) then put (DBool true) d
  else if decide (c = "f"%byte) then put (DBool false) d
  else if decide (c = "n"%byte) then put DNull d
  else if decide (c = dq) then d
  else collect c d.

(** A byte after a value. *)
Definition endLiteral (c : byte) (d : Decoder) : Decoder :=
  if decide (c = "]"%byte ∨ c = "}"%byte) then close d else d.

(** One byte of the input.  A number ends with the byte after it. *)
Definition decode (d : Decoder) (c : byte) : Decoder :=
  let '(s, ps) := scan (step d) (parseState d) c in
  let d1 :=
    match step d with
    | stateInString => if decide (c = dq) then endString d else collect c d
    | stateInStringEsc | stateInStringEscU _ => collect c d
    | stateBeginValue | stateBeginValueOrEmpty | stateBeginStringOrEmpty
    | stateBeginString =>
        if isSpace c then d
        else if decide (c = "]"%byte ∨ c = "}"%byte) then close d
        else beginLiteral c d
    | stateEndValue => endLiteral c d
    | _ =>
        if in_number (step d) then
          if in_number s then collect c d
          else endLiteral c (put (DNumber (raw d)) d)
        else d
    end in
  mkDecoder s ps (raw d1) (stack d1) (top d1).

(** [scanner.eof]: a space is fed to end a number. *)
Definition eof (d : Decoder) : Decoder :=
  if decide (step d = stateEndTop) then d else decode d " "%byte.

(** [checkValid] and the reading of the document: the document, or the
    syntax error. *)
Definition Parse (data : list byte) : string + document :=
  let d := eof (foldl decode start data) in
  if decide (step d = stateEndTop) then
    match top d with
    | Some v => inr v
    | None => inl "unexpected end of JSON input"
    end
  else if decide (step d = stateError) then inl "invalid character"
  else inl "unexpected end of JSON input".

(** ** The decoder into a [[]string] *)

(** The kinds of value, as the decoder names them in its errors. *)
Inductive Kind : Type := KObject | KArray | KString | KNumber | KBool | KNull.

Definition kind (v : document) : Kind :=
  match v with
  | DNull => KNull
  | DBool _ => KBool
  | DNumber _ => KNumber
  | DString _ => KString
  | DArray _ => KArray
  | DObject _ => KObject
  end.

Definition kind_name (k : Kind) : string :=
  match k with
  | KObject => "object" | KArray => "array" | KString => "string"
  | KNumber => "number" | KBool => "bool" | KNull => "null"
  end.

(** [UnmarshalTypeError.Error] *)
Definition type_error (k : Kind) (type : string) : string :=
  "json: cannot unmarshal " +:+ kind_name k +:+ " into Go value of type "
  +:+ type.

(** A value stored in a string: a string is stored; [null] leaves the
    empty string; any other value leaves the empty string and is an
    error. *)
Definition to_string (v : document) : list byte * option string :=
  match v with
  | DString s => (s, None)
  | DNull => ([], None)
  | _ => ([], Some (type_error (kind v) "string"))
  end.

(** A document stored in a [[]string]: it has to be an array or [null];
    the error is the first of the elements. *)
Definition to_strings (v : document) : list string * option string :=
  match v with
  | DNull => ([], None)
  | DArray vs =>
      (string_of_bytes ∘ fst ∘ to_string <$> vs, head (omap (snd ∘ to_string) vs))
  | _ => ([], Some (type_error (kind v) "[]string"))
  end.

(** [json.Unmarshal(data, &host)] with [var host []string]: what it leaves
    in [host], and its error. *)
Definition Unmarshal (data : list byte) : list string * option string :=
  match Parse data with
  | inl err => ([], Some err)
  | inr v => to_strings v
  end.

(** The strings and the keys of a document are well-formed UTF-8. *)
Fixpoint well_formed (v : document) : bool :=
  match v with
  | DString s => valid_utf8 s
  | DArray vs => forallb well_formed vs
  | DObject kvs => forallb (λ kv, valid_utf8 kv.1 && well_formed kv.2) kvs
  | _ => true
  end.

Definition well_formed_frame (f : Frame) : bool :=
  match f with
  | InArray vs => forallb well_formed vs
  | InObject kvs k =>
      forallb (λ kv, valid_utf8 kv.1 && well_formed kv.2) kvs && valid_utf8 k
  end.

Definition well_formed_decoder (d : Decoder) : bool :=
  forallb well_formed_frame (stack d) && from_option well_formed true (top d).

(** ** The text of a document *)

(** The texts of the elements with commas between them. *)
Definition commas (ls : list (list byte)) : list byte :=
  match ls with
  | [] => []
  | x :: ls' => x ++ (ls' ≫= λ y, ","%byte :: y)
  end.

(** A document written without spaces: the text that is read as the
    document. *)
Fixpoint Encode (v : document) : list byte :=
  match v with
  | DNull => bytes_of_string "null"
  | DBool b => bytes_of_string (if b then "true" else "false")
  | DNumber lit => lit
  | DString s => appendString s
  | DArray vs => "["%byte :: commas (Encode <$> vs) ++ ["]"%byte]
  | DObject kvs =>
      "{"%byte
      :: commas ((λ kv, appendString kv.1 ++ ":"%byte :: Encode kv.2) <$> kvs)
      ++ ["}"%byte]
  end.

(** The state after the bytes of a number, each of which is part of it. *)
Fixpoint numeric (s : Scan) (bs : list byte) : option Scan :=
  match bs with
  | [] => Some s
  | c :: bs' =>
      let s' := (scan s [] c).1 in
      if in_number s' then numeric s' bs' else None
  end.

(** The states in which a number may end. *)
Definition accepting (s : Scan) : bool :=
  match s with
  | state0 | state1 | stateDot0 | stateE0 => true
  | _ => false
  end.

(** A number as the scanner accepts it. *)
Definition number_literal (lit : list byte) : bool :=
  match numeric stateBeginValue lit with
  | Some s => accepting s
  | None => false
  end.

(** The numbers of a document are number literals, and its strings and
    keys well-formed UTF-8. *)
Fixpoint canonical (v : document) : bool :=
  match v with
  | DNumber lit => number_literal lit
  | DString s => valid_utf8 s
  | DArray vs => forallb canonical vs
  | DObject kvs => forallb (λ kv, valid_utf8 kv.1 && canonical kv.2) kvs
  | _ => true
  end.

(** How deep the arrays and objects of a document are nested. *)
Fixpoint depth (v : document) : nat :=
  match v with
  | DArray vs => S (max_list (depth <$> vs))
  | DObject kvs => S (max_list ((λ kv, depth kv.2) <$> kvs))
  | _ => 0
  end.

(** The bytes that follow a value in a text without spaces, and the space
    that ends the input. *)
Definition delimiter (c : byte) : Prop :=
  c ∈ [","%byte; "]"%byte; "}"%byte; " "%byte].

(** The text of a member of an object. *)
Definition member (kv : list byte * document) : list byte :=
  appendString kv.1 ++ ":"%byte :: Encode kv.2.


(** The states in which a value may begin. *)
Definition begins (s : Scan) : Prop :=
  s = stateBeginValue ∨ s = stateBeginValueOrEmpty.

(** What is to show of a value: read where a value may begin, and followed
    by a delimiter, it is put where it belongs. *)
Definition reads (v : document) : Prop :=
  ∀ s ps fs t c rest,
    begins s → head ps ≠ Some parseObjectKey → length fs = length ps →
    Z.of_nat (depth v + length ps) ≤ maxNestingDepth →
    delimiter c →
    foldl decode (mkDecoder s ps [] fs t) (Encode v ++ c :: rest)
    = foldl decode (decode (put v (mkDecoder stateEndValue ps [] fs t)) c) rest.

(** The scanner inside a string literal. *)
Definition in_literal (s : Scan) : bool :=
  match s with
  | stateInString | stateInStringEsc | stateInStringEscU _ => true
  | _ => false
  end.

(** The state after the bytes [bs] of a literal, none of which ends it. *)
Fixpoint content (s : Scan) (bs : list byte) : option Scan :=
  match bs with
  | [] => Some s
  | c :: bs' =>
      let s' := (scan s [] c).1 in
      if in_literal s && in_literal s' then content s' bs' else None
  end.

(** ** [url.QueryEscape] ([url.go]) *)

(** The characters that are not escaped in a query component. *)
Definition unreserved (c : byte) : bool :=
  let n := byte_to_Z c in
  bool_decide (48 ≤ n ≤ 57 ∨ 65 ≤ n ≤ 90 ∨ 97 ≤ n ≤ 122)
  || bool_decide (c ∈ bytes_of_string "-_.~").

Definition upperhex (n : Z) : byte :=
  byte_of_Z (if decide (n < 10) then 48 + n else 55 + n).

Definition QueryEscape (s : list byte) : list byte :=
  c ← s;
  if unreserved c then [c]
  else if decide (c = " "%byte) then ["+"%byte]
  else ["%"%byte; upperhex (byte_to_Z c / 16); upperhex (byte_to_Z c mod 16)].

(** * Lemmas *)

(** ** The decoder gives back what the encoder was given *)

Lemma byte_high_ne (c c' : byte) :
  128 ≤ byte_to_Z c → byte_to_Z c' < 128 → c ≠ c'.
Proof. intros ?? ->. lia. Qed.

(** Bytes above ASCII are copied. *)
Lemma unescape_high p rest :
  Forall (λ b, 128 ≤ byte_to_Z b) p →
  unescape None (p ++ rest) = (p ++.) <$> unescape None rest.
Proof.
  induction 1 as [|c p Hc _ IH]; cbn [app unescape].
  { by destruct (unescape None rest). }
  rewrite decide_False by (by apply byte_high_ne).
  rewrite decide_False by (intros [->|?]; [by vm_compute in Hc|lia]).
  rewrite IH. by destruct (unescape None rest).
Qed.

(** The escape of an ASCII character is read as that character. *)
Lemma unescape_ascii b rest :
  byte_to_Z b < 128 →
  unescape None (escape [b] ++ rest) = ([b] ++.) <$> unescape None rest.
Proof.
  intros Hb. destruct b; first [reflexivity|by vm_compute in Hb].
Qed.


(** The escape of a well-formed sequence is read as that sequence. *)
Lemma unescape_piece p rest :
  wf_piece p →
  unescape None (escape p ++ rest) = (p ++.) <$> unescape None rest.
Proof.
  intros [(b & -> & Hb)|[Hhigh Hv]]; [by apply unescape_ascii|].
  destruct p as [|b [|b1 p]].
  { change (escape [] ++ rest) with rest. by destruct (unescape None rest). }
  { apply Forall_cons in Hhigh as [Hb _]. rewrite valid_utf8_cons in Hv.
    by case_decide; [lia|]. }
  unfold escape.
  case_decide as H1; [by rewrite H1|]. case_decide as H2; [by rewrite H2|].
  by apply unescape_high.
Qed.

Lemma unescape_escape ps rest :
  Forall wf_piece ps →
  unescape None ((ps ≫= escape) ++ rest) = (concat ps ++.) <$> unescape None rest.
Proof.
  induction 1 as [|p ps Hp _ IH].
  { change (([] ≫= escape) ++ rest) with rest. by destruct (unescape None rest). }
  change ((p :: ps) ≫= escape) with (escape p ++ (ps ≫= escape)).
  rewrite <-app_assoc, unescape_piece, IH by done.
  destruct (unescape None rest); cbn; [|done]. by rewrite app_assoc.
Qed.

(** What the encoder writes is well-formed UTF-8, whatever it is given. *)
Lemma escape_valid p :
  stray p = true ∨ wf_piece p → valid_utf8 (escape p) = true.
Proof.
  intros [Hs|[(b & -> & Hb)|[Hhigh Hv]]].
  - destruct p as [|b [|??]]; try done. cbn in Hs.
    apply bool_decide_eq_true_1 in Hs. unfold escape.
    by rewrite decide_True.
  - destruct b; try (by vm_compute in Hb); by vm_compute.
  - destruct p as [|b [|b1 p]]; [done| |].
    { apply Forall_cons in Hhigh as [Hb _]. rewrite valid_utf8_cons in Hv.
      by case_decide; [lia|]. }
    unfold escape. by repeat case_decide.
Qed.

Lemma bind_escape_valid ps :
  Forall (λ p, stray p = true ∨ wf_piece p) ps →
  valid_utf8 (ps ≫= escape) = true.
Proof.
  induction 1 as [|p ps Hp _ IH]; [done|]. cbn.
  by apply valid_utf8_app; [apply escape_valid|].
Qed.

(** The content of an encoded string literal decodes to the string, when
    the string is well-formed UTF-8. *)
Theorem unquote_escape bs :
  valid_utf8 bs = true → unquote (runes bs ≫= escape) = Some bs.
Proof.
  intros Hv. unfold unquote.
  rewrite coerce_valid by apply bind_escape_valid, runes_pieces.
  rewrite <-(app_nil_r (_ ≫= _)), unescape_escape by by apply runes_valid.
  cbn. by rewrite app_nil_r, concat_runes.
Qed.

(** Of a string that is not well formed the decoder gives back another
    one. *)
Example unquote_escape_stray :
  unquote (runes [xff] ≫= escape) = Some (EncodeRune RuneError).
Proof. reflexivity. Qed.

(** ** The scanner inside a string literal *)

Lemma content_app s bs1 bs2 :
  content s (bs1 ++ bs2) = content s bs1 ≫= λ s', content s' bs2.
Proof.
  revert s. induction bs1 as [|c bs1 IH]; intros s; [done|]. cbn.
  case_match; [apply IH|done].
Qed.

(** Inside a literal the decoder collects the bytes. *)
Lemma decode_content bs : ∀ s ps r fs t s',
  content s bs = Some s' →
  foldl decode (mkDecoder s ps r fs t) bs = mkDecoder s' ps (r ++ bs) fs t.
Proof.
  induction bs as [|c bs IH]; intros s ps r fs t s' Hc; cbn in Hc.
  { simplify_eq. by rewrite app_nil_r. }
  destruct (in_literal s) eqn:Hs; [|done].
  destruct (in_literal (scan s [] c).1) eqn:Hs'; [|done]. cbn in Hc.
  cbn [foldl].
  assert (decode (mkDecoder s ps r fs t) c
          = mkDecoder (scan s [] c).1 ps (r ++ [c]) fs t) as ->.
  { unfold decode. cbn [step parseState raw stack top].
    destruct s; try done; cbn in Hs' |- *;
      repeat (case_decide; try done); repeat (case_match; try done). }
  rewrite (IH _ ps (r ++ [c]) fs t s' Hc). by rewrite <-app_assoc.
Qed.

(** The scanner reads bytes above ASCII as part of the literal. *)
Lemma content_high p :
  Forall (λ b, 128 ≤ byte_to_Z b) p →
  content stateInString p = Some stateInString.
Proof.
  induction 1 as [|c p Hc _ IH]; [done|]. cbn.
  rewrite decide_False by (intros ->; by vm_compute in Hc).
  rewrite decide_False by (intros ->; by vm_compute in Hc).
  by rewrite decide_False by lia.
Qed.

(** The scanner reads what the encoder writes for a sequence as part of
    the literal. *)
Lemma content_escape p :
  stray p = true ∨ wf_piece p →
  content stateInString (escape p) = Some stateInString.
Proof.
  intros [Hs|[(b & -> & Hb)|[Hhigh Hv]]].
  - destruct p as [|b [|??]]; try done. cbn in Hs.
    apply bool_decide_eq_true_1 in Hs. unfold escape.
    by rewrite decide_True.
  - destruct b; first [reflexivity|by vm_compute in Hb].
  - destruct p as [|b [|b1 p]]; [done| |].
    { apply Forall_cons in Hhigh as [Hb _]. rewrite valid_utf8_cons in Hv.
      by case_decide; [lia|]. }
    unfold escape. repeat case_decide; [done..|by apply content_high].
Qed.

Lemma content_bind_escape ps :
  Forall (λ p, stray p = true ∨ wf_piece p) ps →
  content stateInString (ps ≫= escape) = Some stateInString.
Proof.
  induction 1 as [|p ps Hp _ IH]; [done|].
  change ((p :: ps) ≫= escape) with (escape p ++ (ps ≫= escape)).
  by rewrite content_app, content_escape.
Qed.

(** ** What is written of a document is read as that document *)

(** In a number the scanner does not look at what it is inside of. *)
Lemma scan_number s ps c :
  in_number (scan s [] c).1 = true → scan s ps c = ((scan s [] c).1, ps).
Proof.
  destruct s; cbn; unfold beginValue, afterInt, afterSign, endValue, pushParseState, popParseState;
    repeat (case_match; cbn; try done); by intros.
Qed.

(** The bytes of a number are collected. *)
Lemma decode_numeric bs : ∀ s ps r fs t s',
  in_number s = true → numeric s bs = Some s' →
  foldl decode (mkDecoder s ps r fs t) bs = mkDecoder s' ps (r ++ bs) fs t.
Proof.
  induction bs as [|c bs IH]; intros s ps r fs t s' Hs Hn; cbn in Hn.
  { simplify_eq. by rewrite app_nil_r. }
  destruct (in_number (scan s [] c).1) eqn:Hs'; [|done].
  cbn [foldl].
  assert (decode (mkDecoder s ps r fs t) c
          = mkDecoder (scan s [] c).1 ps (r ++ [c]) fs t) as ->.
  { unfold decode. cbn [step parseState raw stack top].
    rewrite (scan_number _ _ _ Hs'), Hs'. by destruct s. }
  rewrite (IH _ ps (r ++ [c]) fs t s' Hs' Hn). by rewrite <-app_assoc.
Qed.

(** A number begins. *)
Lemma decode_number_begin s ps fs t c :
  s = stateBeginValue ∨ s = stateBeginValueOrEmpty →
  in_number (scan stateBeginValue [] c).1 = true →
  decode (mkDecoder s ps [] fs t) c
  = mkDecoder (scan stateBeginValue [] c).1 ps [c] fs t.
Proof.
  intros Hs Hn. unfold decode. cbn [step parseState raw stack top].
  assert (scan s ps c = ((scan stateBeginValue [] c).1, ps)) as ->.
  { rewrite <-(scan_number _ ps _ Hn). destruct Hs as [-> | ->]; [done|].
    cbn in *. destruct (isSpace c); [done|]. case_decide; [|done].
    subst. by vm_compute in Hn. }
  assert (isSpace c = false) as Hsp.
  { cbn in Hn. by destruct (isSpace c). }
  assert (beginLiteral c (mkDecoder s ps [] fs t) = mkDecoder s ps [c] fs t) as Hb.
  { unfold beginLiteral.
    repeat (case_decide; [subst; by vm_compute in Hn|]). done. }
  destruct Hs as [-> | ->]; rewrite Hsp;
    (case_decide as Hc; [destruct Hc; subst; by vm_compute in Hn|]);
    by rewrite Hb.
Qed.

Lemma endValue_not_number ps c : in_number (endValue ps c).1 = false.
Proof.
  unfold endValue, popParseState.
  destruct ps as [|[] ps]; repeat (case_match; cbn; try done).
Qed.

(** A number ends with the delimiter after it. *)
Lemma decode_number_end s ps r fs t c :
  accepting s = true → delimiter c →
  decode (mkDecoder s ps r fs t) c
  = decode (put (DNumber r) (mkDecoder stateEndValue ps [] fs t)) c.
Proof.
  intros Hs Hc. unfold decode. cbn [step parseState raw stack top put].
  assert (scan s ps c = endValue ps c) as ->.
  { unfold delimiter in Hc. rewrite !elem_of_cons, elem_of_nil in Hc.
    destruct s; try done; destruct_or!; by subst. }
  change (scan stateEndValue ps c) with (endValue ps c).
  pose proof (endValue_not_number ps c) as Hn.
  destruct (endValue ps c) as [s1 ps1]. cbn [fst] in Hn.
  destruct s; try done; cbn [in_number]; rewrite Hn; unfold endLiteral;
    by case_decide.
Qed.

(** A string that is a value. *)
Lemma endString_value s ps r fs t :
  head ps ≠ Some parseObjectKey →
  endString (mkDecoder s ps r fs t)
  = put (DString (default [] (unquote r))) (mkDecoder s ps r fs t).
Proof.
  intros Hps. unfold endString. cbn [parseState stack raw].
  by destruct ps as [|[] ps]; try done; destruct fs as [|[] fs].
Qed.

Lemma decode_string bs s ps fs t :
  s = stateBeginValue ∨ s = stateBeginValueOrEmpty →
  head ps ≠ Some parseObjectKey →
  valid_utf8 bs = true →
  foldl decode (mkDecoder s ps [] fs t) (appendString bs)
  = put (DString bs) (mkDecoder stateEndValue ps [] fs t).
Proof.
  intros Hs Hps Hv. unfold appendString. cbn [foldl].
  assert (decode (mkDecoder s ps [] fs t) dq = mkDecoder stateInString ps [] fs t)
    as -> by (by destruct Hs as [-> | ->]).
  rewrite foldl_app.
  rewrite (decode_content _ _ _ _ _ _ stateInString)
    by apply content_bind_escape, runes_pieces.
  cbn [foldl app]. unfold decode. cbn [step parseState raw stack top scan].
  rewrite !decide_True by done.
  by rewrite endString_value, unquote_escape by done.
Qed.

(** A string that is a key. *)
Lemma decode_key bs s ps kvs k fs t :
  s = stateBeginStringOrEmpty ∨ s = stateBeginString →
  valid_utf8 bs = true →
  foldl decode (mkDecoder s (parseObjectKey :: ps) [] (InObject kvs k :: fs) t)
    (appendString bs ++ [":"%byte])
  = mkDecoder stateBeginValue (parseObjectValue :: ps) []
      (InObject kvs bs :: fs) t.
Proof.
  intros Hs Hv. unfold appendString. cbn [foldl app].
  assert (decode (mkDecoder s (parseObjectKey :: ps) [] (InObject kvs k :: fs) t) dq
          = mkDecoder stateInString (parseObjectKey :: ps) []
              (InObject kvs k :: fs) t)
    as -> by (by destruct Hs as [-> | ->]).
  rewrite <-app_assoc, foldl_app.
  rewrite (decode_content _ _ _ _ _ _ stateInString)
    by apply content_bind_escape, runes_pieces.
  cbn [foldl app]. unfold decode at 2.
  cbn [step parseState raw stack top scan endString].
  rewrite !decide_True by done. by rewrite unquote_escape by done.
Qed.

Lemma reads_intro v :
  (∀ s ps fs t, begins s → head ps ≠ Some parseObjectKey →
     foldl decode (mkDecoder s ps [] fs t) (Encode v)
     = put v (mkDecoder stateEndValue ps [] fs t)) →
  reads v.
Proof.
  intros H s ps fs t c rest Hs Hps _ _ _. by rewrite foldl_app, H.
Qed.

Lemma reads_null : reads DNull.
Proof. apply reads_intro. by intros s ps fs t [-> | ->] _. Qed.

Lemma reads_bool b : reads (DBool b).
Proof. apply reads_intro. by intros s ps fs t [-> | ->] _; destruct b. Qed.

Lemma reads_string bs : valid_utf8 bs = true → reads (DString bs).
Proof. intros Hv. apply reads_intro. intros. by apply decode_string. Qed.

Lemma reads_number lit : number_literal lit = true → reads (DNumber lit).
Proof.
  unfold number_literal. intros Hlit s ps fs t c rest Hs _ _ _ Hc.
  destruct (numeric stateBeginValue lit) as [s'|] eqn:Hn; [|done].
  destruct lit as [|b lit]; cbn [numeric] in Hn; [by simplify_eq|].
  destruct (in_number (scan stateBeginValue [] b).1) eqn:Hb; [|done].
  cbn [Encode app foldl].
  rewrite decode_number_begin, foldl_app by done.
  rewrite (decode_numeric _ _ _ _ _ _ s') by done.
  cbn [foldl app]. by rewrite decode_number_end.
Qed.

Lemma commas_cons x y ls :
  commas (x :: y :: ls) = x ++ ","%byte :: commas (y :: ls).
Proof. done. Qed.

Lemma pushParseState_fits s x ps :
  Z.of_nat (S (length ps)) ≤ maxNestingDepth →
  pushParseState s x ps = (s, x :: ps).
Proof. intros H. unfold pushParseState. by rewrite decide_True. Qed.

(** After the end of an array or object, at the top as inside. *)
Lemma decode_after_close v ps fs t c :
  length fs = length ps → delimiter c →
  decode (mkDecoder (popParseState ps).1 ps []
            (put_value v fs t).1 (put_value v fs t).2) c
  = decode (put v (mkDecoder stateEndValue ps [] fs t)) c.
Proof.
  intros Hlen Hc. destruct ps as [|x ps]; [|done].
  destruct fs; [|done].
  unfold delimiter in Hc. rewrite !elem_of_cons, elem_of_nil in Hc.
  destruct_or!; by subst.
Qed.

(** An array or an object begins. *)
Lemma decode_open s ps fs t :
  begins s → Z.of_nat (S (length ps)) ≤ maxNestingDepth →
  decode (mkDecoder s ps [] fs t) "["%byte
  = mkDecoder stateBeginValueOrEmpty (parseArrayValue :: ps) []
      (InArray [] :: fs) t
  ∧ decode (mkDecoder s ps [] fs t) "{"%byte
    = mkDecoder stateBeginStringOrEmpty (parseObjectKey :: ps) []
        (InObject [] [] :: fs) t.
Proof.
  intros Hs Hd.
  assert (scan s ps "["%byte = (stateBeginValueOrEmpty, parseArrayValue :: ps)
          ∧ scan s ps "{"%byte = (stateBeginStringOrEmpty, parseObjectKey :: ps))
    as [H1 H2].
  { rewrite <-!(pushParseState_fits _ _ ps) by done.
    by destruct Hs as [-> | ->]. }
  unfold decode. cbn [step parseState]. rewrite H1, H2.
  by destruct Hs as [-> | ->].
Qed.

Lemma delimiter_comma : delimiter ","%byte.
Proof. by_compute. Qed.
Lemma delimiter_bracket : delimiter "]"%byte.
Proof. by_compute. Qed.
Lemma delimiter_brace : delimiter "}"%byte.
Proof. by_compute. Qed.
Lemma delimiter_space : delimiter " "%byte.
Proof. by_compute. Qed.

(** The elements of an array, up to its end. *)
Lemma reads_elements ps fs t c rest vs : ∀ acc s,
  begins s → length fs = length ps → delimiter c →
  Forall reads vs → vs ≠ [] →
  Z.of_nat (max_list (depth <$> vs) + S (length ps)) ≤ maxNestingDepth →
  foldl decode (mkDecoder s (parseArrayValue :: ps) [] (InArray acc :: fs) t)
    (commas (Encode <$> vs) ++ "]"%byte :: c :: rest)
  = foldl decode
      (decode (put (DArray (acc ++ vs)) (mkDecoder stateEndValue ps [] fs t)) c)
      rest.
Proof.
  intros acc s Hs Hlen Hc Hvs. revert acc s Hs.
  induction Hvs as [|v vs Hv _ IH]; intros acc s Hs Hne Hd; [done|].
  cbn [fmap list_fmap max_list] in Hd.
  destruct vs as [|v' vs].
  - cbn [fmap list_fmap commas mbind list_bind]. rewrite app_nil_r.
    rewrite Hv; [|done|done|cbn; by rewrite Hlen|cbn in *; lia|apply delimiter_bracket].
    cbn [foldl]. rewrite <-(decode_after_close _ _ _ _ _ Hlen Hc). done.
  - rewrite !fmap_cons, commas_cons, <-app_assoc. cbn [app].
    rewrite Hv; [|done|done|cbn; by rewrite Hlen|cbn in *; lia|apply delimiter_comma].
    rewrite <-!fmap_cons.
    change (decode (put v (mkDecoder stateEndValue (parseArrayValue :: ps) []
                             (InArray acc :: fs) t)) ","%byte)
      with (mkDecoder stateBeginValue (parseArrayValue :: ps) []
              (InArray (acc ++ [v]) :: fs) t).
    rewrite IH; [|by left|done|cbn in *; lia].
    by rewrite <-app_assoc.
Qed.

Lemma member_text kv rest :
  member kv ++ rest = (appendString kv.1 ++ [":"%byte]) ++ Encode kv.2 ++ rest.
Proof. unfold member. by rewrite <-!app_assoc. Qed.

(** The members of an object, up to its end. *)
Lemma reads_members ps fs t c rest kvs : ∀ acc k s,
  s = stateBeginStringOrEmpty ∨ s = stateBeginString →
  length fs = length ps → delimiter c →
  Forall (λ kv, valid_utf8 kv.1 = true ∧ reads kv.2) kvs → kvs ≠ [] →
  Z.of_nat (max_list ((λ kv, depth kv.2) <$> kvs) + S (length ps))
  ≤ maxNestingDepth →
  foldl decode (mkDecoder s (parseObjectKey :: ps) [] (InObject acc k :: fs) t)
    (commas (member <$> kvs) ++ "}"%byte :: c :: rest)
  = foldl decode
      (decode (put (DObject (acc ++ kvs)) (mkDecoder stateEndValue ps [] fs t)) c)
      rest.
Proof.
  intros acc k s Hs Hlen Hc Hkvs. revert acc k s Hs.
  induction Hkvs as [|[k1 v] kvs [Hk Hv] _ IH]; intros acc k s Hs Hne Hd;
    [done|].
  cbn [fmap list_fmap max_list fst snd] in Hd, Hk, Hv.
  destruct kvs as [|kv' kvs].
  - cbn [fmap list_fmap commas mbind list_bind]. rewrite app_nil_r.
    rewrite member_text, foldl_app. cbn [fst snd].
    rewrite decode_key by done.
    rewrite Hv; [|by left|done|cbn; by rewrite Hlen|cbn in *; lia
                |apply delimiter_brace].
    cbn [foldl]. rewrite <-(decode_after_close _ _ _ _ _ Hlen Hc). done.
  - rewrite !fmap_cons, commas_cons, <-app_assoc, member_text, foldl_app.
    cbn [app fst snd]. rewrite decode_key by done.
    rewrite Hv; [|by left|done|cbn; by rewrite Hlen|cbn in *; lia
                |apply delimiter_comma].
    rewrite <-!fmap_cons.
    change (decode (put v (mkDecoder stateEndValue (parseObjectValue :: ps) []
                             (InObject acc k1 :: fs) t)) ","%byte)
      with (mkDecoder stateBeginString (parseObjectKey :: ps) []
              (InObject (acc ++ [(k1, v)]) [] :: fs) t).
    rewrite IH; [|by right|done|cbn in *; lia].
    by rewrite <-app_assoc.
Qed.

(** Every canonical document is read as it is. *)
Lemma canonical_reads v : canonical v = true → reads v.
Proof.
  induction v as [|b|lit|bs|vs IH|kvs IH] using document_ind;
    cbn [canonical]; intros Hv.
  - apply reads_null.
  - apply reads_bool.
  - by apply reads_number.
  - by apply reads_string.
  - apply forallb_Forall in Hv. pose proof (Forall_mp _ _ _ Hv IH) as Hvs.
    intros s ps fs t c rest Hs Hps Hlen Hd Hc. cbn [Encode depth] in *.
    cbn [app foldl]. rewrite (proj1 (decode_open s ps fs t Hs ltac:(lia))).
    destruct vs as [|v vs].
    { cbn [fmap list_fmap commas app foldl].
      by rewrite <-(decode_after_close _ _ _ _ _ Hlen Hc). }
    rewrite <-app_assoc. cbn [app].
    rewrite reads_elements; [done|by right|done..|lia].
  - apply forallb_Forall in Hv.
    assert (Forall (λ kv, valid_utf8 kv.1 = true ∧ reads kv.2) kvs) as Hkvs.
    { rewrite Forall_forall in Hv, IH |- *. intros kv Hin.
      specialize (Hv kv Hin). apply andb_true_iff in Hv as [??]. auto. }
    intros s ps fs t c rest Hs Hps Hlen Hd Hc. cbn [Encode depth] in *.
    cbn [app foldl]. rewrite (proj2 (decode_open s ps fs t Hs ltac:(lia))).
    destruct kvs as [|kv kvs].
    { cbn [fmap list_fmap commas app foldl].
      by rewrite <-(decode_after_close _ _ _ _ _ Hlen Hc). }
    rewrite <-app_assoc. cbn [app].
    rewrite (reads_members ps fs t c rest (kv :: kvs) [] []);
      [done|by left|done..|lia].
Qed.

Lemma eof_decode d :
  step (eof d) = step (decode d " "%byte) ∧ top (eof d) = top (decode d " "%byte).
Proof.
  unfold eof. case_decide as Hs; [|done]. unfold decode. rewrite Hs.
  split; reflexivity.
Qed.

(** What is written of a canonical document is read as that document. *)
Theorem Parse_Encode v :
  canonical v = true → Z.of_nat (depth v) ≤ maxNestingDepth →
  Parse (Encode v) = inr v.
Proof.
  intros Hv Hd. unfold Parse.
  destruct (eof_decode (foldl decode start (Encode v))) as [-> ->].
  change (decode (foldl decode start (Encode v)) " "%byte)
    with (foldl decode (foldl decode start (Encode v)) [" "%byte]).
  rewrite <-foldl_app. unfold start.
  rewrite (canonical_reads v Hv);
    [done|by left|done|done|cbn; lia|apply delimiter_space].
Qed.

(** ** The decoder on what the encoder writes *)

(** An encoded list is the text of an array of strings. *)
Lemma Marshal_Encode s l :
  Marshal (s :: l) = Encode (DArray (DString ∘ bytes_of_string <$> s :: l)).
Proof.
  unfold Marshal. cbn [Encode fmap list_fmap commas compose]. f_equal.
  rewrite <-app_assoc. do 2 f_equal.
  induction l as [|s' l IH]; [done|]. cbn. by rewrite IH.
Qed.

(** The document of an encoded list. *)
Lemma Parse_Marshal s l :
  Forall Valid (s :: l) →
  Parse (Marshal (s :: l)) = inr (DArray (DString ∘ bytes_of_string <$> s :: l)).
Proof.
  intros Hl. rewrite Marshal_Encode. apply Parse_Encode.
  - cbn [canonical]. apply forallb_Forall, List.Forall_map.
    by eapply Forall_impl.
  - cbn [depth]. rewrite <-list_fmap_compose.
    replace (max_list _) with 0%nat; [done|].
    clear Hl. by induction (s :: l).
Qed.

(** A document of strings stored in a [[]string]. *)
Lemma to_strings_strings l :
  to_strings (DArray (DString ∘ bytes_of_string <$> l)) = (l, None).
Proof.
  cbn [to_strings]. f_equal.
  - rewrite <-list_fmap_compose. rewrite <-(list_fmap_id l) at 2.
    apply list_fmap_ext. intros _ x _. apply string_of_bytes_of_string.
  - by induction l.
Qed.

(** What was encoded is decoded without an error, to the list it was when
    its strings are well-formed UTF-8. *)
Lemma Unmarshal_Marshal_valid l :
  Forall Valid l → Unmarshal (Marshal l) = (l, None).
Proof.
  intros Hl. destruct l as [|s l]; [reflexivity|].
  unfold Unmarshal. by rewrite Parse_Marshal, to_strings_strings.
Qed.

(** Decoding after encoding is the identity on lists of well-formed
    strings: [json.Unmarshal] gives back, without an error, every list of
    strings that are well-formed UTF-8 as [json.Marshal] was given it,
    whatever characters the strings hold: quotes, backslashes, control
    characters, the characters that are escaped for HTML and for
    JavaScript, and characters outside ASCII. *)
Theorem Unmarshal_Marshal l :
  Forall Valid l → Unmarshal (Marshal l) = (l, None).
Proof. apply Unmarshal_Marshal_valid. Qed.

(** A list of strings with every kind of escape. *)
Lemma Unmarshal_Marshal_witness :
  let l := [ "10.0.0.1:8080"; string_of_bytes [dq; bsl; x0a; x01; "<"%byte];
             string_of_bytes (EncodeRune 233 ++ EncodeRune 8232
                              ++ EncodeRune 128512) ] in
  Unmarshal (Marshal l) = (l, None).
Proof. apply Unmarshal_Marshal. by_compute. Defined.

(** What the encoder writes is well-formed UTF-8, whatever it is given. *)
Lemma appendString_valid bs : valid_utf8 (appendString bs) = true.
Proof.
  unfold appendString. apply (valid_utf8_app [dq]); [done|].
  apply valid_utf8_app; [|done]. apply bind_escape_valid, runes_pieces.
Qed.

Theorem Marshal_valid l : valid_utf8 (Marshal l) = true.
Proof.
  destruct l as [|s l]; [done|]. unfold Marshal.
  apply (valid_utf8_app ["["%byte]); [done|].
  apply valid_utf8_app; [apply appendString_valid|].
  apply valid_utf8_app; [|done].
  induction l as [|s' l IH]; [done|].
  change ((s' :: l) ≫= λ s, ","%byte :: appendString (bytes_of_string s))
    with ((","%byte :: appendString (bytes_of_string s'))
          ++ (l ≫= λ s, ","%byte :: appendString (bytes_of_string s))).
  apply valid_utf8_app; [|done].
  apply (valid_utf8_app [","%byte]); [done|apply appendString_valid].
Qed.

(** The encoder never writes the empty string. *)
Lemma Marshal_nonempty l : Marshal l ≠ [].
Proof. by destruct l. Qed.

(** ** What the decoder reads is well-formed UTF-8 *)

Lemma hexval_ascii h d : hexval h = Some d → byte_to_Z h < 128 ∧ 0 ≤ d < 16.
Proof. unfold hexval. intros H. repeat case_decide; simplify_eq; lia. Qed.

Lemma getu4_range h1 h2 h3 h4 r :
  getu4 h1 h2 h3 h4 = Some r →
  Forall (λ h, byte_to_Z h < 128) [h1; h2; h3; h4] ∧ 0 ≤ r < 65536.
Proof.
  unfold getu4. intros H.
  destruct (hexval h1) as [d1|] eqn:H1; [|done].
  destruct (hexval h2) as [d2|] eqn:H2; [|done].
  destruct (hexval h3) as [d3|] eqn:H3; [|done].
  destruct (hexval h4) as [d4|] eqn:H4; [|done].
  apply hexval_ascii in H1, H2, H3, H4. simplify_eq/=.
  split; [repeat constructor; tauto|lia].
Qed.

Lemma unescape_char_ascii e c :
  unescape_char e = Some c → byte_to_Z e < 128 ∧ byte_to_Z c < 128.
Proof.
  unfold unescape_char. intros H.
  repeat case_decide; simplify_eq; try (by vm_compute).
  destruct_or!; simplify_eq; by vm_compute.
Qed.

Lemma flush_valid hi : valid_utf8 (flush hi) = true.
Proof. by destruct hi. Qed.

Lemma DecodeSurrogates_scalar r1 r2 : scalar (DecodeSurrogates r1 r2).
Proof. unfold DecodeSurrogates, scalar, RuneError. case_decide; lia. Qed.

Lemma rune_valid r :
  0 ≤ r < 65536 → IsSurrogate r = false → valid_utf8 (EncodeRune r) = true.
Proof.
  intros Hr Hs. apply EncodeRune_valid. unfold scalar.
  apply bool_decide_eq_false_1 in Hs. lia.
Qed.

(** What is written in front of the rest of the string is valid. *)
Lemma unescape_prefix pre hi rest out :
  (∀ out', unescape hi rest = Some out' → valid_utf8 out' = true) →
  valid_utf8 pre = true →
  (pre ++.) <$> unescape hi rest = Some out → valid_utf8 out = true.
Proof.
  intros IH Hpre Heq. destruct (unescape hi rest) as [out'|]; [|done].
  injection Heq as <-. apply valid_utf8_app; auto.
Qed.

(** An escape [\u] in front of a valid string. *)
Lemma unescape_u_valid hi rr bs6 out :
  (∀ hi' out', unescape hi' bs6 = Some out' → valid_utf8 out' = true) →
  0 ≤ rr < 65536 →
  match hi with
  | Some r1 =>
      if decide (DecodeSurrogates r1 rr ≠ RuneError) then
        (EncodeRune (DecodeSurrogates r1 rr) ++.) <$> unescape None bs6
      else if IsSurrogate rr then
        (EncodeRune RuneError ++.) <$> unescape (Some rr) bs6
      else
        ((EncodeRune RuneError ++ EncodeRune rr) ++.) <$> unescape None bs6
  | None =>
      if IsSurrogate rr then unescape (Some rr) bs6
      else (EncodeRune rr ++.) <$> unescape None bs6
  end = Some out →
  valid_utf8 out = true.
Proof.
  intros IH Hrr Hun.
  destruct hi as [r1|]; repeat case_decide; destruct (IsSurrogate rr) eqn:Hs;
    try (by eapply IH);
    (eapply unescape_prefix in Hun; [done|by eauto|]);
    try apply valid_utf8_app;
    eauto using EncodeRune_valid, DecodeSurrogates_scalar, rune_valid.
Qed.

(** What [unescape] reads of well-formed UTF-8 is well-formed UTF-8. *)
Lemma unescape_valid bs : ∀ hi out,
  valid_utf8 bs = true → unescape hi bs = Some out → valid_utf8 out = true.
Proof.
  induction bs as [bs IH] using length_ind. intros hi out Hv Hun.
  destruct bs as [|c bs1]; [injection Hun as <-; apply flush_valid|].
  destruct (valid_utf8_uncons _ _ Hv) as [[Hc Hv1]|(p & rest & -> & Hh & Hp & Hr)].
  - cbn [unescape] in Hun. case_decide as Hbsl; [|case_decide; [done|]].
    + destruct bs1 as [|e bs2]; [done|]. case_decide as Hu.
      * destruct bs2 as [|h1 [|h2 [|h3 [|h4 bs6]]]]; try done.
        destruct (getu4 h1 h2 h3 h4) as [rr|] eqn:Hg; [|done].
        apply getu4_range in Hg as [Hhex Hrr]. subst e.
        rewrite valid_utf8_tail in Hv1 by done.
        repeat (apply Forall_cons in Hhex as [? Hhex];
                rewrite valid_utf8_tail in Hv1 by done).
        eapply unescape_u_valid; [|done..].
        intros hi' out'. apply IH; [cbn; lia|done].
      * destruct (unescape_char e) as [c'|] eqn:He; [|done].
        apply unescape_char_ascii in He as [He Hc']. cbn in Hun.
        rewrite valid_utf8_tail in Hv1 by done.
        eapply unescape_prefix in Hun; [done| |].
        { intros out'. apply IH; [cbn; lia|done]. }
        apply valid_utf8_app; [apply flush_valid|]. by rewrite valid_utf8_tail.
    + eapply unescape_prefix in Hun; [done| |].
      { intros out'. apply IH; [cbn; lia|done]. }
      apply valid_utf8_app; [apply flush_valid|]. by rewrite valid_utf8_tail.
  - cbn [unescape] in Hun. apply Forall_cons in Hh as [Hc Hh].
    rewrite decide_False in Hun by (by apply byte_high_ne).
    rewrite decide_False in Hun by (intros [->|?]; [by vm_compute in Hc|lia]).
    rewrite unescape_high in Hun by done.
    destruct (unescape None rest) as [out'|] eqn:Hout; [|done].
    injection Hun as <-. rewrite <-app_assoc.
    apply valid_utf8_app; [apply flush_valid|].
    apply (valid_utf8_app (c :: p)); [done|].
    eapply IH; [|done..]. rewrite !length_cons, length_app. lia.
Qed.

(** A string literal is read as well-formed UTF-8, whatever its bytes. *)
Theorem unquote_valid raw s : unquote raw = Some s → valid_utf8 s = true.
Proof. apply unescape_valid, coerce_well_formed. Qed.

(** ** The documents the decoder yields *)

(** The invariant of the decoder, as conjunctions. *)
Ltac wf_simpl :=
  unfold well_formed_decoder, put, close in *;
  cbn [stack top put_value close_frame well_formed_frame well_formed forallb
       from_option fst snd] in *;
  rewrite ?forallb_app, ?andb_true_iff in *;
  cbn [stack top well_formed_frame well_formed forallb from_option fst snd] in *;
  rewrite ?andb_true_iff in *.

Lemma put_well_formed v d :
  well_formed v = true → well_formed_decoder d = true →
  well_formed_decoder (put v d) = true.
Proof.
  intros Hv Hd. destruct d as [s ps r [|[vs|kvs k] fs] t]; wf_simpl; tauto.
Qed.

Lemma close_well_formed d :
  well_formed_decoder d = true → well_formed_decoder (close d) = true.
Proof.
  intros Hd. destruct d as [s ps r [|[vs|kvs k] fs] t]; [done|..];
    [apply (put_well_formed (DArray vs) (mkDecoder s ps r fs t))
    |apply (put_well_formed (DObject kvs) (mkDecoder s ps r fs t))];
    wf_simpl; tauto.
Qed.

Lemma endString_well_formed d :
  well_formed_decoder d = true → well_formed_decoder (endString d) = true.
Proof.
  intros Hd. unfold endString.
  assert (valid_utf8 (default [] (unquote (raw d))) = true) as Hs.
  { destruct (unquote (raw d)) eqn:Hu; [by eapply unquote_valid|done]. }
  destruct d as [s ps r fs t]; cbn [stack step parseState top raw] in *.
  destruct ps as [|[] ps]; try (by apply put_well_formed).
  destruct fs as [|[vs|kvs k] fs]; try (by apply put_well_formed).
  wf_simpl; tauto.
Qed.

Lemma collect_well_formed c d :
  well_formed_decoder (collect c d) = well_formed_decoder d.
Proof. done. Qed.

Lemma beginLiteral_well_formed c d :
  well_formed_decoder d = true → well_formed_decoder (beginLiteral c d) = true.
Proof.
  intros Hd. unfold beginLiteral.
  repeat case_decide; try (by apply put_well_formed); try done;
    unfold open; wf_simpl; tauto.
Qed.

Lemma endLiteral_well_formed c d :
  well_formed_decoder d = true → well_formed_decoder (endLiteral c d) = true.
Proof. intros Hd. unfold endLiteral. case_decide; auto using close_well_formed. Qed.

Lemma well_formed_decoder_eta s ps r d :
  well_formed_decoder (mkDecoder s ps r (stack d) (top d)) = well_formed_decoder d.
Proof. done. Qed.

Lemma decode_well_formed d c :
  well_formed_decoder d = true → well_formed_decoder (decode d c) = true.
Proof.
  intros Hd. unfold decode. destruct (scan (step d) (parseState d) c) as [s ps].
  rewrite well_formed_decoder_eta.
  destruct (step d); repeat case_match;
    auto using close_well_formed, beginLiteral_well_formed,
      endLiteral_well_formed, endString_well_formed, put_well_formed.
Qed.

Lemma foldl_decode_well_formed data d :
  well_formed_decoder d = true → well_formed_decoder (foldl decode d data) = true.
Proof.
  revert d. induction data as [|c data IH]; intros d Hd; [done|].
  cbn [foldl]. by apply IH, decode_well_formed.
Qed.

Lemma eof_well_formed d :
  well_formed_decoder d = true → well_formed_decoder (eof d) = true.
Proof. intros Hd. unfold eof. case_decide; auto using decode_well_formed. Qed.

(** The strings and the keys of a document that was read are well-formed
    UTF-8. *)
Theorem Parse_well_formed data v : Parse data = inr v → well_formed v = true.
Proof.
  unfold Parse.
  pose proof (eof_well_formed _ (foldl_decode_well_formed data start eq_refl))
    as Hd.
  destruct (eof (foldl decode start data)) as [s ps r fs [t|]];
    cbn [step top]; intros H; repeat case_decide; simplify_eq.
  by apply andb_true_iff in Hd as [_ Hd].
Qed.

(** ** What the decoder makes of other documents *)

(** The empty array and [null] are the empty list; white space is
    skipped. *)
Example Unmarshal_empty :
  Unmarshal (bytes_of_string " [ ] ") = ([], None)
  ∧ Unmarshal (bytes_of_string "null") = ([], None).
Proof. by vm_compute. Qed.

(** An element that is no string leaves the empty string, and the first
    of them an error; [null] leaves the empty string and no error. *)
Example Unmarshal_elements :
  Unmarshal ("["%byte :: appendString (bytes_of_string "a")
             ++ bytes_of_string ",null,{},12.5e+3,true]")
  = (["a"; ""; ""; ""; ""],
     Some "json: cannot unmarshal object into Go value of type string").
Proof. by vm_compute. Qed.

(** A document that is no array is an error. *)
Example Unmarshal_document :
  Unmarshal (bytes_of_string "{}")
  = ([], Some "json: cannot unmarshal object into Go value of type []string")
  ∧ Unmarshal (bytes_of_string "12")
    = ([], Some "json: cannot unmarshal number into Go value of type []string").
Proof. by vm_compute. Qed.

(** A syntax error leaves nothing in the target, even after elements that
    were well formed. *)
Example Unmarshal_syntax :
  Unmarshal ("["%byte :: appendString (bytes_of_string "a")
             ++ bytes_of_string ",]")
  = ([], Some "invalid character")
  ∧ Unmarshal ("["%byte :: appendString (bytes_of_string "a"))
    = ([], Some "unexpected end of JSON input").
Proof. by vm_compute. Qed.

(** A pair of surrogates in escapes is one character; a surrogate alone is
    U+FFFD, and so is a byte that is part of no sequence. *)
Example unquote_surrogates :
  unquote (esc "ud83d" ++ esc "ude00") = Some (EncodeRune 128512)
  ∧ unquote (esc "ud83d" ++ [xff]) = Some (EncodeRune RuneError ++ EncodeRune RuneError).
Proof. by vm_compute. Qed.

(** A list whose strings are not well formed does not come back. *)
Example Unmarshal_Marshal_stray :
  Unmarshal (Marshal [string_of_bytes [xff]])
  = ([string_of_bytes (EncodeRune RuneError)], None).
Proof. reflexivity. Qed.

(** Two lists with the same encoding. *)
Example Marshal_conflates :
  Marshal [string_of_bytes [xff]] = Marshal [string_of_bytes [xfe]].
Proof. reflexivity. Qed.

(** ** The escaped query *)

Lemma unreserved_upperhex n : 0 ≤ n < 16 → unreserved (upperhex n) = true.
Proof.
  intros Hn. unfold unreserved, upperhex. apply orb_true_iff. left.
  apply bool_decide_eq_true_2. case_decide; rewrite byte_of_Z_small; lia.
Qed.

(** An escaped query holds letters, digits, the four marks, the plus and
    the percent sign, whatever was escaped. *)
Lemma QueryEscape_safe s :
  Forall (λ c, unreserved c = true ∨ c = "+"%byte ∨ c = "%"%byte)
    (QueryEscape s).
Proof.
  induction s as [|c s IH]; [constructor|].
  unfold QueryEscape in *. cbn [mbind list_bind].
  apply Forall_app. split; [|done].
  pose proof (byte_to_Z_range c).
  destruct (unreserved c) eqn:Hc; [|case_decide].
  - apply Forall_singleton. by left.
  - apply Forall_singleton. right. by left.
  - repeat apply Forall_cons_2; [by right; right| | |constructor];
      left; apply unreserved_upperhex; Z.div_mod_to_equations; lia.
Qed.

End encoding_json.
