(* ===== verification/HostSync.v ===== *)
(** * HostSync: discovery of hosts and their publication

    Model of package [host_sync] ([src/unnamed/part_000]).  The package
    keeps three variables: the address of the Docker API, a Redis client and
    the map [hostCheckSum] of the digests last published.  It asks the Docker
    API for the running containers, reads one [ip:port] per container from
    their port bindings, groups the hosts by pool and service, and publishes
    each list to Redis under the key [__yar_host_sync__:pool:service], but
    only when the digest of the list differs from the one recorded for
    [pool_service].

    The package variables and the content of the Redis server are the fields
    of [World]; the operations pass the world explicitly and return the
    error of the Go function, if any.  The HTTP client, the JSON decoder and
    encoder, [url.QueryEscape] and the iteration order of Go maps are the
    parameters of class [Env]; what the theorems need of them is class
    [EnvLaws].  [RefEnv] is an executable instance in front of a server
    that answers bytes, with the encoder, the decoders and the escape of
    the query as the Go library has them ([Json]).
    The JSON encoder gives a list of strings back as it was only when the
    strings are well-formed UTF-8 ([Utf8.Valid]), which is all [EnvLaws]
    asks of it.  The strings of a decoded document are well formed
    ([decoded]), and so are the hosts the package builds from them
    ([host_of_valid], [grouped_valid]): where a theorem needs a list to
    survive the encoder, it takes the containers to be [decoded].  That
    they are is a theorem of the decoder: [UnmarshalMaps] is
    [json.Unmarshal] into a [[]map[string]interface{}], and whatever the
    bytes of the body, the containers it yields are [decoded]
    ([UnmarshalMaps_decoded]).  [SyncAllHostList_reads_body] composes the
    two sides: from the bytes the Docker API answers to the list a reader
    is given.  In the other direction the decoder loses nothing of what a
    server writes: [RefEnv.written l] is the JSON text of the containers
    [l] ([document_of], [Json.encoding_json.Encode]), and of containers
    that are [writable], that is decoded, with integers of at most [2^53]
    and nested at most 10000 deep, [UnmarshalMaps] reads [l] itself
    ([containers_read_back]), so such a server [answers] [l]
    ([answers_written]) and every theorem that is stated of the containers
    holds in front of its bytes.

    The theorems relate the nested loops of [SyncAllHostList] to the
    publication of a flat list of entries, up to the log, and show on that
    list the checksum gate, idempotence, what a reader gets after a
    synchronisation, that a failed write is not retried, that a list is never
    withdrawn, and that the order in which the maps are visited ([with_range])
    matters only when two pairs share a checksum key.

    Numbers of a decoded JSON document are [float64] in Go; the model keeps
    the integers among them ([JNum]), which is what ports are, and prints
    them as [fmt.Sprint] prints a [float64]: in decimal below [10^6], with
    an exponent from there on ([format_g]).  The digits are those of the
    integer, which are the shortest digits of the [float64] up to [2^53];
    beyond that not every integer is a [float64] and the model says nothing.
    Accordingly the decoder reads a number literal that is an integer of at
    most [2^53] in absolute value, written without fraction and exponent
    and other than [-0] ([integer]); of a body with any other number
    [UnmarshalMaps] is [None], and the executable environment answers the
    error [RefEnv.outside] in its place.
    A [[]string] is a [list string], the empty list standing for the nil
    slice: the package never builds an empty slice that is not nil. *)

From Stdlib Require Import Ascii.
From stdpp Require Import gmap pretty.
From S2P Require Import Prelude.
From S2P Require Import Wire.
From S2P Require Import Utf8.
From S2P Require Import Json.

Module host_sync.

(** * Definitions *)

(** ** Decoded JSON documents ([interface{}] after [json.Unmarshal]) *)

#[local] Unset Elimination Schemes.
Inductive json : Type :=
  | JNull
  | JBool (b : bool)
  | JNum (n : Z)
  | JStr (s : string)
  | JArr (l : list json)
  | JObj (m : list (string * json)).
#[local] Set Elimination Schemes.

(** Induction on a value, with the hypothesis for the elements of an array
    and for the fields of a map. *)
Definition json_ind (P : json → Prop)
    (fnull : P JNull) (fbool : ∀ b, P (JBool b)) (fnum : ∀ n, P (JNum n))
    (fstr : ∀ s, P (JStr s))
    (farr : ∀ l, Forall P l → P (JArr l))
    (fobj : ∀ m, Forall (λ kv, P kv.2) m → P (JObj m)) : ∀ v, P v :=
  fix F (v : json) : P v :=
    match v with
    | JNull => fnull
    | JBool b => fbool b
    | JNum n => fnum n
    | JStr s => fstr s
    | JArr l =>
        farr l ((fix G (l : list json) : Forall P l :=
                   match l with
                   | [] => @List.Forall_nil _ P
                   | x :: l' => @List.Forall_cons _ P x l' (F x) (G l')
                   end) l)
    | JObj m =>
        fobj m ((fix G (m : list (string * json)) : Forall (λ kv, P kv.2) m :=
                   match m with
                   | [] => @List.Forall_nil _ (λ kv, P kv.2)
                   | kv :: m' =>
                       @List.Forall_cons _ (λ kv, P kv.2) kv m' (F kv.2) (G m')
                   end) m)
    end.

(** A [map[string]interface{}]: the decoder yields every key once. *)
Abbreviation object := (list (string * json)).

(** [m[k]] with its [ok]. *)
Fixpoint field (k : string) (o : object) : option json :=
  match o with
  | [] => None
  | (k', v) :: o' => if decide (k' = k) then Some v else field k o'
  end.

(** ** [fmt.Sprint] on a decoded value (lines 112 and 242) *)

(** The digits of a number without its trailing zeros. *)
Fixpoint strip_zeros (s : string) : string :=
  match s with
  | EmptyString => EmptyString
  | String a s' =>
      match strip_zeros s' with
      | EmptyString =>
          if decide (a = "0"%char) then EmptyString else String a EmptyString
      | r => String a r
      end
  end.

(** The format [%e] with the shortest digits: [d.ddde+XX], the exponent
    with two digits at least. *)
Definition format_e (neg : bool) (ds : string) : string :=
  let exp := Z.of_nat (String.length ds) - 1 in
  (if neg then "-" else "")
  +:+ match strip_zeros ds with
      | String d EmptyString => String d EmptyString
      | String d rest => String d ("." +:+ rest)
      | EmptyString => "0"
      end
  +:+ "e+" +:+ (if decide (exp < 10) then "0" else "") +:+ pretty exp.

(** [strconv.FormatFloat(f, 'g', -1, 64)], which is what [%v] is for a
    [float64], on an integer: the format [%e] when the exponent is 6 or
    more, the format [%f] with no digit after the point below. *)
Definition format_g (n : Z) : string :=
  let ds := pretty (Z.abs n) in
  let exp := Z.of_nat (String.length ds) - 1 in
  if decide (exp < 6) then pretty n
  else format_e (bool_decide (n < 0)) ds.

(** The fields of a map in the order of their keys, in which [fmt] prints
    them. *)
Fixpoint insert_field (x : string * string) (l : list (string * string))
    : list (string * string) :=
  match l with
  | [] => [x]
  | y :: l' => if String.leb x.1 y.1 then x :: l else y :: insert_field x l'
  end.

Definition sort_fields (l : list (string * string)) : list (string * string) :=
  foldr insert_field [] l.

(** [fmt.Sprint(v)]. *)
Fixpoint Sprint (v : json) : string :=
  match v with
  | JNull => "<nil>"
  | JBool b => if b then "true" else "false"
  | JNum n => format_g n
  | JStr s => s
  | JArr l => "[" +:+ String.concat " " (map Sprint l) +:+ "]"
  | JObj m =>
      "map["
      +:+ String.concat " "
            (map (λ kv, kv.1 +:+ ":" +:+ kv.2)
               (sort_fields (map (λ '(k, x), (k, Sprint x)) m)))
      +:+ "]"
  end.

(** ** What the decoder yields

    [json.Unmarshal] writes what is not well-formed UTF-8 in a string or a
    key as U+FFFD, so every string of a decoded document is well formed;
    and a map holds every key once. *)
Fixpoint valid_json (v : json) : bool :=
  match v with
  | JStr s => bool_decide (Valid s)
  | JArr l => forallb valid_json l
  | JObj m =>
      bool_decide (NoDup m.*1)
      && forallb (λ '(k, x), bool_decide (Valid k) && valid_json x) m
  | _ => true
  end.

Definition decoded (o : object) : Prop := valid_json (JObj o) = true.

#[export] Instance decoded_dec o : Decision (decoded o).
Proof. unfold decoded. apply _. Defined.

(** ** [json.Unmarshal] into a [[]map[string]interface{}] (lines 95-97
    and 192-194) *)

(** The digits of an integer, one at a time. *)
Definition digit_step (acc : option Z) (c : byte) : option Z :=
  n ← acc;
  if encoding_json.isDigit c then Some (10 * n + (byte_to_Z c - 48)) else None.

Definition digits (bs : list byte) : option Z := foldl digit_step (Some 0) bs.

(** The [float64] of a number literal, when the literal is an integer of
    at most [2^53] and not [-0].  Other numbers are outside the model. *)
Definition integer (lit : list byte) : option Z :=
  match lit with
  | "-"%byte :: ds =>
      n ← digits ds; if decide (0 < n ≤ 2 ^ 53) then Some (- n) else None
  | _ => n ← digits lit; if decide (n ≤ 2 ^ 53) then Some n else None
  end.

(** [m[k] = v] while an object is read: a key that comes again takes the
    value that comes last. *)
Definition assign (k : string) (x : json) (o : object) : object :=
  if field k o is Some _ then o else (k, x) :: o.

(** [valueInterface]: a document stored in an [interface{}]. *)
Fixpoint interface (v : encoding_json.document) : option json :=
  match v with
  | encoding_json.DNull => Some JNull
  | encoding_json.DBool b => Some (JBool b)
  | encoding_json.DNumber lit => JNum <$> integer lit
  | encoding_json.DString s => Some (JStr (string_of_bytes s))
  | encoding_json.DArray vs =>
      JArr <$> (fix elements (vs : list encoding_json.document)
                    : option (list json) :=
                  match vs with
                  | [] => Some []
                  | v :: vs' => x ← interface v; l ← elements vs'; Some (x :: l)
                  end) vs
  | encoding_json.DObject kvs =>
      JObj <$> (fix members (kvs : list (list byte * encoding_json.document))
                    : option object :=
                  match kvs with
                  | [] => Some []
                  | (k, v) :: kvs' =>
                      x ← interface v; o ← members kvs';
                      Some (assign (string_of_bytes k) x o)
                  end) kvs
  end.

(** A value stored in a [map[string]interface{}]: an object is stored,
    [null] leaves the nil map, any other value is an error. *)
Definition to_map (v : encoding_json.document) : option (string + object) :=
  match v with
  | encoding_json.DObject _ =>
      match interface v with
      | Some (JObj o) => Some (inr o)
      | _ => None
      end
  | encoding_json.DNull => Some (inr [])
  | _ =>
      Some (inl (encoding_json.type_error (encoding_json.kind v)
                   "map[string]interface {}"))
  end.

(** The maps that were stored, or the first error. *)
Fixpoint maps (es : list (option (string + object)))
    : option (string + list object) :=
  match es with
  | [] => Some (inr [])
  | None :: _ => None
  | Some (inl err) :: _ => Some (inl err)
  | Some (inr o) :: es' =>
      r ← maps es';
      Some match r with
           | inl err => inl err
           | inr l => inr (o :: l)
           end
  end.

(** A document stored in a [[]map[string]interface{}]: it has to be an
    array or [null]. *)
Definition to_maps (v : encoding_json.document)
    : option (string + list object) :=
  match v with
  | encoding_json.DNull => Some (inr [])
  | encoding_json.DArray vs => maps (to_map <$> vs)
  | _ =>
      Some (inl (encoding_json.type_error (encoding_json.kind v)
                   "[]map[string]interface {}"))
  end.

(** [json.Unmarshal(body, &lstContainers)]: the containers or the error,
    and nothing for a document with a number outside the model. *)
Definition UnmarshalMaps (body : list byte) : option (string + list object) :=
  match encoding_json.Parse body with
  | inl err => Some (inl err)
  | inr v => to_maps v
  end.

(** ** The documents a server writes *)

(** The document of a value: a number as its decimal digits, a map as its
    fields in their order. *)
Fixpoint document_of (x : json) : encoding_json.document :=
  match x with
  | JNull => encoding_json.DNull
  | JBool b => encoding_json.DBool b
  | JNum n => encoding_json.DNumber (bytes_of_string (pretty n))
  | JStr s => encoding_json.DString (bytes_of_string s)
  | JArr l => encoding_json.DArray (document_of <$> l)
  | JObj m =>
      encoding_json.DObject
        ((λ kv, (bytes_of_string kv.1, document_of kv.2)) <$> m)
  end.

(** The numbers of a value are integers of at most [2^53]: the numbers a
    [float64] holds exactly. *)
Fixpoint integers (x : json) : bool :=
  match x with
  | JNum n => bool_decide (Z.abs n ≤ 2 ^ 53)
  | JArr l => forallb integers l
  | JObj m => forallb (λ kv, integers kv.2) m
  | _ => true
  end.

(** The containers a server can write so that the decoder of this
    development reads them: decoded documents whose numbers are integers a
    [float64] holds, nested less deep than the decoder allows. *)
Definition writable (l : list object) : Prop :=
  Forall decoded l
  ∧ Forall (λ o, integers (JObj o) = true) l
  ∧ Z.of_nat (encoding_json.depth (document_of (JArr (JObj <$> l))))
    ≤ encoding_json.maxNestingDepth.

#[export] Instance writable_dec l : Decision (writable l).
Proof. unfold writable. apply _. Defined.

(** ** [hex.EncodeToString] *)

Definition hex_digit (n : Z) : Ascii.ascii :=
  Ascii.ascii_of_nat (Z.to_nat (if decide (n < 10) then 48 + n else 87 + n)).

Definition hex_byte (b : byte) : string :=
  String (hex_digit (byte_to_Z b / 16))
    (String (hex_digit (byte_to_Z b mod 16)) EmptyString).

Fixpoint hex_encode (bs : list byte) : string :=
  match bs with
  | [] => ""
  | b :: bs' => hex_byte b +:+ hex_encode bs'
  end.

(** ** The regular expression [pool\=\=(\w+)] (lines 224-228) *)

(** [\w]: an ASCII letter, a digit or the underscore. *)
Definition is_word (b : byte) : bool :=
  let n := byte_to_Z b in
  bool_decide (48 <= n <= 57 ∨ 65 <= n <= 90 ∨ 97 <= n <= 122 ∨ n = 95).

Fixpoint take_word (bs : list byte) : list byte :=
  match bs with
  | b :: bs' => if is_word b then b :: take_word bs' else []
  | [] => []
  end.

Definition pool_tag : list byte := bytes_of_string "pool==".

(** The first group of the leftmost match: the longest run of word bytes
    after the first [pool==] that is followed by one. *)
Fixpoint find_pool (bs : list byte) : option (list byte) :=
  match bs with
  | [] => None
  | _ :: bs' =>
      if decide (take (length pool_tag) bs = pool_tag) then
        match take_word (drop (length pool_tag) bs) with
        | [] => find_pool bs'
        | w => Some w
        end
      else find_pool bs'
  end.

(** [reg.FindAllStringSubmatch(pool, -1)], then [p[0][1]] when there is a
    match. *)
Definition FindPool (pool : string) : option string :=
  string_of_bytes <$> find_pool (bytes_of_string pool).

(** ** The environment *)

Class Env : Type := {
  (** [httpClient.Get(api)] followed by [ioutil.ReadAll(resp.Body)] *)
  Get : string → string + list byte;
  (** [json.Unmarshal(body, &lstContainers)] *)
  UnmarshalContainers : list byte → string + list object;
  (** [json.Marshal] of a [[]string] *)
  MarshalStrings : list string → string;
  (** [json.Unmarshal] into a [[]string]: what it leaves in the target,
      and its error *)
  UnmarshalStrings : string → list string * option string;
  (** [json.Marshal] of the filters, a map from [label] to its values *)
  MarshalFilters : list string → string;
  (** [url.QueryEscape] *)
  QueryEscape : string → string;
  (** the order in which a [range] visits a map *)
  range : ∀ A : Type, gmap string A → list (string * A);
}.

Arguments range {_ _} _.

(** What the theorems need of the environment: decoding gives back a list
    of well-formed strings that was encoded (of other strings the encoder
    replaces bytes, and nothing is promised); no encoding is the empty
    string; a [range] visits every entry of the map once. *)
Class EnvLaws (E : Env) : Prop := {
  unmarshal_marshal l :
    Forall Valid l → UnmarshalStrings (MarshalStrings l) = (l, None);
  marshal_nonempty l : MarshalStrings l ≠ "";
  range_perm A (m : gmap string A) : range m ≡ₚ map_to_list m;
}.

(** ** The package variables and the Redis server *)

Definition Second : Z := 1000000000.

(** [redis.Options], the fields the package sets. *)
Record Options : Type := mkOptions {
  Addr : string;
  DB : Z;
  IdleTimeout : Z;
  WriteTimeout : Z;
  ReadTimeout : Z;
  MaxRetries : Z;
}.

#[export] Instance Options_eq_dec : EqDecision Options.
Proof. solve_decision. Defined.

(** What the package writes with [log]. *)
Inductive LogEntry : Type :=
  | LogError (tag msg : string)
  | LogValue (val : string)
  | LogSync (pool : string) (services changed : Z).

#[export] Instance LogEntry_eq_dec : EqDecision LogEntry.
Proof. solve_decision. Defined.

Record World : Type := mkWorld {
  (** the package variables (lines 21-25) *)
  dockerAPI : string;
  redisClient : option Options;
  hostCheckSum : gmap string string;
  (** the Redis server: values with their expiry, and whether it answers *)
  redis : gmap string (string * Z);
  redisDown : option string;
  (** the clients closed so far, and the log *)
  closed : list Options;
  log : list LogEntry;
}.

#[export] Instance World_eq_dec : EqDecision World.
Proof. solve_decision. Defined.

Definition set_dockerAPI (api : string) (w : World) : World :=
  mkWorld api (redisClient w) (hostCheckSum w) (redis w) (redisDown w)
    (closed w) (log w).

Definition set_redisClient (c : option Options) (w : World) : World :=
  mkWorld (dockerAPI w) c (hostCheckSum w) (redis w) (redisDown w)
    (closed w) (log w).

Definition set_hostCheckSum (m : gmap string string) (w : World) : World :=
  mkWorld (dockerAPI w) (redisClient w) m (redis w) (redisDown w)
    (closed w) (log w).

Definition set_redis (m : gmap string (string * Z)) (w : World) : World :=
  mkWorld (dockerAPI w) (redisClient w) (hostCheckSum w) m (redisDown w)
    (closed w) (log w).

Definition set_redisDown (d : option string) (w : World) : World :=
  mkWorld (dockerAPI w) (redisClient w) (hostCheckSum w) (redis w) d
    (closed w) (log w).

Definition Close (c : Options) (w : World) : World :=
  mkWorld (dockerAPI w) (redisClient w) (hostCheckSum w) (redis w)
    (redisDown w) (closed w ++ [c]) (log w).

Definition Println (e : LogEntry) (w : World) : World :=
  mkWorld (dockerAPI w) (redisClient w) (hostCheckSum w) (redis w)
    (redisDown w) (closed w) (log w ++ [e]).

(** [redisClient.Get(key)]: the error of the server, [redis: nil] for a key
    that is not there, or the value. *)
Definition redis_Get (key : string) (w : World) : string + string :=
  match redisDown w with
  | Some err => inl err
  | None =>
      match redis w !! key with
      | Some (val, _) => inr val
      | None => inl "redis: nil"
      end
  end.

(** [redisClient.Set(key, val, expiration)]. *)
Definition redis_Set (key val : string) (expiration : Z) (w : World)
    : option string * World :=
  match redisDown w with
  | Some err => (Some err, w)
  | None => (None, set_redis (<[key := (val, expiration)]> (redis w)) w)
  end.

(** ** The package *)

Definition redisPrefix : string := "__yar_host_sync__:".

(** Lines 21-29: the variables as they are initialised, in front of a Redis
    server that holds [store]. *)
Definition init (store : gmap string (string * Z)) : World :=
  {| dockerAPI := ""; redisClient := None; hostCheckSum := ∅;
     redis := store; redisDown := None; closed := []; log := [] |}.

Definition SetDockerAPI (api : string) (w : World) : World :=
  set_dockerAPI api w.

Definition SetRedisHost (host : string) (w : World) : World :=
  let w :=
    match redisClient w with
    | Some c => Close c w
    | None => w
    end in
  let opt :=
    {| Addr := host; DB := 7; IdleTimeout := 60 * Second;
       WriteTimeout := 10 * Second; ReadTimeout := 10 * Second;
       MaxRetries := 3 |} in
  set_redisClient (Some opt) w.

(** [fmt.Sprintf("%s%s:%s", redisPrefix, pool, name)] *)
Definition redis_key (pool name : string) : string :=
  redisPrefix +:+ pool +:+ ":" +:+ name.

Definition week : Z := 3600 * 24 * 7 * Second.

(** [map[string]map[string][]string]: the host lists by pool and service. *)
Abbreviation HostLists := (gmap string (gmap string (list string))).

Section package.
Context `{E : Env}.

(** ** [SetHostListToRedis] (lines 144-162) *)

Definition SetHostListToRedis (pool name : string) (lst : list string)
    (w : World) : option string * World :=
  match redisClient w with
  | None => (Some "Please Call SetRedisHost()", w)
  | Some _ =>
      let jsonStr := MarshalStrings lst in
      let key := redis_key pool name in
      redis_Set key jsonStr week w
  end.

(** ** [GetHostListFromRedis] (lines 123-142)

    The function returns [host, err] as [json.Unmarshal] left them, and
    both can be there: the result is the list with the error, if any. *)

Definition GetHostListFromRedis (pool name : string) (w : World)
    : (list string * option string) * World :=
  match redisClient w with
  | None => (([], Some "Please Call SetRedisHost()"), w)
  | Some _ =>
      let key := redis_key pool name in
      match redis_Get key w with
      | inl err =>
          (([], Some err), Println (LogError "[GetHostListFromRedis]:" err) w)
      | inr val => (UnmarshalStrings val, Println (LogValue val) w)
      end
  end.

(** ** The host of a container (lines 104-117 and 234-247) *)

Definition host_of (item : object) : option string :=
  match field "Ports" item with
  | Some (JArr (JObj p :: _)) =>
      match field "IP" p, field "PublicPort" p with
      | Some ip, Some port => Some (Sprint ip +:+ ":" +:+ Sprint port)
      | _, _ => None
      end
  | _ => None
  end.

(** The loop of lines 103-118. *)
Definition append_host (lst : list string) (item : object) : list string :=
  match host_of item with
  | Some h => lst ++ [h]
  | None => lst
  end.

Definition hosts (lstContainers : list object) : list string :=
  foldl append_host [] lstContainers.

(** ** [GetHostListFromDockerAPI] (lines 50-121) *)

Definition dquote : string := String (Ascii.ascii_of_nat 34) EmptyString.

Definition filters (pool name : string) : list string :=
  [ "com.docker.swarm.constraints=[" +:+ dquote +:+ "pool==" +:+ pool
      +:+ dquote +:+ "]";
    "wxhost-service-name=" +:+ name ].

Definition GetHostListFromDockerAPI (pool name : string) (w : World)
    : (string + list string) * World :=
  if decide (slen (dockerAPI w) < 1) then (inl "Please Call SetDockerAPI()", w)
  else
    let query := MarshalFilters (filters pool name) in
    let api := dockerAPI w +:+ "/containers/json?filters=" +:+ QueryEscape query in
    match Get api with
    | inl err => (inl err, w)
    | inr body =>
        match UnmarshalContainers body with
        | inl err => (inl err, w)
        | inr lstContainers =>
            let lst := hosts lstContainers in
            let '(_, w) := SetHostListToRedis pool name lst w in
            (inr lst, w)
        end
    end.

(** ** [SyncAllHostList] (lines 164-270) *)

(** [labels[k].(string)] *)
Definition label (k : string) (labels : object) : option string :=
  match field k labels with
  | Some (JStr s) => Some s
  | _ => None
  end.

(** The body of the loop of lines 200-248. *)
Definition group_item (lst : HostLists) (item : object) : HostLists :=
  match field "Labels" item with
  | Some (JObj labels) =>
      match label "com.docker.compose.service" labels with
      | None => lst
      | Some service =>
          match label "com.docker.swarm.constraints" labels with
          | None => lst
          | Some pool =>
              let service :=
                match label "wxhost-service-name" labels with
                | Some wxhostService =>
                    if decide (slen wxhostService > 0) then wxhostService
                    else service
                | None => service
                end in
              let pool := default pool (FindPool pool) in
              let lst :=
                match lst !! pool with
                | None => <[pool := ∅]> lst
                | Some _ => lst
                end in
              match host_of item with
              | Some h =>
                  let lst1 := default ∅ (lst !! pool) in
                  <[pool := <[service := default [] (lst1 !! service) ++ [h]]> lst1]>
                    lst
              | None => lst
              end
          end
      end
  | _ => lst
  end.

(** [fmt.Sprintf("%s_%s", pool, service)] *)
Definition sum_key (pool service : string) : string :=
  pool +:+ "_" +:+ service.

(** [hex.EncodeToString] of [json.Marshal(hostList)]. *)
Definition digest (hostList : list string) : string :=
  hex_encode (bytes_of_string (MarshalStrings hostList)).

(** The body of the loop of lines 252-266, on the world and the counter
    [changed]. *)
Definition publish_service (pool : string) (acc : World * Z)
    (entry : string * list string) : World * Z :=
  let '(w, changed) := acc in
  let '(service, hostList) := entry in
  let key := sum_key pool service in
  let sum := default "" (hostCheckSum w !! key) in
  let ok := bool_decide (is_Some (hostCheckSum w !! key)) in
  let s := digest hostList in
  if decide (sum = s) then (w, changed)
  else if ok && bool_decide (sum = s) then (w, changed)
  else
    let '(_, w) := SetHostListToRedis pool service hostList w in
    let w := set_hostCheckSum (<[key := s]> (hostCheckSum w)) w in
    (w, changed + 1).

(** The body of the loop of lines 250-268. *)
Definition publish_pool (w : World) (entry : string * gmap string (list string))
    : World :=
  let '(pool, lst1) := entry in
  let '(w, changed) := foldl (publish_service pool) (w, 0) (range lst1) in
  Println (LogSync pool (Z.of_nat (size lst1)) changed) w.

Definition SyncAllHostList (w : World) : option string * World :=
  let api := dockerAPI w +:+ "/containers/json" in
  match Get api with
  | inl err => (Some err, w)
  | inr body =>
      match UnmarshalContainers body with
      | inl err => (Some err, w)
      | inr lstContainers =>
          let lst := foldl group_item ∅ lstContainers in
          (None, foldl publish_pool w (range lst))
      end
  end.

End package.

(** * Abstract specification of the synchronisation

    What [SyncAllHostList] computes, stated without loops: the pool and
    service a container belongs to, the hosts of a pool and service, and the
    publication of one list. *)

(** The pool and the service of a container: the service is the
    [wxhost-service-name] label when it is a non-empty string and the compose
    service otherwise; the pool is what the regular expression extracts from
    the constraints, and the constraints themselves when it extracts
    nothing. *)
Definition classify (item : object) : option (string * string) :=
  match field "Labels" item with
  | Some (JObj labels) =>
      match label "com.docker.compose.service" labels,
            label "com.docker.swarm.constraints" labels with
      | Some service, Some pool =>
          Some (default pool (FindPool pool),
                match label "wxhost-service-name" labels with
                | Some wxhostService =>
                    if decide (slen wxhostService > 0) then wxhostService
                    else service
                | None => service
                end)
      | _, _ => None
      end
  | _ => None
  end.

(** The hosts of the containers, in their order, that belong to a pool and
    service. *)
Definition grouped (l : list object) (pool service : string) : list string :=
  omap host_of (filter (λ item, classify item = Some (pool, service)) l).

(** The list a grouping holds for a pool and service, empty when it holds
    none. *)
Definition hosts_at (lst : HostLists) (pool service : string) : list string :=
  default [] (lst !! pool ≫= (.!! service)).

(** A grouping holds no empty list. *)
Definition no_empty (lst : HostLists) : Prop :=
  ∀ pool lst1 service hs,
    lst !! pool = Some lst1 → lst1 !! service = Some hs → hs ≠ [].

(** One host list with the pool and service it is for. *)
Definition Entry : Type := string * string * list string.

Definition entry_key (e : Entry) : string := sum_key e.1.1 e.1.2.

(** No two entries of the grouping share a checksum key. *)
Definition collision_free (es : list Entry) : Prop :=
  NoDup (entry_key <$> es).

(** No two entries are stored under the same Redis key. *)
Definition store_key (e : Entry) : string := redis_key e.1.1 e.1.2.

Definition distinct_keys (es : list Entry) : Prop :=
  NoDup (store_key <$> es).

(** The world without its log. *)
Definition unlog (w : World) : World :=
  mkWorld (dockerAPI w) (redisClient w) (hostCheckSum w) (redis w)
    (redisDown w) (closed w) [].

(** Two worlds are equivalent when they differ in the log only. *)
#[export] Instance World_equiv : Equiv World := λ w1 w2, unlog w1 = unlog w2.

Section flat.
Context `{E : Env}.

(** The publication of one entry, its counter dropped. *)
Definition publish_entry (w : World) (e : Entry) : World :=
  (publish_service e.1.1 (w, 0) (e.1.2, e.2)).1.

(** The entries in the order the two loops visit them. *)
Definition entries (lst : HostLists) : list Entry :=
  '(pool, lst1) ← range lst;
  (λ '(service, hostList), (pool, service, hostList)) <$> range lst1.

(** A synchronisation that finds nothing to publish: one line of the log
    for every pool, with no change. *)
Definition log_unchanged (w : World) (entry : string * gmap string (list string))
    : World :=
  Println (LogSync entry.1 (Z.of_nat (size entry.2)) 0) w.

Definition quiet (w : World) (lst : HostLists) : World :=
  foldl log_unchanged w (range lst).

(** The Docker API answers the list of all containers with [l]. *)
Definition answers (w : World) (l : list object) : Prop :=
  ∃ body, Get (dockerAPI w +:+ "/containers/json") = inr body
          ∧ UnmarshalContainers body = inr l.

End flat.

(** The environment [E] with another order of visit of the maps. *)
Definition with_range (rg : ∀ A : Type, gmap string A → list (string * A))
    (E : Env) : Env :=
  {| Get := Get; UnmarshalContainers := UnmarshalContainers;
     MarshalStrings := MarshalStrings; UnmarshalStrings := UnmarshalStrings;
     MarshalFilters := MarshalFilters; QueryEscape := QueryEscape;
     range := rg |}.

(** ** An executable environment

    The server is a function from the URL asked to the body answered;
    the containers are decoded from the body, and string lists and the
    filters are encoded and decoded, as [encoding/json] does ([Json]); the
    query is escaped as [net/url] does; a map is visited in the order of
    its keys. *)

Module RefEnv.

Definition marshal (l : list string) : string :=
  string_of_bytes (encoding_json.Marshal l).

Definition unmarshal (s : string) : list string * option string :=
  encoding_json.Unmarshal (bytes_of_string s).

(** What stands for the error of a document that is outside the model. *)
Definition outside : string := "json: a number outside the model".

Definition env (server : string → string + list byte) : Env := {|
  Get := server;
  UnmarshalContainers body := default (inl outside) (UnmarshalMaps body);
  MarshalStrings := marshal;
  UnmarshalStrings := unmarshal;
  MarshalFilters l := string_of_bytes (encoding_json.MarshalFilters l);
  QueryEscape s :=
    string_of_bytes (encoding_json.QueryEscape (bytes_of_string s));
  range A m := map_to_list m;
|}.

(** A container with the labels and the first port binding given. *)
Definition container (service constraints wxhost ip : string) (port : Z)
    : object :=
  [ ("Labels",
     JObj [ ("com.docker.compose.service", JStr service);
            ("com.docker.swarm.constraints", JStr constraints);
            ("wxhost-service-name", JStr wxhost) ]);
    ("Ports", JArr [ JObj [ ("IP", JStr ip); ("PublicPort", JNum port) ] ]) ].

Definition swarm : list object :=
  [ container "web" "[pool==blue]" "" "10.0.0.1" 8080;
    container "web" "[pool==blue]" "" "10.0.0.2" 8080;
    container "db" "[pool==green]" "store" "10.0.0.3" 5432;
    [ ("Labels", JObj [ ("com.docker.compose.service", JStr "idle");
                        ("com.docker.swarm.constraints", JStr "[pool==blue]") ]);
      ("Ports", JArr []) ];
    [ ("Names", JArr [ JStr "/unlabelled" ]) ] ].

(** The JSON text of a value, as a server writes it: without spaces. *)
Definition render (x : json) : list byte :=
  encoding_json.Encode (document_of x).

(** The answer of a Docker API that has the containers [l]. *)
Definition written (l : list object) : list byte := render (JArr (JObj <$> l)).

Definition swarm_body : list byte := written swarm.

Definition docker : Env := env (λ _, inr swarm_body).

(** The package configured: the API and the Redis host set. *)
Definition ready : World :=
  SetRedisHost "127.0.0.1:6379" (SetDockerAPI "https://docker:2376" (init ∅)).

(** The world after one synchronisation, and in front of a server that
    fails. *)
Definition synced : World := (SyncAllHostList (E := docker) ready).2.

Definition down : World := set_redisDown (Some "i/o timeout") ready.

(** The configured package in front of a server that holds a list for the
    service [idle], whose only container publishes no port. *)
Definition stale : World :=
  (SetHostListToRedis (E := docker) "blue" "idle" ["10.0.0.9:80"] ready).2.

(** Two pools and services with the same checksum key. *)
Definition e1 : Entry := ("a_b", "c", ["10.0.0.1:80"]).
Definition e2 : Entry := ("a", "b_c", ["10.0.0.1:80"]).

End RefEnv.

(** * Lemmas *)

(** ** [hex.EncodeToString] is injective *)

Lemma hex_digit_inj n m :
  0 <= n < 16 → 0 <= m < 16 → hex_digit n = hex_digit m → n = m.
Proof.
  intros Hn Hm Heq. apply (f_equal Ascii.nat_of_ascii) in Heq.
  unfold hex_digit in Heq.
  rewrite !Ascii.nat_ascii_embedding in Heq by (repeat case_decide; lia).
  repeat case_decide; lia.
Qed.

Lemma hex_byte_inj b1 b2 : hex_byte b1 = hex_byte b2 → b1 = b2.
Proof.
  unfold hex_byte. intros [= Hhi Hlo].
  pose proof (byte_to_Z_range b1). pose proof (byte_to_Z_range b2).
  apply hex_digit_inj in Hhi;
    [|split; [apply Z.div_pos | apply Z.div_lt_upper_bound]; lia..].
  apply hex_digit_inj in Hlo; [|by apply Z.mod_pos_bound..].
  apply byte_to_Z_inj.
  rewrite (Z.div_mod (byte_to_Z b1) 16), (Z.div_mod (byte_to_Z b2) 16) by lia.
  by rewrite Hhi, Hlo.
Qed.

#[export] Instance hex_encode_inj : Inj (=) (=) hex_encode.
Proof.
  intros bs1. induction bs1 as [|b1 bs1 IH]; intros [|b2 bs2]; try done.
  cbn. intros [= Hhi Hlo Hrest].
  f_equal; [|by apply IH]. apply hex_byte_inj. unfold hex_byte. by rewrite Hhi, Hlo.
Qed.

Lemma length_hex_encode bs :
  String.length (hex_encode bs) = (2 * length bs)%nat.
Proof.
  induction bs as [|b bs IH]; [done|].
  change (String.length (hex_encode (b :: bs)))
    with (S (S (String.length (hex_encode bs)))).
  rewrite IH. cbn [length]. lia.
Qed.

(** ** The regular expression *)

Lemma take_word_word bs : Forall (λ b, is_word b = true) (take_word bs).
Proof.
  induction bs as [|b bs IH]; cbn; [done|].
  destruct (is_word b) eqn:Hb; by constructor.
Qed.

Lemma take_word_app w rest :
  Forall (λ b, is_word b = true) w →
  (∀ b, head rest = Some b → is_word b = false) →
  take_word (w ++ rest) = w.
Proof.
  intros Hw Hrest. induction Hw as [|b w Hb _ IH]; cbn.
  - destruct rest as [|b rest]; [done|]. cbn. by rewrite (Hrest b).
  - by rewrite Hb, IH.
Qed.

Lemma find_pool_word bs w :
  find_pool bs = Some w → w ≠ [] ∧ Forall (λ b, is_word b = true) w.
Proof.
  induction bs as [|b bs IH]; cbn [find_pool]; [done|].
  case_decide; [|done].
  destruct (take_word _) as [|b' w'] eqn:Hw; [done|].
  intros [= <-]. split; [done|]. rewrite <-Hw. apply take_word_word.
Qed.

Lemma find_pool_here bs w :
  take (length pool_tag) bs = pool_tag →
  take_word (drop (length pool_tag) bs) = w →
  w ≠ [] →
  find_pool bs = Some w.
Proof.
  intros Htag Hw Hne. destruct bs as [|b bs]; [done|].
  cbn [find_pool]. rewrite decide_True, Hw by done. by destruct w.
Qed.

Lemma find_pool_tagged w rest :
  w ≠ [] →
  Forall (λ b, is_word b = true) w →
  (∀ b, head rest = Some b → is_word b = false) →
  find_pool (pool_tag ++ w ++ rest) = Some w.
Proof.
  intros Hne Hw Hrest. apply find_pool_here; [|  |done].
  - by rewrite take_app_length.
  - rewrite drop_app_length. by apply take_word_app.
Qed.

(** No match starts in front of the first [p]. *)
Lemma find_pool_skip pre bs :
  x70 ∉ pre → find_pool (pre ++ bs) = find_pool bs.
Proof.
  induction pre as [|b pre IH]; intros Hp; [done|].
  apply not_elem_of_cons in Hp as [Hb Hpre]. cbn [app find_pool].
  rewrite decide_False; [by apply IH|].
  intros Heq. apply Hb. by injection Heq.
Qed.

Lemma is_word_no_colon w :
  Forall (λ b, is_word b = true) w → x3a ∉ w.
Proof.
  intros Hw Hin. rewrite Forall_forall in Hw. by specialize (Hw _ Hin).
Qed.

(** The pool of a container: when the constraints label holds
    [pool==] followed by a word, after a prefix without the letter [p], the
    pool is that word, taken as far as it goes. *)
Theorem FindPool_tagged (pre w rest : string) :
  x70 ∉ bytes_of_string pre →
  w ≠ "" →
  Forall (λ b, is_word b = true) (bytes_of_string w) →
  (∀ b, head (bytes_of_string rest) = Some b → is_word b = false) →
  FindPool (pre +:+ "pool==" +:+ w +:+ rest) = Some w.
Proof.
  intros Hpre Hne Hw Hrest. unfold FindPool.
  rewrite !bytes_of_string_app, find_pool_skip by done.
  change (bytes_of_string "pool==") with pool_tag.
  rewrite find_pool_tagged; [|  |done..].
  - cbn. by rewrite string_of_bytes_of_string.
  - intros Hnil. apply Hne, bytes_of_string_inj. by rewrite Hnil.
Qed.

(** What the regular expression extracts is a non-empty word, which holds
    no colon. *)
Lemma FindPool_word pool p :
  FindPool pool = Some p →
  p ≠ "" ∧ Forall (λ b, is_word b = true) (bytes_of_string p)
  ∧ x3a ∉ bytes_of_string p.
Proof.
  unfold FindPool. destruct (find_pool _) as [w|] eqn:Hw; intros [= <-].
  apply find_pool_word in Hw as [Hne Hw].
  rewrite bytes_of_string_of_bytes. split_and!; [|done|by apply is_word_no_colon].
  intros Heq. apply Hne. by rewrite <-(bytes_of_string_of_bytes w), Heq.
Qed.

(** ** [fmt.Sprint] *)

(** A number below [10^k] has at most [k] digits. *)
Lemma length_pretty_N_go x : ∀ s k,
  (x < 10 ^ N.of_nat k)%N →
  (String.length (pretty_N_go x s) ≤ String.length s + k)%nat.
Proof.
  induction (N.lt_wf_0 x) as [x _ IH]; intros s k Hx.
  assert (x = 0 ∨ 0 < x)%N as [->|Hpos] by lia.
  { rewrite pretty_N_go_0. lia. }
  rewrite pretty_N_go_step by done.
  destruct k as [|k]; [cbn in Hx; lia|].
  etrans; [apply (IH (x `div` 10)%N) with (k := k)|cbn; lia].
  - by apply N.div_lt.
  - apply N.Div0.div_lt_upper_bound.
    rewrite Nat2N.inj_succ, N.pow_succ_r' in Hx. lia.
Qed.

Lemma length_pretty_Z n k :
  0 ≤ n < 10 ^ Z.of_nat k → (0 < k)%nat → (String.length (pretty n) ≤ k)%nat.
Proof.
  intros [Hn Hk] Hpos. destruct n as [|p|p]; [cbn; lia| |lia].
  unfold pretty, pretty_Z, pretty, pretty_positive, pretty, pretty_N.
  rewrite decide_False by done.
  etrans; [apply (length_pretty_N_go _ _ k)|cbn; lia].
  apply N2Z.inj_lt. by rewrite N2Z.inj_pow, nat_N_Z.
Qed.

(** Below a million a number is printed in decimal. *)
Lemma format_g_decimal n : Z.abs n < 10 ^ 6 → format_g n = pretty n.
Proof.
  intros Hn. unfold format_g. cbn zeta. rewrite decide_True; [done|].
  pose proof (length_pretty_Z (Z.abs n) 6). lia.
Qed.

(** ** The hosts of a list of containers *)

(** The host of a container whose first port binding has a string as
    [IP] and a port number as [PublicPort] is [ip:port], the port in
    decimal.  The code prints the [float64] of the decoded document with
    [fmt.Sprint], which is decimal below a million. *)
Theorem host_of_port (item p : object) rest ip port :
  field "Ports" item = Some (JArr (JObj p :: rest)) →
  field "IP" p = Some (JStr ip) →
  field "PublicPort" p = Some (JNum port) →
  0 ≤ port < 65536 →
  host_of item = Some (ip +:+ ":" +:+ pretty port).
Proof.
  intros Hports Hip Hport Hrange. unfold host_of.
  rewrite Hports, Hip, Hport. cbn [Sprint].
  by rewrite format_g_decimal by lia.
Qed.

Lemma foldl_append_host acc l :
  foldl append_host acc l = acc ++ omap host_of l.
Proof.
  revert acc. induction l as [|item l IH]; intros acc; cbn.
  - by rewrite app_nil_r.
  - rewrite IH. unfold append_host. destruct (host_of item); cbn; [|done].
    by rewrite <-app_assoc.
Qed.

(** The host list read from the containers is, in the order of the
    containers, the [ip:port] of the first port binding of every container
    that has one with both fields; containers without one are skipped. *)
Theorem hosts_omap l : hosts l = omap host_of l.
Proof. apply foldl_append_host. Qed.

(** ** What [fmt.Sprint] prints of a decoded value is well formed *)

Lemma strip_zeros_ascii s : ascii_only s → ascii_only (strip_zeros s).
Proof.
  induction s as [|a s IH]; [done|]. intros [Ha Hs]%ascii_only_String.
  cbn [strip_zeros]. specialize (IH Hs).
  destruct (strip_zeros s); [case_decide; [constructor|]|];
    by apply ascii_only_String.
Qed.

Lemma format_e_ascii neg ds : ascii_only ds → ascii_only (format_e neg ds).
Proof.
  intros Hds%strip_zeros_ascii. unfold format_e. rewrite !ascii_only_app.
  split_and!; [by destruct neg; repeat constructor| |by repeat constructor
              |by case_decide; repeat constructor|apply ascii_only_pretty_Z].
  destruct (strip_zeros ds) as [|d [|d' rest]]; [by repeat constructor|done|].
  apply ascii_only_String in Hds as [Hd Hrest].
  apply ascii_only_String. split; [done|].
  apply ascii_only_app. split; [by repeat constructor|done].
Qed.

Lemma format_g_ascii n : ascii_only (format_g n).
Proof.
  unfold format_g. cbn zeta.
  case_decide; [|apply format_e_ascii]; apply ascii_only_pretty_Z.
Qed.

Lemma insert_field_Forall (P : string * string → Prop) x l :
  P x → Forall P l → Forall P (insert_field x l).
Proof.
  intros Hx. induction 1 as [|y l Hy Hl IH]; cbn; [by repeat constructor|].
  case_match; by repeat constructor.
Qed.

Lemma sort_fields_Forall (P : string * string → Prop) l :
  Forall P l → Forall P (sort_fields l).
Proof.
  induction 1 as [|x l Hx _ IH]; [constructor|].
  by apply insert_field_Forall.
Qed.

(** [fmt.Sprint] prints a decoded value as well-formed UTF-8. *)
Lemma Sprint_valid v : valid_json v = true → Valid (Sprint v).
Proof.
  induction v as [|b|n|s|l IH|m IH] using json_ind;
    cbn [valid_json Sprint]; intros Hv.
  - done.
  - by destruct b.
  - apply ascii_only_Valid, format_g_ascii.
  - by apply bool_decide_eq_true_1 in Hv.
  - apply forallb_Forall in Hv.
    repeat apply Valid_app; [done| |done]. apply Valid_concat; [done|].
    apply List.Forall_map. by apply (Forall_mp _ _ _ Hv).
  - apply andb_true_iff in Hv as [_ Hv%forallb_Forall].
    repeat apply Valid_app; [done| |done]. apply Valid_concat; [done|].
    apply List.Forall_map, (sort_fields_Forall (λ kv, Valid (kv.1 +:+ ":" +:+ kv.2))).
    apply List.Forall_map, (Forall_mp _ _ _ Hv).
    eapply Forall_impl; [exact IH|].
    intros [k x] Hx [Hk ?]%andb_true_iff. cbn in *.
    apply bool_decide_eq_true_1 in Hk. repeat apply Valid_app; auto; done.
Qed.

Lemma field_decoded k o v :
  decoded o → field k o = Some v → valid_json v = true.
Proof.
  unfold decoded. cbn [valid_json]. intros [_ Ho]%andb_true_iff. revert Ho.
  induction o as [|[k' x] o IH]; [done|]. cbn [forallb field].
  intros [[_ Hx]%andb_true_iff Ho]%andb_true_iff.
  case_decide; [by intros [= <-]|by apply IH].
Qed.

(** The host of a decoded container is well-formed UTF-8. *)
Lemma host_of_valid item h : decoded item → host_of item = Some h → Valid h.
Proof.
  intros Hitem. unfold host_of.
  destruct (field "Ports" item) as [[| | | |[|[| | | | |p] rest]|]|] eqn:Hports;
    try done.
  apply (field_decoded _ _ _ Hitem) in Hports. cbn [valid_json forallb] in Hports.
  apply andb_true_iff in Hports as [Hp _].
  destruct (field "IP" p) as [ip|] eqn:Hip; [|done].
  destruct (field "PublicPort" p) as [port|] eqn:Hport; intros [= <-].
  repeat apply Valid_app; [|done|];
    eapply Sprint_valid, field_decoded; done.
Qed.

(** The hosts the package reads from decoded containers are well-formed
    UTF-8: the encoder stores them as they are. *)
Lemma hosts_valid l : Forall decoded l → Forall Valid (hosts l).
Proof.
  intros Hl. unfold hosts. rewrite (foldl_append_host [] l). cbn.
  by apply (omap_Forall decoded _ _ _ host_of_valid).
Qed.

Lemma grouped_valid l pool service :
  Forall decoded l → Forall Valid (grouped l pool service).
Proof.
  intros Hl. unfold grouped.
  apply (omap_Forall decoded _ _ _ host_of_valid).
  rewrite Forall_forall in Hl |- *. intros x [_ Hx]%list_elem_of_filter. auto.
Qed.

(** ** The containers the decoder yields are decoded documents *)

Lemma field_None k o : field k o = None → k ∉ o.*1.
Proof.
  induction o as [|[k' v] o IH]; cbn; [intros _; apply not_elem_of_nil|].
  case_decide; [done|]. intros Hf. apply not_elem_of_cons. auto.
Qed.

Lemma assign_valid k x o :
  Valid k → valid_json x = true → valid_json (JObj o) = true →
  valid_json (JObj (assign k x o)) = true.
Proof.
  intros Hk Hx Ho. unfold assign. destruct (field k o) eqn:Hf; [done|].
  cbn [valid_json forallb fmap list_fmap fst] in *.
  apply andb_true_iff in Ho as [Hnd%bool_decide_eq_true_1 Ho].
  rewrite Hx, Ho, !bool_decide_eq_true_2; [done..|].
  apply NoDup_cons. split; [by apply field_None|done].
Qed.

(** A well-formed document stored in an [interface{}] is a value whose
    strings are well-formed UTF-8. *)
Lemma interface_valid v : ∀ x,
  encoding_json.well_formed v = true → interface v = Some x →
  valid_json x = true.
Proof.
  induction v as [|b|lit|s|vs IH|kvs IH] using encoding_json.document_ind;
    intros x Hv Hx; cbn [interface encoding_json.well_formed] in *.
  - by simplify_eq.
  - by simplify_eq.
  - by destruct (integer lit); simplify_eq/=.
  - simplify_eq. cbn. by apply bool_decide_eq_true_2, Valid_string_of_bytes.
  - apply fmap_Some in Hx as (l & Hl & ->). cbn [valid_json].
    revert l Hl. induction IH as [|v vs Hv1 _ IHvs]; intros l Hl.
    { by simplify_eq. }
    cbn [forallb] in Hv. apply andb_true_iff in Hv as [Hv Hvs].
    destruct (interface v) as [x|]; [|done]. cbn in Hl.
    apply fmap_Some in Hl as (l' & Hl' & ->). cbn [forallb].
    by rewrite (Hv1 x), (IHvs Hvs l').
  - apply fmap_Some in Hx as (o & Ho & ->).
    revert o Ho. induction IH as [|[k v] kvs Hv1 _ IHkvs]; intros o Ho.
    { by simplify_eq. }
    cbn [forallb fst snd] in Hv, Hv1.
    apply andb_true_iff in Hv as [[Hk Hv]%andb_true_iff Hkvs].
    destruct (interface v) as [x|]; [|done]. cbn in Ho.
    apply fmap_Some in Ho as (o' & Ho' & ->).
    apply assign_valid; auto using Valid_string_of_bytes.
Qed.

Lemma to_map_decoded v o :
  encoding_json.well_formed v = true → to_map v = Some (inr o) → decoded o.
Proof.
  intros Hv Ho. destruct v as [|b|lit|s|vs|kvs]; try done.
  { by injection Ho as <-. }
  unfold to_map in Ho.
  destruct (interface (encoding_json.DObject kvs)) as [[|b|n|s|l|o']|] eqn:Hi;
    try done.
  injection Ho as ->. exact (interface_valid _ _ Hv Hi).
Qed.

Lemma maps_decoded vs : ∀ l,
  forallb encoding_json.well_formed vs = true →
  maps (to_map <$> vs) = Some (inr l) → Forall decoded l.
Proof.
  induction vs as [|v vs IH]; intros l Hv Hl; cbn in Hv, Hl.
  { by simplify_eq. }
  apply andb_true_iff in Hv as [Hv Hvs].
  destruct (to_map v) as [[err|o]|] eqn:Ho; try done.
  apply bind_Some in Hl as ([err|l'] & Hl' & ?); simplify_eq.
  constructor; eauto using to_map_decoded.
Qed.

(** Whatever the body, the containers [json.Unmarshal] makes of it are
    decoded documents: their strings and keys are well-formed UTF-8. *)
Lemma UnmarshalMaps_decoded body l :
  UnmarshalMaps body = Some (inr l) → Forall decoded l.
Proof.
  unfold UnmarshalMaps.
  destruct (encoding_json.Parse body) as [err|v] eqn:Hp; [done|].
  apply encoding_json.Parse_well_formed in Hp. intros Hl.
  destruct v as [|b|lit|s|vs|kvs]; try done.
  - by injection Hl as <-.
  - by apply (maps_decoded vs).
Qed.

(** ** [json.Unmarshal] reads what a server writes *)

(** The ten digits. *)
Ltac digit_cases k :=
  destruct k as [|[[[[]|[]|]|[[]|[]|]|]|[[[]|[]|]|[[]|[]|]|]|]]; try lia.

Lemma digit_step_pretty n k :
  (k < 10)%N →
  digit_step (Some n) (Ascii.byte_of_ascii (pretty_N_char k))
  = Some (10 * n + Z.of_N k).
Proof. intros Hk. digit_cases k; cbn; f_equal; lia. Qed.

(** The digits that are printed of a number are read as that number. *)
Lemma digits_pretty_N_go m : ∀ s,
  (0 < m)%N →
  foldl digit_step (Some 0) (bytes_of_string (pretty_N_go m s))
  = foldl digit_step (Some (Z.of_N m)) (bytes_of_string s).
Proof.
  induction (N.lt_wf_0 m) as [m _ IH]. intros s Hm.
  rewrite pretty_N_go_step by done.
  assert (m `mod` 10 < 10)%N as Hmod by (by apply N.mod_lt).
  pose proof (N.div_mod m 10 ltac:(done)) as Hdiv.
  destruct (decide (m < 10)%N) as [Hlt|Hge].
  - rewrite N.div_small, pretty_N_go_0, bytes_of_string_String by done.
    cbn [foldl]. rewrite digit_step_pretty, N.mod_small by done.
    by replace (10 * 0 + Z.of_N m) with (Z.of_N m) by lia.
  - rewrite IH; [|apply N.div_lt; lia|apply N.div_str_pos; lia].
    rewrite bytes_of_string_String. cbn [foldl].
    rewrite digit_step_pretty by done.
    by replace (10 * Z.of_N (m `div` 10) + Z.of_N (m `mod` 10)) with (Z.of_N m)
      by lia.
Qed.

(** The scanner reads the digits that are printed of a number as a number
    without a leading zero. *)
Lemma numeric_pretty_N_go s0 m : ∀ s,
  s0 = encoding_json.stateBeginValue ∨ s0 = encoding_json.stateNeg →
  (0 < m)%N →
  encoding_json.numeric s0 (bytes_of_string (pretty_N_go m s))
  = encoding_json.numeric encoding_json.state1 (bytes_of_string s).
Proof.
  induction (N.lt_wf_0 m) as [m _ IH]. intros s Hs0 Hm.
  rewrite pretty_N_go_step by done.
  assert (m `mod` 10 < 10)%N as Hmod by (by apply N.mod_lt).
  destruct (decide (m < 10)%N) as [Hlt|Hge].
  - rewrite N.div_small, pretty_N_go_0, bytes_of_string_String by done.
    rewrite N.mod_small by done.
    digit_cases m; by destruct Hs0 as [-> | ->].
  - rewrite IH; [|apply N.div_lt; lia|done|apply N.div_str_pos; lia].
    rewrite bytes_of_string_String.
    remember (m `mod` 10)%N as k. by digit_cases k.
Qed.

Lemma foldl_digit_step_None bs : foldl digit_step None bs = None.
Proof. by induction bs. Qed.

Lemma digits_digit_step bs : digits bs = foldl digit_step (Some 0) bs.
Proof. done. Qed.

(** A literal of digits is read as the number of its digits. *)
Lemma integer_digits lit n :
  digits lit = Some n → n ≤ 2 ^ 53 → integer lit = Some n.
Proof.
  rewrite digits_digit_step. intros Hd Hn. unfold integer.
  destruct lit as [|b ds].
  { rewrite digits_digit_step. cbn in *. simplify_eq. by rewrite decide_True. }
  destruct (decide (b = "-"%byte)) as [->|Hb].
  { cbn in Hd. by rewrite foldl_digit_step_None in Hd. }
  assert (∀ (r1 r2 : option Z), r2 = Some n →
    match b with "-"%byte => r1 | _ => r2 end = Some n) as Hmatch
    by (intros r1 r2 ->; by destruct b).
  apply Hmatch. rewrite digits_digit_step, Hd. cbn. by rewrite decide_True.
Qed.

(** The digits of an integer are read as that integer. *)
Lemma integer_pretty n :
  Z.abs n ≤ 2 ^ 53 → integer (bytes_of_string (pretty n)) = Some n.
Proof.
  intros Hn. destruct n as [|p|p].
  - done.
  - apply integer_digits; [|lia]. rewrite digits_digit_step.
    change (pretty (Z.pos p)) with (pretty_N_go (N.pos p) "").
    by rewrite digits_pretty_N_go.
  - change (pretty (Z.neg p)) with (String "-" (pretty_N_go (N.pos p) "")).
    rewrite bytes_of_string_String.
    change (integer (?b :: ?ds))
      with (n ← digits ds; if decide (0 < n ≤ 2 ^ 53) then Some (- n) else None).
    rewrite digits_digit_step, digits_pretty_N_go by done. cbn.
    by rewrite decide_True by lia.
Qed.

(** The digits of an integer are a number for the scanner. *)
Lemma number_literal_pretty (n : Z) :
  encoding_json.number_literal (bytes_of_string (pretty n)) = true.
Proof.
  unfold encoding_json.number_literal. destruct n as [|p|p].
  - done.
  - change (pretty (Z.pos p)) with (pretty_N_go (N.pos p) "").
    by rewrite numeric_pretty_N_go by (done || auto).
  - change (pretty (Z.neg p)) with (String "-" (pretty_N_go (N.pos p) "")).
    rewrite bytes_of_string_String.
    change (encoding_json.numeric encoding_json.stateBeginValue (?b :: ?bs))
      with (encoding_json.numeric encoding_json.stateNeg bs).
    by rewrite numeric_pretty_N_go by (done || auto).
Qed.

Lemma field_fresh k o : k ∉ o.*1 → field k o = None.
Proof.
  induction o as [|[k' v] o IH]; cbn; [done|].
  intros [Hk Ho]%not_elem_of_cons. by rewrite decide_False, IH.
Qed.

(** The value of a document of a value is that value. *)
Lemma interface_document_of x :
  valid_json x = true → integers x = true → interface (document_of x) = Some x.
Proof.
  induction x as [|b|n|s|l IH|m IH] using json_ind; intros Hv Hn;
    cbn [interface document_of valid_json integers] in *; try done.
  - apply bool_decide_eq_true_1 in Hn. by rewrite integer_pretty.
  - by rewrite string_of_bytes_of_string.
  - apply fmap_Some. exists l. split; [|done].
    induction IH as [|x l Hx _ IHl]; [done|]. cbn in Hv, Hn |- *.
    apply andb_true_iff in Hv as [Hv Hvs], Hn as [Hn Hns].
    by rewrite Hx, IHl.
  - apply fmap_Some. exists m. split; [|done].
    apply andb_true_iff in Hv as [Hnd%bool_decide_eq_true_1 Hv].
    induction IH as [|[k x] m Hx _ IHm]; [done|].
    cbn -[string_of_bytes bytes_of_string] in Hx, Hv, Hn, Hnd |- *.
    apply andb_true_iff in Hv as [[_ Hv]%andb_true_iff Hvs], Hn as [Hn Hns].
    apply NoDup_cons in Hnd as [Hk Hnd].
    rewrite Hx, IHm by done. cbn -[string_of_bytes bytes_of_string].
    rewrite string_of_bytes_of_string.
    unfold assign. by rewrite field_fresh.
Qed.

(** The document of a decoded value is canonical. *)
Lemma canonical_document_of x :
  valid_json x = true → encoding_json.canonical (document_of x) = true.
Proof.
  induction x as [|b|n|s|l IH|m IH] using json_ind; intros Hv;
    cbn [encoding_json.canonical document_of valid_json] in *; try done.
  - apply number_literal_pretty.
  - by apply bool_decide_eq_true_1 in Hv.
  - induction IH as [|x l Hx _ IHl]; [done|]. cbn in Hv |- *.
    apply andb_true_iff in Hv as [Hv Hvs]. by rewrite Hx, IHl.
  - apply andb_true_iff in Hv as [_ Hv].
    induction IH as [|[k x] m Hx _ IHm]; [done|].
    cbn -[bytes_of_string] in Hx, Hv |- *.
    apply andb_true_iff in Hv as [[Hk%bool_decide_eq_true_1 Hv]%andb_true_iff Hvs].
    unfold Valid in Hk. by rewrite Hk, Hx, IHm.
Qed.

(** The map of the document of a container, and the containers of the
    document of containers. *)
Lemma to_map_document_of o :
  decoded o → integers (JObj o) = true →
  to_map (document_of (JObj o)) = Some (inr o).
Proof.
  intros Hd Hn. pose proof (interface_document_of (JObj o) Hd Hn) as Hi.
  unfold to_map. by rewrite Hi.
Qed.

Lemma to_maps_document_of l :
  Forall decoded l → Forall (λ o, integers (JObj o) = true) l →
  to_maps (document_of (JArr (JObj <$> l))) = Some (inr l).
Proof.
  intros Hd Hn. cbn [to_maps document_of]. rewrite <-!list_fmap_compose.
  induction Hd as [|o l Ho _ IH]; [done|].
  apply Forall_cons in Hn as [Hn Hns]. rewrite fmap_cons. cbn [maps compose].
  by rewrite to_map_document_of, IH.
Qed.

(** [json.Unmarshal] reads the containers a server wrote. *)
Lemma UnmarshalMaps_written l :
  writable l → UnmarshalMaps (RefEnv.written l) = Some (inr l).
Proof.
  intros (Hd & Hn & Hdepth). unfold UnmarshalMaps, RefEnv.written, RefEnv.render.
  rewrite encoding_json.Parse_Encode; [by apply to_maps_document_of| |done].
  apply canonical_document_of. cbn. rewrite forallb_forall.
  intros x (o & <- & Ho)%in_map_iff.
  by apply (proj1 (List.Forall_forall _ _) Hd).
Qed.

(** ** [SetDockerAPI] and [SetRedisHost] *)

(** [SetRedisHost] closes the client there was, if any, and sets a client
    for the host with database 7, timeouts of 60 and 10 seconds and three
    retries; the digests and the server are not touched. *)
Lemma SetRedisHost_spec host w :
  let w' := SetRedisHost host w in
  redisClient w'
  = Some (mkOptions host 7 (60 * Second) (10 * Second) (10 * Second) 3)
  ∧ closed w' = closed w ++ option_list (redisClient w)
  ∧ dockerAPI w' = dockerAPI w ∧ hostCheckSum w' = hostCheckSum w
  ∧ redis w' = redis w ∧ redisDown w' = redisDown w ∧ log w' = log w.
Proof.
  unfold SetRedisHost. destruct (redisClient w); cbn; by rewrite ?app_nil_r.
Qed.

(** ** The keys *)

Lemma append_inj_r (p s1 s2 : string) : p +:+ s1 = p +:+ s2 → s1 = s2.
Proof. induction p as [|a p IH]; simpl; [done|]. intros [= H]. by apply IH. Qed.

Lemma split_at_colon (p1 p2 n1 n2 : string) :
  x3a ∉ bytes_of_string p1 → x3a ∉ bytes_of_string p2 →
  p1 +:+ ":" +:+ n1 = p2 +:+ ":" +:+ n2 → p1 = p2 ∧ n1 = n2.
Proof.
  revert p2. induction p1 as [|a p1 IH]; intros [|b p2] H1 H2 Heq;
    simplify_eq/=; try done.
  - exfalso. apply H2. simpl. left.
  - exfalso. apply H1. simpl. left.
  - destruct (IH p2) as [-> ->]; [| |done..].
    + intros Hin. apply H1. simpl. by right.
    + intros Hin. apply H2. simpl. by right.
Qed.

(** The Redis key determines the pool and the service as long as the
    pool holds no colon, which is the case for every pool the regular
    expression extracts. *)
Theorem redis_key_inj pool1 name1 pool2 name2 :
  x3a ∉ bytes_of_string pool1 → x3a ∉ bytes_of_string pool2 →
  redis_key pool1 name1 = redis_key pool2 name2 →
  pool1 = pool2 ∧ name1 = name2.
Proof.
  intros H1 H2 Hk. unfold redis_key in Hk.
  apply append_inj_r in Hk. by apply split_at_colon.
Qed.

(** ** [SetHostListToRedis] and [GetHostListFromRedis] *)

Section redis_facts.
Context `{E : Env}.
Implicit Types (w : World) (l : list string).

Lemma SetHostListToRedis_cases pool name l w :
  SetHostListToRedis pool name l w
  = match redisClient w, redisDown w with
    | None, _ => (Some "Please Call SetRedisHost()", w)
    | Some _, Some err => (Some err, w)
    | Some _, None =>
        (None, set_redis (<[redis_key pool name := (MarshalStrings l, week)]>
                            (redis w)) w)
    end.
Proof.
  unfold SetHostListToRedis, redis_Set.
  by destruct (redisClient w), (redisDown w).
Qed.

(** [SetHostListToRedis] fails, leaving the world as it was, exactly
    when no client is set or the server fails; otherwise it stores the
    encoded list under [__yar_host_sync__:pool:name] with an expiry of seven
    days and changes nothing else. *)
Theorem SetHostListToRedis_spec pool name l w :
  match SetHostListToRedis pool name l w with
  | (None, w') =>
      is_Some (redisClient w) ∧ redisDown w = None
      ∧ w' = set_redis (<[redisPrefix +:+ pool +:+ ":" +:+ name
                          := (MarshalStrings l, 604800 * Second)]> (redis w)) w
  | (Some err, w') =>
      w' = w
      ∧ (redisClient w = None ∧ err = "Please Call SetRedisHost()"
         ∨ is_Some (redisClient w) ∧ redisDown w = Some err)
  end.
Proof.
  rewrite SetHostListToRedis_cases.
  destruct (redisClient w), (redisDown w); naive_solver.
Qed.

(** The package variables are not touched by a publication. *)
Lemma SetHostListToRedis_vars pool name l w :
  let w' := (SetHostListToRedis pool name l w).2 in
  dockerAPI w' = dockerAPI w ∧ redisClient w' = redisClient w
  ∧ hostCheckSum w' = hostCheckSum w ∧ redisDown w' = redisDown w
  ∧ closed w' = closed w ∧ log w' = log w.
Proof.
  rewrite SetHostListToRedis_cases.
  by destruct (redisClient w) eqn:?, (redisDown w) eqn:?.
Qed.

(** What [SetHostListToRedis] stored, [GetHostListFromRedis] reads
    back: after a publication that returned no error, reading the same pool
    and service returns the list published, when its strings are
    well-formed UTF-8. *)
Theorem GetHostListFromRedis_SetHostListToRedis `{!EnvLaws E} pool name l w w' :
  Forall Valid l →
  SetHostListToRedis pool name l w = (None, w') →
  (GetHostListFromRedis pool name w').1 = (l, None).
Proof.
  intros Hl. rewrite SetHostListToRedis_cases.
  destruct (redisClient w) as [c|] eqn:Hc, (redisDown w) eqn:Hd; intros [= <-].
  unfold GetHostListFromRedis, redis_Get. cbn. rewrite Hc, Hd.
  rewrite lookup_insert_eq. cbn. by apply unmarshal_marshal.
Qed.

(** [GetHostListFromRedis] returns an error when no client is set,
    when the server fails and when the key is not there; it changes nothing
    but the log. *)
Theorem GetHostListFromRedis_errors pool name w :
  let '(res, w') := GetHostListFromRedis pool name w in
  (redisClient w = None →
   res = ([], Some "Please Call SetRedisHost()") ∧ w' = w)
  ∧ (is_Some (redisClient w) → ∀ err, redisDown w = Some err →
     res = ([], Some err))
  ∧ (is_Some (redisClient w) → redisDown w = None →
     redis w !! redis_key pool name = None → res = ([], Some "redis: nil"))
  ∧ redis w' = redis w ∧ hostCheckSum w' = hostCheckSum w.
Proof.
  unfold GetHostListFromRedis, redis_Get.
  destruct (redisClient w) as [c|], (redisDown w) as [e|];
    [..|done|done]; cbn.
  - split_and!; [done|by intros _ ? [= ->]|done|done..].
  - destruct (redis w !! redis_key pool name) as [[val t]|]; cbn;
      split_and!; done.
Qed.

End redis_facts.

(** ** [GetHostListFromDockerAPI] *)

Section docker_facts.
Context `{E : Env}.
Implicit Types (w : World).

(** Without an API address [GetHostListFromDockerAPI] fails before any
    request and leaves the world as it was. *)
Theorem GetHostListFromDockerAPI_unset pool name w :
  dockerAPI w = "" →
  GetHostListFromDockerAPI pool name w = (inl "Please Call SetDockerAPI()", w).
Proof.
  intros Hapi. unfold GetHostListFromDockerAPI. by rewrite Hapi, decide_True.
Qed.

(** C37. With an API address [GetHostListFromDockerAPI] asks for the
    containers that carry the two labels of the pool and the service,
    returns the hosts of the containers answered, and publishes that list
    for the pool and the service; the list is returned even when the
    publication fails. *)
Theorem GetHostListFromDockerAPI_spec pool name w lstContainers body :
  dockerAPI w ≠ "" →
  Get (dockerAPI w +:+ "/containers/json?filters="
       +:+ QueryEscape (MarshalFilters (filters pool name))) = inr body →
  UnmarshalContainers body = inr lstContainers →
  GetHostListFromDockerAPI pool name w
  = (inr (omap host_of lstContainers),
     (SetHostListToRedis pool name (omap host_of lstContainers) w).2).
Proof.
  intros Hapi Hget Hun. unfold GetHostListFromDockerAPI.
  rewrite decide_False by (by rewrite slen_empty).
  cbn zeta. rewrite Hget, Hun. unfold hosts. rewrite foldl_append_host.
  by destruct (SetHostListToRedis _ _ _ _).
Qed.

End docker_facts.

(** ** The grouping of the containers *)

Lemma group_item_classify lst item :
  group_item lst item
  = match classify item with
    | None => lst
    | Some (pool, service) =>
        let lst :=
          match lst !! pool with
          | None => <[pool := ∅]> lst
          | Some _ => lst
          end in
        match host_of item with
        | Some h =>
            let lst1 := default ∅ (lst !! pool) in
            <[pool := <[service := default [] (lst1 !! service) ++ [h]]> lst1]> lst
        | None => lst
        end
    end.
Proof. unfold group_item, classify. by repeat case_match; simplify_eq. Qed.

(** Creating the map of a pool does not change the lists held. *)
Lemma hosts_at_ensure lst p pool service :
  hosts_at (match lst !! p with
            | None => <[p := ∅]> lst
            | Some _ => lst
            end) pool service
  = hosts_at lst pool service.
Proof.
  destruct (lst !! p) eqn:Hp; [done|]. unfold hosts_at.
  destruct (decide (pool = p)) as [->|Hne].
  - by rewrite lookup_insert_eq, Hp.
  - by rewrite lookup_insert_ne.
Qed.

Lemma hosts_at_add lst p s h pool service :
  hosts_at (<[p := <[s := hosts_at lst p s ++ [h]]> (default ∅ (lst !! p))]> lst)
    pool service
  = hosts_at lst pool service
    ++ (if decide ((p, s) = (pool, service)) then [h] else []).
Proof.
  unfold hosts_at. destruct (decide (pool = p)) as [->|Hp].
  - rewrite lookup_insert_eq. cbn. destruct (decide (service = s)) as [->|Hs].
    + by rewrite lookup_insert_eq, decide_True.
    + rewrite lookup_insert_ne, decide_False, app_nil_r by congruence.
      by destruct (lst !! p).
  - by rewrite lookup_insert_ne, decide_False, app_nil_r by congruence.
Qed.

Lemma hosts_at_group_item lst item pool service :
  hosts_at (group_item lst item) pool service
  = hosts_at lst pool service
    ++ (if decide (classify item = Some (pool, service))
        then option_list (host_of item) else []).
Proof.
  rewrite group_item_classify.
  destruct (classify item) as [[p s]|]; [|by rewrite app_nil_r]. cbn zeta.
  destruct (host_of item) as [h|]; cbn [option_list].
  - set (lst' := match lst !! p with None => _ | Some _ => _ end).
    change (default [] (default ∅ (lst' !! p) !! s)) with (hosts_at lst' p s)
      || (replace (default [] (default ∅ (lst' !! p) !! s))
            with (hosts_at lst' p s) by (unfold hosts_at; by destruct (lst' !! p))).
    rewrite hosts_at_add. unfold lst'. rewrite hosts_at_ensure.
    by repeat case_decide; simplify_eq.
  - rewrite hosts_at_ensure. by case_decide; rewrite app_nil_r.
Qed.

Lemma hosts_at_foldl l : ∀ lst pool service,
  hosts_at (foldl group_item lst l) pool service
  = hosts_at lst pool service ++ grouped l pool service.
Proof.
  induction l as [|item l IH]; intros lst pool service; cbn [foldl].
  - unfold grouped. by rewrite app_nil_r.
  - rewrite IH, hosts_at_group_item, <-app_assoc. f_equal.
    unfold grouped. rewrite filter_cons.
    case_decide; [|done]. cbn. by destruct (host_of item).
Qed.

Lemma hosts_at_grouped l pool service :
  hosts_at (foldl group_item ∅ l) pool service = grouped l pool service.
Proof. by rewrite hosts_at_foldl. Qed.

Lemma group_item_no_empty lst item : no_empty lst → no_empty (group_item lst item).
Proof.
  intros Hne. rewrite group_item_classify.
  destruct (classify item) as [[p s]|]; [|done]. cbn zeta.
  set (lst' := match lst !! p with None => _ | Some _ => _ end).
  assert (no_empty lst') as Hne'.
  { unfold lst'. destruct (lst !! p) eqn:Hp; [done|].
    intros pool lst1 service hs. destruct (decide (pool = p)) as [->|].
    - rewrite lookup_insert_eq. by intros [= <-].
    - rewrite lookup_insert_ne by done. apply Hne. }
  destruct (host_of item) as [h|]; [|done].
  intros pool lst1 service hs. destruct (decide (pool = p)) as [->|].
  - rewrite lookup_insert_eq. intros [= <-].
    destruct (decide (service = s)) as [->|].
    + rewrite lookup_insert_eq. intros [= <-]. by destruct (default [] _).
    + rewrite lookup_insert_ne by done.
      destruct (lst' !! p) eqn:Hp; [by eapply Hne'|done].
  - rewrite lookup_insert_ne by done. apply Hne'.
Qed.

Lemma foldl_group_item_no_empty l : ∀ lst,
  no_empty lst → no_empty (foldl group_item lst l).
Proof.
  induction l as [|item l IH]; intros lst Hne; [done|].
  by apply IH, group_item_no_empty.
Qed.

Lemma no_empty_empty : no_empty ∅.
Proof. intros ???? Hempty. by rewrite lookup_empty in Hempty. Qed.

(** C30. The grouping of [SyncAllHostList] holds, for every pool and
    service, the hosts of the containers that belong to them, in the order
    of the containers, and it never holds an empty list. *)
Theorem group_spec l pool service :
  hosts_at (foldl group_item ∅ l) pool service = grouped l pool service
  ∧ ∀ lst1 hs,
      foldl group_item ∅ l !! pool = Some lst1 → lst1 !! service = Some hs →
      hs = grouped l pool service ∧ hs ≠ [].
Proof.
  split; [apply hosts_at_grouped|]. intros lst1 hs Hp Hs. split.
  - rewrite <-hosts_at_grouped. unfold hosts_at. rewrite Hp. cbn. by rewrite Hs.
  - by eapply (foldl_group_item_no_empty l ∅ no_empty_empty).
Qed.

(** ** The digest *)

Section digest_facts.
Context `{E : Env} `{!EnvLaws E}.

(** Lists of well-formed strings with the same encoding are the same. *)
Lemma MarshalStrings_inj l1 l2 :
  Forall Valid l1 → Forall Valid l2 →
  MarshalStrings l1 = MarshalStrings l2 → l1 = l2.
Proof.
  intros H1 H2 Heq. apply (f_equal UnmarshalStrings) in Heq.
  rewrite !unmarshal_marshal in Heq by done. by simplify_eq.
Qed.

(** The digest tells lists of well-formed strings apart. *)
Lemma digest_inj l1 l2 :
  Forall Valid l1 → Forall Valid l2 → digest l1 = digest l2 → l1 = l2.
Proof.
  intros H1 H2 Heq. unfold digest in Heq.
  by apply MarshalStrings_inj, bytes_of_string_inj, hex_encode_inj.
Qed.

Lemma digest_nonempty hs : digest hs ≠ "".
Proof.
  unfold digest. intros Heq. apply (f_equal String.length) in Heq.
  rewrite length_hex_encode, length_bytes_of_string in Heq.
  pose proof (marshal_nonempty hs) as Hne.
  destruct (MarshalStrings hs); [done|]. cbn in Heq. lia.
Qed.

End digest_facts.

(** ** The publication of one list *)

Section publish_facts.
Context `{E : Env} `{!EnvLaws E}.
Implicit Types (w : World) (e : Entry) (es : list Entry).

(** The two tests of lines 257-262 amount to one: the digest recorded for
    the key is the digest of the list. *)
Lemma publish_service_spec pool w n service hs :
  publish_service pool (w, n) (service, hs)
  = if decide (hostCheckSum w !! sum_key pool service = Some (digest hs))
    then (w, n)
    else (set_hostCheckSum
            (<[sum_key pool service := digest hs]> (hostCheckSum w))
            (SetHostListToRedis pool service hs w).2, n + 1).
Proof.
  unfold publish_service.
  pose proof (SetHostListToRedis_vars pool service hs w) as (_&_& Hsum &_).
  pose proof (digest_nonempty hs).
  destruct (SetHostListToRedis pool service hs w) as [err w'].
  cbn [snd] in *. rewrite Hsum.
  destruct (hostCheckSum w !! sum_key pool service) as [sum|]; cbn.
  - destruct (decide (sum = digest hs)) as [->|Hne].
    + by rewrite decide_True.
    + by rewrite bool_decide_eq_false_2, decide_False by congruence.
  - by rewrite decide_False, decide_False by done.
Qed.

Lemma publish_entry_spec w e :
  publish_entry w e
  = if decide (hostCheckSum w !! entry_key e = Some (digest e.2)) then w
    else set_hostCheckSum (<[entry_key e := digest e.2]> (hostCheckSum w))
           (SetHostListToRedis e.1.1 e.1.2 e.2 w).2.
Proof.
  unfold publish_entry. rewrite publish_service_spec. unfold entry_key.
  by case_decide.
Qed.

(** The counter only counts. *)
Lemma publish_service_counter pool w n x :
  publish_service pool (w, n) x
  = ((publish_service pool (w, 0) x).1, n + (publish_service pool (w, 0) x).2).
Proof.
  destruct x as [service hs]. rewrite !publish_service_spec.
  case_decide; cbn; f_equal; lia.
Qed.

Lemma foldl_publish_service pool l : ∀ w n,
  (foldl (publish_service pool) (w, n) l).1
  = foldl publish_entry w ((λ '(service, hs), (pool, service, hs)) <$> l).
Proof.
  induction l as [|[service hs] l IH]; intros w n; [done|].
  cbn [foldl fmap list_fmap]. rewrite publish_service_counter, IH. done.
Qed.

(** The package variables other than the digests are not touched. *)
Lemma publish_entry_vars w e :
  let w' := publish_entry w e in
  dockerAPI w' = dockerAPI w ∧ redisClient w' = redisClient w
  ∧ redisDown w' = redisDown w ∧ closed w' = closed w ∧ log w' = log w.
Proof.
  rewrite publish_entry_spec.
  pose proof (SetHostListToRedis_vars e.1.1 e.1.2 e.2 w) as (?&?&?&?&?&?).
  by case_decide.
Qed.

(** The publication does not read the log. *)
Lemma unlog_publish_entry w e : unlog (publish_entry w e) = publish_entry (unlog w) e.
Proof.
  rewrite !publish_entry_spec, !SetHostListToRedis_cases. cbn.
  case_decide; [done|]. by destruct (redisClient w), (redisDown w).
Qed.

#[export] Instance World_equivalence : Equivalence (≡@{World}).
Proof.
  unfold equiv, World_equiv. split.
  - done.
  - by intros ???.
  - intros ??? H1 H2. by rewrite H1.
Qed.

#[export] Instance publish_entry_proper : Proper ((≡) ==> (=) ==> (≡)) publish_entry.
Proof.
  intros w1 w2 Hw e ? <-. unfold equiv, World_equiv in *.
  by rewrite !unlog_publish_entry, Hw.
Qed.

#[export] Instance foldl_publish_entry_proper :
  Proper ((≡) ==> (=) ==> (≡)) (foldl publish_entry).
Proof.
  intros w1 w2 Hw es ? <-. revert w1 w2 Hw.
  induction es as [|e es IH]; intros w1 w2 Hw; [done|].
  cbn [foldl]. apply IH. by rewrite Hw.
Qed.

Lemma Println_equiv x w : Println x w ≡ w.
Proof. done. Qed.

(** The two loops publish the entries one after the other. *)
Lemma publish_pool_flat w pool lst1 :
  publish_pool w (pool, lst1)
  ≡ foldl publish_entry w
      ((λ '(service, hs), (pool, service, hs)) <$> range lst1).
Proof.
  unfold publish_pool.
  destruct (foldl _ _ _) as [w' changed] eqn:Hf.
  rewrite Println_equiv, <-(foldl_publish_service pool _ w 0), Hf. done.
Qed.

Lemma foldl_publish_pool_flat l : ∀ w,
  foldl publish_pool w l
  ≡ foldl publish_entry w
      ('(pool, lst1) ← l;
       (λ '(service, hs), (pool, service, hs)) <$> range lst1).
Proof.
  induction l as [|[pool lst1] l IH]; intros w; [done|].
  cbn [foldl mbind list_bind]. rewrite IH, foldl_app.
  by rewrite publish_pool_flat.
Qed.

(** ** The publication of a list of entries *)

Lemma foldl_publish_entry_vars es : ∀ w,
  let w' := foldl publish_entry w es in
  dockerAPI w' = dockerAPI w ∧ redisClient w' = redisClient w
  ∧ redisDown w' = redisDown w ∧ closed w' = closed w ∧ log w' = log w.
Proof.
  induction es as [|e es IH]; intros w; [done|]. cbn [foldl].
  destruct (IH (publish_entry w e)) as (-> & -> & -> & -> & ->).
  apply publish_entry_vars.
Qed.

(** After its publication the digest of an entry is recorded. *)
Lemma publish_entry_recorded w e :
  hostCheckSum (publish_entry w e) !! entry_key e = Some (digest e.2).
Proof.
  rewrite publish_entry_spec. case_decide; [done|]. cbn.
  by rewrite lookup_insert_eq.
Qed.

(** The digests of other keys are not touched. *)
Lemma publish_entry_other w e k :
  k ≠ entry_key e →
  hostCheckSum (publish_entry w e) !! k = hostCheckSum w !! k.
Proof.
  intros Hk. rewrite publish_entry_spec. case_decide; [done|]. cbn.
  by rewrite lookup_insert_ne.
Qed.

Lemma foldl_publish_entry_other es k : ∀ w,
  k ∉ entry_key <$> es →
  hostCheckSum (foldl publish_entry w es) !! k = hostCheckSum w !! k.
Proof.
  induction es as [|e es IH]; intros w Hk; [done|].
  cbn [foldl]. rewrite fmap_cons in Hk. apply not_elem_of_cons in Hk as [??].
  by rewrite IH, publish_entry_other.
Qed.

Lemma foldl_publish_entry_recorded es : ∀ w e,
  collision_free es → e ∈ es →
  hostCheckSum (foldl publish_entry w es) !! entry_key e = Some (digest e.2).
Proof.
  unfold collision_free.
  induction es as [|e' es IH]; intros w e Hnd; [by intros ?%elem_of_nil|].
  rewrite fmap_cons, NoDup_cons in Hnd. destruct Hnd as [Hnotin Hnd].
  intros [->|Hin]%elem_of_cons; cbn [foldl].
  - by rewrite foldl_publish_entry_other, publish_entry_recorded.
  - by apply IH.
Qed.

(** Entries whose digests are recorded are left alone. *)
Lemma foldl_publish_entry_fixed es : ∀ w,
  (∀ e, e ∈ es → hostCheckSum w !! entry_key e = Some (digest e.2)) →
  foldl publish_entry w es = w.
Proof.
  induction es as [|e es IH]; intros w Hrec; [done|]. cbn [foldl].
  assert (publish_entry w e = w) as ->.
  { rewrite publish_entry_spec, decide_True; [done|]. apply Hrec. left. }
  apply IH. intros e' He'. apply Hrec. by right.
Qed.

(** Without a client, or in front of a server that fails, nothing is
    stored. *)
Lemma foldl_publish_entry_no_store es : ∀ w,
  redisClient w = None ∨ is_Some (redisDown w) →
  redis (foldl publish_entry w es) = redis w.
Proof.
  induction es as [|e es IH]; intros w Hw; [done|]. cbn [foldl].
  pose proof (publish_entry_vars w e) as (_ & Hc & Hd & _).
  rewrite IH by (by rewrite Hc, Hd).
  rewrite publish_entry_spec, SetHostListToRedis_cases. case_decide; [done|].
  by destruct Hw as [->|[err ->]]; [|destruct (redisClient w)].
Qed.

(** The lists stored under other keys are not touched. *)
Lemma publish_entry_store_other w e k :
  k ≠ store_key e → redis (publish_entry w e) !! k = redis w !! k.
Proof.
  intros Hk. rewrite publish_entry_spec, SetHostListToRedis_cases.
  case_decide; [done|].
  destruct (redisClient w), (redisDown w); cbn; try done.
  by rewrite lookup_insert_ne.
Qed.

Lemma foldl_publish_entry_store_other es k : ∀ w,
  k ∉ store_key <$> es → redis (foldl publish_entry w es) !! k = redis w !! k.
Proof.
  induction es as [|e es IH]; intros w Hk; [done|].
  cbn [foldl]. rewrite fmap_cons in Hk. apply not_elem_of_cons in Hk as [??].
  by rewrite IH, publish_entry_store_other.
Qed.

(** What the publication of one entry leaves under its key. *)
Lemma publish_entry_store w e c :
  redisClient w = Some c → redisDown w = None →
  redis (publish_entry w e) !! store_key e
  = if decide (hostCheckSum w !! entry_key e = Some (digest e.2))
    then redis w !! store_key e
    else Some (MarshalStrings e.2, week).
Proof.
  intros Hc Hd. rewrite publish_entry_spec, SetHostListToRedis_cases, Hc, Hd.
  case_decide; [done|]. cbn. by rewrite lookup_insert_eq.
Qed.

Lemma foldl_publish_entry_store es : ∀ w e c,
  redisClient w = Some c → redisDown w = None →
  collision_free es → distinct_keys es → e ∈ es →
  redis (foldl publish_entry w es) !! store_key e
  = if decide (hostCheckSum w !! entry_key e = Some (digest e.2))
    then redis w !! store_key e
    else Some (MarshalStrings e.2, week).
Proof.
  unfold collision_free, distinct_keys.
  induction es as [|e' es IH]; intros w e c Hc Hd Hcf Hdk;
    [by intros ?%elem_of_nil|].
  rewrite fmap_cons, NoDup_cons in Hcf, Hdk.
  destruct Hcf as [Hcf1 Hcf], Hdk as [Hdk1 Hdk].
  pose proof (publish_entry_vars w e') as (_ & Hc' & Hd' & _).
  intros [->|Hin]%elem_of_cons; cbn [foldl].
  - rewrite foldl_publish_entry_store_other by done.
    by eapply publish_entry_store.
  - rewrite (IH _ _ c) by (done || congruence).
    assert (entry_key e ≠ entry_key e') as Hk.
    { intros Heq. apply Hcf1. rewrite <-Heq. by apply list_elem_of_fmap_2. }
    assert (store_key e ≠ store_key e') as Hs.
    { intros Heq. apply Hdk1. rewrite <-Heq. by apply list_elem_of_fmap_2. }
    by rewrite publish_entry_other, publish_entry_store_other.
Qed.

(** C36. Two pools and services with the same checksum key: when their
    host lists are equal, the publication of the first makes the package
    skip the second, whose list is then stored under no key of its own. *)
Theorem publish_entry_collision w e1 e2 :
  entry_key e1 = entry_key e2 → e1.2 = e2.2 →
  publish_entry (publish_entry w e1) e2 = publish_entry w e1.
Proof.
  intros Hk Hl. rewrite (publish_entry_spec (publish_entry w e1) e2).
  by rewrite <-Hk, <-Hl, publish_entry_recorded, decide_True.
Qed.

(** ** The order of the publications *)

(** Publications under different keys commute. *)
Lemma publish_entry_comm w e1 e2 :
  entry_key e1 ≠ entry_key e2 → store_key e1 ≠ store_key e2 →
  publish_entry (publish_entry w e1) e2 = publish_entry (publish_entry w e2) e1.
Proof.
  intros Hk Hs. unfold store_key in Hs.
  rewrite !publish_entry_spec, !SetHostListToRedis_cases.
  destruct w as [api [c|] sums store [down|] cl lg]; cbn;
    repeat (case_decide; cbn in *; rewrite ?lookup_insert_ne in * by done);
    try congruence; unfold set_hostCheckSum, set_redis; cbn; f_equal;
    by apply insert_insert_ne.
Qed.

Lemma foldl_publish_entry_perm es1 es2 :
  es1 ≡ₚ es2 → collision_free es1 → distinct_keys es1 →
  ∀ w, foldl publish_entry w es1 = foldl publish_entry w es2.
Proof.
  unfold collision_free, distinct_keys.
  induction 1 as [|e es1 es2 Hp IH|e1 e2 es|es1 es2 es3 Hp1 IH1 Hp2 IH2];
    intros Hc Hd w.
  - done.
  - rewrite !fmap_cons in *. apply NoDup_cons in Hc as [_ Hc], Hd as [_ Hd].
    by apply IH.
  - rewrite !fmap_cons in *.
    apply NoDup_cons in Hc as [Hc _], Hd as [Hd _].
    cbn [foldl]. rewrite (publish_entry_comm w e1 e2); [done| |].
    + intros Heq. apply Hc. rewrite Heq. left.
    + intros Heq. apply Hd. rewrite Heq. left.
  - rewrite IH1 by done. apply IH2; by rewrite <-Hp1.
Qed.

(** With a collision the order decides: of two entries that share a
    checksum key and differ in their lists of well-formed hosts, the one
    published last is the one recorded, so the two orders leave different
    digests. *)
Theorem publish_entry_order w e1 e2 :
  entry_key e1 = entry_key e2 → e1.2 ≠ e2.2 →
  Forall Valid e1.2 → Forall Valid e2.2 →
  hostCheckSum (foldl publish_entry w [e1; e2])
  ≠ hostCheckSum (foldl publish_entry w [e2; e1]).
Proof.
  intros Hk Hne H1 H2 Heq. apply (f_equal (.!! entry_key e1)) in Heq.
  cbn in Heq. rewrite publish_entry_recorded in Heq. rewrite Hk in Heq.
  rewrite publish_entry_recorded in Heq. simplify_eq.
  by apply Hne, digest_inj.
Qed.

End publish_facts.

(** ** [SyncAllHostList] *)

Section sync_facts.
Context `{E : Env} `{!EnvLaws E}.
Implicit Types (w : World) (l : list object).

Lemma equiv_fields w1 w2 :
  w1 ≡ w2 →
  dockerAPI w1 = dockerAPI w2 ∧ redisClient w1 = redisClient w2
  ∧ hostCheckSum w1 = hostCheckSum w2 ∧ redis w1 = redis w2
  ∧ redisDown w1 = redisDown w2 ∧ closed w1 = closed w2.
Proof. unfold equiv, World_equiv, unlog. intros [=]. done. Qed.

Lemma elem_of_entries lst pool service hs :
  (pool, service, hs) ∈ entries lst
  ↔ ∃ lst1, lst !! pool = Some lst1 ∧ lst1 !! service = Some hs.
Proof.
  unfold entries. rewrite list_elem_of_bind. split.
  - intros ([p lst1] & Hin & Hp). apply list_elem_of_fmap in Hin as ([s h] & [=] & Hs).
    simplify_eq. rewrite range_perm in Hp, Hs.
    apply elem_of_map_to_list in Hp, Hs. eauto.
  - intros (lst1 & Hp & Hs). exists (pool, lst1). split.
    + apply list_elem_of_fmap. exists (service, hs). split; [done|].
      rewrite range_perm. by apply elem_of_map_to_list.
    + rewrite range_perm. by apply elem_of_map_to_list.
Qed.

(** The entries of the grouping are the non-empty host lists of the
    containers. *)
Lemma elem_of_entries_grouped l pool service hs :
  (pool, service, hs) ∈ entries (foldl group_item ∅ l)
  ↔ hs = grouped l pool service ∧ hs ≠ [].
Proof.
  rewrite elem_of_entries, <-hosts_at_grouped. unfold hosts_at. split.
  - intros (lst1 & Hp & Hs). rewrite Hp. cbn. rewrite Hs. cbn. split; [done|].
    by eapply (foldl_group_item_no_empty l ∅ no_empty_empty).
  - intros [-> Hne].
    destruct (foldl group_item ∅ l !! pool) as [lst1|]; [|done]. cbn in *.
    destruct (lst1 !! service) as [hs|] eqn:Hs; [|done]. eauto.
Qed.

(** What a synchronisation does, up to the log: it publishes the entries of
    the grouping one after the other. *)
Lemma SyncAllHostList_flat w l :
  answers w l →
  ∃ w', SyncAllHostList w = (None, w')
        ∧ w' ≡ foldl publish_entry w (entries (foldl group_item ∅ l)).
Proof.
  intros (body & Hget & Hun). unfold SyncAllHostList. rewrite Hget, Hun.
  eexists. split; [done|]. apply foldl_publish_pool_flat.
Qed.

(** [SyncAllHostList] returns an error, and leaves the world as it was,
    exactly when the request to the Docker API or the decoding of its answer
    fails; a failure to store a list is not an error. *)
Theorem SyncAllHostList_errors w :
  match SyncAllHostList w with
  | (Some err, w') =>
      w' = w
      ∧ (Get (dockerAPI w +:+ "/containers/json") = inl err
         ∨ ∃ body, Get (dockerAPI w +:+ "/containers/json") = inr body
                   ∧ UnmarshalContainers body = inl err)
  | (None, _) => ∃ l, answers w l
  end.
Proof.
  unfold SyncAllHostList, answers.
  destruct (Get _) as [err|body]; [by auto|].
  destruct (UnmarshalContainers body) as [err|l] eqn:Hun; [by eauto|by eauto].
Qed.

(** After a synchronisation the digest recorded for every pool and
    service that has hosts is the digest of its host list, provided no two
    of them share a checksum key. *)
Theorem SyncAllHostList_records w w' l pool service :
  answers w l →
  collision_free (entries (foldl group_item ∅ l)) →
  SyncAllHostList w = (None, w') →
  grouped l pool service ≠ [] →
  hostCheckSum w' !! sum_key pool service
  = Some (digest (grouped l pool service)).
Proof.
  intros Hans Hcf Hsync Hne.
  destruct (SyncAllHostList_flat w l Hans) as (w1 & Hw1 & Heq).
  rewrite Hsync in Hw1. simplify_eq.
  apply equiv_fields in Heq as (_&_& -> &_).
  by apply (foldl_publish_entry_recorded _ _ (pool, service, _)),
    elem_of_entries_grouped.
Qed.

(** C11. The checksum gate: a synchronisation stores the host list of a
    pool and service if and only if its digest differs from the digest
    recorded for them; the list stored is the encoded host list, with an
    expiry of seven days. *)
Theorem SyncAllHostList_gate w w' l c pool service :
  answers w l →
  redisClient w = Some c → redisDown w = None →
  collision_free (entries (foldl group_item ∅ l)) →
  distinct_keys (entries (foldl group_item ∅ l)) →
  SyncAllHostList w = (None, w') →
  grouped l pool service ≠ [] →
  redis w' !! redis_key pool service
  = if decide (hostCheckSum w !! sum_key pool service
               = Some (digest (grouped l pool service)))
    then redis w !! redis_key pool service
    else Some (MarshalStrings (grouped l pool service), week).
Proof.
  intros Hans Hc Hd Hcf Hdk Hsync Hne.
  destruct (SyncAllHostList_flat w l Hans) as (w1 & Hw1 & Heq).
  rewrite Hsync in Hw1. simplify_eq.
  apply equiv_fields in Heq as (_&_&_& -> &_).
  by apply (foldl_publish_entry_store _ _ (pool, service, _) c),
    elem_of_entries_grouped.
Qed.

(** A world in which every entry is recorded is a fixed point. *)
Lemma synced_fixed w l :
  collision_free (entries (foldl group_item ∅ l)) →
  let es := entries (foldl group_item ∅ l) in
  ∀ w1, hostCheckSum w1 = hostCheckSum (foldl publish_entry w es) →
        foldl publish_entry w1 es = w1.
Proof.
  intros Hcf es w1 Hsum. apply foldl_publish_entry_fixed. intros e He.
  rewrite Hsum. by apply foldl_publish_entry_recorded.
Qed.

(** A pool whose digests are all recorded is only logged. *)
Lemma foldl_publish_service_fixed pool (xs : list (string * list string)) :
  ∀ w n,
  (∀ service hs, (service, hs) ∈ xs →
     hostCheckSum w !! sum_key pool service = Some (digest hs)) →
  foldl (publish_service pool) (w, n) xs = (w, n).
Proof.
  induction xs as [|[service hs] xs IH]; intros w n Hrec; [done|]. cbn [foldl].
  rewrite publish_service_spec, decide_True by (apply Hrec; left).
  apply IH. intros ?? Hin. apply Hrec. by right.
Qed.

Lemma foldl_publish_pool_fixed ps : ∀ w,
  (∀ pool lst1 service hs, (pool, lst1) ∈ ps → lst1 !! service = Some hs →
     hostCheckSum w !! sum_key pool service = Some (digest hs)) →
  foldl publish_pool w ps = foldl log_unchanged w ps.
Proof.
  induction ps as [|[pool lst1] ps IH]; intros w Hrec; [done|]. cbn [foldl].
  assert (publish_pool w (pool, lst1) = log_unchanged w (pool, lst1)) as ->.
  { unfold publish_pool. rewrite foldl_publish_service_fixed; [done|].
    intros service hs Hin. apply (Hrec pool lst1); [left|].
    rewrite range_perm in Hin. by apply elem_of_map_to_list. }
  apply IH. intros pool' lst1' service hs Hin. apply Hrec. by right.
Qed.

(** C12. Idempotent publication: a second synchronisation against the same
    containers stores nothing and records nothing: it only writes, for every
    pool, a line of the log that says that nothing has changed. *)
Theorem SyncAllHostList_idempotent w w1 l :
  answers w l →
  collision_free (entries (foldl group_item ∅ l)) →
  SyncAllHostList w = (None, w1) →
  SyncAllHostList w1 = (None, quiet w1 (foldl group_item ∅ l)).
Proof.
  intros Hans Hcf Hsync.
  destruct (SyncAllHostList_flat w l Hans) as (w1' & Hw1 & Heq).
  rewrite Hsync in Hw1. injection Hw1 as <-.
  pose proof (equiv_fields _ _ Heq) as (Hapi &_& Hsum &_).
  pose proof (foldl_publish_entry_vars (entries (foldl group_item ∅ l)) w)
    as (Hapi' & _).
  destruct Hans as (body & Hget & Hun).
  unfold SyncAllHostList. rewrite Hapi, Hapi', Hget, Hun. f_equal.
  apply foldl_publish_pool_fixed. intros pool lst1 service hs Hin Hs.
  rewrite Hsum.
  apply (foldl_publish_entry_recorded _ _ (pool, service, hs)); [done|].
  apply elem_of_entries. exists lst1. split; [|done].
  rewrite range_perm in Hin. by apply elem_of_map_to_list.
Qed.

(** A list that could not be stored is never stored: when the Redis
    server fails during a synchronisation, the digests are recorded all the
    same, so that once the server answers again a synchronisation against the
    same containers stores nothing. *)
Theorem SyncAllHostList_failed_write_not_retried w w1 l err :
  answers w l →
  collision_free (entries (foldl group_item ∅ l)) →
  redisDown w = Some err →
  SyncAllHostList w = (None, w1) →
  ∃ w2, SyncAllHostList (set_redisDown None w1) = (None, w2)
        ∧ redis w2 = redis w
        ∧ redisDown w2 = None.
Proof.
  intros Hans Hcf Hdown Hsync.
  destruct (SyncAllHostList_flat w l Hans) as (w1' & Hw1 & Heq).
  rewrite Hsync in Hw1. injection Hw1 as <-.
  pose proof (equiv_fields _ _ Heq) as (Hapi &_& Hsum & Hredis &_).
  pose proof (foldl_publish_entry_vars (entries (foldl group_item ∅ l)) w)
    as (Hapi' & _).
  destruct (SyncAllHostList_flat (set_redisDown None w1) l) as (w2 & Hw2 & Heq2).
  { unfold answers. cbn. by rewrite Hapi, Hapi'. }
  exists w2. split; [done|].
  rewrite (synced_fixed w l) in Heq2 by done.
  apply equiv_fields in Heq2 as (_&_&_& -> & -> &_). cbn.
  rewrite Hredis. split; [|done].
  apply foldl_publish_entry_no_store. right. by rewrite Hdown.
Qed.

(** What a synchronisation publishes, a reader gets: after a
    synchronisation in front of a server that answers, [GetHostListFromRedis]
    returns for every pool and service that has hosts the hosts of their
    containers, in the order of the containers.  The containers are a
    decoded document, so their hosts are well-formed UTF-8 and come back
    from the encoder as they were.  The world before has to hold the list
    wherever it records its digest, as it does in a fresh process and after
    every publication that succeeded. *)
Theorem SyncAllHostList_publishes w w' l c pool service :
  answers w l → Forall decoded l →
  redisClient w = Some c → redisDown w = None →
  collision_free (entries (foldl group_item ∅ l)) →
  distinct_keys (entries (foldl group_item ∅ l)) →
  (hostCheckSum w !! sum_key pool service = Some (digest (grouped l pool service)) →
   redis w !! redis_key pool service
   = Some (MarshalStrings (grouped l pool service), week)) →
  SyncAllHostList w = (None, w') →
  grouped l pool service ≠ [] →
  (GetHostListFromRedis pool service w').1 = (grouped l pool service, None).
Proof.
  intros Hans Hl Hc Hd Hcf Hdk Hrec Hsync Hne.
  pose proof (grouped_valid l pool service Hl) as Hv.
  destruct (SyncAllHostList_flat w l Hans) as (w1 & Hw1 & Heq).
  rewrite Hsync in Hw1. simplify_eq.
  apply equiv_fields in Heq as (_ & Hc' & _ & Hr & Hd' & _).
  pose proof (foldl_publish_entry_vars (entries (foldl group_item ∅ l)) w)
    as (_ & Hc1 & Hd1 & _).
  unfold GetHostListFromRedis, redis_Get.
  rewrite Hc', Hd', Hr, Hc1, Hd1, Hc, Hd.
  change (redis_key pool service)
    with (store_key (pool, service, grouped l pool service)).
  rewrite (foldl_publish_entry_store _ _ _ c)
    by (done || by apply elem_of_entries_grouped).
  cbn [fst snd entry_key]. case_decide as Hsum.
  - unfold store_key. cbn [fst snd]. rewrite (Hrec Hsum). cbn.
    by apply unmarshal_marshal.
  - cbn. by apply unmarshal_marshal.
Qed.

(** A pool and service with hosts have a container. *)
Lemma grouped_classified l pool service :
  grouped l pool service ≠ [] →
  ∃ item, item ∈ l ∧ classify item = Some (pool, service).
Proof.
  unfold grouped. intros Hne.
  destruct (filter _ l) as [|item its] eqn:Hf; [done|].
  assert (item ∈ filter (λ item, classify item = Some (pool, service)) l) as Hin
    by (rewrite Hf; left).
  apply list_elem_of_filter in Hin as [??]. eauto.
Qed.

(** C39. A list is never withdrawn: when no container of a pool and service
    publishes a port any more, a synchronisation leaves what the server
    holds for them as it is, so the last list stays until it expires.  The
    pools are taken to hold no colon, which makes the Redis keys distinct. *)
Theorem SyncAllHostList_keeps_vanished w w' l pool service :
  answers w l →
  SyncAllHostList w = (None, w') →
  grouped l pool service = [] →
  x3a ∉ bytes_of_string pool →
  (∀ item p s, item ∈ l → classify item = Some (p, s) → x3a ∉ bytes_of_string p) →
  redis w' !! redis_key pool service = redis w !! redis_key pool service.
Proof.
  intros Hans Hsync Hgone Hpool Hl.
  destruct (SyncAllHostList_flat w l Hans) as (w1 & Hw1 & Heq).
  rewrite Hsync in Hw1. simplify_eq.
  apply equiv_fields in Heq as (_&_&_& -> &_).
  apply foldl_publish_entry_store_other.
  intros ([[p s] hs] & Hk & [-> Hne]%elem_of_entries_grouped)%list_elem_of_fmap.
  destruct (grouped_classified l p s Hne) as (item & Hin & Hc).
  apply redis_key_inj in Hk as [-> ->]; [done|done|by eapply Hl].
Qed.

End sync_facts.

(** ** The order in which the maps are visited *)

Section order_facts.
Context `{E : Env} `{!EnvLaws E}.
Implicit Types (w : World) (l : list object).

(** Replacing the order of visit keeps the laws. *)
Lemma with_range_laws rg :
  (∀ A (m : gmap string A), rg A m ≡ₚ map_to_list m) →
  EnvLaws (with_range rg E).
Proof.
  intros Hrg. split; cbn.
  - apply unmarshal_marshal.
  - apply marshal_nonempty.
  - apply Hrg.
Qed.

Lemma bind_perm_ext {A B} (f g : A → list B) (xs : list A) :
  (∀ x, f x ≡ₚ g x) → xs ≫= f ≡ₚ xs ≫= g.
Proof.
  intros Hfg. induction xs as [|x xs IH]; [done|].
  cbn. by rewrite Hfg, IH.
Qed.

(** The entries are the same whatever the order of visit, up to their
    order. *)
Lemma entries_with_range rg lst :
  (∀ A (m : gmap string A), rg A m ≡ₚ map_to_list m) →
  entries (E := with_range rg E) lst ≡ₚ entries (E := E) lst.
Proof.
  intros Hrg. unfold entries. cbn [range with_range].
  rewrite Hrg, <-(range_perm _ lst). apply bind_perm_ext.
  intros [pool lst1]. by rewrite Hrg, <-(range_perm _ lst1).
Qed.

(** C32. The result of a synchronisation does not depend on the order in
    which Go visits the maps: as long as no two pool and service pairs share
    a checksum key or a Redis key, a synchronisation under any other order
    of visit leaves the same digests and the same content of the server; the
    worlds differ in the order of the lines of the log only. *)
Theorem SyncAllHostList_order_independent rg w l :
  (∀ A (m : gmap string A), rg A m ≡ₚ map_to_list m) →
  answers w l →
  collision_free (entries (foldl group_item ∅ l)) →
  distinct_keys (entries (foldl group_item ∅ l)) →
  (SyncAllHostList (E := with_range rg E) w).2 ≡ (SyncAllHostList w).2.
Proof.
  intros Hrg Hl Hc Hd.
  pose proof (with_range_laws rg Hrg) as Hlaws.
  destruct (SyncAllHostList_flat (E := with_range rg E) w l Hl) as (w1 & -> & ->).
  destruct (SyncAllHostList_flat w l Hl) as (w2 & -> & ->).
  cbn [snd].
  change (publish_entry (E := with_range rg E)) with (publish_entry (E := E)).
  symmetry. erewrite foldl_publish_entry_perm; [done| |done..].
  symmetry. by apply entries_with_range.
Qed.

End order_facts.

(** ** The executable environment is lawful *)

#[export] Instance RefEnv_laws registry : EnvLaws (RefEnv.env registry).
Proof.
  split.
  - intros l Hl. unfold UnmarshalStrings, MarshalStrings, RefEnv.env.
    unfold RefEnv.unmarshal, RefEnv.marshal.
    rewrite bytes_of_string_of_bytes. by apply encoding_json.Unmarshal_Marshal_valid.
  - intros l. change (RefEnv.marshal l ≠ ""). unfold RefEnv.marshal.
    intros H%(f_equal bytes_of_string).
    rewrite bytes_of_string_of_bytes in H.
    by apply (encoding_json.Marshal_nonempty l).
  - done.
Qed.

(** In front of the executable environment the containers are decoded
    documents. *)
Lemma answers_decoded server w l :
  answers (E := RefEnv.env server) w l → Forall decoded l.
Proof.
  intros (body & _ & Hl). cbn in Hl. apply (UnmarshalMaps_decoded body).
  by destruct (UnmarshalMaps body) as [[]|]; simplify_eq/=.
Qed.

(** From the answer of the Docker API to the reader, with [encoding/json]
    as the library has it on both sides.  Whatever bytes the Docker API
    answers, when [json.Unmarshal] makes containers of them and the Redis
    server answers, after a synchronisation in a process that has recorded
    nothing for a pool and service [GetHostListFromRedis] returns the hosts
    of their containers, in the order of the containers and without an
    error: the decoder leaves well-formed strings in the containers,
    [fmt.Sprint] builds well-formed hosts from them, and the encoder and
    the decoder of the lists give these back as they were. *)
Lemma SyncAllHostList_reads_body server w body l c pool service :
  server (dockerAPI w +:+ "/containers/json") = inr body →
  UnmarshalMaps body = Some (inr l) →
  redisClient w = Some c → redisDown w = None →
  collision_free (entries (E := RefEnv.env server) (foldl group_item ∅ l)) →
  distinct_keys (entries (E := RefEnv.env server) (foldl group_item ∅ l)) →
  hostCheckSum w !! sum_key pool service = None →
  grouped l pool service ≠ [] →
  (GetHostListFromRedis (E := RefEnv.env server) pool service
     (SyncAllHostList (E := RefEnv.env server) w).2).1
  = (grouped l pool service, None).
Proof.
  intros Hget Hl Hc Hd Hcf Hdk Hsum Hne.
  assert (answers (E := RefEnv.env server) w l) as Hans.
  { exists body. split; [done|]. cbn. by rewrite Hl. }
  destruct (SyncAllHostList_flat (E := RefEnv.env server) w l Hans)
    as (w1 & Hw1 & _).
  eapply (SyncAllHostList_publishes (E := RefEnv.env server) w _ l c);
    [done|by eapply answers_decoded|done..|by rewrite Hsum|by rewrite Hw1|done].
Qed.

(** C24. What was stored is read back.  With [encoding/json] as the
    library has it, after [SetHostListToRedis] has stored a list without an
    error, [GetHostListFromRedis] for the same pool and service returns
    that list and no error, whatever characters the strings hold, as long
    as they are well-formed UTF-8, which the hosts of decoded containers
    are. *)
Theorem stored_list_read_back registry pool name l w w' :
  Forall Valid l →
  SetHostListToRedis (E := RefEnv.env registry) pool name l w = (None, w') →
  (GetHostListFromRedis (E := RefEnv.env registry) pool name w').1 = (l, None).
Proof.
  apply (GetHostListFromRedis_SetHostListToRedis (E := RefEnv.env registry)).
Qed.

(** A Docker API that writes the containers [l] answers [l]. *)
Lemma answers_written server w l :
  server (dockerAPI w +:+ "/containers/json") = inr (RefEnv.written l) →
  writable l → answers (E := RefEnv.env server) w l.
Proof.
  intros Hget Hl. exists (RefEnv.written l). split; [done|].
  change (default (inl RefEnv.outside) (UnmarshalMaps (RefEnv.written l))
          = inr l).
  by rewrite UnmarshalMaps_written.
Qed.

(** C25. What a server writes is read.  The text of the containers of a
    Docker API, written without spaces as [encoding/json] writes strings
    and integers, is read by [json.Unmarshal] into a
    [[]map[string]interface{}] as these containers: every key with its
    value, the fields in their order, the strings byte for byte and the
    numbers with their sign.  This holds for all containers whose strings
    and keys are well-formed UTF-8, whose maps hold a key once, whose
    numbers are integers of at most [2^53] in absolute value and whose
    arrays and maps are nested at most 10000 deep. *)
Theorem containers_read_back l :
  writable l → UnmarshalMaps (RefEnv.written l) = Some (inr l).
Proof. apply UnmarshalMaps_written. Qed.

(** ** Closed instances *)

Section witnesses.
Import RefEnv.

Lemma answers_swarm w : answers (E := docker) w swarm.
Proof. by eexists. Qed.

Lemma host_of_port_witness :
  host_of (container "web" "[pool==blue]" "" "10.0.0.1" 8080)
  = Some "10.0.0.1:8080".
Proof.
  by eapply (host_of_port _ _ [] "10.0.0.1" 8080); [reflexivity..|lia].
Defined.

(** The code asks for the two fields and not for their types: a binding
    with no address and a number that is no port gives a host all the
    same, the number with an exponent. *)
Lemma host_of_untyped :
  host_of [ ("Ports", JArr [ JObj [ ("IP", JNull);
                                    ("PublicPort", JNum 1000000) ] ]) ]
  = Some "<nil>:1e+06".
Proof. reflexivity. Qed.

(** A map is printed in the order of its keys. *)
Lemma Sprint_map_sorted :
  Sprint (JObj [ ("b", JNum 1234567); ("a", JArr [ JStr "x"; JBool true ]) ])
  = "map[a:[x true] b:1.234567e+06]".
Proof. reflexivity. Qed.

(** The query of [GetHostListFromDockerAPI] for the web servers of the
    pool [blue]: the filters as [json.Marshal] writes them, escaped by
    [url.QueryEscape]. *)
Lemma filters_query :
  QueryEscape (Env := docker)
    (MarshalFilters (Env := docker) (filters "blue" "web"))
  = "%7B%22label%22%3A%5B%22com.docker.swarm.constraints%3D%5B%5C%22"
    +:+ "pool%3D%3Dblue%5C%22%5D%22%2C%22wxhost-service-name%3Dweb%22%5D%7D".
Proof. vm_compute. reflexivity. Qed.

(** The digest of a list is its encoding in hexadecimal digits, two for
    every byte: here those of the bracket, the quote and [10.0.0.1:8080]. *)
Lemma digest_hex :
  digest (E := docker) ["10.0.0.1:8080"]
  = "5b2231302e302e302e313a38303830225d".
Proof. vm_compute. reflexivity. Qed.

(** A server that holds, for a pool and service, an array whose second
    element is a number: the reader is given a list, with the empty string
    in the place of the number, and an error. *)
Lemma GetHostListFromRedis_partial :
  let val := string_of_bytes
               ("["%byte :: encoding_json.appendString (bytes_of_string "a")
                ++ bytes_of_string ",1]") in
  (GetHostListFromRedis (E := docker) "blue" "web"
     (SetRedisHost "127.0.0.1:6379"
        (init {[ redis_key "blue" "web" := (val, week) ]}))).1
  = (["a"; ""],
     Some "json: cannot unmarshal number into Go value of type string").
Proof. vm_compute. reflexivity. Qed.

Lemma FindPool_tagged_witness : FindPool "[pool==blue_2]" = Some "blue_2".
Proof.
  apply (FindPool_tagged "[" "blue_2" "]"); [| done | |];
    try by_compute.
  by intros b [= <-].
Defined.

Lemma redis_key_inj_witness :
  ("blue" : string) = "blue" ∧ ("web" : string) = "web".
Proof.
  apply (redis_key_inj "blue" "web" "blue" "web");
    [by_compute..|reflexivity].
Defined.

Lemma GetHostListFromRedis_SetHostListToRedis_witness :
  (GetHostListFromRedis (E := docker) "blue" "web"
     (SetHostListToRedis (E := docker) "blue" "web" ["10.0.0.1:8080"] ready).2).1
  = (["10.0.0.1:8080"], None).
Proof.
  apply (GetHostListFromRedis_SetHostListToRedis (E := docker) _ _ _ ready);
    [by_compute|vm_compute; reflexivity].
Defined.

(** A list with a quote, a backslash, a line feed, a character escaped for
    HTML and characters outside ASCII. *)
Lemma stored_list_read_back_witness :
  let l := [ "10.0.0.1:8080";
             string_of_bytes [x22; x5c; x0a; "<"%byte];
             string_of_bytes (EncodeRune 233 ++ EncodeRune 128512) ] in
  (GetHostListFromRedis (E := docker) "blue" "web"
     (SetHostListToRedis (E := docker) "blue" "web" l ready).2).1
  = (l, None).
Proof.
  apply (stored_list_read_back _ _ _ _ ready); [by_compute|].
  vm_compute. reflexivity.
Defined.

(** A string that is not well formed is not read back: the byte [ff] comes
    back as U+FFFD. *)
Lemma stray_byte_not_read_back :
  (GetHostListFromRedis (E := docker) "blue" "web"
     (SetHostListToRedis (E := docker) "blue" "web"
        [string_of_bytes [xff]] ready).2).1
  = ([string_of_bytes (EncodeRune RuneError)], None).
Proof. vm_compute. reflexivity. Qed.

Lemma GetHostListFromDockerAPI_spec_witness :
  GetHostListFromDockerAPI (E := docker) "blue" "web" ready
  = (inr (omap host_of swarm),
     (SetHostListToRedis (E := docker) "blue" "web" (omap host_of swarm) ready).2).
Proof.
  eapply (GetHostListFromDockerAPI_spec (E := docker)); [done | reflexivity..].
Defined.

Lemma publish_entry_collision_witness :
  publish_entry (E := docker) (publish_entry (E := docker) ready e1) e2
  = publish_entry (E := docker) ready e1
  ∧ redis (publish_entry (E := docker) ready e1) !! store_key e2 = None.
Proof.
  split; [|vm_compute; reflexivity].
  apply (publish_entry_collision (E := docker)); reflexivity.
Defined.

Lemma collision_free_swarm :
  collision_free (entries (E := docker) (foldl group_item ∅ swarm)).
Proof. by_compute. Qed.

Lemma distinct_keys_swarm :
  distinct_keys (entries (E := docker) (foldl group_item ∅ swarm)).
Proof. by_compute. Qed.

Lemma SyncAllHostList_gate_witness :
  redis synced !! redis_key "blue" "web"
  = if decide (hostCheckSum ready !! sum_key "blue" "web"
               = Some (digest (E := docker) (grouped swarm "blue" "web")))
    then redis ready !! redis_key "blue" "web"
    else Some (MarshalStrings (Env := docker) (grouped swarm "blue" "web"), week).
Proof.
  eapply (SyncAllHostList_gate (E := docker) ready synced swarm);
    [apply answers_swarm | reflexivity | reflexivity | apply collision_free_swarm
    | apply distinct_keys_swarm | vm_compute; reflexivity | by vm_compute].
Defined.

Lemma SyncAllHostList_idempotent_witness :
  SyncAllHostList (E := docker) synced
  = (None, quiet (E := docker) synced (foldl group_item ∅ swarm)).
Proof.
  apply (SyncAllHostList_idempotent (E := docker) ready synced swarm);
    [apply answers_swarm | apply collision_free_swarm | vm_compute; reflexivity].
Defined.

Lemma SyncAllHostList_failed_write_not_retried_witness :
  ∃ w2, SyncAllHostList (E := docker)
          (set_redisDown None (SyncAllHostList (E := docker) down).2)
        = (None, w2)
        ∧ redis w2 = redis down ∧ redisDown w2 = None.
Proof.
  apply (SyncAllHostList_failed_write_not_retried (E := docker) down _ swarm
           "i/o timeout");
    [apply answers_swarm | apply collision_free_swarm | reflexivity
    | vm_compute; reflexivity].
Defined.

Lemma decoded_swarm : Forall decoded swarm.
Proof. by_compute. Qed.

(** The body of the answer decodes to the containers. *)
Lemma writable_swarm : writable swarm.
Proof. by_compute. Qed.

Lemma UnmarshalMaps_swarm : UnmarshalMaps swarm_body = Some (inr swarm).
Proof. apply UnmarshalMaps_written, writable_swarm. Qed.

Lemma containers_read_back_witness :
  UnmarshalMaps (written swarm) = Some (inr swarm).
Proof. apply (containers_read_back swarm). by_compute. Defined.

(** Outside [writable]: of a map that is written with a key twice the
    key is read once, with the value that came last; an integer above
    [2^53] is not read in this model. *)
Example UnmarshalMaps_not_written :
  ¬ writable [[("a", JNum 1); ("a", JNum 2)]]
  ∧ UnmarshalMaps (written [[("a", JNum 1); ("a", JNum 2)]])
    = Some (inr [[("a", JNum 2)]])
  ∧ ¬ writable [[("a", JNum (2 ^ 53 + 1))]]
  ∧ UnmarshalMaps (written [[("a", JNum (2 ^ 53 + 1))]]) = None
  ∧ UnmarshalMaps (written [[("a", JNum (- 2 ^ 53))]])
    = Some (inr [[("a", JNum (- 2 ^ 53))]]).
Proof. split_and!; try by_compute; by vm_compute. Qed.

Lemma SyncAllHostList_reads_body_witness :
  (GetHostListFromRedis (E := docker) "blue" "web"
     (SyncAllHostList (E := docker) ready).2).1
  = (["10.0.0.1:8080"; "10.0.0.2:8080"], None).
Proof.
  eapply (SyncAllHostList_reads_body (λ _, inr swarm_body) ready swarm_body
            swarm _ "blue" "web");
    [reflexivity | apply UnmarshalMaps_swarm | reflexivity | reflexivity
    | apply collision_free_swarm | apply distinct_keys_swarm
    | reflexivity | by vm_compute].
Defined.

(** What the decoder makes of other bodies: [null] is no container; a
    key that comes twice has the value that came last; an element that is
    no object is an error and nothing is returned; so are a document that
    is no array and a body that is cut short; an element that is [null] is
    a container without keys. *)
Example UnmarshalMaps_bodies :
  let key := encoding_json.appendString (bytes_of_string "a") in
  UnmarshalMaps (bytes_of_string "null") = Some (inr [])
  ∧ UnmarshalMaps ("["%byte :: "{"%byte :: key ++ bytes_of_string ":1,"
                   ++ key ++ bytes_of_string ":[true,-2]},null]")
    = Some (inr [[("a", JArr [JBool true; JNum (-2)])]; []])
  ∧ UnmarshalMaps (bytes_of_string "[{},7,[]]")
    = Some (inl "json: cannot unmarshal number into Go value of type map[string]interface {}")
  ∧ UnmarshalMaps (bytes_of_string "{}")
    = Some (inl "json: cannot unmarshal object into Go value of type []map[string]interface {}")
  ∧ UnmarshalMaps (bytes_of_string "[{}") = Some (inl "unexpected end of JSON input").
Proof. by vm_compute. Qed.

(** An answer of the Docker API that reports an error is a JSON object.
    The status of the answer is not looked at (lines 81-97), so the caller
    is given the type error of the decoder and not the message. *)
Example GetHostListFromDockerAPI_error_answer :
  let body := render (JObj [("message", JStr "page not found")]) in
  (GetHostListFromDockerAPI (E := env (λ _, inr body)) "blue" "web" ready).1
  = inl "json: cannot unmarshal object into Go value of type []map[string]interface {}".
Proof. reflexivity. Qed.

(** A number that is no integer is outside the model. *)
Example UnmarshalMaps_outside :
  let key := encoding_json.appendString (bytes_of_string "a") in
  UnmarshalMaps ("["%byte :: "{"%byte :: key ++ bytes_of_string ":1.5}]") = None.
Proof. reflexivity. Qed.

Lemma SyncAllHostList_publishes_witness :
  (GetHostListFromRedis (E := docker) "blue" "web" synced).1
  = (["10.0.0.1:8080"; "10.0.0.2:8080"], None).
Proof.
  eapply (SyncAllHostList_publishes (E := docker) ready synced swarm _ "blue" "web");
    [apply answers_swarm | apply decoded_swarm | reflexivity | reflexivity
    | apply collision_free_swarm | apply distinct_keys_swarm | by vm_compute
    | vm_compute; reflexivity | by vm_compute].
Defined.

Lemma swarm_pools item p s :
  item ∈ swarm → classify item = Some (p, s) → x3a ∉ bytes_of_string p.
Proof.
  intros Hin Hc.
  assert (Forall (λ item, x3a ∉ bytes_of_string
                            (default "" (fst <$> classify item))) swarm) as Hall
    by by_compute.
  rewrite Forall_forall in Hall. specialize (Hall item Hin).
  by rewrite Hc in Hall.
Qed.

Lemma SyncAllHostList_keeps_vanished_witness :
  redis (SyncAllHostList (E := docker) stale).2 !! redis_key "blue" "idle"
  = Some (MarshalStrings (Env := docker) ["10.0.0.9:80"], week).
Proof.
  rewrite (SyncAllHostList_keeps_vanished (E := docker) stale _ swarm "blue" "idle");
    [vm_compute; reflexivity | apply answers_swarm | vm_compute; reflexivity
    | vm_compute; reflexivity | by_compute
    | apply swarm_pools].
Defined.

Lemma publish_entry_order_witness :
  hostCheckSum (foldl (publish_entry (E := docker)) ready
                  [e1; ("a", "b_c", ["10.0.0.2:80"])])
  ≠ hostCheckSum (foldl (publish_entry (E := docker)) ready
                    [("a", "b_c", ["10.0.0.2:80"]); e1]).
Proof.
  apply (publish_entry_order (E := docker) ready e1 ("a", "b_c", ["10.0.0.2:80"]));
    [reflexivity|discriminate|by_compute..].
Defined.

Lemma SyncAllHostList_order_independent_witness :
  (SyncAllHostList (E := with_range (λ A m, reverse (map_to_list m)) docker)
     ready).2
  ≡ (SyncAllHostList (E := docker) ready).2.
Proof.
  apply (SyncAllHostList_order_independent (E := docker) _ ready swarm).
  - intros A m. apply reverse_Permutation.
  - apply answers_swarm.
  - apply collision_free_swarm.
  - apply distinct_keys_swarm.
Defined.

End witnesses.

End host_sync.
