(* ===== verification/HostSyncRun.v ===== *)
(** * HostSyncRun: the package over time

    The functions of package [host_sync] ([src/unnamed/part_000]) are called
    again and again by the program that uses the package: the addresses are
    set once, and [SyncAllHostList] is called periodically while the
    containers behind the Docker API come and go.  [HostSync] shows what one
    call does; this file shows what sequences of calls do.

    - [rounds] is a sequence of synchronisations, each against the
      containers of its time, and [rounds_in] the same in front of a server
      that fails and recovers.  The containers of a round are a decoded
      document whose pools and services have keys of their own ([within]).
      [track] is the checksum gate on one pool and
      service as a machine of its own; [rounds_track] shows that the package
      refines it, and [rounds_stale] that a list the server refused once is
      never offered again while the containers stay the same.
      [rounds_reader] says what a reader finds after any number of rounds
      in front of a server that answers: the hosts of the last round in
      which the pool and service had any.  [rounds_of_bodies] are the
      rounds in front of the bytes the Docker API answers, decoded and
      encoded as the Go library does, and [bodies_reader] is the same
      theorem for them, with nothing assumed of the bytes but that they
      decode.  In front of a Docker API that writes its containers the
      rounds over the bytes are the rounds over the containers
      ([rounds_written]), by the round trip of the decoder.
    - [Event], [fire] and [run] are the package as a state machine: one event
      per exported function, and the events of the environment (the
      containers change, the Redis server fails and recovers, time passes
      and the keys of the server expire, [elapse]).  Every event
      is a sequence of the primitive writes of [write]
      ([fire_writes]), and the invariants of the state
      ([stored_by_package], [digests_of_lists]) are shown for the writes,
      so that they hold in every state the package reaches. *)

From stdpp Require Import gmap relations.
From S2P Require Import Prelude Utf8 HostSync.
Import host_sync.

(** * Definitions *)

(** ** The registry *)

(** The environment [E] in front of a Docker API that answers the request
    for [url] with [registry url].  The body of the answer stands for the
    request, and decoding it gives the containers. *)
Definition with_registry (registry : string → string + list object)
    (E : Env) : Env :=
  {| Get := λ url, inr (bytes_of_string url);
     UnmarshalContainers := λ body, registry (string_of_bytes body);
     MarshalStrings := MarshalStrings; UnmarshalStrings := UnmarshalStrings;
     MarshalFilters := MarshalFilters; QueryEscape := QueryEscape;
     range := @range E |}.

(** ** Time at the server *)

(** What is left of an entry of the server after [d] nanoseconds: the value
    with that much less time to live, or nothing when its time is up.  A
    duration that is not positive lets no time pass. *)
Definition age (d : Z) (e : string * Z) : option (string * Z) :=
  let rest := e.2 - Z.max 0 d in
  if decide (0 < rest) then Some (e.1, rest) else None.

(** [d] nanoseconds pass: the keys whose time is up are gone. *)
Definition elapse (d : Z) (w : World) : World :=
  set_redis (omap (age d) (redis w)) w.

(** ** The periodic synchronisation *)

Section rounds.
Context `{E : Env}.

(** One synchronisation against the containers [l]. *)
Definition round (w : World) (l : list object) : World :=
  (SyncAllHostList (E := with_registry (λ _, inr l) E) w).2.

(** One synchronisation after the other, against the containers of each
    time. *)
Definition rounds (ls : list (list object)) (w : World) : World :=
  foldl round w ls.

(** The hosts of the last round in which the pool and service had any. *)
Definition last_hosts (ls : list (list object)) (pool service : string)
    : option (list string) :=
  last (filter (λ hs, hs ≠ []) ((λ l, grouped l pool service) <$> ls)).

(** The rounds under the weather: before each round the server fails with
    an error, or answers. *)
Definition round_in (w : World) (r : option string * list object) : World :=
  round (set_redisDown r.1 w) r.2.

Definition rounds_in (rs : list (option string * list object)) (w : World)
    : World :=
  foldl round_in w rs.

(** What the package holds for a pool and service: the list [x.1] in the
    server, or what the server held in [w0] when there is none, and the
    digest of the list [x.2], a list of well-formed hosts, in
    [hostCheckSum]. *)
Definition tracks (w0 w : World) (pool service : string)
    (x : option (list string) * option (list string)) : Prop :=
  redis w !! redis_key pool service
  = from_option (λ hs, Some (MarshalStrings hs, week))
      (redis w0 !! redis_key pool service) x.1
  ∧ hostCheckSum w !! sum_key pool service = digest <$> x.2
  ∧ from_option (Forall Valid) True x.2.

End rounds.

(** ** The rounds over the bytes the Docker API answers *)

(** One synchronisation in front of a Docker API that answers the bytes
    [body], decoded and encoded as [encoding/json] does. *)
Definition round_of_body (w : World) (body : list byte) : World :=
  (SyncAllHostList (E := RefEnv.env (λ _, inr body)) w).2.

(** One synchronisation after the other, each in front of the answer of
    its time. *)
Definition rounds_of_bodies (bodies : list (list byte)) (w : World) : World :=
  foldl round_of_body w bodies.

(** [json.Unmarshal] makes the containers [l] of [body]. *)
Definition decodes (body : list byte) (l : list object) : Prop :=
  UnmarshalMaps body = Some (inr l).

(** The checksum gate on one pool and service, as a machine of its own: the
    list stored and the list recorded, and what a round in which the server
    is [up] and the pool and service have the hosts [g] makes of them.  No
    hosts: nothing happens.  The hosts recorded: nothing happens.  Otherwise
    the hosts are recorded, and stored when the server is up. *)
Definition track (x : option (list string) * option (list string))
    (r : bool * list string) : option (list string) * option (list string) :=
  let '(up, g) := r in
  if decide (g = []) then x
  else if decide (x.2 = Some g) then x
  else (if up then Some g else x.1, Some g).

(** What the rounds show of a pool and service: whether the server was up,
    and the hosts. *)
Definition seen (rs : list (option string * list object))
    (pool service : string) : list (bool * list string) :=
  (λ r, (bool_decide (r.1 = None), grouped r.2 pool service)) <$> rs.

(** The pools and services in [P] have keys of their own. *)
Definition own_keys (P : string * string → Prop) : Prop :=
  ∀ x y, P x → P y →
    sum_key x.1 x.2 = sum_key y.1 y.2 ∨ redis_key x.1 x.2 = redis_key y.1 y.2 →
    x = y.

(** The containers of [l] are a decoded document, and they belong to pools
    and services of [P]. *)
Definition within (P : string * string → Prop) (l : list object) : Prop :=
  Forall decoded l
  ∧ ∀ item ps, item ∈ l → classify item = Some ps → P ps.

(** ** The package as a state machine *)

(** The package and, of its environment, what changes over time: the
    containers the Docker API knows. *)
Record Sys : Type := mkSys {
  registry : string → string + list object;
  world : World;
}.

(** The calls of the exported functions, and the events of the
    environment. *)
Inductive Event : Type :=
  | CallSetDockerAPI (api : string)
  | CallSetRedisHost (host : string)
  | CallGetHostListFromDockerAPI (pool name : string)
  | CallGetHostListFromRedis (pool name : string)
  | CallSetHostListToRedis (pool name : string) (lst : list string)
  | CallSyncAllHostList
  | ContainersChange (answers : string → string + list object)
  | ServerFails (err : string)
  | ServerRecovers
  | TimePasses (d : Z).

(** The options of the client [SetRedisHost] creates (lines 40-46). *)
Definition options_for (host : string) : Options :=
  {| Addr := host; DB := 7; IdleTimeout := 60 * Second;
     WriteTimeout := 10 * Second; ReadTimeout := 10 * Second;
     MaxRetries := 3 |}.

(** The clients created so far: those closed and the current one. *)
Definition clients (w : World) : list Options :=
  closed w ++ option_list (redisClient w).

(** The hosts of the calls of [SetRedisHost], in their order. *)
Definition hosts_set (evs : list Event) : list string :=
  omap (λ ev, match ev with CallSetRedisHost host => Some host | _ => None end) evs.

Section machine.
Context `{E : Env}.

(** What an event makes of the system; the result of a call is dropped. *)
Definition fire (s : Sys) (ev : Event) : Sys :=
  let E' := with_registry (registry s) E in
  match ev with
  | CallSetDockerAPI api => mkSys (registry s) (SetDockerAPI api (world s))
  | CallSetRedisHost host => mkSys (registry s) (SetRedisHost host (world s))
  | CallGetHostListFromDockerAPI pool name =>
      mkSys (registry s)
        (GetHostListFromDockerAPI (E := E') pool name (world s)).2
  | CallGetHostListFromRedis pool name =>
      mkSys (registry s) (GetHostListFromRedis (E := E') pool name (world s)).2
  | CallSetHostListToRedis pool name lst =>
      mkSys (registry s)
        (SetHostListToRedis (E := E') pool name lst (world s)).2
  | CallSyncAllHostList =>
      mkSys (registry s) (SyncAllHostList (E := E') (world s)).2
  | ContainersChange answers => mkSys answers (world s)
  | ServerFails err => mkSys (registry s) (set_redisDown (Some err) (world s))
  | ServerRecovers => mkSys (registry s) (set_redisDown None (world s))
  | TimePasses d => mkSys (registry s) (elapse d (world s))
  end.

Definition run (evs : list Event) (s : Sys) : Sys := foldl fire s evs.

(** The events of the periodic synchronisation: before each call the
    containers are those of its time. *)
Definition polls (ls : list (list object)) : list Event :=
  l ← ls; [ContainersChange (λ _, inr l); CallSyncAllHostList].

(** The program starts: the variables as [init] leaves them, in front of a
    server that holds [store] and a Docker API that does not answer. *)
Definition boot (store : gmap string (string * Z)) : Sys :=
  mkSys (λ _, inl "connection refused") (init store).

(** The primitive writes: the assignments to the package variables
    (lines 32, 47 and 264), the write to the server (line 156), a line of
    the log, the server failing or recovering, and time passing. *)
Inductive write : World → World → Prop :=
  | write_api api w : write w (set_dockerAPI api w)
  | write_client host w : write w (SetRedisHost host w)
  | write_store pool name lst w :
      is_Some (redisClient w) → redisDown w = None →
      write w (set_redis (<[redis_key pool name := (MarshalStrings lst, week)]>
                            (redis w)) w)
  | write_digest pool service hs w :
      hs ≠ [] →
      write w (set_hostCheckSum
                 (<[sum_key pool service := digest hs]> (hostCheckSum w)) w)
  | write_log e w : write w (Println e w)
  | write_server d w : write w (set_redisDown d w)
  | write_elapse d w : write w (elapse d w).

(** An entry the server held at the start, with no more time to live than
    it had. *)
Definition from_start (store : gmap string (string * Z)) (k v : string)
    (t : Z) : Prop :=
  ∃ t0, store !! k = Some (v, t0) ∧ t ≤ t0.

(** Everything the server holds was there at the start or was written by
    the package: a list of strings, under a key of the package, with at
    most seven days to live. *)
Definition stored_by_package (store : gmap string (string * Z)) (w : World)
    : Prop :=
  ∀ k v t, redis w !! k = Some (v, t) →
    from_start store k v t
    ∨ (0 < t ≤ week ∧ ∃ pool name lst, k = redis_key pool name
                                       ∧ v = MarshalStrings lst).

(** Every digest recorded is the digest of a host list that is not empty,
    under the checksum key of a pool and service. *)
Definition digests_of_lists (w : World) : Prop :=
  ∀ k d, hostCheckSum w !! k = Some d →
    ∃ pool service hs, k = sum_key pool service ∧ d = digest hs ∧ hs ≠ [].

(** Without a client nothing has been stored. *)
Definition stores_need_client (store : gmap string (string * Z)) (w : World)
    : Prop :=
  redisClient w = None → ∀ k v t, redis w !! k = Some (v, t) →
    from_start store k v t.

End machine.

(** ** Two days of a fleet, for the examples *)

Module Fleet.
Import RefEnv.

(** The containers of [RefEnv.swarm], and the day after: the web containers
    are gone and the database has moved. *)
Definition day1 : list object := swarm.
Definition day2 : list object :=
  [ container "db" "[pool==green]" "store" "10.0.0.4" 5432 ].

(** The pools and services of the fleet. *)
Definition pairs : list (string * string) :=
  [ ("blue", "web"); ("green", "store"); ("blue", "idle"); ("green", "cache") ].

Definition known (ps : string * string) : Prop := ps ∈ pairs.

(** A program that sets the addresses, polls on both days, and replaces the
    client in between. *)
Definition session : list Event :=
  [ CallSetDockerAPI "https://docker:2376"; CallSetRedisHost "127.0.0.1:6379";
    ContainersChange (λ _, inr day1); CallSyncAllHostList;
    ServerFails "i/o timeout"; CallSetRedisHost "127.0.0.2:6379";
    ServerRecovers;
    ContainersChange (λ _, inr day2); CallSyncAllHostList;
    CallGetHostListFromRedis "blue" "web" ].

End Fleet.

(** * Lemmas *)

(** ** The registry *)

Section registry_facts.
Context `{E : Env} `{!EnvLaws E}.

#[export] Instance with_registry_laws registry : EnvLaws (with_registry registry E).
Proof.
  split; cbn.
  - apply unmarshal_marshal.
  - apply marshal_nonempty.
  - apply range_perm.
Qed.

Lemma answers_with_registry registry w l :
  registry (dockerAPI w +:+ "/containers/json") = inr l →
  answers (E := with_registry registry E) w l.
Proof.
  intros Hr. eexists. split; [done|]. cbn. by rewrite string_of_bytes_of_string.
Qed.

End registry_facts.

(** ** The entries of a grouping have keys of their own *)

Section entries_facts.
Context `{E : Env} `{!EnvLaws E}.

Lemma NoDup_range {A} (m : gmap string A) : NoDup (range m).
Proof. rewrite range_perm. apply NoDup_map_to_list. Qed.

Lemma elem_of_range {A} (m : gmap string A) k x :
  (k, x) ∈ range m ↔ m !! k = Some x.
Proof. rewrite range_perm. apply elem_of_map_to_list. Qed.

Lemma NoDup_entries lst : NoDup (entries lst).
Proof.
  unfold entries. apply NoDup_bind; [| |apply NoDup_range].
  - intros [p1 m1] [p2 m2] [[p s] hs] Hin1 Hin2
      ([s1 h1] & [= -> -> ->] & _)%list_elem_of_fmap
      ([s2 h2] & [= -> -> ->] & _)%list_elem_of_fmap.
    apply elem_of_range in Hin1, Hin2. by simplify_eq.
  - intros [p m] _. apply NoDup_fmap_2_strong; [|apply NoDup_range].
    intros [s1 h1] [s2 h2] _ _. by intros [= -> ->].
Qed.

Context (P : string * string → Prop) (Hown : own_keys P).

Lemma within_entries l e :
  within P l → e ∈ entries (foldl group_item ∅ l) → P e.1.
Proof.
  destruct e as [[pool service] hs].
  intros [_ Hl] [-> Hne]%elem_of_entries_grouped.
  destruct (grouped_classified l pool service Hne) as (item & Hin & Hc).
  by apply (Hl item).
Qed.

Lemma entries_inj l e1 e2 :
  within P l →
  e1 ∈ entries (foldl group_item ∅ l) → e2 ∈ entries (foldl group_item ∅ l) →
  entry_key e1 = entry_key e2 ∨ store_key e1 = store_key e2 → e1 = e2.
Proof.
  intros Hl Hin1 Hin2 Hk.
  assert (e1.1 = e2.1) as Heq by (apply Hown; eauto using within_entries).
  destruct e1 as [[p1 s1] h1], e2 as [[p2 s2] h2]. cbn in Heq. simplify_eq.
  apply elem_of_entries_grouped in Hin1 as [-> _], Hin2 as [-> _]. done.
Qed.

Lemma within_collision_free l :
  within P l → collision_free (entries (foldl group_item ∅ l)).
Proof.
  intros Hl. apply NoDup_fmap_2_strong; [|apply NoDup_entries].
  intros e1 e2 Hin1 Hin2 Hk. eapply entries_inj; eauto.
Qed.

Lemma within_distinct_keys l :
  within P l → distinct_keys (entries (foldl group_item ∅ l)).
Proof.
  intros Hl. apply NoDup_fmap_2_strong; [|apply NoDup_entries].
  intros e1 e2 Hin1 Hin2 Hk. eapply entries_inj; eauto.
Qed.

(** A pool and service without hosts share no key with an entry. *)
Lemma within_absent l pool service :
  within P l → P (pool, service) → grouped l pool service = [] →
  (sum_key pool service ∉ (entry_key <$> entries (foldl group_item ∅ l)))
  ∧ (redis_key pool service ∉ (store_key <$> entries (foldl group_item ∅ l))).
Proof.
  intros Hl HP Hgone.
  assert (∀ e, e ∈ entries (foldl group_item ∅ l) → e.1 ≠ (pool, service)) as Hne.
  { intros [[p s] hs] [-> Hne]%elem_of_entries_grouped [= -> ->]. done. }
  split; intros (e & Hk & Hin)%list_elem_of_fmap; apply (Hne e Hin);
    symmetry; apply Hown; eauto using within_entries.
Qed.

End entries_facts.

(** ** Time at the server *)

Lemma age_Some d e v t :
  age d e = Some (v, t) ↔ v = e.1 ∧ t = e.2 - Z.max 0 d ∧ 0 < t.
Proof.
  unfold age. cbn zeta. case_decide; split.
  - by intros [= <- <-].
  - by intros (-> & -> & _).
  - done.
  - intros (_ & -> & ?). lia.
Qed.

Lemma age_None d e : age d e = None ↔ e.2 ≤ Z.max 0 d.
Proof. unfold age. cbn zeta. case_decide; split; (done || lia). Qed.

(** Time adds up. *)
Lemma age_age d1 d2 e :
  age d1 e ≫= age d2 = age (Z.max 0 d1 + Z.max 0 d2) e.
Proof.
  destruct (age d1 e) as [[v t]|] eqn:H1; cbn.
  - apply age_Some in H1 as (-> & -> & Ht). unfold age. cbn.
    repeat case_decide; try lia; [|done]. do 2 f_equal. lia.
  - apply age_None in H1. symmetry. apply age_None. lia.
Qed.

Lemma lookup_elapse d w k : redis (elapse d w) !! k = redis w !! k ≫= age d.
Proof. apply lookup_omap. Qed.

(** The clock touches nothing but the entries of the server. *)
Lemma elapse_vars d w :
  dockerAPI (elapse d w) = dockerAPI w
  ∧ redisClient (elapse d w) = redisClient w
  ∧ hostCheckSum (elapse d w) = hostCheckSum w
  ∧ redisDown (elapse d w) = redisDown w
  ∧ closed (elapse d w) = closed w
  ∧ log (elapse d w) = log w.
Proof. done. Qed.

(** What the server holds after some time it held before, with more time
    to live. *)
Lemma elapse_held d w k v t :
  redis (elapse d w) !! k = Some (v, t) →
  ∃ t0, redis w !! k = Some (v, t0) ∧ 0 < t ≤ t0.
Proof.
  rewrite lookup_elapse. destruct (redis w !! k) as [[v0 t0]|]; [|done]. cbn.
  intros (-> & -> & Ht)%age_Some. exists t0. cbn in *. split; [done|lia].
Qed.

(** ** The periodic synchronisation *)

Section rounds_facts.
Context `{E : Env} `{!EnvLaws E}.
Implicit Types (w : World) (l : list object) (ls : list (list object)).

(** A round publishes the entries of its containers, up to the log. *)
Lemma round_flat w l :
  round w l ≡ foldl publish_entry w (entries (foldl group_item ∅ l)).
Proof.
  unfold round.
  destruct (SyncAllHostList_flat (E := with_registry (λ _, inr l) E) w l)
    as (w' & -> & Heq); [by apply answers_with_registry|].
  exact Heq.
Qed.

(** A round touches neither the client nor the server's state. *)
Lemma round_vars w l :
  redisClient (round w l) = redisClient w ∧ redisDown (round w l) = redisDown w.
Proof.
  destruct (equiv_fields _ _ (round_flat w l)) as (_ & -> & _ & _ & -> & _).
  by destruct (foldl_publish_entry_vars (entries (foldl group_item ∅ l)) w)
    as (_ & -> & -> & _).
Qed.

Lemma rounds_cons l ls w : rounds (l :: ls) w = rounds ls (round w l).
Proof. done. Qed.

Lemma rounds_vars ls : ∀ w,
  redisClient (rounds ls w) = redisClient w
  ∧ redisDown (rounds ls w) = redisDown w.
Proof.
  induction ls as [|l ls IH]; intros w; [done|]. rewrite rounds_cons.
  destruct (IH (round w l)) as [-> ->]. apply round_vars.
Qed.

Lemma set_redisDown_same w : set_redisDown (redisDown w) w = w.
Proof. by destruct w. Qed.

Lemma rounds_in_cons r rs w : rounds_in (r :: rs) w = rounds_in rs (round_in w r).
Proof. done. Qed.

Lemma round_in_vars w r :
  redisClient (round_in w r) = redisClient w.
Proof. unfold round_in. by destruct (round_vars (set_redisDown r.1 w) r.2) as [-> _]. Qed.

(** Rounds in front of a server that answers. *)
Lemma rounds_rounds_in ls : ∀ w,
  redisDown w = None → rounds ls w = rounds_in ((λ l, (None, l)) <$> ls) w.
Proof.
  induction ls as [|l ls IH]; intros w Hd; [done|].
  rewrite fmap_cons, rounds_cons, rounds_in_cons. unfold round_in. cbn [fst snd].
  replace (set_redisDown None w) with w
    by (by rewrite <-Hd, set_redisDown_same).
  apply IH. by destruct (round_vars w l) as [_ ->].
Qed.

(** The gate records lists of well-formed hosts as long as it is given
    such lists. *)
Lemma track_valid x up g :
  Forall Valid g → from_option (Forall Valid) True x.2 →
  from_option (Forall Valid) True (track x (up, g)).2.
Proof. intros Hg Hx. unfold track. by repeat case_decide. Qed.

Section own.
Context (P : string * string → Prop) (Hown : own_keys P).

(** One round refines one move of the gate. *)
Lemma round_tracks w0 w l c pool service x :
  redisClient w = Some c →
  within P l → P (pool, service) →
  tracks w0 w pool service x →
  tracks w0 (round w l) pool service
    (track x (bool_decide (redisDown w = None), grouped l pool service)).
Proof.
  intros Hc Hl HP (Hst & Hrec & Hval).
  pose proof (grouped_valid l pool service (proj1 Hl)) as Hv.
  destruct (equiv_fields _ _ (round_flat w l)) as (_ & _ & Hsum & Hred & _).
  unfold tracks. apply and_assoc. split; [|by apply track_valid].
  unfold track. rewrite Hsum, Hred. clear Hsum Hred.
  destruct (decide (grouped l pool service = [])) as [Hg|Hg].
  { destruct (within_absent P Hown l pool service Hl HP Hg) as [Hk Hs].
    by rewrite (foldl_publish_entry_other _ _ _ Hk),
      (foldl_publish_entry_store_other _ _ _ Hs). }
  set (e := (pool, service, grouped l pool service)).
  assert (e ∈ entries (foldl group_item ∅ l)) as Hin
    by (by apply elem_of_entries_grouped).
  assert (hostCheckSum (foldl publish_entry w (entries (foldl group_item ∅ l)))
            !! sum_key pool service = Some (digest (grouped l pool service)))
    as Hnew by (apply (foldl_publish_entry_recorded _ _ e);
                eauto using within_collision_free).
  assert (hostCheckSum w !! entry_key e = Some (digest e.2)
          ↔ x.2 = Some (grouped l pool service)) as Hgate.
  { unfold entry_key, e. cbn [fst snd]. rewrite Hrec. revert Hval.
    destruct x.2 as [hs|]; cbn; intros Hhs; [|naive_solver].
    split; intros [= Heq]; [by rewrite (digest_inj _ _ Hhs Hv Heq)|by rewrite Heq]. }
  destruct (redisDown w) as [err|] eqn:Hd.
  - rewrite foldl_publish_entry_no_store by (right; by rewrite Hd).
    rewrite bool_decide_eq_false_2 by done.
    case_decide as Hx; [by rewrite Hx in *|done].
  - rewrite bool_decide_eq_true_2 by done.
    change (redis_key pool service) with (store_key e).
    rewrite (foldl_publish_entry_store _ _ e c)
      by eauto using within_collision_free, within_distinct_keys.
    rewrite (decide_ext _ _ _ _ Hgate).
    case_decide as Hx; [by rewrite Hx in *|done].
Qed.

(** The same over the rounds, whatever the weather. *)
Lemma rounds_in_tracks rs : ∀ w0 w c pool service x,
  redisClient w = Some c →
  Forall (λ r, within P r.2) rs → P (pool, service) →
  tracks w0 w pool service x →
  tracks w0 (rounds_in rs w) pool service
    (foldl track x (seen rs pool service)).
Proof.
  induction rs as [|[d l] rs IH]; intros w0 w c pool service x Hc Hrs HP Hx;
    [done|].
  apply Forall_cons in Hrs as [Hl Hrs]. rewrite rounds_in_cons.
  apply (IH _ _ c); [by rewrite round_in_vars|done..|].
  unfold round_in. cbn [fst snd].
  by apply (round_tracks w0 (set_redisDown d w) l c).
Qed.

End own.

(** With the server up all the time the gate stores what it records: the
    hosts of the last round that had any. *)
Lemma track_up (gs : list (list string)) : ∀ o,
  foldl track (o, o) ((λ g, (true, g)) <$> gs)
  = (from_option Some o (last (filter (λ hs, hs ≠ []) gs)),
     from_option Some o (last (filter (λ hs, hs ≠ []) gs))).
Proof.
  induction gs as [|g gs IH]; intros o; [done|].
  rewrite fmap_cons, filter_cons. cbn [foldl track fst snd].
  destruct (decide (g = [])) as [Hg|Hg].
  - rewrite decide_False by (by intros ?). apply IH.
  - rewrite !(decide_True _ _ Hg).
    assert (from_option Some (Some g)
              (last (filter (λ hs, hs ≠ []) gs))
            = from_option Some o
                (last (g :: filter (λ hs, hs ≠ []) gs))) as <-.
    { destruct (filter _ gs) as [|hs hss]; [done|]. rewrite last_cons_cons.
      destruct (last (hs :: hss)) eqn:Hlast; [done|].
      by apply last_None in Hlast. }
    case_decide as Ho; [rewrite Ho|]; apply IH.
Qed.

(** What rounds in front of a server that answers make of a pool and
    service of which nothing is recorded. *)
Lemma rounds_tracks (P : string * string → Prop) ls w c pool service :
  own_keys P →
  redisClient w = Some c → redisDown w = None →
  Forall (within P) ls → P (pool, service) →
  hostCheckSum w !! sum_key pool service = None →
  tracks w (rounds ls w) pool service
    (last_hosts ls pool service, last_hosts ls pool service).
Proof.
  intros Hown Hc Hd Hls HP Hnone.
  pose proof (rounds_in_tracks P Hown ((λ l, (None, l)) <$> ls) w w c
                pool service (None, None) Hc) as Hh.
  rewrite <-rounds_rounds_in in Hh by done.
  unfold seen in Hh. rewrite <-list_fmap_compose in Hh.
  change ((λ r, (bool_decide (r.1 = None), grouped r.2 pool service))
          ∘ (λ l, (None, l)))
    with ((λ g : list string, (true, g)) ∘ (λ l, grouped l pool service)) in Hh.
  rewrite list_fmap_compose, track_up in Hh.
  fold (last_hosts ls pool service) in Hh.
  destruct (last_hosts ls pool service); apply Hh; [|done|done| |done|done];
  by rewrite Forall_fmap.
Qed.

(** The package refines the checksum gate, failures included: over any
    number of rounds, each against the containers of its time and in front
    of a server that answers or fails, what the server holds for a pool and
    service and what the package has recorded for them are what the machine
    [track] computes from the hosts of the rounds. *)
Theorem rounds_track (P : string * string → Prop) rs w0 w c pool service x :
  own_keys P →
  redisClient w = Some c →
  Forall (λ r, within P r.2) rs → P (pool, service) →
  tracks w0 w pool service x →
  tracks w0 (rounds_in rs w) pool service (foldl track x (seen rs pool service)).
Proof. intros Hown. by apply rounds_in_tracks. Qed.

(** The gate does not move while the hosts are those it has recorded. *)
Lemma track_recorded x1 g up n :
  foldl track (x1, Some g) (replicate n (up, g)) = (x1, Some g).
Proof.
  induction n as [|n IH]; [done|]. cbn [replicate foldl track snd].
  case_decide; [done|]. by rewrite decide_True.
Qed.

(** C31. A list that could not be stored stays unstored: when the server
    fails during the synchronisation that first sees the hosts of a pool
    and service, their digest is recorded all the same, and however often
    the package synchronises after the server is back, as long as the
    containers are the same the server holds for that pool and service
    what it held before the failure. *)
Theorem rounds_stale (P : string * string → Prop) l n w c pool service err :
  own_keys P →
  redisClient w = Some c →
  within P l → P (pool, service) →
  grouped l pool service ≠ [] →
  hostCheckSum w !! sum_key pool service = None →
  let w' := rounds_in ((Some err, l) :: replicate n (None, l)) w in
  redis w' !! redis_key pool service = redis w !! redis_key pool service
  ∧ hostCheckSum w' !! sum_key pool service
    = Some (digest (grouped l pool service)).
Proof.
  intros Hown Hc Hl HP Hg Hnone.
  pose proof (rounds_in_tracks P Hown ((Some err, l) :: replicate n (None, l))
                w w c pool service (None, None) Hc) as Hh.
  unfold seen in Hh. rewrite fmap_cons, fmap_replicate in Hh.
  cbn [foldl track fst snd] in Hh.
  rewrite bool_decide_eq_false_2, bool_decide_eq_true_2 in Hh by done.
  rewrite decide_False, decide_False, track_recorded in Hh by done.
  destruct Hh as (Hr & Hs & _); [|done|done|done].
  apply Forall_cons. split; [done|]. by apply Forall_replicate.
Qed.

(** The list the server holds after the rounds is read without an error. *)
Lemma rounds_read (P : string * string → Prop) ls w c pool service hs :
  own_keys P →
  redisClient w = Some c → redisDown w = None →
  Forall (within P) ls → P (pool, service) →
  hostCheckSum w !! sum_key pool service = None →
  last_hosts ls pool service = Some hs →
  (GetHostListFromRedis pool service (rounds ls w)).1 = (hs, None).
Proof.
  intros Hown Hc Hd Hls HP Hnone Hlast.
  destruct (rounds_tracks P ls w c pool service) as (Hr & _ & Hv); [done..|].
  rewrite Hlast in Hr, Hv. destruct (rounds_vars ls w) as [Hc' Hd'].
  unfold GetHostListFromRedis, redis_Get. rewrite Hc', Hd', Hc, Hd, Hr. cbn.
  by apply unmarshal_marshal.
Qed.

(** C17. What a reader finds after any number of synchronisations: the hosts
    of the last round in which the pool and service had any, in the order
    of the containers of that round.  The package starts with nothing
    recorded for them, the server answers throughout, the containers of
    every round are a decoded document, and the pools and services they
    ever belong to have checksum keys and Redis keys of their own. *)
Theorem rounds_reader (P : string * string → Prop) ls w c pool service hs :
  own_keys P →
  redisClient w = Some c → redisDown w = None →
  Forall (within P) ls → P (pool, service) →
  hostCheckSum w !! sum_key pool service = None →
  last_hosts ls pool service = Some hs →
  (GetHostListFromRedis pool service (rounds ls w)).1 = (hs, None).
Proof. apply rounds_read. Qed.

(** A pool and service that never had hosts are left alone: after any
    number of synchronisations the server holds for them what it held
    before, and nothing is recorded. *)
Theorem rounds_untouched (P : string * string → Prop) ls w c pool service :
  own_keys P →
  redisClient w = Some c → redisDown w = None →
  Forall (within P) ls → P (pool, service) →
  hostCheckSum w !! sum_key pool service = None →
  last_hosts ls pool service = None →
  redis (rounds ls w) !! redis_key pool service = redis w !! redis_key pool service
  ∧ hostCheckSum (rounds ls w) !! sum_key pool service = None.
Proof.
  intros Hown Hc Hd Hls HP Hnone Hlast.
  destruct (rounds_tracks P ls w c pool service) as (Hr & Hs & _); [done..|].
  by rewrite Hlast in Hr, Hs.
Qed.

End rounds_facts.

(** ** The rounds over the bytes the Docker API answers *)

(** A round in front of an answer is a round against the containers that
    are decoded from it. *)
Lemma round_of_body_round server body l w :
  decodes body l → round_of_body w body = round (E := RefEnv.env server) w l.
Proof.
  unfold decodes. intros Hl. unfold round_of_body, round, SyncAllHostList.
  cbn. by rewrite Hl.
Qed.

Lemma rounds_of_bodies_rounds server bodies ls : ∀ w,
  Forall2 decodes bodies ls →
  rounds_of_bodies bodies w = rounds (E := RefEnv.env server) ls w.
Proof.
  intros w Hd. revert w.
  induction Hd as [|body l bodies ls Hl _ IH]; intros w; [done|].
  cbn [rounds_of_bodies rounds foldl].
  rewrite (round_of_body_round server _ l) by done. apply IH.
Qed.

(** The package in front of a Docker API that writes its containers is
    the package against these containers: the rounds over the bytes refine
    the rounds over the containers. *)
Lemma decodes_written ls :
  Forall writable ls → Forall2 decodes (RefEnv.written <$> ls) ls.
Proof.
  induction 1 as [|l ls Hl _ IH]; constructor; [|done].
  by apply UnmarshalMaps_written.
Qed.

Lemma rounds_written server ls w :
  Forall writable ls →
  rounds_of_bodies (RefEnv.written <$> ls) w
  = rounds (E := RefEnv.env server) ls w.
Proof. intros Hls. by apply rounds_of_bodies_rounds, decodes_written. Qed.

(** The containers that are decoded from an answer are a decoded
    document. *)
Lemma decodes_within (P : string * string → Prop) bodies ls :
  Forall2 decodes bodies ls →
  Forall (λ l, ∀ item ps, item ∈ l → classify item = Some ps → P ps) ls →
  Forall (within P) ls.
Proof.
  induction 1 as [|body l bodies ls Hl _ IH]; [constructor|].
  intros [Hp Hps]%Forall_cons. constructor; [|by apply IH].
  split; [by apply (UnmarshalMaps_decoded body)|done].
Qed.

(** What a reader finds after any number of synchronisations, from the
    bytes the Docker API answered. *)
Lemma rounds_of_bodies_reader (P : string * string → Prop) server bodies ls w c
    pool service hs :
  own_keys P →
  redisClient w = Some c → redisDown w = None →
  Forall2 decodes bodies ls →
  Forall (λ l, ∀ item ps, item ∈ l → classify item = Some ps → P ps) ls →
  P (pool, service) →
  hostCheckSum w !! sum_key pool service = None →
  last_hosts ls pool service = Some hs →
  (GetHostListFromRedis (E := RefEnv.env server) pool service
     (rounds_of_bodies bodies w)).1 = (hs, None).
Proof.
  intros Hown Hc Hd Hdec Hls HP Hnone Hlast.
  rewrite (rounds_of_bodies_rounds server bodies ls) by done.
  apply (rounds_read (E := RefEnv.env server) P ls w c);
    eauto using decodes_within.
Qed.

(** C26. From the bytes the Docker API answers to the reader, over time and
    with [encoding/json] as the library has it on both sides.  The package
    synchronises any number of times, each time in front of the answer of
    that time; [json.Unmarshal] makes containers of every answer, whatever
    its bytes; the Redis server answers, and the package starts with
    nothing recorded for a pool and service.  Then [GetHostListFromRedis]
    returns, without an error, the hosts of the last answer in which the
    pool and service had any, in the order of its containers, provided the
    pools and services of the answers have checksum keys and Redis keys of
    their own.  Nothing is assumed of the strings of the answers: the
    decoder leaves well-formed strings, and the hosts built from them come
    back from the encoder as they were. *)
Theorem bodies_reader (P : string * string → Prop) server bodies ls w c
    pool service hs :
  own_keys P →
  redisClient w = Some c → redisDown w = None →
  Forall2 decodes bodies ls →
  Forall (λ l, ∀ item ps, item ∈ l → classify item = Some ps → P ps) ls →
  P (pool, service) →
  hostCheckSum w !! sum_key pool service = None →
  last_hosts ls pool service = Some hs →
  (GetHostListFromRedis (E := RefEnv.env server) pool service
     (rounds_of_bodies bodies w)).1 = (hs, None).
Proof. apply rounds_of_bodies_reader. Qed.

(** ** The package as a state machine *)

Section machine_facts.
Context `{E : Env} `{!EnvLaws E}.
Implicit Types (w : World) (s : Sys) (ev : Event) (evs : list Event).

(** *** Every event is a sequence of primitive writes *)

Lemma SetHostListToRedis_writes pool name lst w :
  rtc write w (SetHostListToRedis pool name lst w).2.
Proof.
  rewrite SetHostListToRedis_cases.
  destruct (redisClient w) as [c|] eqn:Hc; [|done].
  destruct (redisDown w) as [err|] eqn:Hd; [done|].
  apply rtc_once. by apply write_store.
Qed.

Lemma publish_service_writes pool w n service hs :
  hs ≠ [] →
  rtc write w (publish_service pool (w, n) (service, hs)).1.
Proof.
  intros Hne. rewrite publish_service_spec. case_decide; [done|]. cbn [fst].
  eapply rtc_r; [by apply SetHostListToRedis_writes|].
  pose proof (SetHostListToRedis_vars pool service hs w) as (_&_& <- &_).
  by apply write_digest.
Qed.

Lemma foldl_publish_service_writes pool (xs : list (string * list string)) :
  ∀ w n, Forall (λ x, x.2 ≠ []) xs →
    rtc write w (foldl (publish_service pool) (w, n) xs).1.
Proof.
  induction xs as [|[service hs] xs IH]; intros w n Hxs; [done|].
  apply Forall_cons in Hxs as [Hne Hxs]. cbn [foldl].
  pose proof (publish_service_writes pool w n service hs Hne) as Hw.
  destruct (publish_service pool (w, n) (service, hs)) as [w1 n1].
  etrans; [exact Hw|by apply IH].
Qed.

Lemma publish_pool_writes w pool lst1 :
  (∀ service hs, lst1 !! service = Some hs → hs ≠ []) →
  rtc write w (publish_pool w (pool, lst1)).
Proof.
  intros Hne. unfold publish_pool.
  assert (rtc write w (foldl (publish_service pool) (w, 0) (range lst1)).1) as Hw.
  { apply foldl_publish_service_writes, Forall_forall.
    intros [service hs] Hin%elem_of_range. by eapply Hne. }
  destruct (foldl _ _ _) as [w1 changed].
  eapply rtc_r; [exact Hw|apply write_log].
Qed.

Lemma foldl_publish_pool_writes lst (ps : list (string * gmap string (list string))) :
  no_empty lst → (∀ p, p ∈ ps → lst !! p.1 = Some p.2) →
  ∀ w, rtc write w (foldl publish_pool w ps).
Proof.
  intros Hne. induction ps as [|[pool lst1] ps IH]; intros Hps w; [done|].
  cbn [foldl]. etrans; [|apply IH; intros p Hp; apply Hps; by right].
  apply publish_pool_writes. intros service hs Hs.
  eapply (Hne pool lst1); [|done]. apply (Hps (pool, lst1)). left.
Qed.

Lemma SyncAllHostList_writes w : rtc write w (SyncAllHostList w).2.
Proof.
  unfold SyncAllHostList.
  destruct (Get _) as [err|body]; [done|].
  destruct (UnmarshalContainers body) as [err|l]; [done|]. cbn [snd].
  apply (foldl_publish_pool_writes (foldl group_item ∅ l)).
  - apply foldl_group_item_no_empty, no_empty_empty.
  - intros [pool lst1] Hin. by apply elem_of_range.
Qed.

Lemma GetHostListFromDockerAPI_writes pool name w :
  rtc write w (GetHostListFromDockerAPI pool name w).2.
Proof.
  unfold GetHostListFromDockerAPI. case_decide; [done|].
  destruct (Get _) as [err|body]; [done|].
  destruct (UnmarshalContainers body) as [err|l]; [done|].
  pose proof (SetHostListToRedis_writes pool name (hosts l) w) as Hw.
  by destruct (SetHostListToRedis _ _ _ _).
Qed.

Lemma GetHostListFromRedis_writes pool name w :
  rtc write w (GetHostListFromRedis pool name w).2.
Proof.
  unfold GetHostListFromRedis. destruct (redisClient w); [|done].
  destruct (redis_Get _ _); apply rtc_once, write_log.
Qed.

(** *** The calls that leave the clients alone *)

Lemma SyncAllHostList_vars w :
  let w' := (SyncAllHostList w).2 in
  redisClient w' = redisClient w ∧ closed w' = closed w.
Proof.
  pose proof (SyncAllHostList_errors w) as Herr.
  destruct (SyncAllHostList w) as [[err|] w'] eqn:Hs; cbn [snd].
  { by destruct Herr as [-> _]. }
  destruct Herr as [l Hl].
  destruct (SyncAllHostList_flat w l Hl) as (w1 & Hw1 & Heq).
  rewrite Hs in Hw1. simplify_eq.
  apply equiv_fields in Heq as (_ & -> & _ & _ & _ & ->).
  by destruct (foldl_publish_entry_vars (entries (foldl group_item ∅ l)) w)
    as (_ & -> & _ & -> & _).
Qed.

Lemma GetHostListFromDockerAPI_vars pool name w :
  let w' := (GetHostListFromDockerAPI pool name w).2 in
  redisClient w' = redisClient w ∧ closed w' = closed w.
Proof.
  unfold GetHostListFromDockerAPI. case_decide; [done|].
  destruct (Get _) as [err|body]; [done|].
  destruct (UnmarshalContainers body) as [err|l]; [done|].
  pose proof (SetHostListToRedis_vars pool name (hosts l) w) as (_&?&_&_&?&_).
  by destruct (SetHostListToRedis _ _ _ _).
Qed.

Lemma GetHostListFromRedis_vars pool name w :
  let w' := (GetHostListFromRedis pool name w).2 in
  redisClient w' = redisClient w ∧ closed w' = closed w.
Proof.
  unfold GetHostListFromRedis. destruct (redisClient w) eqn:Hc; [|done].
  by destruct (redis_Get _ _).
Qed.

End machine_facts.

Section run_facts.
Context `{E : Env} `{!EnvLaws E}.
Implicit Types (w : World) (s : Sys) (ev : Event) (evs : list Event).

(** The writes do not depend on the registry. *)
Lemma write_with_registry reg w w' :
  write (E := with_registry reg E) w w' → write w w'.
Proof.
  destruct 1
    as [api w|host w|pool name lst w Hc Hd|pool service hs w Hne|e w|d w|d w].
  - apply write_api.
  - apply write_client.
  - exact (write_store (E := E) pool name lst w Hc Hd).
  - exact (write_digest (E := E) pool service hs w Hne).
  - apply write_log.
  - apply write_server.
  - apply write_elapse.
Qed.

Lemma event_writes s ev : rtc write (world s) (world (fire s ev)).
Proof.
  destruct ev; cbn [fire world]; try done;
    try (apply rtc_once; by constructor);
    apply (rtc_subrel _ _ _ _ (write_with_registry (registry s))).
  - apply (GetHostListFromDockerAPI_writes (E := with_registry (registry s) E)).
  - apply (GetHostListFromRedis_writes (E := with_registry (registry s) E)).
  - apply (SetHostListToRedis_writes (E := with_registry (registry s) E)).
  - apply (SyncAllHostList_writes (E := with_registry (registry s) E)).
Qed.

Lemma run_writes evs : ∀ s, rtc write (world s) (world (run evs s)).
Proof.
  induction evs as [|ev evs IH]; intros s; [done|].
  etrans; [apply (event_writes s ev)|apply IH].
Qed.

(** Every event is a sequence of primitive writes: whatever the
    program calls and whatever the environment does, the state changes only
    by assignments to the package variables, by writes of host lists to the
    server under the keys of the package, by lines of the log, by the
    server failing or recovering, and by time passing. *)
Theorem fire_writes s ev : rtc write (world s) (world (fire s ev)).
Proof. apply event_writes. Qed.

(** *** The invariants *)

(** What every primitive write keeps, every run keeps. *)
Lemma run_invariant (Inv : World → Prop) evs s :
  (∀ w w', write w w' → Inv w → Inv w') →
  Inv (world s) → Inv (world (run evs s)).
Proof.
  intros Hstep Hs.
  apply (rtc_ind_r Inv (world s) Hs (λ y z _ Hw, Hstep y z Hw) _ (run_writes evs s)).
Qed.

(** An entry that was there at the start is there at the start when it
    has aged. *)
Lemma from_start_le store k v t t' :
  t' ≤ t → from_start store k v t → from_start store k v t'.
Proof. intros Hle (t0 & Hk & Ht). exists t0. split; [done|lia]. Qed.

Lemma write_stored_by_package store w w' :
  write w w' → stored_by_package store w → stored_by_package store w'.
Proof.
  destruct 1
    as [api w|host w|pool name lst w Hc Hd|pool service hs w Hne|e w|d w|d w];
    intros Hw k v t; try apply Hw.
  - rewrite (proj1 (proj2 (proj2 (proj2 (proj2 (SetRedisHost_spec host w)))))).
    apply Hw.
  - cbn. destruct (decide (k = redis_key pool name)) as [->|Hk].
    + rewrite lookup_insert_eq. intros [= <- <-]. right. split; [done|]. eauto.
    + rewrite lookup_insert_ne by done. apply Hw.
  - intros (t0 & Hk & Ht)%elapse_held.
    destruct (Hw k v t0 Hk) as [Hs|[Ht0 Hv]].
    + left. apply (from_start_le _ _ _ t0); [lia|done].
    + right. split; [lia|done].
Qed.

Lemma write_digests_of_lists w w' :
  write w w' → digests_of_lists w → digests_of_lists w'.
Proof.
  destruct 1
    as [api w|host w|pool name lst w Hc Hd|pool service hs w Hne|e w|d w|d0 w];
    intros Hw k d'; try apply Hw.
  - rewrite (proj1 (proj2 (proj2 (proj2 (SetRedisHost_spec host w))))).
    apply Hw.
  - cbn. destruct (decide (k = sum_key pool service)) as [->|Hk].
    + rewrite lookup_insert_eq. intros [= <-]. by exists pool, service, hs.
    + rewrite lookup_insert_ne by done. apply Hw.
Qed.

Lemma write_stores_need_client store w w' :
  write w w' → stores_need_client store w → stores_need_client store w'.
Proof.
  destruct 1
    as [api w|host w|pool name lst w [c Hc] Hd|pool service hs w Hne|e w|d w|d w];
    intros Hw; try apply Hw.
  - intros Hnone. by rewrite (proj1 (SetRedisHost_spec host w)) in Hnone.
  - intros Hnone. cbn in Hnone. congruence.
  - intros Hnone k v t (t0 & Hk & Ht)%elapse_held.
    apply (from_start_le _ _ _ t0); [lia|]. by apply Hw.
Qed.

(** C19. In every state the package reaches, whatever the program calls and
    whatever the environment does, the server holds only what it held at the
    start and what the package wrote: encoded lists of strings under keys
    [__yar_host_sync__:pool:name], with at most seven days to live; and
    nothing at all is written as long as no client has been set. *)
Theorem run_stored_by_package store evs :
  let w := world (run evs (boot store)) in
  stored_by_package store w ∧ stores_need_client store w.
Proof.
  split.
  - apply run_invariant; [apply write_stored_by_package|].
    intros k v t Hk. left. by exists t.
  - apply run_invariant; [apply write_stores_need_client|].
    intros _ k v t Hk. by exists t.
Qed.

(** In every state the package reaches, every digest recorded is the
    digest of a host list that is not empty, recorded under the checksum key
    of a pool and service. *)
Theorem run_digests_of_lists store evs :
  digests_of_lists (world (run evs (boot store))).
Proof.
  apply run_invariant; [apply write_digests_of_lists|].
  intros k d. cbn. by rewrite lookup_empty.
Qed.

(** *** The clients *)

(** The client an event creates. *)
Lemma fire_clients s ev :
  clients (world (fire s ev))
  = clients (world s) ++ (options_for <$> hosts_set [ev]).
Proof.
  unfold clients.
  destruct ev; cbn [fire world hosts_set omap fmap list_fmap];
    rewrite ?app_nil_r; try done.
  - by destruct (SetRedisHost_spec host (world s)) as (-> & -> & _).
  - by destruct (GetHostListFromDockerAPI_vars
                   (E := with_registry (registry s) E) pool name (world s))
      as [-> ->].
  - by destruct (GetHostListFromRedis_vars
                   (E := with_registry (registry s) E) pool name (world s))
      as [-> ->].
  - by destruct (SetHostListToRedis_vars
                   (E := with_registry (registry s) E) pool name lst (world s))
      as (_ & -> & _ & _ & -> & _).
  - by destruct (SyncAllHostList_vars
                   (E := with_registry (registry s) E) (world s)) as [-> ->].
Qed.

Lemma run_clients_from evs : ∀ s,
  clients (world (run evs s))
  = clients (world s) ++ (options_for <$> hosts_set evs).
Proof.
  induction evs as [|ev evs IH]; intros s; [by rewrite app_nil_r|].
  change (run (ev :: evs) s) with (run evs (fire s ev)).
  rewrite IH, fire_clients, <-app_assoc, <-fmap_app.
  change (ev :: evs) with ([ev] ++ evs). unfold hosts_set. by rewrite omap_app.
Qed.

(** No client is lost: in every state the package reaches, the clients
    closed so far followed by the current client are exactly the clients
    created by the calls of [SetRedisHost], in the order of the calls, each
    with the options of lines 40 to 46.  So every client but the last has
    been closed, and the last is the one in use. *)
Theorem run_clients store evs :
  let w := world (run evs (boot store)) in
  closed w ++ option_list (redisClient w) = options_for <$> hosts_set evs.
Proof. apply (run_clients_from evs (boot store)). Qed.

(** *** The periodic synchronisation as a run *)

Lemma run_polls ls : ∀ s, world (run (polls ls) s) = rounds ls (world s).
Proof.
  induction ls as [|l ls IH]; intros s; [done|].
  change (run (polls (l :: ls)) s)
    with (run (polls ls) (mkSys (λ _, inr l) (round (world s) l))).
  by rewrite IH.
Qed.

End run_facts.

(** ** Closed instances *)

Section run_witnesses.
Import RefEnv Fleet.

Lemma own_keys_known : own_keys known.
Proof.
  intros x y Hx Hy.
  assert (Forall (λ x, Forall (λ y,
            sum_key x.1 x.2 = sum_key y.1 y.2
            ∨ redis_key x.1 x.2 = redis_key y.1 y.2 → x = y) pairs) pairs) as Hall
    by by_compute.
  rewrite Forall_forall in Hall. specialize (Hall x Hx).
  rewrite Forall_forall in Hall. by apply Hall.
Qed.

Lemma within_known l :
  Forall (λ item, decoded item
                  ∧ default ("blue", "web") (classify item) ∈ pairs) l →
  within known l.
Proof.
  intros [Hd Hall]%Forall_and. split; [done|].
  rewrite Forall_forall in Hall. intros item ps Hin Hc.
  specialize (Hall item Hin). by rewrite Hc in Hall.
Qed.

Lemma within_days : Forall (within known) [day1; day2].
Proof.
  repeat apply Forall_cons_2; [..|apply Forall_nil_2]; apply within_known;
    by_compute.
Qed.

Lemma known_pair ps : bool_decide (ps ∈ pairs) = true → known ps.
Proof. apply bool_decide_eq_true_1. Qed.

Lemma rounds_reader_witness :
  (GetHostListFromRedis (E := docker) "blue" "web"
     (rounds (E := docker) [day1; day2] ready)).1
  = (["10.0.0.1:8080"; "10.0.0.2:8080"], None).
Proof.
  eapply (rounds_reader (E := docker) known [day1; day2] ready _ "blue" "web");
    [apply own_keys_known | reflexivity | reflexivity | apply within_days
    | by apply known_pair | by vm_compute | vm_compute; reflexivity].
Defined.

(** The answers of the two days. *)
Lemma decodes_days : Forall2 decodes [written day1; written day2] [day1; day2].
Proof. apply (decodes_written [day1; day2]). by_compute. Qed.

Lemma rounds_written_witness :
  rounds_of_bodies [written day1; written day2] ready
  = rounds (E := docker) [day1; day2] ready.
Proof. apply (rounds_written _ [day1; day2]). by_compute. Qed.

Lemma bodies_reader_witness :
  (GetHostListFromRedis (E := docker) "blue" "web"
     (rounds_of_bodies [written day1; written day2] ready)).1
  = (["10.0.0.1:8080"; "10.0.0.2:8080"], None).
Proof.
  eapply (bodies_reader known _ _ [day1; day2] ready _ "blue" "web");
    [apply own_keys_known | reflexivity | reflexivity | apply decodes_days
    | eapply Forall_impl; [apply within_days|by intros l [_ Hl]]
    | by apply known_pair | by vm_compute | vm_compute; reflexivity].
Defined.

Lemma rounds_untouched_witness :
  redis (rounds (E := docker) [day1; day2] ready) !! redis_key "green" "cache"
  = redis ready !! redis_key "green" "cache"
  ∧ hostCheckSum (rounds (E := docker) [day1; day2] ready)
      !! sum_key "green" "cache" = None.
Proof.
  eapply (rounds_untouched (E := docker) known [day1; day2] ready _
            "green" "cache");
    [apply own_keys_known | reflexivity | reflexivity | apply within_days
    | by apply known_pair | by vm_compute | vm_compute; reflexivity].
Defined.

(** The database moves while the server is down: after the server is back
    and the package has synchronised again, the server still holds the
    address of the first day. *)
Lemma rounds_track_witness :
  tracks (E := docker) ready
    (rounds_in (E := docker)
       [(None, day1); (Some "i/o timeout", day2); (None, day2)] ready)
    "green" "store" (Some ["10.0.0.3:5432"], Some ["10.0.0.4:5432"]).
Proof.
  eapply (rounds_track (E := docker) known
            [(None, day1); (Some "i/o timeout", day2); (None, day2)]
            ready ready _ "green" "store" (None, None));
    [apply own_keys_known | reflexivity | | by apply known_pair
    | by vm_compute].
  repeat apply Forall_cons_2; [..|apply Forall_nil_2]; apply within_known;
    by_compute.
Defined.

Lemma run_stored_by_package_witness :
  let w := world (run (E := docker) session (boot ∅)) in
  stored_by_package (E := docker) ∅ w ∧ stores_need_client ∅ w.
Proof. apply (run_stored_by_package (E := docker) ∅ session). Defined.

Lemma run_clients_witness :
  let w := world (run (E := docker) session (boot ∅)) in
  closed w ++ option_list (redisClient w)
  = options_for <$> ["127.0.0.1:6379"; "127.0.0.2:6379"].
Proof. apply (run_clients (E := docker) ∅ session). Defined.

(** The database as it is on the second day, first seen while the server is
    down: three synchronisations later the server still holds nothing for
    it. *)
Lemma rounds_stale_witness :
  let w' := rounds_in (E := docker)
              [(Some "i/o timeout", day2); (None, day2); (None, day2);
               (None, day2)] ready in
  redis w' !! redis_key "green" "store" = redis ready !! redis_key "green" "store"
  ∧ hostCheckSum w' !! sum_key "green" "store"
    = Some (digest (E := docker) (grouped day2 "green" "store")).
Proof.
  eapply (rounds_stale (E := docker) known day2 3 ready _ "green" "store");
    [apply own_keys_known | reflexivity | | by apply known_pair
    | by vm_compute | by vm_compute].
  apply within_known. by_compute.
Defined.

(** The session leaves the first client closed and the second in use, and
    the reader of the last call is given the web hosts of the first day. *)
Lemma session_clients :
  let w := world (run (E := docker) session (boot ∅)) in
  closed w = [options_for "127.0.0.1:6379"]
  ∧ redisClient w = Some (options_for "127.0.0.2:6379")
  ∧ last (log w) = Some (LogValue (MarshalStrings (Env := docker)
                                     ["10.0.0.1:8080"; "10.0.0.2:8080"])).
Proof. vm_compute. done. Qed.

End run_witnesses.
