(* ===== verification/Expiry.v ===== *)
(** * Expiry: the checksum gate and the expiry of the keys

    [SetHostListToRedis] stores every list with an expiry of seven days
    (line 156 of [src/unnamed/part_000]), and [SyncAllHostList] stores a
    list only when its digest differs from the one recorded (lines 254-264).
    This file lets time pass between the synchronisations
    ([HostSyncRun.elapse]) and shows what the two make of each other.

    [round_at] is a synchronisation after some time, in front of a server
    that answers or fails; [track_at] is the gate of [HostSyncRun.track]
    with a clock: the entry the server holds, with its time to live, and
    the list recorded.  The package refines that machine
    ([rounds_at_track]), for containers that are a decoded document
    ([HostSyncRun.within]): the hosts of such containers are well-formed
    UTF-8, and on lists of such hosts the digest is injective.  For a pool and service whose containers do not
    change, the list is stored by the first synchronisation and never
    again: a reader finds it for seven days ([stable_list_kept]) and then
    finds nothing, although the containers are there and the package
    synchronises as often as it likes ([stable_list_expires]).  A change of
    the hosts brings the list back ([changed_list_returns]).

    [rounds_at_bodies] are the same rounds in front of the bytes the Docker
    API answers.  When the API writes its containers they are the rounds
    over the containers ([rounds_at_written]), so the list of a service
    that does not change expires in front of the bytes as well
    ([written_list_expires]). *)

From stdpp Require Import gmap relations.
From S2P Require Import Prelude Utf8 HostSync HostSyncRun.
Import host_sync.

(** * Definitions *)

Section timed.
Context `{E : Env}.

(** One synchronisation, [r.1.1] nanoseconds after the one before, in front
    of a server that answers or fails with [r.1.2], against the containers
    [r.2]. *)
Definition round_at (w : World) (r : Z * option string * list object)
    : World :=
  round_in (elapse r.1.1 w) (r.1.2, r.2).

Definition rounds_at (rs : list (Z * option string * list object))
    (w : World) : World :=
  foldl round_at w rs.

(** What the package holds for a pool and service: the entry [x.1] in the
    server and the digest of the list [x.2], a list of well-formed hosts, in
    [hostCheckSum]. *)
Definition holds (w : World) (pool service : string)
    (x : option (string * Z) * option (list string)) : Prop :=
  redis w !! redis_key pool service = x.1
  ∧ hostCheckSum w !! sum_key pool service = digest <$> x.2
  ∧ from_option (Forall Valid) True x.2.

(** The gate with a clock, on one pool and service: the entry of the server
    ages by [d]; then, as in [track], hosts that are not those recorded are
    recorded, and stored for a week when the server is up. *)
Definition track_at (x : option (string * Z) * option (list string))
    (r : Z * bool * list string)
    : option (string * Z) * option (list string) :=
  let '(d, up, g) := r in
  let kept := x.1 ≫= age d in
  if decide (g = []) then (kept, x.2)
  else if decide (x.2 = Some g) then (kept, x.2)
  else (if up then Some (MarshalStrings g, week) else kept, Some g).

(** What the rounds show of a pool and service. *)
Definition seen_at (rs : list (Z * option string * list object))
    (pool service : string) : list (Z * bool * list string) :=
  (λ r, (r.1.1, bool_decide (r.1.2 = None), grouped r.2 pool service)) <$> rs.

(** The first synchronisation against the containers [l], and one more
    after each of the durations [ds], in front of a server that answers. *)
Definition steady (l : list object) (ds : list Z)
    : list (Z * option string * list object) :=
  (0, None, l) :: ((λ d, (d, None, l)) <$> ds).

(** The time that has passed. *)
Definition total (ds : list Z) : Z := foldr Z.add 0 ds.

(** The rounds as events of the package: time passes, the server fails or
    recovers, the containers change, and the program synchronises. *)
Definition polls_at (rs : list (Z * option string * list object))
    : list Event :=
  r ← rs;
  [ TimePasses r.1.1;
    match r.1.2 with Some err => ServerFails err | None => ServerRecovers end;
    ContainersChange (λ _, inr r.2); CallSyncAllHostList ].

End timed.

(** ** The rounds over the bytes the Docker API answers *)

(** One synchronisation, [r.1.1] nanoseconds after the one before, in front
    of a server that answers or fails with [r.1.2] and of a Docker API that
    answers the bytes [r.2]. *)
Definition round_at_body (w : World) (r : Z * option string * list byte)
    : World :=
  round_of_body (set_redisDown r.1.2 (elapse r.1.1 w)) r.2.

Definition rounds_at_bodies (rs : list (Z * option string * list byte))
    (w : World) : World :=
  foldl round_at_body w rs.

(** The rounds in front of a Docker API that writes its containers. *)
Definition written_at (rs : list (Z * option string * list object))
    : list (Z * option string * list byte) :=
  (λ r, (r.1, RefEnv.written r.2)) <$> rs.

(** The fleet of [HostSyncRun.Fleet] over eight days. *)
Module Calendar.

Definition day : Z := 3600 * 24 * Second.

(** A synchronisation every second day. *)
Definition six_days : list Z := [2 * day; 2 * day; 2 * day].
Definition eight_days : list Z := [2 * day; 2 * day; 2 * day; 2 * day].

End Calendar.

(** * Lemmas *)

Section timed_facts.
Context `{E : Env} `{!EnvLaws E}.
Implicit Types (w : World) (l : list object) (ds : list Z).

Lemma rounds_at_cons r rs w : rounds_at (r :: rs) w = rounds_at rs (round_at w r).
Proof. done. Qed.

(** A round leaves the client alone and the server as it found it. *)
Lemma round_at_vars w r :
  redisClient (round_at w r) = redisClient w
  ∧ redisDown (round_at w r) = r.1.2.
Proof.
  unfold round_at, round_in. cbn [fst snd].
  by destruct (round_vars (set_redisDown r.1.2 (elapse r.1.1 w)) r.2) as [-> ->].
Qed.

Lemma rounds_at_client rs : ∀ w, redisClient (rounds_at rs w) = redisClient w.
Proof.
  induction rs as [|r rs IH]; intros w; [done|].
  rewrite rounds_at_cons, IH. apply round_at_vars.
Qed.

(** After rounds in front of a server that answers, the server answers. *)
Lemma rounds_at_up rs : ∀ w,
  redisDown w = None → Forall (λ r, r.1.2 = None) rs →
  redisDown (rounds_at rs w) = None.
Proof.
  induction rs as [|r rs IH]; intros w Hd Hrs; [done|].
  apply Forall_cons in Hrs as [Hr Hrs]. rewrite rounds_at_cons.
  apply IH; [|done]. by destruct (round_at_vars w r) as [_ ->].
Qed.

Lemma steady_up l ds w : redisDown (rounds_at (steady l ds) w) = None.
Proof.
  unfold steady. rewrite rounds_at_cons. apply rounds_at_up.
  - by destruct (round_at_vars w (0, None, l)) as [_ ->].
  - by apply Forall_fmap, Forall_true.
Qed.

(** The rounds are a run of the package. *)
Lemma run_polls_at rs : ∀ s, world (run (polls_at rs) s) = rounds_at rs (world s).
Proof.
  induction rs as [|[[d down] l] rs IH]; intros s; [done|].
  change (run (polls_at ((d, down, l) :: rs)) s)
    with (run (polls_at rs)
            (mkSys (λ _, inr l)
               (round (world (fire (fire s (TimePasses d))
                                (match down with
                                 | Some err => ServerFails err
                                 | None => ServerRecovers
                                 end))) l))).
  rewrite IH, rounds_at_cons. by destruct down.
Qed.

(** ** The refinement *)

(** The gate records lists of well-formed hosts as long as it is given
    such lists. *)
Lemma track_at_valid x d up g :
  Forall Valid g → from_option (Forall Valid) True x.2 →
  from_option (Forall Valid) True (track_at x (d, up, g)).2.
Proof. intros Hg Hx. unfold track_at. by repeat case_decide. Qed.

Section own.
Context (P : string * string → Prop) (Hown : own_keys P).

(** One round after some time refines one move of the gate with a clock. *)
Lemma round_at_holds w d down l c pool service x :
  redisClient w = Some c →
  within P l → P (pool, service) →
  holds w pool service x →
  holds (round_at w (d, down, l)) pool service
    (track_at x (d, bool_decide (down = None), grouped l pool service)).
Proof.
  intros Hc Hl HP (Hst & Hrec & Hval). unfold round_at, round_in. cbn [fst snd].
  set (w2 := set_redisDown down (elapse d w)).
  destruct (round_tracks P Hown w2 w2 l c pool service (None, x.2))
    as (Hst' & Hrec' & _); [done..|by split|].
  assert (redis w2 !! redis_key pool service = x.1 ≫= age d) as Hkept
    by (by rewrite <-Hst; apply lookup_elapse).
  unfold holds. apply and_assoc.
  split; [|by apply track_at_valid; [apply grouped_valid, Hl|]].
  unfold track_at. rewrite Hst', Hrec', Hkept.
  change (redisDown w2) with down. unfold track. cbn [fst snd].
  by repeat case_decide; [..|destruct (bool_decide (down = None))].
Qed.

Lemma rounds_at_holds rs : ∀ w c pool service x,
  redisClient w = Some c →
  Forall (λ r, within P r.2) rs → P (pool, service) →
  holds w pool service x →
  holds (rounds_at rs w) pool service
    (foldl track_at x (seen_at rs pool service)).
Proof.
  induction rs as [|[[d down] l] rs IH]; intros w c pool service x Hc Hrs HP Hx;
    [done|].
  apply Forall_cons in Hrs as [Hl Hrs]. rewrite rounds_at_cons.
  apply (IH _ c); [|done..|by apply (round_at_holds _ _ _ _ c)].
  by destruct (round_at_vars w (d, down, l)) as [-> _].
Qed.

End own.

(** ** A list that does not change *)

(** The gate does not store hosts it has recorded: the entry ages. *)
Lemma track_at_recorded o g ds :
  foldl track_at (o, Some g) ((λ d, (d, true, g)) <$> ds)
  = (foldl (λ o d, o ≫= age d) o ds, Some g).
Proof.
  revert o. induction ds as [|d ds IH]; intros o; [done|].
  rewrite fmap_cons. cbn [foldl track_at fst snd].
  case_decide; [apply IH|]. rewrite decide_True by done. apply IH.
Qed.

(** An entry whose time is not up is there. *)
Lemma age_alive d v t : Z.max 0 d < t → age d (v, t) = Some (v, t - Z.max 0 d).
Proof. intros Hd. apply age_Some. cbn [fst snd]. split_and!; [done..|lia]. Qed.

(** The time an entry has aged adds up. *)
Lemma foldl_age e ds a :
  0 ≤ a → Forall (λ d, 0 ≤ d) ds →
  foldl (λ o d, o ≫= age d) (age a e) ds = age (a + total ds) e.
Proof.
  intros Ha Hds. revert a Ha.
  induction Hds as [|d ds Hd _ IH]; intros a Ha; cbn [foldl total foldr].
  { by rewrite Z.add_0_r. }
  rewrite age_age, !Z.max_r, IH, Z.add_assoc by lia. done.
Qed.

(** What the server holds for a pool and service whose containers do not
    change: the entry of the first synchronisation, with the time that has
    passed since taken off its week. *)
Lemma steady_holds (P : string * string → Prop) l ds w c pool service :
  own_keys P →
  redisClient w = Some c →
  within P l → P (pool, service) →
  grouped l pool service ≠ [] →
  hostCheckSum w !! sum_key pool service = None →
  Forall (λ d, 0 ≤ d) ds →
  redis (rounds_at (steady l ds) w) !! redis_key pool service
  = age (total ds) (MarshalStrings (grouped l pool service), week).
Proof.
  intros Hown Hc Hl HP Hg Hnone Hds.
  destruct (rounds_at_holds P Hown (steady l ds) w c pool service
              (redis w !! redis_key pool service, None)) as [-> _];
    [done| |done|done|].
  { apply Forall_cons. split; [done|]. by apply Forall_fmap, Forall_true. }
  unfold steady, seen_at. rewrite fmap_cons, <-list_fmap_compose.
  cbn [foldl track_at fst snd]. rewrite bool_decide_eq_true_2 by done.
  rewrite decide_False, decide_False by done.
  change ((λ r, (r.1.1, bool_decide (r.1.2 = None), grouped r.2 pool service))
          ∘ (λ d, (d, None, l)))
    with (λ d : Z, (d, true, grouped l pool service)).
  rewrite track_at_recorded. cbn [fst].
  replace (Some (MarshalStrings (grouped l pool service), week))
    with (age 0 (MarshalStrings (grouped l pool service), week)) by done.
  by rewrite foldl_age.
Qed.

(** What a reader finds for an entry of the server. *)
Lemma GetHostListFromRedis_entry pool service w c :
  redisClient w = Some c → redisDown w = None →
  (GetHostListFromRedis pool service w).1
  = match redis w !! redis_key pool service with
    | Some (val, _) => UnmarshalStrings val
    | None => ([], Some "redis: nil")
    end.
Proof.
  intros Hc Hd. unfold GetHostListFromRedis, redis_Get. rewrite Hc, Hd.
  by destruct (redis w !! redis_key pool service) as [[val t]|].
Qed.

(** A week after the first synchronisation the list is gone. *)
Lemma steady_expired (P : string * string → Prop) l ds w c pool service :
  own_keys P →
  redisClient w = Some c →
  within P l → P (pool, service) →
  grouped l pool service ≠ [] →
  hostCheckSum w !! sum_key pool service = None →
  Forall (λ d, 0 ≤ d) ds →
  week ≤ total ds →
  (GetHostListFromRedis pool service (rounds_at (steady l ds) w)).1
  = ([], Some "redis: nil").
Proof.
  intros Hown Hc Hl HP Hg Hnone Hds Hweek.
  rewrite (GetHostListFromRedis_entry _ _ _ c), (steady_holds P _ _ _ c);
    [|done..|by rewrite rounds_at_client|apply steady_up].
  rewrite (proj2 (age_None _ _)); [done|]. cbn [snd]. lia.
Qed.

End timed_facts.

(** ** The rounds over the bytes refine the rounds over the containers *)

Lemma round_at_written server w r :
  writable r.2 →
  round_at_body w (r.1, RefEnv.written r.2)
  = round_at (E := RefEnv.env server) w r.
Proof.
  intros Hr. unfold round_at_body, round_at, round_in.
  by apply round_of_body_round, UnmarshalMaps_written.
Qed.

Lemma rounds_at_written server rs : ∀ w,
  Forall (λ r, writable r.2) rs →
  rounds_at_bodies (written_at rs) w = rounds_at (E := RefEnv.env server) rs w.
Proof.
  induction rs as [|r rs IH]; intros w; [done|].
  intros [Hr Hrs]%Forall_cons. cbn [written_at fmap list_fmap].
  cbn [rounds_at_bodies rounds_at foldl].
  rewrite (round_at_written server) by done. by apply IH.
Qed.

Lemma steady_writable l ds :
  writable l → Forall (λ r, writable r.2) (steady l ds).
Proof.
  intros Hl. constructor; [done|]. by apply Forall_fmap, Forall_true.
Qed.

(** C21. The package refines the gate with a clock: over any number of
    synchronisations, each some time after the one before, against the
    containers of its time and in front of a server that answers or fails,
    the entry the server holds for a pool and service, with the time it has
    left, and the digest recorded for them are what the machine [track_at]
    computes from the durations and the hosts of the rounds. *)
Theorem rounds_at_track `{E : Env} `{!EnvLaws E}
    (P : string * string → Prop) rs w c pool service x :
  own_keys P →
  redisClient w = Some c →
  Forall (λ r, within P r.2) rs → P (pool, service) →
  holds w pool service x →
  holds (rounds_at rs w) pool service
    (foldl track_at x (seen_at rs pool service)).
Proof. intros Hown. by apply rounds_at_holds. Qed.

(** A list that does not change is found for seven days: as long as
    less than a week has passed since the first synchronisation that saw
    the hosts of a pool and service, and the containers are the same, a
    reader is given these hosts. *)
Theorem stable_list_kept `{E : Env} `{!EnvLaws E}
    (P : string * string → Prop) l ds w c pool service :
  own_keys P →
  redisClient w = Some c →
  within P l → P (pool, service) →
  grouped l pool service ≠ [] →
  hostCheckSum w !! sum_key pool service = None →
  Forall (λ d, 0 ≤ d) ds →
  total ds < week →
  (GetHostListFromRedis pool service (rounds_at (steady l ds) w)).1
  = (grouped l pool service, None).
Proof.
  intros Hown Hc Hl HP Hg Hnone Hds Hweek.
  rewrite (GetHostListFromRedis_entry _ _ _ c), (steady_holds P _ _ _ c);
    [|done..|by rewrite rounds_at_client|apply steady_up].
  rewrite age_alive by (unfold week, Second in *; lia).
  apply unmarshal_marshal, grouped_valid, Hl.
Qed.

(** C23. A list that does not change expires: the checksum gate stores it
    once, with an expiry of seven days, and never again while the hosts are
    the same.  A week after the first synchronisation a reader finds
    nothing for the pool and service, although their containers are there
    and however often the package has synchronised in between. *)
Theorem stable_list_expires `{E : Env} `{!EnvLaws E}
    (P : string * string → Prop) l ds w c pool service :
  own_keys P →
  redisClient w = Some c →
  within P l → P (pool, service) →
  grouped l pool service ≠ [] →
  hostCheckSum w !! sum_key pool service = None →
  Forall (λ d, 0 ≤ d) ds →
  week ≤ total ds →
  (GetHostListFromRedis pool service (rounds_at (steady l ds) w)).1
  = ([], Some "redis: nil").
Proof. apply steady_expired. Qed.

(** The same in front of the bytes: a Docker API that writes the same
    containers at every synchronisation, read with the decoder of the
    library, and a week has passed.  The reader finds nothing. *)
Theorem written_list_expires (P : string * string → Prop) server l ds w c
    pool service :
  own_keys P →
  redisClient w = Some c →
  writable l → within P l → P (pool, service) →
  grouped l pool service ≠ [] →
  hostCheckSum w !! sum_key pool service = None →
  Forall (λ d, 0 ≤ d) ds →
  week ≤ total ds →
  (GetHostListFromRedis (E := RefEnv.env server) pool service
     (rounds_at_bodies (written_at (steady l ds)) w)).1
  = ([], Some "redis: nil").
Proof.
  intros Hown Hc Hw. rewrite (rounds_at_written server)
    by by apply steady_writable.
  by apply (steady_expired (E := RefEnv.env server) P l ds w c).
Qed.

(** A change of the hosts brings the list back: whatever the server
    holds for a pool and service, a synchronisation that finds hosts other
    than those recorded, in front of a server that answers, stores them, and
    a reader is given them. *)
Theorem changed_list_returns `{E : Env} `{!EnvLaws E}
    (P : string * string → Prop) l d w c pool service x :
  own_keys P →
  redisClient w = Some c →
  within P l → P (pool, service) →
  holds w pool service x →
  grouped l pool service ≠ [] →
  x.2 ≠ Some (grouped l pool service) →
  (GetHostListFromRedis pool service (round_at w (d, None, l))).1
  = (grouped l pool service, None).
Proof.
  intros Hown Hc Hl HP Hx Hg Hne.
  destruct (round_at_holds P Hown w d None l c pool service x) as [Hst _];
    [done..|].
  destruct (round_at_vars w (d, None, l)) as [Hc' Hd'].
  rewrite (GetHostListFromRedis_entry _ _ _ c), Hst by (done || congruence).
  unfold track_at. rewrite decide_False, decide_False by done. cbn.
  apply unmarshal_marshal, grouped_valid, Hl.
Qed.

(** ** Closed instances *)

Section timed_witnesses.
Import RefEnv Fleet Calendar.

(** The database moves while the server is down, three days after the
    first synchronisation; five days later the server holds nothing for
    it, and the new address is recorded as published. *)
Lemma rounds_at_track_witness :
  holds (E := docker)
    (rounds_at (E := docker)
       [(0, None, day1); (3 * day, Some "i/o timeout", day2);
        (5 * day, None, day2)] ready)
    "green" "store" (None, Some ["10.0.0.4:5432"]).
Proof.
  eapply (rounds_at_track (E := docker) known
            [(0, None, day1); (3 * day, Some "i/o timeout", day2);
             (5 * day, None, day2)]
            ready _ "green" "store" (None, None));
    [apply own_keys_known | reflexivity | | by apply known_pair
    | by vm_compute].
  repeat apply Forall_cons_2; [..|apply Forall_nil_2]; apply within_known;
    by_compute.
Defined.

Lemma within_day1 : within known day1.
Proof. apply within_known. by_compute. Qed.

Lemma stable_list_kept_witness :
  (GetHostListFromRedis (E := docker) "blue" "web"
     (rounds_at (E := docker) (steady day1 six_days) ready)).1
  = (["10.0.0.1:8080"; "10.0.0.2:8080"], None).
Proof.
  eapply (stable_list_kept (E := docker) known day1 six_days ready _
            "blue" "web");
    [apply own_keys_known | reflexivity | apply within_day1
    | by apply known_pair | by vm_compute | by vm_compute
    | by_compute | by vm_compute].
Defined.

Lemma stable_list_expires_witness :
  (GetHostListFromRedis (E := docker) "blue" "web"
     (rounds_at (E := docker) (steady day1 eight_days) ready)).1
  = ([], Some "redis: nil").
Proof.
  eapply (stable_list_expires (E := docker) known day1 eight_days ready _
            "blue" "web");
    [apply own_keys_known | reflexivity | apply within_day1
    | by apply known_pair | by vm_compute | by vm_compute
    | by_compute | by vm_compute].
Defined.

(** After the list of the web servers has expired, one of them is replaced:
    the next synchronisation stores the new list. *)
Lemma changed_list_returns_witness :
  (GetHostListFromRedis (E := docker) "green" "store"
     (round_at (E := docker)
        (rounds_at (E := docker) (steady day1 eight_days) ready)
        (day, None, day2))).1
  = (["10.0.0.4:5432"], None).
Proof.
  eapply (changed_list_returns (E := docker) known day2 day _ _
            "green" "store" (None, Some ["10.0.0.3:5432"]));
    [apply own_keys_known | vm_compute; reflexivity | | by apply known_pair
    | split_and!; [vm_compute; reflexivity..|]
    | by vm_compute | by vm_compute];
    try apply within_known; by_compute.
Defined.

(** The same eight days in front of the bytes of the Docker API. *)
Lemma written_list_expires_witness :
  (GetHostListFromRedis (E := docker) "blue" "web"
     (rounds_at_bodies (written_at (steady day1 eight_days)) ready)).1
  = ([], Some "redis: nil").
Proof.
  eapply (written_list_expires known _ day1 eight_days ready _ "blue" "web");
    [apply own_keys_known | reflexivity | by_compute | apply within_day1
    | by apply known_pair | by vm_compute | by vm_compute
    | by_compute | by vm_compute].
Defined.

End timed_witnesses.
